(** * ich-sehe-was: round orchestration and spatial object model

    A shallow embedding of the game logic of the "I Spy" application:
    the click/hover resolution of the image viewers and what they draw,
    the frame selector, the score function, the handlers and effects of
    [App] that load an image and drive a round, the speech hook, the
    requests to the service, and the colours and the tint of the masks.

    Conventions.
    - React state is a record; a handler is a function from the state it
      was rendered with to the state after its batched updates; an effect is
      a function applied after the handler when its dependencies changed.
      Where several events can reach a handler before the next render (the
      pointer on the canvas of the frame selector), the state of the last
      render is kept beside the current state, and rendering is an event.
    - Asynchronous collaborators are modelled by their outcome: a promise is
      [Resolved v] or [Rejected], and the continuation of the source is a
      function of that outcome.
    - JavaScript numbers are IEEE-754 binary64.  The geometric code is
      written once over a small interface of arithmetic ([Number]) with two
      instances: [float] (binary64, what the program computes) and [Q]
      (exact rationals, the geometry that the binary64 computation
      approximates).  The properties of the frame selector and of the
      overlay are proved of the [float] instance, with the rational value
      of a binary64 number ([F2Q]) to state sums and ratios.  Counters and
      scores are integers ([Z]).
    - JavaScript built-ins on strings that depend on Unicode tables
      ([toLowerCase], [trim]) are parameters. *)

From Stdlib Require Import ZArith QArith Qpower Lia Lqa Bool List String Ascii.
From Stdlib Require Import Floats Uint63 DecimalString DecimalZ Sorted Finite.
Import ListNotations.

Set Warnings "-inexact-float".

Local Open Scope list_scope.
Local Open Scope string_scope.

(* ================================================================== *)
(** ** Numbers *)

(** The arithmetic the geometric code uses: [+ - * /] and [<].
    [a > b] is [b < a] in JavaScript for numbers. *)
Class Number (N : Type) : Type := {
  zero : N;
  add : N -> N -> N;
  sub : N -> N -> N;
  mul : N -> N -> N;
  div : N -> N -> N;
  lt : N -> N -> bool
}.

Definition gt {N : Type} `{Number N} (a b : N) : bool := lt b a.

(** IEEE-754 binary64: the numbers of the program. *)
#[export] Instance Number_float : Number float := {
  zero := PrimFloat.zero;
  add := PrimFloat.add;
  sub := PrimFloat.sub;
  mul := PrimFloat.mul;
  div := PrimFloat.div;
  lt := PrimFloat.ltb
}.

Definition Qltb (a b : Q) : bool := negb (Qle_bool b a).

(** Exact rational arithmetic. *)
#[export] Instance Number_Q : Number Q := {
  zero := 0%Q;
  add := Qplus;
  sub := Qminus;
  mul := Qmult;
  div := Qdiv;
  lt := Qltb
}.

(** [Math.min] and [Math.max] on two numbers: NaN if an argument is NaN,
    and [-0] is smaller than [+0]. *)
Definition Math_min (a b : float) : float :=
  if (is_nan a || is_nan b)%bool then nan
  else if (a <? b)%float then a
  else if (b <? a)%float then b
  else if get_sign a then a else b.

Definition Math_max (a b : float) : float :=
  if (is_nan a || is_nan b)%bool then nan
  else if (a <? b)%float then b
  else if (b <? a)%float then a
  else if get_sign a then b else a.

(** [Math.min], [Math.max] and the integer literals of the program, in both
    arithmetics. *)
Class MathNumber (N : Type) : Type := {
  fromZ : Z -> N;
  minN : N -> N -> N;
  maxN : N -> N -> N
}.

Definition float_of_Z (z : Z) : float :=
  if (z <? 0)%Z then PrimFloat.opp (PrimFloat.of_uint63 (Uint63.of_Z (- z)))
  else PrimFloat.of_uint63 (Uint63.of_Z z).

#[export] Instance MathNumber_float : MathNumber float := {
  fromZ := float_of_Z;
  minN := Math_min;
  maxN := Math_max
}.

Definition Q_min (a b : Q) : Q := if Qle_bool a b then a else b.

Definition Q_max (a b : Q) : Q := if Qle_bool a b then b else a.

#[export] Instance MathNumber_Q : MathNumber Q := {
  fromZ := inject_Z;
  minN := Q_min;
  maxN := Q_max
}.

(** A decimal literal [n/d], such as [0.1]: the number nearest to the
    fraction, which is what the correctly rounded division gives in
    binary64. *)
Definition decimal {N : Type} `{Number N} `{MathNumber N} (n d : Z) : N :=
  div (fromZ n) (fromZ d).

(** [Array.prototype.sort(compare)]: the sort is stable, and [compare a b]
    orders [a] after [b] exactly when it is positive (a NaN result counts
    as [+0]).  For a consistent comparator the result is determined by
    these two facts; it is computed here by insertion from the right, which
    keeps an element in front of the later elements it does not compare
    greater than.  A comparator that returns NaN for some pairs (the
    difference of two areas of which one is NaN) is not consistent: what
    the engine returns then depends on its algorithm and can differ from
    the list computed here. *)
Fixpoint sort_insert {A N : Type} `{Number N} (compare : A -> A -> N)
  (x : A) (l : list A) : list A :=
  match l with
  | [] => [x]
  | y :: l' =>
      if gt (compare x y) zero then y :: sort_insert compare x l'
      else x :: l
  end.

Fixpoint Array_sort {A N : Type} `{Number N} (compare : A -> A -> N)
  (l : list A) : list A :=
  match l with
  | [] => []
  | x :: l' => sort_insert compare x (Array_sort compare l')
  end.

(** [s.includes(sub)] and [s.startsWith(p)]. *)
Definition includes (s sub : string) : bool :=
  match String.index 0 sub s with
  | Some _ => true
  | None => false
  end.

Definition startsWith (s p : string) : bool := String.prefix p s.

(** Template literals print an integer in decimal. *)
Definition string_of_Z (z : Z) : string := NilZero.string_of_int (Z.to_int z).

Definition dquote : string := String (ascii_of_nat 34) EmptyString.

(** A value is falsy in a condition when it is [null]/[undefined] or the
    empty string. *)
Definition truthy (s : option string) : bool :=
  match s with
  | Some EmptyString => false
  | Some _ => true
  | None => false
  end.

(** [a || b] on optional strings. *)
Definition or_else (a b : option string) : option string :=
  if truthy a then a else b.

(* ================================================================== *)
(** ** types *)

Inductive GameState : Type :=
| START
| LOADING_OBJECTS
| USER_PICKING
| USER_CONFIRMING
| USER_DESCRIBING
| AI_GUESSING
| AI_PICKING
| USER_GUESSING
| ROUND_OVER
| ERROR.

Definition GameState_eqb (a b : GameState) : bool :=
  match a, b with
  | START, START | LOADING_OBJECTS, LOADING_OBJECTS
  | USER_PICKING, USER_PICKING | USER_CONFIRMING, USER_CONFIRMING
  | USER_DESCRIBING, USER_DESCRIBING | AI_GUESSING, AI_GUESSING
  | AI_PICKING, AI_PICKING | USER_GUESSING, USER_GUESSING
  | ROUND_OVER, ROUND_OVER | ERROR, ERROR => true
  | _, _ => false
  end.

(** [mask] is the polygon of the object, a list of points [[x, y]]. *)
Record GameObject : Type := {
  id : string;
  label : string;
  mask : list (float * float);
  color : string
}.

Record Score : Type := {
  user : Z;
  ai : Z
}.

(** [objects.find(o => o.id === objectId)] *)
Definition find_by_id (objects : list GameObject) (objectId : string)
  : option GameObject :=
  find (fun o => String.eqb (id o) objectId) objects.

(* ================================================================== *)
(** ** InteractiveImageViewer (polygon display mode) *)

Module InteractiveImageViewer.

(** Bounding-box area of a polygon mask. *)
Definition getPolygonArea (mask : list (float * float)) : float :=
  if (List.length mask <? 3)%nat then PrimFloat.zero
  else
    let '(minX, maxX, minY, maxY) :=
      fold_left
        (fun (acc : float * float * float * float) (point : float * float) =>
           let '(minX, maxX, minY, maxY) := acc in
           (Math_min minX (fst point), Math_max maxX (fst point),
            Math_min minY (snd point), Math_max maxY (snd point)))
        mask (infinity, neg_infinity, infinity, neg_infinity) in
    ((maxX - minX) * (maxY - minY))%float.

Section RayCasting.
Context {N : Type} `{Number N}.

(** The condition under which the edge from [polygon[j]] to [polygon[i]]
    toggles [inside]. *)
Definition edge_toggles (x y : N) (pi pj : N * N) : bool :=
  let '(xi, yi) := pi in
  let '(xj, yj) := pj in
  negb (Bool.eqb (gt yi y) (gt yj y))
  && lt x (add (div (mul (sub xj xi) (sub y yi)) (sub yj yi)) xi).

(** The loop [for (i = 0, j = length - 1; i < length; j = i++)]:
    [pj] is [polygon[j]], [rest] are the points from index [i] on. *)
Fixpoint ray_loop (x y : N) (pj : N * N) (rest : list (N * N))
  (inside : bool) : bool :=
  match rest with
  | [] => inside
  | pi :: rest' =>
      ray_loop x y pi rest'
        (if edge_toggles x y pi pj then negb inside else inside)
  end.

(** Ray casting.  On the empty polygon the loop body never runs. *)
Definition isPointInPolygon (point : N * N) (polygon : list (N * N)) : bool :=
  let '(x, y) := point in
  match polygon with
  | [] => false
  | p0 :: _ => ray_loop x y (last polygon p0) polygon false
  end.

End RayCasting.

(** All objects under a click position. *)
Definition getObjectsAtPosition (objects : list GameObject)
  (clickPos : float * float) : list GameObject :=
  filter (fun obj => isPointInPolygon clickPos (mask obj)) objects.

(** The click state of the component. *)
Record ViewerState : Type := {
  clickedObject : option GameObject;
  objectsAtLastClick : list GameObject;
  currentObjectIndex : nat
}.

Definition initialViewerState : ViewerState :=
  {| clickedObject := None; objectsAtLastClick := []; currentObjectIndex := 0 |}.

(** The effect on [[selectedObjectId, objects]]: "Reset clicked object when
    selectedObjectId changes". *)
Definition selectedObjectEffect (selectedObjectId : option string)
  (objects : list GameObject) (v : ViewerState) : ViewerState :=
  {| clickedObject :=
       match selectedObjectId with
       | Some sid => if truthy selectedObjectId then find_by_id objects sid else None
       | None => None
       end;
     objectsAtLastClick := [];
     currentObjectIndex := 0 |}.

(** [clickX = offsetX / width], [clickY = offsetY / height]. *)
Definition clickPosition (offsetX offsetY width height : float) : float * float :=
  ((offsetX / width)%float, (offsetY / height)%float).

(** [objectsAtClick.sort((a, b) => getPolygonArea(a.mask) - getPolygonArea(b.mask))] *)
Definition sortByArea (objectsAtClick : list GameObject) : list GameObject :=
  Array_sort (fun a b => (getPolygonArea (mask a) - getPolygonArea (mask b))%float)
    objectsAtClick.

Definition isSamePosition (objectsAtClick objectsAtLastClick : list GameObject)
  : bool :=
  (0 <? List.length objectsAtLastClick)%nat
  && (List.length objectsAtClick =? List.length objectsAtLastClick)%nat
  && forallb (fun obj =>
        existsb (fun lastObj => String.eqb (id lastObj) (id obj)) objectsAtLastClick)
       objectsAtClick.

(** The part of [handlePolygonClick] after the hit set has been computed
    and sorted.  The result is the new click state and the argument of
    [onMaskClick] when it is called. *)
Definition resolveClick (objectsAtClick : list GameObject) (v : ViewerState)
  : ViewerState * option string :=
  if isSamePosition objectsAtClick (objectsAtLastClick v)
     && (1 <? List.length objectsAtClick)%nat
  then
    let nextIndex := ((currentObjectIndex v + 1) mod List.length objectsAtClick)%nat in
    match nth_error objectsAtClick nextIndex with
    | Some o =>
        ({| clickedObject := Some o;
            objectsAtLastClick := objectsAtLastClick v;
            currentObjectIndex := nextIndex |}, Some (id o))
    | None => (v, None)
    end
  else
    match objectsAtClick with
    | o :: _ =>
        ({| clickedObject := Some o;
            objectsAtLastClick := objectsAtClick;
            currentObjectIndex := 0 |}, Some (id o))
    | [] => (v, None)
    end.

Definition handlePolygonClick (disabled : bool) (objects : list GameObject)
  (clickPos : float * float) (v : ViewerState) : ViewerState * option string :=
  if disabled then (v, None)
  else
    let objectsAtClick := getObjectsAtPosition objects clickPos in
    match objectsAtClick with
    | [] => (initialViewerState, None)
    | _ => resolveClick (sortByArea objectsAtClick) v
    end.

(** What the component draws for an object: the attributes of its
    polygon and whether its label is shown.  [hoveredObject] is the
    object under the pointer, a state of the component. *)
Definition isHighlighted (highlightedObjectIds : list string)
  (obj : GameObject) : bool :=
  existsb (fun objectId => String.eqb objectId (id obj)) highlightedObjectIds.

(** [selectedObjectId === obj.id] *)
Definition isSelected (selectedObjectId : option string) (obj : GameObject)
  : bool :=
  match selectedObjectId with
  | Some objectId => String.eqb objectId (id obj)
  | None => false
  end.

(** [hoveredObject?.id === obj.id] and [clickedObject?.id === obj.id] *)
Definition isSameObject (other : option GameObject) (obj : GameObject) : bool :=
  match other with
  | Some o => String.eqb (id o) (id obj)
  | None => false
  end.

Record PolygonStyle : Type := {
  fillOpacity : float;
  stroke : string;
  strokeWidth : Z
}.

Definition polygonStyle (highlightedObjectIds : list string)
  (selectedObjectId : option string) (hoveredObject : option GameObject)
  (v : ViewerState) (obj : GameObject) : PolygonStyle :=
  let isHovered := isSameObject hoveredObject obj in
  let isClicked := isSameObject (clickedObject v) obj in
  {| fillOpacity :=
       if isSelected selectedObjectId obj then 0.6%float
       else if isHighlighted highlightedObjectIds obj then 0.5%float
       else if isHovered || isClicked then 0.4%float
       else 0.3%float;
     stroke :=
       if isSelected selectedObjectId obj then "#3B82F6"
       else if isHighlighted highlightedObjectIds obj then "#F59E0B"
       else color obj;
     strokeWidth :=
       if isSelected selectedObjectId obj then 3%Z
       else if isHighlighted highlightedObjectIds obj then 2%Z
       else 1%Z |}.

(** [isVisible] of the label of an object. *)
Definition labelVisible (highlightedObjectIds : list string)
  (selectedObjectId : option string) (hoveredObject : option GameObject)
  (v : ViewerState) (obj : GameObject) : bool :=
  isSameObject hoveredObject obj
  || isSameObject (clickedObject v) obj
  || isHighlighted highlightedObjectIds obj
  || isSelected selectedObjectId obj.

End InteractiveImageViewer.

(* ================================================================== *)
(** ** FrameSelector *)

Module FrameSelector.

Inductive Preset : Type :=
| center
| top
| bottom
| left
| right.

Section WithNumbers.
Context {N : Type} {HN : Number N} {HM : MathNumber N}.

Record CropArea : Type := {
  x : N;
  y : N;
  width : N;
  height : N
}.

(** The state of the component.  [canvasDimensions] is (width, height) and
    [dragStart] is (x, y). *)
Record State : Type := {
  cropArea : CropArea;
  isDragging : bool;
  dragStart : N * N;
  imageLoaded : bool;
  canvasDimensions : N * N
}.

Definition initialState : State :=
  {| cropArea := {| x := fromZ 0; y := fromZ 0; width := fromZ 0; height := fromZ 0 |};
     isDragging := false;
     dragStart := (fromZ 0, fromZ 0);
     imageLoaded := false;
     canvasDimensions := (fromZ 0, fromZ 0) |}.

Definition margin : N := decimal 1 10.

Definition centerSize : N := decimal 8 10.

(** [img.onload] for an image of [imgWidth] x [imgHeight] in a window of
    [innerWidth] x [innerHeight]: the canvas is fitted under the limits
    with the aspect ratio of the image, and the crop area is its central
    part. *)
Definition onload (innerWidth innerHeight imgWidth imgHeight : N) (s : State)
  : State :=
  let maxWidth := minN (sub innerWidth (fromZ 40)) (fromZ 800) in
  let maxHeight := minN (sub innerHeight (fromZ 200)) (fromZ 600) in
  let aspectRatio := div imgWidth imgHeight in
  let canvasWidth := maxWidth in
  let canvasHeight := div maxWidth aspectRatio in
  let '(canvasWidth, canvasHeight) :=
    if gt canvasHeight maxHeight
    then (mul maxHeight aspectRatio, maxHeight)
    else (canvasWidth, canvasHeight) in
  {| cropArea :=
       {| x := mul canvasWidth margin;
          y := mul canvasHeight margin;
          width := mul canvasWidth (sub (fromZ 1) (mul (fromZ 2) margin));
          height := mul canvasHeight (sub (fromZ 1) (mul (fromZ 2) margin)) |};
     isDragging := isDragging s;
     dragStart := dragStart s;
     imageLoaded := true;
     canvasDimensions := (canvasWidth, canvasHeight) |}.

(** [pos] is the pointer relative to the canvas, what [getMousePos]
    returns. *)
Definition handleMouseDown (pos : N * N) (s : State) : State :=
  {| cropArea := cropArea s; isDragging := true; dragStart := pos;
     imageLoaded := imageLoaded s; canvasDimensions := canvasDimensions s |}.

(** The handlers of a render read [isDragging], [dragStart] and
    [canvasDimensions] of that render ([rendered]); the updater given to
    [setCropArea] is applied to the crop area as it is when the update is
    processed ([s]). *)
Definition handleMouseMove (rendered : State) (pos : N * N) (s : State)
  : State :=
  if negb (isDragging rendered) then s
  else
    let deltaX := sub (fst pos) (fst (dragStart rendered)) in
    let deltaY := sub (snd pos) (snd (dragStart rendered)) in
    let prev := cropArea s in
    let newX :=
      maxN (fromZ 0)
        (minN (add (x prev) deltaX)
           (sub (fst (canvasDimensions rendered)) (width prev))) in
    let newY :=
      maxN (fromZ 0)
        (minN (add (y prev) deltaY)
           (sub (snd (canvasDimensions rendered)) (height prev))) in
    {| cropArea :=
         {| x := newX; y := newY; width := width prev; height := height prev |};
       isDragging := isDragging s;
       dragStart := pos;
       imageLoaded := imageLoaded s;
       canvasDimensions := canvasDimensions s |}.

(** Also the handler of [onMouseLeave]. *)
Definition handleMouseUp (s : State) : State :=
  {| cropArea := cropArea s; isDragging := false; dragStart := dragStart s;
     imageLoaded := imageLoaded s; canvasDimensions := canvasDimensions s |}.

Definition setCropArea (v : CropArea) (s : State) : State :=
  {| cropArea := v; isDragging := isDragging s; dragStart := dragStart s;
     imageLoaded := imageLoaded s; canvasDimensions := canvasDimensions s |}.

(** The canvas size is that of the render the handler was made in. *)
Definition handlePresetCrop (rendered : State) (preset : Preset) (s : State)
  : State :=
  let canvasWidth := fst (canvasDimensions rendered) in
  let canvasHeight := snd (canvasDimensions rendered) in
  match preset with
  | center =>
      setCropArea
        {| x := mul canvasWidth margin;
           y := mul canvasHeight margin;
           width := mul canvasWidth centerSize;
           height := mul canvasHeight centerSize |} s
  | top =>
      setCropArea
        {| x := mul canvasWidth margin;
           y := fromZ 0;
           width := mul canvasWidth centerSize;
           height := mul canvasHeight (decimal 6 10) |} s
  | bottom =>
      setCropArea
        {| x := mul canvasWidth margin;
           y := mul canvasHeight (decimal 4 10);
           width := mul canvasWidth centerSize;
           height := mul canvasHeight (decimal 6 10) |} s
  | left =>
      setCropArea
        {| x := fromZ 0;
           y := mul canvasHeight margin;
           width := mul canvasWidth (decimal 6 10);
           height := mul canvasHeight centerSize |} s
  | right =>
      setCropArea
        {| x := mul canvasWidth (decimal 4 10);
           y := mul canvasHeight margin;
           width := mul canvasWidth (decimal 6 10);
           height := mul canvasHeight centerSize |} s
  end.

(** [handleConfirm]: the source rectangle that [drawImage] copies from the
    image of [imgWidth] x [imgHeight].  [s] is the state of the render:
    the callback is made anew when [cropArea] or [canvasDimensions] has
    changed. *)
Definition handleConfirm (imgWidth imgHeight : N) (s : State) : CropArea :=
  let scaleX := div imgWidth (fst (canvasDimensions s)) in
  let scaleY := div imgHeight (snd (canvasDimensions s)) in
  {| x := mul (x (cropArea s)) scaleX;
     y := mul (y (cropArea s)) scaleY;
     width := mul (width (cropArea s)) scaleX;
     height := mul (height (cropArea s)) scaleY |}.

(** The component between two events: the state with the updates made so
    far ([current]) and the state of the last render ([rendered]), whose
    values the handlers have captured. *)
Record Component : Type := {
  current : State;
  rendered : State
}.

(** What the user can do on the loaded canvas before confirming, and a
    render of the component, which can take place between any two of
    these. *)
Inductive Event : Type :=
| MouseDown (pos : N * N)
| MouseMove (pos : N * N)
| MouseUp
| MouseLeave
| PresetCrop (preset : Preset)
| Render.

Definition handle (c : Component) (e : Event) : Component :=
  match e with
  | MouseDown pos =>
      {| current := handleMouseDown pos (current c); rendered := rendered c |}
  | MouseMove pos =>
      {| current := handleMouseMove (rendered c) pos (current c);
         rendered := rendered c |}
  | MouseUp =>
      {| current := handleMouseUp (current c); rendered := rendered c |}
  | MouseLeave =>
      {| current := handleMouseUp (current c); rendered := rendered c |}
  | PresetCrop preset =>
      {| current := handlePresetCrop (rendered c) preset (current c);
         rendered := rendered c |}
  | Render => {| current := current c; rendered := current c |}
  end.

Definition handleAll (events : list Event) (c : Component) : Component :=
  fold_left handle events c.

(** The component once [img.onload] has run and its updates are
    rendered. *)
Definition loaded (innerWidth innerHeight imgWidth imgHeight : N)
  : Component :=
  let s := onload innerWidth innerHeight imgWidth imgHeight initialState in
  {| current := s; rendered := s |}.

End WithNumbers.

Arguments CropArea N : clear implicits.
Arguments State N : clear implicits.
Arguments Component N : clear implicits.
Arguments Event N : clear implicits.

End FrameSelector.


(* ================================================================== *)
(** ** Hover resolution of SegmentationMaskViewer and
       PhotoDisplayComponent *)

Module Hover.

(** What the handlers read of an element: its client rectangle and a tag,
    the [data-object-id] attribute or the index of the box. *)
Record Dimensions (N T : Type) : Type := {
  top : N;
  left : N;
  width : N;
  height : N;
  tag : T
}.
Arguments top {N T} _.
Arguments left {N T} _.
Arguments width {N T} _.
Arguments height {N T} _.
Arguments tag {N T} _.

Section Handlers.
Context {N : Type} `{Number N}.

Definition area {T : Type} (a : Dimensions N T) : N := mul (width a) (height a).

(** [sort((a, b) => a.width * a.height - b.width * b.height)] *)
Definition sortBySize {T : Type} (l : list (Dimensions N T))
  : list (Dimensions N T) :=
  Array_sort (fun a b => sub (area a) (area b)) l.

(** The predicate of [sorted.find]. *)
Definition containsPointer {T : Type} (clientX clientY : N)
  (a : Dimensions N T) : bool :=
  gt clientX (left a)
  && lt clientX (add (left a) (width a))
  && gt clientY (top a)
  && lt clientY (add (top a) (height a)).

Definition findHovered {T : Type} (clientX clientY : N)
  (l : list (Dimensions N T)) : option (Dimensions N T) :=
  find (containsPointer clientX clientY) (sortBySize l).

(** SegmentationMaskViewer: the new value of [hoveredObjectId]. *)
Definition handleSetHoveredObject (disabled : bool)
  (masks : list (Dimensions N (option string))) (clientX clientY : N)
  (hoveredObjectId : option string) : option string :=
  if disabled then hoveredObjectId
  else
    match findHovered clientX clientY masks with
    | Some found => if truthy (tag found) then tag found else None
    | None => None
    end.

(** [Array.from(boxes).map((box, i) => ({..., index: i}))] *)
Fixpoint withIndex (i : nat) (boxes : list (N * N * N * N))
  : list (Dimensions N nat) :=
  match boxes with
  | [] => []
  | (t, l, w, h) :: boxes' =>
      {| top := t; left := l; width := w; height := h; tag := i |}
      :: withIndex (S i) boxes'
  end.

(** PhotoDisplayComponent: the new value of [hoveredBox]; a box is given
    by (top, left, width, height). *)
Definition handleSetHoveredBox (boxes : list (N * N * N * N))
  (clientX clientY : N) : option nat :=
  match findHovered clientX clientY (withIndex 0 boxes) with
  | Some found => Some (tag found)
  | None => None
  end.

End Handlers.
Section Container.
Context {N : Type} `{Number N}.

(** [boundingBoxContainer] of both components: the size, as
    (width, height), of the overlay that covers the displayed media inside
    the container. *)
Definition boundingBoxContainer (activeMediaDimensions containerDims : N * N)
  : N * N :=
  let '(mediaWidth, mediaHeight) := activeMediaDimensions in
  let aspectRatio := div mediaWidth mediaHeight in
  let containerAspectRatio := div (fst containerDims) (snd containerDims) in
  if lt aspectRatio containerAspectRatio
  then (mul (snd containerDims) aspectRatio, snd containerDims)
  else (fst containerDims, div (fst containerDims) aspectRatio).

End Container.

End Hover.

(* ================================================================== *)
(** ** MaskCanvas and BoxMask: the tint of a mask image *)

Module MaskCanvas.

(** [data[i] = v] on a typed array: a write past the end does nothing. *)
Fixpoint write (i : nat) (v : Z) (data : list Z) : list Z :=
  match data, i with
  | [], _ => []
  | _ :: rest, O => v :: rest
  | d :: rest, S i' => d :: write i' v rest
  end.

(** [data[i]]; it is read only below [data.length]. *)
Definition read (i : nat) (data : list Z) : Z := nth i data 0%Z.

(** The loop [for (let i = 0; i < data.length; i += 4)] from index [i] on;
    [steps] bounds the number of rounds. *)
Fixpoint tintFrom (steps : nat) (i : nat) (rgb : Z * Z * Z) (data : list Z)
  : list Z :=
  match steps with
  | O => data
  | S steps' =>
      if (i <? List.length data)%nat then
        let '(r, g, b) := rgb in
        let data1 := write (i + 3) (read i data) data in
        let data2 := write i r data1 in
        let data3 := write (i + 1) g data2 in
        let data4 := write (i + 2) b data3 in
        tintFrom steps' (i + 4) rgb data4
      else data
  end.

(** The loop of [image.onload] on the RGBA bytes of the mask image. *)
Definition tint (rgb : Z * Z * Z) (data : list Z) : list Z :=
  tintFrom (List.length data) 0 rgb data.

End MaskCanvas.

(* ================================================================== *)
(** ** Promises *)

Inductive Promise (A : Type) : Type :=
| Resolved (value : A)
| Rejected.
Arguments Resolved {A} value.
Arguments Rejected {A}.

(* ================================================================== *)
(** ** useSpeech, the hook that takes the [onResult] callback and keeps
       the error code of the recognition as its error *)

Module UseSpeechCallback.

(** [recognitionRef] is kept as "is non-null". *)
Record SpeechState : Type := {
  isListening : bool;
  error : option string;
  recognitionRef : bool
}.

Definition initial : SpeechState :=
  {| isListening := false; error := None; recognitionRef := false |}.

(** [startListening]; [supported] says whether the browser has the API. *)
Definition startListening (supported : bool) (s : SpeechState) : SpeechState :=
  if negb supported then s
  else if isListening s || recognitionRef s then s
  else {| isListening := isListening s; error := None; recognitionRef := true |}.

Definition onstart (s : SpeechState) : SpeechState :=
  {| isListening := true; error := error s; recognitionRef := recognitionRef s |}.

Definition onend (s : SpeechState) : SpeechState :=
  {| isListening := false; error := error s; recognitionRef := false |}.

(** [recognition.onerror]: the error code itself becomes the error. *)
Definition onerror (code : string) (s : SpeechState) : SpeechState :=
  {| isListening := false; error := Some code; recognitionRef := false |}.

End UseSpeechCallback.

(* ================================================================== *)
(** ** useSpeech, the hook that keeps a German message for each error
       code ([App] reads its messages) *)

Module UseSpeech.

Record SpeechState : Type := {
  isListening : bool;
  error : option string;
  transcript : string
}.

Definition initial : SpeechState :=
  {| isListening := false; error := None; transcript := "" |}.

Definition notSupportedMessage : string :=
  "Speech recognition not supported in this browser".

(** [startListening]: the updates of the [try] block and of its [catch]
    are batched. *)
Definition startListening (supported : bool) (s : SpeechState) : SpeechState :=
  if isListening s then s
  else if supported
  then {| isListening := true; error := None; transcript := "" |}
  else {| isListening := false; error := Some notSupportedMessage; transcript := "" |}.

(** The [switch] of [recognition.onerror]. *)
Definition errorMessage (code : string) : string :=
  if String.eqb code "network" then
    "Netzwerkfehler bei der Spracherkennung. Bitte überprüfen Sie Ihre Internetverbindung."
  else if String.eqb code "not-allowed" then
    "Mikrofon-Zugriff verweigert. Bitte erlauben Sie den Mikrofon-Zugriff."
  else if String.eqb code "no-speech" then
    "Keine Sprache erkannt. Bitte sprechen Sie deutlicher."
  else if String.eqb code "audio-capture" then
    "Mikrofon nicht verfügbar oder defekt."
  else if String.eqb code "service-not-allowed" then
    "Spracherkennungsdienst nicht verfügbar."
  else String.append "Spracherkennungsfehler: " code.

Definition onerror (code : string) (s : SpeechState) : SpeechState :=
  {| isListening := false;
     error := Some (errorMessage code);
     transcript := transcript s |}.

Definition onend (s : SpeechState) : SpeechState :=
  {| isListening := false; error := error s; transcript := transcript s |}.

End UseSpeech.

(* ================================================================== *)
(** ** geminiService: [generateDescriptionForObject], with and without
       [try]/[catch] *)

Module GeminiService.

(** What [generateContent] does: it throws (network, quota, blocked
    request), or returns a response whose text may be missing. *)
Inductive GenerateContent : Type :=
| Throws
| Response (text : option string).

Definition fallbackDescription : string := "konnte keine Beschreibung erstellen".

Section WithTrim.
Variable trim : string -> string.

(** [text?.trim() || fallback] *)
Definition textOrFallback (text : option string) : string :=
  match text with
  | Some t =>
      match trim t with
      | EmptyString => fallbackDescription
      | trimmed => trimmed
      end
  | None => fallbackDescription
  end.

(** The outcomes that yield no description: the call throws, or the
    response has no text, or only white space. *)
Definition noDescription (r : GenerateContent) : bool :=
  match r with
  | Throws => true
  | Response None => true
  | Response (Some t) =>
      match trim t with
      | EmptyString => true
      | _ => false
      end
  end.

(** The variant without [try]/[catch]: an exception of the call rejects
    the promise. *)
Definition generateDescriptionForObject_uncaught (r : GenerateContent)
  : Promise string :=
  match r with
  | Throws => Rejected
  | Response text => Resolved (textOrFallback text)
  end.

(** The variant whose body is wrapped in [try]/[catch]. *)
Definition generateDescriptionForObject (r : GenerateContent) : Promise string :=
  match r with
  | Throws => Resolved fallbackDescription
  | Response text => Resolved (textOrFallback text)
  end.

End WithTrim.

(** [s.split(sep)] for a separator of one character. *)
Fixpoint split (sep : ascii) (s : string) : list string :=
  match s with
  | EmptyString => [EmptyString]
  | String c rest =>
      if Ascii.eqb c sep then EmptyString :: split sep rest
      else
        match split sep rest with
        | first :: others => String c first :: others
        | [] => [String c EmptyString]
        end
  end.

(** The part sent with every request; [data] is [undefined] when the
    image has no comma. *)
Record Part : Type := {
  mimeType : string;
  data : option string
}.

Definition imageToPart (imageData : string) : Part :=
  {| mimeType := "image/jpeg";
     data := nth_error (split "," imageData) 1 |}.

(** What [JSON.parse] does with a text: it throws, or returns a value that
    is an array or is not. *)
Inductive Json (A : Type) : Type :=
| SyntaxError
| NotArray
| IsArray (items : list A).
Arguments SyntaxError {A}.
Arguments NotArray {A}.
Arguments IsArray {A} items.

Section WithJson.
Variable A : Type.
Variable trim : string -> string.
Variable JSON_parse : string -> Json A.

(** [parseJsonResponse] on the text of the response. *)
Definition parseJsonResponse (text : option string) : list A :=
  match text with
  | Some t =>
      if truthy text then
        match trim t with
        | EmptyString => []
        | jsonText =>
            match JSON_parse jsonText with
            | IsArray result => result
            | NotArray => []
            | SyntaxError => []
            end
        end
      else []
  | None => []
  end.

(** [detectObjects] and [guessObjectsFromDescription]: an exception of
    the call rejects the promise (the variant with [try]/[catch] throws a
    new error from its [catch]). *)
Definition detectObjects (r : GenerateContent) : Promise (list A) :=
  match r with
  | Throws => Rejected
  | Response text => Resolved (parseJsonResponse text)
  end.

Definition guessObjectsFromDescription (r : GenerateContent)
  : Promise (list A) :=
  match r with
  | Throws => Rejected
  | Response text => Resolved (parseJsonResponse text)
  end.

End WithJson.
Arguments parseJsonResponse {A} trim JSON_parse text.
Arguments detectObjects {A} trim JSON_parse r.
Arguments guessObjectsFromDescription {A} trim JSON_parse r.

End GeminiService.

(* ================================================================== *)
(** ** colors: [generateMaskColors] *)

Module Colors.

Section WithNumbers.
Context {N : Type} {HN : Number N} {HM : MathNumber N}.

(** How a template literal prints a number. *)
Variable numberToString : N -> string.

(** [(i * 360) / (count + 1)] *)
Definition hue (count i : nat) : N :=
  div (mul (fromZ (Z.of_nat i)) (fromZ 360))
      (add (fromZ (Z.of_nat count)) (fromZ 1)).

(** [`hsla(${hue}, ${saturation}%, ${lightness}%, ${alpha})`] *)
Definition hsla (h : N) : string :=
  String.append "hsla("
    (String.append (numberToString h) ", 70%, 50%, 0.6)").

(** The loop [for (let i = 0; i < count; i++)] from [i] on, with the
    number of rounds that are left. *)
Fixpoint pushColors (count : nat) (i : nat) (rounds : nat) : list string :=
  match rounds with
  | O => []
  | S rounds' => hsla (hue count i) :: pushColors count (S i) rounds'
  end.

Definition generateMaskColors (count : nat) : list string :=
  pushColors count 0 count.

End WithNumbers.
End Colors.

(* ================================================================== *)
(** ** App *)

Module App.

(** What the service returns for an object: a label and a mask. *)
Record DetectedObject : Type := {
  d_label : string;
  d_mask : list (float * float)
}.

Record State : Type := {
  gameState : GameState;
  score : Score;
  image : option string;
  objects : list GameObject;
  message : string;
  userSelection : option GameObject;
  aiSelection : option GameObject;
  aiGuesses : list GameObject;
  attemptCount : Z;
  isPlayerTurnToPick : bool
}.

Definition INITIAL_SCORE : Score := {| user := 0; ai := 0 |}.

Definition I_SPY_PREFIX : string := "ich sehe was was du nicht siehst und das ist".

Definition initialState : State :=
  {| gameState := START; score := INITIAL_SCORE; image := None; objects := [];
     message := ""; userSelection := None; aiSelection := None;
     aiGuesses := []; attemptCount := 0; isPlayerTurnToPick := true |}.

(** The state setters. *)
Definition setGameState (v : GameState) (s : State) : State :=
  {| gameState := v; score := score s; image := image s; objects := objects s;
     message := message s; userSelection := userSelection s;
     aiSelection := aiSelection s; aiGuesses := aiGuesses s;
     attemptCount := attemptCount s; isPlayerTurnToPick := isPlayerTurnToPick s |}.

Definition setScore (v : Score) (s : State) : State :=
  {| gameState := gameState s; score := v; image := image s; objects := objects s;
     message := message s; userSelection := userSelection s;
     aiSelection := aiSelection s; aiGuesses := aiGuesses s;
     attemptCount := attemptCount s; isPlayerTurnToPick := isPlayerTurnToPick s |}.

Definition setImage (v : option string) (s : State) : State :=
  {| gameState := gameState s; score := score s; image := v; objects := objects s;
     message := message s; userSelection := userSelection s;
     aiSelection := aiSelection s; aiGuesses := aiGuesses s;
     attemptCount := attemptCount s; isPlayerTurnToPick := isPlayerTurnToPick s |}.

Definition setObjects (v : list GameObject) (s : State) : State :=
  {| gameState := gameState s; score := score s; image := image s; objects := v;
     message := message s; userSelection := userSelection s;
     aiSelection := aiSelection s; aiGuesses := aiGuesses s;
     attemptCount := attemptCount s; isPlayerTurnToPick := isPlayerTurnToPick s |}.

Definition setMessage (v : string) (s : State) : State :=
  {| gameState := gameState s; score := score s; image := image s; objects := objects s;
     message := v; userSelection := userSelection s;
     aiSelection := aiSelection s; aiGuesses := aiGuesses s;
     attemptCount := attemptCount s; isPlayerTurnToPick := isPlayerTurnToPick s |}.

Definition setUserSelection (v : option GameObject) (s : State) : State :=
  {| gameState := gameState s; score := score s; image := image s; objects := objects s;
     message := message s; userSelection := v;
     aiSelection := aiSelection s; aiGuesses := aiGuesses s;
     attemptCount := attemptCount s; isPlayerTurnToPick := isPlayerTurnToPick s |}.

Definition setAiSelection (v : option GameObject) (s : State) : State :=
  {| gameState := gameState s; score := score s; image := image s; objects := objects s;
     message := message s; userSelection := userSelection s;
     aiSelection := v; aiGuesses := aiGuesses s;
     attemptCount := attemptCount s; isPlayerTurnToPick := isPlayerTurnToPick s |}.

Definition setAiGuesses (v : list GameObject) (s : State) : State :=
  {| gameState := gameState s; score := score s; image := image s; objects := objects s;
     message := message s; userSelection := userSelection s;
     aiSelection := aiSelection s; aiGuesses := v;
     attemptCount := attemptCount s; isPlayerTurnToPick := isPlayerTurnToPick s |}.

Definition setAttemptCount (v : Z) (s : State) : State :=
  {| gameState := gameState s; score := score s; image := image s; objects := objects s;
     message := message s; userSelection := userSelection s;
     aiSelection := aiSelection s; aiGuesses := aiGuesses s;
     attemptCount := v; isPlayerTurnToPick := isPlayerTurnToPick s |}.

Definition setIsPlayerTurnToPick (v : bool) (s : State) : State :=
  {| gameState := gameState s; score := score s; image := image s; objects := objects s;
     message := message s; userSelection := userSelection s;
     aiSelection := aiSelection s; aiGuesses := aiGuesses s;
     attemptCount := attemptCount s; isPlayerTurnToPick := v |}.

(** [{...prev, user: prev.user + n}] and [{...prev, ai: prev.ai + n}] *)
Definition addUser (n : Z) (sc : Score) : Score :=
  {| user := (user sc + n)%Z; ai := ai sc |}.

Definition addAi (n : Z) (sc : Score) : Score :=
  {| user := user sc; ai := (ai sc + n)%Z |}.

Definition concat (parts : list string) : string :=
  fold_right String.append EmptyString parts.

Definition calculatePoints (attempts : Z) : Z :=
  if (attempts =? 1)%Z then 10
  else if (attempts =? 2)%Z then 8
  else if (attempts =? 3)%Z then 6
  else if (attempts =? 4)%Z then 4
  else if (attempts >=? 5)%Z then 2
  else 0.

Definition resetGame (s : State) : State :=
  {| gameState := START; score := INITIAL_SCORE; image := None; objects := [];
     message := ""; userSelection := None; aiSelection := None;
     aiGuesses := []; attemptCount := attemptCount s;
     isPlayerTurnToPick := true |}.

Definition selectionMessage (o : GameObject) : string :=
  concat ["Du hast "; dquote; label o; dquote; " ausgewählt. Bestätigen?"].

Definition handleMaskClick (objectId : string) (s : State) : State :=
  match find_by_id (objects s) objectId with
  | None => s
  | Some clickedObject =>
      match gameState s, aiSelection s with
      | USER_PICKING, _ =>
          setMessage (selectionMessage clickedObject)
            (setGameState USER_CONFIRMING
               (setUserSelection (Some clickedObject) s))
      | USER_CONFIRMING, _ =>
          setMessage (selectionMessage clickedObject)
            (setUserSelection (Some clickedObject) s)
      | USER_GUESSING, Some aiSel =>
          let s1 := setAttemptCount (attemptCount s + 1)%Z s in
          if String.eqb (id clickedObject) (id aiSel) then
            let points := calculatePoints (attemptCount s + 1)%Z in
            setMessage
              (concat ["Richtig! Das war "; dquote; label aiSel; dquote;
                       ". Du erhältst "; string_of_Z points; " Punkte."])
              (setGameState ROUND_OVER
                 (setScore (addUser points (score s1)) s1))
          else
            setMessage
              (concat ["Das ist "; dquote; label clickedObject; dquote;
                       ". Leider falsch. Versuch es nochmal!"])
              s1
      | _, _ => s
      end
  end.

Definition recordingPrompt : string :=
  concat ["Nimm deinen Hinweis auf: "; dquote;
          "Ich sehe was, was du nicht siehst und das ist..."; dquote].

Definition handleConfirmSelection (s : State) : State :=
  match userSelection s with
  | Some _ => setMessage recordingPrompt (setGameState USER_DESCRIBING s)
  | None => s
  end.

Definition handleReviseSelection (s : State) : State :=
  setMessage "Du bist dran! Wähle ein Objekt aus dem Bild aus."
    (setGameState USER_PICKING (setUserSelection None s)).

(** The part of [handleStartRecording] on the state of [App]; it then
    calls [startListening] of the speech hook. *)
Definition handleStartRecording (s : State) : State :=
  setMessage recordingPrompt s.

Definition startNewRound (s : State) : State :=
  let s1 :=
    setAttemptCount 0
      (setAiGuesses [] (setAiSelection None (setUserSelection None s))) in
  if isPlayerTurnToPick s then
    setMessage "Du bist dran! Wähle ein Objekt aus dem Bild aus."
      (setGameState USER_PICKING s1)
  else
    setMessage "Die KI wählt ein Objekt aus..."
      (setGameState AI_PICKING s1).

(** [handleNextRound] flips the turn; the effect on
    [[isPlayerTurnToPick, image]] then starts the round when an image is
    loaded. *)
Definition handleNextRound (s : State) : State :=
  let s1 := setIsPlayerTurnToPick (negb (isPlayerTurnToPick s)) s in
  if truthy (image s1) then startNewRound s1 else s1.

Definition isFatalSpeechError (speechError : string) : bool :=
  includes speechError "Mikrofon-Zugriff verweigert"
  || includes speechError "nicht unterstützt"
  || includes speechError "nicht verfügbar".

(** The effect on [[speechError]]. *)
Definition speechErrorEffect (speechError : option string) (s : State) : State :=
  match speechError with
  | Some e =>
      if truthy speechError then
        let s1 := setMessage e s in
        if isFatalSpeechError e then setGameState ERROR s1 else s1
      else s
  | None => s
  end.

Definition failureMessage (selection : GameObject) : string :=
  concat ["Die KI konnte dein Objekt "; dquote; label selection; dquote;
          " nicht erraten."].

Section WithStringBuiltins.
Variable toLowerCase : string -> string.
Variable trim : string -> string.

Definition cleanTranscript (transcript : string) : string :=
  let cleanedTranscript := trim (toLowerCase transcript) in
  if startsWith cleanedTranscript I_SPY_PREFIX then
    trim (String.substring (String.length I_SPY_PREFIX)
            (String.length cleanedTranscript - String.length I_SPY_PREFIX)
            cleanedTranscript)
  else cleanedTranscript.

(** [handleSpeechResult]: the new state and, when an image and a selection
    are present, the description sent to [guessObjectsFromDescription]
    together with the selection the continuation closes over. *)
Definition handleSpeechResult (transcript : string) (s : State)
  : State * option (string * GameObject) :=
  let cleanedTranscript := cleanTranscript transcript in
  let s1 :=
    setGameState AI_GUESSING
      (setMessage
         (concat ["Dein Hinweis: "; dquote; cleanedTranscript; dquote;
                  ". KI überlegt..."]) s) in
  (s1,
   match userSelection s with
   | Some sel => if truthy (image s) then Some (cleanedTranscript, sel) else None
   | None => None
   end).

(** [guessedObjects.map((g, i) => ({...g, id: `guess-${i}`, color}))] *)
Fixpoint mapGuesses (i : nat) (guessedObjects : list DetectedObject)
  : list GameObject :=
  match guessedObjects with
  | [] => []
  | g :: rest =>
      {| id := String.append "guess-" (string_of_Z (Z.of_nat i));
         label := d_label g; mask := d_mask g; color := "#FFD70080" |}
      :: mapGuesses (S i) rest
  end.

(** The continuation of [guessObjectsFromDescription]; [selection] is the
    [userSelection] of the render that started the request. *)
Definition guessesSettled (selection : GameObject)
  (r : Promise (list DetectedObject)) (s : State) : State :=
  match r with
  | Resolved [] =>
      setScore (addUser 10 (score s))
        (setMessage (failureMessage selection) (setGameState ROUND_OVER s))
  | Resolved guessedObjects =>
      setAttemptCount 1 (setAiGuesses (mapGuesses 0 guessedObjects) s)
  | Rejected =>
      setMessage "Die KI konnte keine Objekte erraten. Versuche es erneut."
        (setGameState ERROR s)
  end.

(** [objects.find(o => o.label.toLowerCase() === guess.label.toLowerCase())] *)
Definition findByLabel (objects : list GameObject) (guess : GameObject)
  : option GameObject :=
  find (fun o => String.eqb (toLowerCase (label o)) (toLowerCase (label guess)))
    objects.

(** [handleAiGuess] as the effect calls it after a render, when no other
    update of [aiGuesses] is waiting: the updaters [prev => ...] are then
    applied to the queue of the render, [aiGuesses s], whose first entry
    is [currentGuess].  (An updater that is applied after a click has
    shortened the queue reads [prev[0]] of the shorter queue.) *)
Definition handleAiGuess (s : State) : State :=
  match aiGuesses s, userSelection s with
  | currentGuess :: rest, Some _ =>
      match findByLabel (objects s) currentGuess with
      | Some originalObject =>
          setMessage
            (concat ["Ist es "; dquote; label originalObject; dquote; "?"])
            (setAiGuesses
               ({| id := id currentGuess; label := label originalObject;
                   mask := mask originalObject; color := color currentGuess |}
                :: rest) s)
      | None => setAiGuesses rest s
      end
  | [], Some sel =>
      setScore (addUser 10 (score s))
        (setMessage (failureMessage sel) (setGameState ROUND_OVER s))
  | _, None => s
  end.

(** One run of the effect "AI Guessing Logic". *)
Definition aiGuessingEffectOnce (s : State) : State :=
  if GameState_eqb (gameState s) AI_GUESSING
     && (0 <? List.length (aiGuesses s))%nat
  then handleAiGuess s
  else s.

(** The effect runs again whenever [aiGuesses] changed.  A run that
    skipped a candidate is followed by another run; a run that presented a
    candidate leaves a state on which further runs change nothing. *)
Fixpoint aiGuessingLoop (fuel : nat) (s : State) : State :=
  match fuel with
  | O => s
  | S fuel' =>
      let s1 := aiGuessingEffectOnce s in
      if (List.length (aiGuesses s1) <? List.length (aiGuesses s))%nat
      then aiGuessingLoop fuel' s1
      else s1
  end.

Definition aiGuessingEffect (s : State) : State :=
  aiGuessingLoop (S (List.length (aiGuesses s))) s.

Definition handleYes (s : State) : State :=
  let points := calculatePoints (attemptCount s) in
  setMessage
    (concat ["Die KI hat es im "; string_of_Z (attemptCount s);
             ". Versuch erraten und "; string_of_Z points; " Punkte bekommen!"])
    (setGameState ROUND_OVER (setScore (addAi points (score s)) s)).

Definition handleNo (s : State) : State :=
  setAiGuesses (tl (aiGuesses s)) (setAttemptCount (attemptCount s + 1)%Z s).

(** The "Ja"/"Nein" answers as the user gives them: the handler, then the
    effects of the next render.  A run of the effect that was already
    waiting when the button was pressed is not part of these: its updater
    is applied to the queue as the handler left it, and fails on
    [prev[0].id] when "Nein" has emptied the queue. *)
Definition guessAccepted (s : State) : State := aiGuessingEffect (handleYes s).

Definition guessRejected (s : State) : State := aiGuessingEffect (handleNo s).

End WithStringBuiltins.

(** The first half of the effect "AI Picking Logic": [random] is
    [Math.floor(Math.random() * objects.length)].  The result is the new
    state and the object whose description is requested. *)
Definition aiPickingEffect (random : nat) (s : State)
  : State * option GameObject :=
  if GameState_eqb (gameState s) AI_PICKING
     && (0 <? List.length (objects s))%nat
     && truthy (image s)
  then (setAiSelection (nth_error (objects s) random) s,
        nth_error (objects s) random)
  else (s, None).

(** The continuation of [generateDescriptionForObject]. *)
Definition descriptionSettled (r : Promise string) (s : State) : State :=
  match r with
  | Resolved description =>
      setAttemptCount 0
        (setGameState USER_GUESSING
           (setMessage
              (String.append "Ich sehe was, was du nicht siehst, und das ist "
                 description) s))
  | Rejected =>
      setMessage "Die KI konnte keine Beschreibung erstellen. Versuche es erneut."
        (setGameState ERROR s)
  end.

(** [selectedObjectId={userSelection?.id || aiSelection?.id}] *)
Definition selectedObjectId (s : State) : option string :=
  or_else (option_map id (userSelection s)) (option_map id (aiSelection s)).

(** [disabled] of the viewer. *)
Definition viewerDisabled (s : State) : bool :=
  negb (GameState_eqb (gameState s) USER_PICKING
        || GameState_eqb (gameState s) USER_GUESSING
        || GameState_eqb (gameState s) USER_CONFIRMING).

(** The effect on [[isPlayerTurnToPick, image]]. *)
Definition imageEffect (s : State) : State :=
  if truthy (image s) then startNewRound s else s.

(** [processImage] up to its [await]. *)
Definition processImage (imageData : string) (s : State) : State :=
  setImage (Some imageData)
    (setMessage "Objekte werden erkannt..." (setGameState LOADING_OBJECTS s)).

(** [startNewRound] of the render in which [isPlayerTurnToPick] was
    [turn]: what a closure created in that render calls. *)
Definition startNewRoundOf (turn : bool) (s : State) : State :=
  let s1 :=
    setAttemptCount 0
      (setAiGuesses [] (setAiSelection None (setUserSelection None s))) in
  if turn then
    setMessage "Du bist dran! Wähle ein Objekt aus dem Bild aus."
      (setGameState USER_PICKING s1)
  else
    setMessage "Die KI wählt ein Objekt aus..."
      (setGameState AI_PICKING s1).

Section WithNumberToString.
Variable numberToString : float -> string.

(** [detected.map((obj, index) => ({...obj, id: `obj-${index}`,
    color: colors[index]}))] from [index] on; a colour that is missing
    would be [undefined]. *)
Fixpoint mapDetected (colors : list string) (index : nat)
  (detected : list DetectedObject) : list GameObject :=
  match detected with
  | [] => []
  | obj :: rest =>
      {| id := String.append "obj-" (string_of_Z (Z.of_nat index));
         label := d_label obj;
         mask := d_mask obj;
         color := nth index colors "undefined" |}
      :: mapDetected colors (S index) rest
  end.

Definition gameObjects (detected : list DetectedObject) : list GameObject :=
  mapDetected (Colors.generateMaskColors numberToString (List.length detected))
    0 detected.

(** [processImage] after its [await]; [turn] is [isPlayerTurnToPick] of
    the render that called [processImage]. *)
Definition detectionSettled (turn : bool) (r : Promise (list DetectedObject))
  (s : State) : State :=
  match r with
  | Resolved [] =>
      setImage None
        (setMessage
           "Keine Objekte im Bild erkannt. Bitte versuche es mit einem anderen Bild."
           (setGameState ERROR s))
  | Resolved detected =>
      startNewRoundOf turn (setObjects (gameObjects detected) s)
  | Rejected =>
      setMessage "Objekterkennung fehlgeschlagen. Bitte versuche es erneut."
        (setGameState ERROR s)
  end.

End WithNumberToString.

Section WithToLowerCase.
Variable toLowerCase : string -> string.

Definition getHighlightedIds (s : State) : list string :=
  if GameState_eqb (gameState s) AI_GUESSING
     && (0 <? List.length (aiGuesses s))%nat
  then
    match aiGuesses s with
    | guess :: _ =>
        match findByLabel toLowerCase (objects s) guess with
        | Some originalObject => [id originalObject]
        | None => []
        end
    | [] => []
    end
  else [].

End WithToLowerCase.

(** [handleFrameSelectorCancel], on the state of [App] that is modelled
    here (the frame selector has its own two variables). *)
Definition handleFrameSelectorCancel (s : State) : State :=
  setMessage
    "Bildauswahl abgebrochen. Lade ein neues Bild hoch oder nutze die Kamera."
    s.

(** What happens after [handleCameraCapture] asked for the permissions:
    they are refused, [takePicture] returns a picture or nothing, or it
    throws. *)
Inductive CameraOutcome : Type :=
| PermissionsRefused
| Picture (imageData : string)
| CaptureThrows.

(** [handleCameraCapture] up to its first [await]. *)
Definition handleCameraCapture (s : State) : State :=
  setMessage "Kamera wird geöffnet..." s.

(** [handleCameraCapture] after its first [await]. *)
Definition cameraSettled (outcome : CameraOutcome) (s : State) : State :=
  match outcome with
  | PermissionsRefused => setMessage "Kamera-Berechtigung erforderlich" s
  | Picture imageData =>
      if truthy (Some imageData)
      then setMessage
             "Wähle den optimalen Bildausschnitt für die Objekterkennung." s
      else s
  | CaptureThrows =>
      setMessage "Fehler beim Aufnehmen des Bildes. Bitte versuche es erneut."
        (setGameState ERROR s)
  end.

(** [handleImageUpload] with a file: [throws] says whether the reading
    of the file could not be started. *)
Definition handleImageUpload (throws : bool) (s : State) : State :=
  if throws
  then setMessage "Fehler beim Verarbeiten des Bildes. Bitte versuche es erneut."
         (setGameState ERROR (setMessage "Bild wird geladen..." s))
  else setMessage "Bild wird geladen..." s.

(** [reader.onload] of [handleImageUpload]. *)
Definition imageRead (imageData : string) (s : State) : State :=
  if truthy (Some imageData)
  then setMessage
         "Wähle den optimalen Bildausschnitt für die Objekterkennung." s
  else s.

(** *** The effect "AI Guessing Logic" with the identity of the array

    React runs an effect again after a render in which one of its
    dependencies is not the same as before by [Object.is]; for the array
    in [aiGuesses] this is the identity of the array, not its content.
    [aiGuessesArray] identifies the array: it is the number of arrays
    that were made for [aiGuesses] before this one.  [spoken] are the
    texts passed to [speak], latest first. *)
Record Rendered : Type := {
  state : State;
  aiGuessesArray : nat;
  spoken : list string
}.

Section WithToLowerCaseRendered.
Variable toLowerCase : string -> string.

(** [handleAiGuess]: the array literal and [prev.slice(1)] make a new
    array. *)
Definition handleAiGuessRendered (r : Rendered) : Rendered :=
  match aiGuesses (state r), userSelection (state r) with
  | currentGuess :: _, Some _ =>
      match findByLabel toLowerCase (objects (state r)) currentGuess with
      | Some originalObject =>
          {| state := handleAiGuess toLowerCase (state r);
             aiGuessesArray := S (aiGuessesArray r);
             spoken :=
               concat ["Ich rate mal. Ist es: "; label originalObject; "?"]
               :: spoken r |}
      | None =>
          {| state := handleAiGuess toLowerCase (state r);
             aiGuessesArray := S (aiGuessesArray r);
             spoken := spoken r |}
      end
  | [], Some _ =>
      {| state := handleAiGuess toLowerCase (state r);
         aiGuessesArray := aiGuessesArray r;
         spoken := "Schade, ich habe es nicht gefunden." :: spoken r |}
  | _, None => r
  end.

(** One run of the effect. *)
Definition aiGuessingEffectRendered (r : Rendered) : Rendered :=
  if GameState_eqb (gameState (state r)) AI_GUESSING
     && (0 <? List.length (aiGuesses (state r)))%nat
  then handleAiGuessRendered r
  else r.

End WithToLowerCaseRendered.

(** Whether the effect runs again after a run that led from [before] to
    [after]: its dependencies are [gameState], [aiGuesses] and
    [handleAiGuess], which is made anew when [aiGuesses] is another array
    (a run changes none of its other dependencies). *)
Definition effectIsDue (before after : Rendered) : bool :=
  negb (GameState_eqb (gameState (state after)) (gameState (state before)))
  || negb (aiGuessesArray after =? aiGuessesArray before)%nat.

End App.

(* ================================================================== *)
(** ** ControlsPanel *)

Module ControlsPanel.

(** The callbacks the panel and the viewer can raise on [App]. *)
Inductive Event : Type :=
| MaskClick (objectId : string)
| ConfirmSelection
| StartRecording
| Yes
| No
| NextRound
| ResetGame.

(** Whether the element that raises the event is rendered and enabled:
    the [switch] of [renderContent], the condition of the "Ja"/"Nein"
    buttons, and [disabled] of the viewer. *)
Definition available (s : App.State) (isListening : bool) (e : Event) : bool :=
  match e with
  | MaskClick _ => negb (App.viewerDisabled s)
  | ConfirmSelection => GameState_eqb (App.gameState s) USER_CONFIRMING
  | StartRecording =>
      GameState_eqb (App.gameState s) USER_DESCRIBING && negb isListening
  | Yes | No =>
      GameState_eqb (App.gameState s) AI_GUESSING
      && startsWith (App.message s) "Ist es"
  | NextRound => GameState_eqb (App.gameState s) ROUND_OVER
  | ResetGame =>
      GameState_eqb (App.gameState s) ROUND_OVER
      || GameState_eqb (App.gameState s) ERROR
  end.

End ControlsPanel.

(* ================================================================== *)
(** ** App with the polygon viewer, and App with the speech hook *)

Module Game.

Definition option_string_eqb (a b : option string) : bool :=
  match a, b with
  | Some x, Some y => String.eqb x y
  | None, None => true
  | _, _ => false
  end.

Record System : Type := {
  app : App.State;
  viewer : InteractiveImageViewer.ViewerState
}.

(** A click on a polygon at the normalised position [clickPos]: the click
    handler of the viewer, [onMaskClick] of [App] when the handler calls
    it, and after the render the effect of the viewer on
    [[selectedObjectId, objects]] when [selectedObjectId] changed
    ([handleMaskClick] never replaces [objects]).  No effect of [App]
    fires: a click changes none of [isPlayerTurnToPick], [image] and
    [speechError], and never leads to [AI_GUESSING] or [AI_PICKING].
    The second component is the argument of [onMaskClick]. *)
Definition click (clickPos : float * float) (sys : System)
  : System * option string :=
  let '(v1, emitted) :=
    InteractiveImageViewer.handlePolygonClick
      (App.viewerDisabled (app sys)) (App.objects (app sys)) clickPos
      (viewer sys) in
  let app1 :=
    match emitted with
    | Some objectId => App.handleMaskClick objectId (app sys)
    | None => app sys
    end in
  let v2 :=
    if option_string_eqb (App.selectedObjectId app1)
         (App.selectedObjectId (app sys))
    then v1
    else InteractiveImageViewer.selectedObjectEffect
           (App.selectedObjectId app1) (App.objects app1) v1 in
  ({| app := app1; viewer := v2 |}, emitted).

(** Clicks one after the other, with what each passed to [onMaskClick]. *)
Fixpoint clicks (positions : list (float * float)) (sys : System)
  : System * list (option string) :=
  match positions with
  | [] => (sys, [])
  | p :: rest =>
      let '(sys1, e) := click p sys in
      let '(sys2, es) := clicks rest sys1 in
      (sys2, e :: es)
  end.

(** [onMaskClick] called with one id after the other. *)
Definition maskClicks (objectIds : list string) (s : App.State) : App.State :=
  fold_left (fun st objectId => App.handleMaskClick objectId st) objectIds s.

(** [recognition.onerror] of the hook with German messages under [App]:
    the hook stores the message, and the effect on [[speechError]] runs when the
    stored value changed. *)
Definition speechRecognitionError (code : string)
  (s : App.State * UseSpeech.SpeechState) : App.State * UseSpeech.SpeechState :=
  let '(a, h) := s in
  let h1 := UseSpeech.onerror code h in
  (if option_string_eqb (UseSpeech.error h1) (UseSpeech.error h) then a
   else App.speechErrorEffect (UseSpeech.error h1) a,
   h1).

(** The same with the hook that stores the code. *)
Definition speechRecognitionErrorCallback (code : string)
  (s : App.State * UseSpeechCallback.SpeechState)
  : App.State * UseSpeechCallback.SpeechState :=
  let '(a, h) := s in
  let h1 := UseSpeechCallback.onerror code h in
  (if option_string_eqb (UseSpeechCallback.error h1) (UseSpeechCallback.error h)
   then a
   else App.speechErrorEffect (UseSpeechCallback.error h1) a,
   h1).

(** "Hinweis aufnehmen": [handleStartRecording], then [startListening];
    the effect on [[speechError]] runs when the stored error changed. *)
Definition startRecording (supported : bool)
  (s : App.State * UseSpeech.SpeechState) : App.State * UseSpeech.SpeechState :=
  let '(a, h) := s in
  let a1 := App.handleStartRecording a in
  let h1 := UseSpeech.startListening supported h in
  (if option_string_eqb (UseSpeech.error h1) (UseSpeech.error h) then a1
   else App.speechErrorEffect (UseSpeech.error h1) a1,
   h1).

(** The AI picks and describes: the effect "AI Picking Logic" with the
    outcome of [generateContent]; [describe] is the service function. *)
Definition aiPicks (describe : GeminiService.GenerateContent -> Promise string)
  (random : nat) (outcome : GeminiService.GenerateContent) (s : App.State)
  : App.State :=
  match App.aiPickingEffect random s with
  | (s1, Some _) => App.descriptionSettled (describe outcome) s1
  | (s1, None) => s1
  end.

(** [processImage] up to its [await], then the effect on
    [[isPlayerTurnToPick, image]] when [image] changed.  The answer of
    the service arrives after the effects of this render. *)
Definition processImage (imageData : string) (s : App.State) : App.State :=
  let s1 := App.processImage imageData s in
  if option_string_eqb (App.image s1) (App.image s) then s1
  else App.imageEffect s1.

(** Everything that updates the state of [App]: the callbacks of the
    panel, of the viewer and of the frame selector, the steps of the image
    upload and of the camera, the continuations of the requests with
    their outcome, and the effects that depend on something outside the
    state (the error of the speech hook, the random index of the AI's
    pick). *)
Inductive Action : Type :=
| ProcessImage (imageData : string)
| DetectionSettled (turn : bool) (r : Promise (list App.DetectedObject))
| MaskClick (objectId : string)
| ConfirmSelection
| ReviseSelection
| StartRecording
| SpeechResult (transcript : string)
| GuessesSettled (selection : GameObject)
    (r : Promise (list App.DetectedObject))
| SpeechError (speechError : option string)
| Yes
| No
| NextRound
| AiPicks (random : nat)
| DescriptionSettled (r : Promise string)
| ResetGame
| FrameSelectorCancel
| CameraCapture
| CameraSettled (outcome : App.CameraOutcome)
| ImageUpload (throws : bool)
| ImageRead (imageData : string).

Section WithBuiltins.
Variable toLowerCase : string -> string.
Variable trim : string -> string.
Variable numberToString : float -> string.

(** One update and the effect "AI Guessing Logic" of the render after
    it. *)
Definition perform (s : App.State) (a : Action) : App.State :=
  App.aiGuessingEffect toLowerCase
    match a with
    | ProcessImage imageData => processImage imageData s
    | DetectionSettled turn r => App.detectionSettled numberToString turn r s
    | MaskClick objectId => App.handleMaskClick objectId s
    | ConfirmSelection => App.handleConfirmSelection s
    | ReviseSelection => App.handleReviseSelection s
    | StartRecording => App.handleStartRecording s
    | SpeechResult transcript =>
        fst (App.handleSpeechResult toLowerCase trim transcript s)
    | GuessesSettled selection r => App.guessesSettled selection r s
    | SpeechError speechError => App.speechErrorEffect speechError s
    | Yes => App.handleYes s
    | No => App.handleNo s
    | NextRound => App.handleNextRound s
    | AiPicks random => fst (App.aiPickingEffect random s)
    | DescriptionSettled r => App.descriptionSettled r s
    | ResetGame => App.resetGame s
    | FrameSelectorCancel => App.handleFrameSelectorCancel s
    | CameraCapture => App.handleCameraCapture s
    | CameraSettled outcome => App.cameraSettled outcome s
    | ImageUpload throws => App.handleImageUpload throws s
    | ImageRead imageData => App.imageRead imageData s
    end.

Definition run (actions : list Action) (s : App.State) : App.State :=
  fold_left perform actions s.

End WithBuiltins.

End Game.

(* ================================================================== *)
(** ** Concrete data for the scenarios *)

Module Scenario.

(** [toLowerCase] and [trim] on ASCII text, to run the examples. *)
Definition lowerAscii (c : ascii) : ascii :=
  let n := nat_of_ascii c in
  if (65 <=? n)%nat && (n <=? 90)%nat then ascii_of_nat (n + 32) else c.

Fixpoint toLowerCase (s : string) : string :=
  match s with
  | EmptyString => EmptyString
  | String c rest => String (lowerAscii c) (toLowerCase rest)
  end.

Definition isSpace (c : ascii) : bool :=
  let n := nat_of_ascii c in
  (n =? 32)%nat || (n =? 9)%nat || (n =? 10)%nat || (n =? 13)%nat.

Fixpoint trimStart (s : string) : string :=
  match s with
  | EmptyString => EmptyString
  | String c rest => if isSpace c then trimStart rest else s
  end.

Fixpoint trimEnd (s : string) : string :=
  match s with
  | EmptyString => EmptyString
  | String c rest =>
      match trimEnd rest with
      | EmptyString => if isSpace c then EmptyString else String c EmptyString
      | rest' => String c rest'
      end
  end.

Definition trim (s : string) : string := trimEnd (trimStart s).

(** A cup standing on a table, a lamp beside them, and a stroke whose
    mask has two points only. *)
Definition tasse : GameObject :=
  {| id := "obj-0"; label := "Tasse";
     mask := [(0.4, 0.4); (0.6, 0.4); (0.6, 0.6); (0.4, 0.6)]%float;
     color := "hsla(0, 70%, 50%, 0.6)" |}.

Definition tisch : GameObject :=
  {| id := "obj-1"; label := "Tisch";
     mask := [(0.2, 0.2); (0.8, 0.2); (0.8, 0.8); (0.2, 0.8)]%float;
     color := "hsla(90, 70%, 50%, 0.6)" |}.

Definition lampe : GameObject :=
  {| id := "obj-2"; label := "Lampe";
     mask := [(0.85, 0.1); (0.95, 0.1); (0.95, 0.3); (0.85, 0.3)]%float;
     color := "hsla(180, 70%, 50%, 0.6)" |}.

Definition strich : GameObject :=
  {| id := "obj-3"; label := "Strich";
     mask := [(0, 0); (0.1, 0.2)]%float;
     color := "hsla(270, 70%, 50%, 0.6)" |}.

Definition picture : string := "data:image/jpeg;base64,AAAA".

(** The human is about to pick. *)
Definition picking : App.State :=
  {| App.gameState := USER_PICKING; App.score := App.INITIAL_SCORE;
     App.image := Some picture; App.objects := [tisch; tasse; lampe];
     App.message := "Du bist dran! Wähle ein Objekt aus dem Bild aus.";
     App.userSelection := None; App.aiSelection := None;
     App.aiGuesses := []; App.attemptCount := 0;
     App.isPlayerTurnToPick := true |}.

(** The AI is about to pick. *)
Definition aiPicking : App.State :=
  {| App.gameState := AI_PICKING; App.score := App.INITIAL_SCORE;
     App.image := Some picture; App.objects := [tisch; tasse; lampe];
     App.message := "Die KI wählt ein Objekt aus...";
     App.userSelection := None; App.aiSelection := None;
     App.aiGuesses := []; App.attemptCount := 0;
     App.isPlayerTurnToPick := false |}.

(** The AI picked the lamp and described it; the human guesses. *)
Definition guessing : App.State :=
  Game.aiPicks (GeminiService.generateDescriptionForObject trim) 2
    (GeminiService.Response (Some "ist hell und steht am Rand")) aiPicking.

(** The human picked the cup, confirmed, and waits to record a clue. *)
Definition describing : App.State :=
  App.handleConfirmSelection (App.handleMaskClick "obj-0" picking).

(** The human said the clue; the AI answered with the candidates. *)
Definition candidates (labels : list string) : list App.DetectedObject :=
  map (fun l => {| App.d_label := l; App.d_mask := [] |}) labels.

Definition aiGuessing (labels : list string) : App.State :=
  App.aiGuessingEffect toLowerCase
    (App.guessesSettled tasse (Resolved (candidates labels))
       (fst (App.handleSpeechResult toLowerCase trim
               "Ich sehe was was du nicht siehst und das ist weiss und rund"
               describing))).

Definition center : float * float := (0.5, 0.5)%float.

(** The client rectangles of the table and of the cup on it, as binary64
    numbers and as rationals, and a pointer over the cup. *)
Definition tischRect : Hover.Dimensions float (option string) :=
  {| Hover.top := 100; Hover.left := 100; Hover.width := 400;
     Hover.height := 300; Hover.tag := Some "obj-1" |}%float.

Definition tasseRect : Hover.Dimensions float (option string) :=
  {| Hover.top := 200; Hover.left := 250; Hover.width := 80;
     Hover.height := 60; Hover.tag := Some "obj-0" |}%float.

Definition tischRectQ : Hover.Dimensions Q (option string) :=
  {| Hover.top := 100; Hover.left := 100; Hover.width := 400;
     Hover.height := 300; Hover.tag := Some "obj-1" |}%Q.

Definition tasseRectQ : Hover.Dimensions Q (option string) :=
  {| Hover.top := 200; Hover.left := 250; Hover.width := 80;
     Hover.height := 60; Hover.tag := Some "obj-0" |}%Q.

(** The decimal representation of the hues of three and of four
    objects. *)
Definition numberToString (h : float) : string :=
  if PrimFloat.eqb h 0 then "0"
  else if PrimFloat.eqb h 72 then "72"
  else if PrimFloat.eqb h 90 then "90"
  else if PrimFloat.eqb h 144 then "144"
  else if PrimFloat.eqb h 180 then "180"
  else if PrimFloat.eqb h 216 then "216"
  else "NaN".

(** What the service detects in the picture. *)
Definition detected : list App.DetectedObject :=
  [ {| App.d_label := "Tisch"; App.d_mask := mask tisch |};
    {| App.d_label := "Tasse"; App.d_mask := mask tasse |};
    {| App.d_label := "Lampe"; App.d_mask := mask lampe |} ].

(** A photo of 1920 x 1440 loaded into the frame selector of a window of
    1280 x 720. *)
Definition frame : FrameSelector.State float :=
  FrameSelector.onload 1280%float 720%float 1920%float 1440%float
    FrameSelector.initialState.

(** A screenshot of 1170 x 2532 loaded into the frame selector of a
    window of 320 x 682. *)
Definition narrowFrame : FrameSelector.State float :=
  FrameSelector.onload 320%float 682%float 1170%float 2532%float
    FrameSelector.initialState.

End Scenario.

(* ================================================================== *)
(** ** Auxiliary definitions of the proofs *)

Section FirstSmallest.
Variable A : Type.
Variable key : A -> Q.
Variable p : A -> bool.

(** The comparator [(a, b) => key(a) - key(b)] in exact arithmetic. *)
Definition keyCompare (a b : A) : Q := sub (key a) (key b).

(** Every element is at least as large as the ones before it. *)
Definition key_sorted (l : list A) : Prop :=
  StronglySorted (fun a b => (key a <= key b)%Q) l.

(** The first match of a list sorted by [key], computed on the unsorted
    list: an element replaces the best of the later ones when it matches
    and is not larger. *)
Fixpoint firstSmallest (l : list A) : option A :=
  match l with
  | [] => None
  | x :: l' =>
      match firstSmallest l' with
      | None => if p x then Some x else None
      | Some y => if p x && negb (Qltb (key y) (key x)) then Some x else Some y
      end
  end.

End FirstSmallest.
Arguments keyCompare {A} key a b.
Arguments key_sorted {A} key l.
Arguments firstSmallest {A} key p l.

(** Whether a polygon point lies above the horizontal ray at height [y]:
    the test [yi > y] of the loop. *)
Definition aboveRay (y : Q) (p : Q * Q) : bool := Qltb y (snd p).

(** Where the line through two points at different heights meets the
    height [y]: the right-hand side of the comparison with [x]. *)
Definition crossing (y : Q) (pi pj : Q * Q) : Q :=
  ((fst pj - fst pi) * (y - snd pi) / (snd pj - snd pi) + fst pi)%Q.

(** The situations that follow one another while the human clicks at
    [clickPos] on a stack whose smallest objects are [o] and [o']:
    no hit set is stored and another object (or none) is selected; no hit
    set is stored and [o] is selected; the hit set is stored at index 0
    and [o] is selected. *)
Definition stackPhase (clickPos : float * float) (o o' : GameObject)
  (rest : list GameObject) (p : nat) (sys : Game.System) : Prop :=
  (App.gameState (Game.app sys) = USER_PICKING
   \/ App.gameState (Game.app sys) = USER_CONFIRMING)
  /\ InteractiveImageViewer.sortByArea
       (InteractiveImageViewer.getObjectsAtPosition
          (App.objects (Game.app sys)) clickPos)
     = o :: o' :: rest
  /\ match (p mod 3)%nat with
     | O =>
         InteractiveImageViewer.objectsAtLastClick (Game.viewer sys) = []
         /\ App.selectedObjectId (Game.app sys) <> Some (id o)
     | S O =>
         InteractiveImageViewer.objectsAtLastClick (Game.viewer sys) = []
         /\ App.selectedObjectId (Game.app sys) = Some (id o)
     | _ =>
         InteractiveImageViewer.objectsAtLastClick (Game.viewer sys)
         = o :: o' :: rest
         /\ InteractiveImageViewer.currentObjectIndex (Game.viewer sys) = 0%nat
         /\ App.selectedObjectId (Game.app sys) = Some (id o)
     end.

(** What holds of the state of [App] at any time: the selections of the
    human and of the AI are objects of the image, an object is selected
    while the human confirms or describes, and the ids of the objects are
    pairwise different. *)
Definition coherent (s : App.State) : Prop :=
  (forall o, App.userSelection s = Some o -> In o (App.objects s))
  /\ (forall o, App.aiSelection s = Some o -> In o (App.objects s))
  /\ (App.gameState s = USER_CONFIRMING \/ App.gameState s = USER_DESCRIBING ->
      App.userSelection s <> None)
  /\ NoDup (map id (App.objects s)).

(** *** Binary64 numbers as rational numbers

    What follows describes the numbers of the [float] instance by the
    rational numbers they stand for, from the specification of binary64
    that the Standard Library gives ([SpecFloat]). *)

Local Open Scope Q_scope.

Definition pow2 (e : Z) : Q := 2 ^ e.

(** Where a real [x] lies in the step from [m * 2^e] to [(m + 1) * 2^e]:
    on its lower end, in its lower half, in the middle, or in its upper
    half.  [r] and [s] are the round and the sticky bit. *)
Definition located (m e : Z) (r s : bool) (x : Q) : Prop :=
  match r, s with
  | false, false => x == inject_Z m * pow2 e
  | false, true =>
      inject_Z m * pow2 e < x /\ x < inject_Z m * pow2 e + (1 # 2) * pow2 e
  | true, false => x == inject_Z m * pow2 e + (1 # 2) * pow2 e
  | true, true =>
      inject_Z m * pow2 e + (1 # 2) * pow2 e < x
      /\ x < inject_Z m * pow2 e + pow2 e
  end.

Definition located_rec (e : Z) (mrs : shr_record) (x : Q) : Prop :=
  (0 <= shr_m mrs)%Z /\ located (shr_m mrs) e (shr_r mrs) (shr_s mrs) x.

(** The rational number that a finite binary64 value stands for. *)
Definition SF2Q (x : spec_float) : Q :=
  match x with
  | S754_finite s m e =>
      if s then - (inject_Z (Zpos m) * pow2 e) else inject_Z (Zpos m) * pow2 e
  | _ => 0
  end.

Definition rec_r (l : location) : bool :=
  match l with loc_Inexact Eq | loc_Inexact Gt => true | _ => false end.

Definition rec_s (l : location) : bool :=
  match l with loc_Inexact Lt | loc_Inexact Gt => true | _ => false end.

Definition is_inf (z : spec_float) : bool :=
  match z with S754_infinity _ => true | _ => false end.

(** [z] is a result of rounding the positive real [x] to binary64: it is
    infinite, zero or positive; it is not on the other side of a
    representable number than [x]; and it differs from [x] by at most
    [2^-53] of [x] in the normal range, and by [2^-1075] more below. *)
Definition rounded (x : Q) (z : spec_float) : Prop :=
  (z = S754_infinity false \/ z = S754_zero false
   \/ exists p e, z = S754_finite false p e)
  /\ (forall mf ef, bounded prec emax mf ef = true ->
        x <= inject_Z (Zpos mf) * pow2 ef ->
        is_inf z = false /\ SF2Q z <= inject_Z (Zpos mf) * pow2 ef)
  /\ (forall mf ef, bounded prec emax mf ef = true ->
        inject_Z (Zpos mf) * pow2 ef <= x ->
        is_inf z = true \/ inject_Z (Zpos mf) * pow2 ef <= SF2Q z)
  /\ (pow2 (-1022) <= x -> is_inf z = false ->
        SF2Q z - x <= pow2 (-53) * x /\ x - SF2Q z <= pow2 (-53) * x)
  /\ (is_inf z = false ->
        SF2Q z - x <= pow2 (-53) * x + pow2 (-1075)
        /\ x - SF2Q z <= pow2 (-53) * x + pow2 (-1075)).

(** The rational number that a JavaScript number stands for (0 for NaN
    and the infinities, which [fin] tells apart). *)
Definition F2Q (f : float) : Q := SF2Q (Prim2SF f).

(** A finite number greater than zero. *)
Definition posfin (f : float) : Prop :=
  exists m e, Prim2SF f = S754_finite false m e.

Definition SFfin (x : spec_float) : bool :=
  match x with
  | S754_zero _ | S754_finite _ _ _ => true
  | _ => false
  end.

(** [Number.isFinite]. *)
Definition fin (f : float) : bool := SFfin (Prim2SF f).

(** [+0] or a finite number greater than zero. *)
Definition nonneg (f : float) : Prop :=
  Prim2SF f = S754_zero false \/ posfin f.

(** The unit roundoff of binary64. *)
Definition u64 : Q := pow2 (-53).

(** *** The frame selector and the overlay in binary64 *)

(** The pointer positions of the events are finite numbers. *)
Definition finitePos (pos : float * float) : bool :=
  fin (fst pos) && fin (snd pos).

Definition finiteEvent (e : FrameSelector.Event float) : bool :=
  match e with
  | FrameSelector.MouseDown pos | FrameSelector.MouseMove pos => finitePos pos
  | _ => true
  end.

(** The crop area has at least half the size of the canvas and lies in
    it up to the tolerance [tol], a fraction of the canvas size. *)
Definition cropInside (tol : Q) (canvas : float * float)
  (c : FrameSelector.CropArea float) : Prop :=
  nonneg (FrameSelector.x c) /\ nonneg (FrameSelector.y c)
  /\ posfin (FrameSelector.width c) /\ posfin (FrameSelector.height c)
  /\ F2Q (fst canvas) * (1 # 2) <= F2Q (FrameSelector.width c)
  /\ F2Q (FrameSelector.width c) <= F2Q (fst canvas)
  /\ F2Q (snd canvas) * (1 # 2) <= F2Q (FrameSelector.height c)
  /\ F2Q (FrameSelector.height c) <= F2Q (snd canvas)
  /\ F2Q (FrameSelector.x c) + F2Q (FrameSelector.width c)
     <= F2Q (fst canvas) * (1 + tol)
  /\ F2Q (FrameSelector.y c) + F2Q (FrameSelector.height c)
     <= F2Q (snd canvas) * (1 + tol).

(** The canvas of a loaded image, and the states that keep the crop area
    in it. *)
Definition canvasOK (canvas : float * float) : Prop :=
  posfin (fst canvas) /\ posfin (snd canvas)
  /\ pow2 (-30) <= F2Q (fst canvas) /\ F2Q (fst canvas) <= 800
  /\ pow2 (-30) <= F2Q (snd canvas) /\ F2Q (snd canvas) <= 600.

Definition stateOK (canvas : float * float) (s : FrameSelector.State float)
  : Prop :=
  FrameSelector.canvasDimensions s = canvas
  /\ finitePos (FrameSelector.dragStart s) = true
  /\ cropInside (pow2 (-52)) canvas (FrameSelector.cropArea s).

Definition componentOK (canvas : float * float)
  (c : FrameSelector.Component float) : Prop :=
  stateOK canvas (FrameSelector.current c)
  /\ stateOK canvas (FrameSelector.rendered c).

(** A rectangle of finite numbers, of positive size, whose corner is not
    negative and that overhangs an area of [bounds] by at most the fraction
    [tol] of its size.  The sums are those of the rational numbers that
    the floating-point values stand for. *)
Definition insideUpTo (tol : Q) (bounds : float * float)
  (c : FrameSelector.CropArea float) : Prop :=
  fin (FrameSelector.x c) = true /\ fin (FrameSelector.y c) = true
  /\ fin (FrameSelector.width c) = true /\ fin (FrameSelector.height c) = true
  /\ (0 <=? FrameSelector.x c)%float = true
  /\ (0 <=? FrameSelector.y c)%float = true
  /\ (0 <? FrameSelector.width c)%float = true
  /\ (0 <? FrameSelector.height c)%float = true
  /\ F2Q (FrameSelector.x c) + F2Q (FrameSelector.width c)
     <= F2Q (fst bounds) * (1 + tol)
  /\ F2Q (FrameSelector.y c) + F2Q (FrameSelector.height c)
     <= F2Q (snd bounds) * (1 + tol).

Local Close Scope Q_scope.

(* ================================================================== *)
(** * Properties *)

(** ** Score function *)

(** C5: the points function returns 10, 8, 6, 4 for the attempt counts
    1, 2, 3, 4, and 2 for every attempt count from 5 on. *)
Theorem calculatePoints_table :
  App.calculatePoints 1 = 10%Z
  /\ App.calculatePoints 2 = 8%Z
  /\ App.calculatePoints 3 = 6%Z
  /\ App.calculatePoints 4 = 4%Z
  /\ forall attempts : Z, (5 <= attempts)%Z -> App.calculatePoints attempts = 2%Z.
Proof.
  repeat split; try reflexivity.
  intros attempts Hge. unfold App.calculatePoints.
  destruct (Z.eqb_spec attempts 1); [lia|].
  destruct (Z.eqb_spec attempts 2); [lia|].
  destruct (Z.eqb_spec attempts 3); [lia|].
  destruct (Z.eqb_spec attempts 4); [lia|].
  destruct (Z.geb_spec attempts 5); [reflexivity|lia].
Qed.

Lemma calculatePoints_table_witness : App.calculatePoints 7 = 2%Z.
Proof.
  destruct calculatePoints_table as (_ & _ & _ & _ & Hfrom5).
  apply Hfrom5. lia.
Defined.

(** Below 1 the function returns 0: no attempt count is rejected or
    clamped. *)
Lemma calculatePoints_below_one :
  forall attempts : Z, (attempts < 1)%Z -> App.calculatePoints attempts = 0%Z.
Proof.
  intros attempts Hlt. unfold App.calculatePoints.
  destruct (Z.eqb_spec attempts 1); [lia|].
  destruct (Z.eqb_spec attempts 2); [lia|].
  destruct (Z.eqb_spec attempts 3); [lia|].
  destruct (Z.eqb_spec attempts 4); [lia|].
  destruct (Z.geb_spec attempts 5); [lia|reflexivity].
Qed.

(** ** Rounds: handlers of App *)

Section Rounds.
Variable toLowerCase : string -> string.

Import App.

(** The effect "AI Guessing Logic" does nothing outside [AI_GUESSING]. *)
Lemma aiGuessingEffect_other_phase :
  forall s, gameState s <> AI_GUESSING -> aiGuessingEffect toLowerCase s = s.
Proof.
  intros s Hphase. unfold aiGuessingEffect. simpl.
  unfold aiGuessingEffectOnce.
  destruct (gameState s); try contradiction; simpl;
    rewrite Nat.ltb_irrefl; reflexivity.
Qed.

(** The effect does nothing on an empty queue: [handleAiGuess] is not
    called, so its branch "AI ran out of guesses" is never run. *)
Lemma aiGuessingEffect_empty_queue :
  forall s, aiGuesses s = [] -> aiGuessingEffect toLowerCase s = s.
Proof.
  intros s Hq. unfold aiGuessingEffect. rewrite Hq.
  cbn [List.length aiGuessingLoop].
  assert (Honce : aiGuessingEffectOnce toLowerCase s = s).
  { unfold aiGuessingEffectOnce. rewrite Hq. cbn [List.length].
    rewrite Nat.ltb_irrefl, andb_false_r. reflexivity. }
  rewrite Honce, Nat.ltb_irrefl. reflexivity.
Qed.

(** C10: in the phase in which the AI guesses, the answer "Ja" ends the
    round and adds [calculatePoints attemptCount] to the score of the AI,
    whatever candidate is presented and whatever the human picked: the
    queue of candidates and the selection of the human have no part in the
    phase and the score that result. *)
Theorem handleYes_awards_unconditionally :
  forall s : State,
    gameState (handleYes s) = ROUND_OVER
    /\ ai (score (handleYes s)) = (ai (score s) + calculatePoints (attemptCount s))%Z
    /\ user (score (handleYes s)) = user (score s)
    /\ guessAccepted toLowerCase s = handleYes s
    /\ forall (guesses : list GameObject) (selection : option GameObject),
         let s' := setUserSelection selection (setAiGuesses guesses s) in
         gameState (handleYes s') = gameState (handleYes s)
         /\ score (handleYes s') = score (handleYes s).
Proof.
  intros s. repeat split.
  unfold guessAccepted. apply aiGuessingEffect_other_phase.
  simpl. discriminate.
Qed.

(** One click in [USER_GUESSING] on an object that is not the one the AI
    picked: only the attempt counter and the message change. *)
Lemma handleMaskClick_wrong_guess :
  forall (s : State) (aiSel clicked : GameObject) (objectId : string),
    gameState s = USER_GUESSING ->
    aiSelection s = Some aiSel ->
    find_by_id (objects s) objectId = Some clicked ->
    id clicked <> id aiSel ->
    handleMaskClick objectId s =
      setMessage
        (concat ["Das ist "; dquote; label clicked; dquote;
                 ". Leider falsch. Versuch es nochmal!"])
        (setAttemptCount (attemptCount s + 1)%Z s).
Proof.
  intros s aiSel clicked objectId Hphase Hsel Hfind Hneq.
  unfold handleMaskClick. rewrite Hfind, Hphase, Hsel.
  destruct (String.eqb_spec (id clicked) (id aiSel)); [contradiction|reflexivity].
Qed.

(** What a click in [USER_GUESSING] can do at all. *)
Lemma handleMaskClick_guessing_cases :
  forall (s : State) (aiSel : GameObject) (objectId : string),
    gameState s = USER_GUESSING ->
    aiSelection s = Some aiSel ->
    let s' := handleMaskClick objectId s in
    ai (score s') = ai (score s)
    /\ aiSelection s' = Some aiSel
    /\ objects s' = objects s
    /\ ((gameState s' = USER_GUESSING /\ score s' = score s)
        \/ (gameState s' = ROUND_OVER /\ objectId = id aiSel)).
Proof.
  intros s aiSel objectId Hphase Hsel. unfold handleMaskClick.
  destruct (find_by_id (objects s) objectId) as [clicked|] eqn:Hfind.
  - rewrite Hphase, Hsel.
    destruct (String.eqb_spec (id clicked) (id aiSel)) as [Heq|Hneq]; simpl.
    + repeat split; try assumption. right. split; [reflexivity|].
      unfold find_by_id in Hfind. apply find_some in Hfind.
      destruct Hfind as [_ Hid]. apply String.eqb_eq in Hid. congruence.
    + repeat split; try assumption. left. split; [assumption|reflexivity].
  - simpl. repeat split; try assumption. left. split; [assumption|reflexivity].
Qed.

Lemma handleMaskClick_round_over :
  forall (s : State) (objectId : string),
    gameState s = ROUND_OVER -> handleMaskClick objectId s = s.
Proof.
  intros s objectId Hphase. unfold handleMaskClick.
  destruct (find_by_id (objects s) objectId); [|reflexivity].
  rewrite Hphase. reflexivity.
Qed.

Lemma maskClicks_round_over :
  forall objectIds s, gameState s = ROUND_OVER -> Game.maskClicks objectIds s = s.
Proof.
  induction objectIds as [|o rest IH]; intros s Hphase; [reflexivity|].
  unfold Game.maskClicks in *. simpl.
  rewrite handleMaskClick_round_over by assumption. apply IH. assumption.
Qed.

Lemma maskClicks_guessing :
  forall (objectIds : list string) (s : State) (aiSel : GameObject),
    gameState s = USER_GUESSING ->
    aiSelection s = Some aiSel ->
    ai (score (Game.maskClicks objectIds s)) = ai (score s)
    /\ ((gameState (Game.maskClicks objectIds s) = USER_GUESSING
         /\ score (Game.maskClicks objectIds s) = score s)
        \/ (gameState (Game.maskClicks objectIds s) = ROUND_OVER
            /\ In (id aiSel) objectIds)).
Proof.
  induction objectIds as [|o rest IH]; intros s aiSel Hphase Hsel.
  - simpl. split; [reflexivity|]. left. split; [assumption|reflexivity].
  - destruct (handleMaskClick_guessing_cases s aiSel o Hphase Hsel)
      as (Hai & Hsel' & _ & [[Hstay Hscore]|[Hover Hid]]).
    + destruct (IH (handleMaskClick o s) aiSel Hstay Hsel') as (Hai' & Hrest).
      change (Game.maskClicks (o :: rest) s)
        with (Game.maskClicks rest (handleMaskClick o s)).
      split; [congruence|].
      destruct Hrest as [[Hg Hs]|[Hg Hin]].
      * left. split; [assumption|congruence].
      * right. split; [assumption|right; assumption].
    + change (Game.maskClicks (o :: rest) s)
        with (Game.maskClicks rest (handleMaskClick o s)).
      rewrite maskClicks_round_over by assumption.
      split; [assumption|]. right. split; [assumption|left; congruence].
Qed.

(** C9: in [USER_GUESSING] a click on an object other than the one the AI
    picked keeps the phase and both scores and adds one to the attempt
    counter.  Hence, whatever is clicked and however often, the score of
    the AI never changes in this phase, the phase is left only for
    [ROUND_OVER] and only when the picked object was clicked; and the only
    events the interface offers in this phase are clicks on masks. *)
Theorem wrong_guess_keeps_round_open :
  forall (s : State) (aiSel : GameObject),
    gameState s = USER_GUESSING ->
    aiSelection s = Some aiSel ->
    (forall (objectId : string) (clicked : GameObject),
        find_by_id (objects s) objectId = Some clicked ->
        id clicked <> id aiSel ->
        let s' := handleMaskClick objectId s in
        gameState s' = USER_GUESSING
        /\ score s' = score s
        /\ attemptCount s' = (attemptCount s + 1)%Z)
    /\ (forall objectIds : list string,
          let s' := Game.maskClicks objectIds s in
          ai (score s') = ai (score s)
          /\ ((gameState s' = USER_GUESSING /\ score s' = score s)
              \/ (gameState s' = ROUND_OVER /\ In (id aiSel) objectIds)))
    /\ (forall (isListening : bool) (e : ControlsPanel.Event),
          ControlsPanel.available s isListening e = true ->
          exists objectId, e = ControlsPanel.MaskClick objectId).
Proof.
  intros s aiSel Hphase Hsel. split; [|split].
  - intros objectId clicked Hfind Hneq s'. subst s'.
    rewrite (handleMaskClick_wrong_guess s aiSel clicked objectId)
      by assumption.
    simpl. auto.
  - intros objectIds. apply maskClicks_guessing; assumption.
  - intros isListening e Havail. destruct e; simpl in Havail;
      try (rewrite Hphase in Havail; simpl in Havail; discriminate).
    exists objectId. reflexivity.
Qed.

End Rounds.

Lemma wrong_guess_keeps_round_open_witness :
  App.gameState (App.handleMaskClick "obj-0" Scenario.guessing) = USER_GUESSING
  /\ App.score (App.handleMaskClick "obj-0" Scenario.guessing)
     = App.score Scenario.guessing
  /\ App.attemptCount (App.handleMaskClick "obj-0" Scenario.guessing)
     = (App.attemptCount Scenario.guessing + 1)%Z.
Proof.
  refine (proj1 (wrong_guess_keeps_round_open Scenario.guessing Scenario.lampe
                   eq_refl eq_refl) "obj-0" Scenario.tasse eq_refl _).
  vm_compute. discriminate.
Defined.

(** ** Candidates of the AI *)

Section Candidates.
Variable toLowerCase : string -> string.

Import App.

(** [findByLabel] finds nothing exactly when no stored object has the
    label of the candidate up to case. *)
Lemma findByLabel_none :
  forall (objs : list GameObject) (guess : GameObject),
    findByLabel toLowerCase objs guess = None <->
    (forall o, In o objs -> toLowerCase (label o) <> toLowerCase (label guess)).
Proof.
  intros objs guess. unfold findByLabel. split.
  - intros Hnone o Hin Heq.
    apply (find_none _ _ Hnone) in Hin. simpl in Hin.
    rewrite Heq, String.eqb_refl in Hin. discriminate.
  - intros Hall. induction objs as [|o rest IH]; [reflexivity|].
    simpl. destruct (String.eqb_spec (toLowerCase (label o))
                       (toLowerCase (label guess))) as [Heq|_].
    + exfalso. apply (Hall o); [left; reflexivity|assumption].
    + apply IH. intros o' Hin. apply Hall. right. assumption.
Qed.

(** [handleAiGuess] on a queue that is not empty keeps the phase, the
    score and the attempt counter. *)
Lemma handleAiGuess_frame :
  forall s : State,
    aiGuesses s <> [] ->
    gameState (handleAiGuess toLowerCase s) = gameState s
    /\ score (handleAiGuess toLowerCase s) = score s
    /\ attemptCount (handleAiGuess toLowerCase s) = attemptCount s.
Proof.
  intros s Hq. unfold handleAiGuess.
  destruct (aiGuesses s) as [|g rest]; [contradiction|].
  destruct (userSelection s); [|auto].
  destruct (findByLabel toLowerCase (objects s) g); simpl; auto.
Qed.

Lemma aiGuessingEffectOnce_frame :
  forall s : State,
    gameState (aiGuessingEffectOnce toLowerCase s) = gameState s
    /\ score (aiGuessingEffectOnce toLowerCase s) = score s
    /\ attemptCount (aiGuessingEffectOnce toLowerCase s) = attemptCount s.
Proof.
  intros s. unfold aiGuessingEffectOnce.
  destruct (GameState_eqb (gameState s) AI_GUESSING); simpl; [|auto].
  destruct (aiGuesses s) as [|g rest] eqn:Hq; simpl; [auto|].
  apply handleAiGuess_frame. rewrite Hq. discriminate.
Qed.

Lemma aiGuessingLoop_frame :
  forall (fuel : nat) (s : State),
    gameState (aiGuessingLoop toLowerCase fuel s) = gameState s
    /\ score (aiGuessingLoop toLowerCase fuel s) = score s
    /\ attemptCount (aiGuessingLoop toLowerCase fuel s) = attemptCount s.
Proof.
  induction fuel as [|fuel IH]; intros s; simpl; [auto|].
  destruct (aiGuessingEffectOnce_frame s) as (Hg & Hs & Ha).
  destruct (List.length (aiGuesses (aiGuessingEffectOnce toLowerCase s))
            <? List.length (aiGuesses s))%nat.
  - destruct (IH (aiGuessingEffectOnce toLowerCase s)) as (Hg' & Hs' & Ha').
    repeat split; congruence.
  - auto.
Qed.

(** The first object whose label equals the label of the candidate up to
    case is the one the lookup returns. *)
Lemma findByLabel_first_match :
  forall (before after : list GameObject) (o guess : GameObject),
    toLowerCase (label o) = toLowerCase (label guess) ->
    (forall b, In b before ->
               toLowerCase (label b) <> toLowerCase (label guess)) ->
    findByLabel toLowerCase (before ++ o :: after)%list guess = Some o.
Proof.
  induction before as [|b before IH]; intros after o guess Ho Hbefore;
    unfold findByLabel; cbn [app find].
  - rewrite Ho, String.eqb_refl. reflexivity.
  - destruct (String.eqb_spec (toLowerCase (label b))
                (toLowerCase (label guess))) as [Heq|_].
    + exfalso. apply (Hbefore b); [left; reflexivity|exact Heq].
    + apply IH; [exact Ho|]. intros b' Hin. apply Hbefore. right. exact Hin.
Qed.

(** When some object has the label of the candidate up to case, there is
    a first one. *)
Lemma first_match_exists :
  forall (objs : list GameObject) (guess : GameObject),
    (exists o, In o objs
               /\ toLowerCase (label o) = toLowerCase (label guess)) ->
    exists (before after : list GameObject) (o : GameObject),
      objs = (before ++ o :: after)%list
      /\ toLowerCase (label o) = toLowerCase (label guess)
      /\ (forall b, In b before ->
                    toLowerCase (label b) <> toLowerCase (label guess)).
Proof.
  induction objs as [|x objs IH]; intros guess (o & Hin & Ho);
    [destruct Hin|].
  destruct (string_dec (toLowerCase (label x)) (toLowerCase (label guess)))
    as [Hx|Hx].
  - exists [], objs, x. split; [reflexivity|]. split; [exact Hx|].
    intros b [].
  - destruct Hin as [->|Hin]; [contradiction|].
    destruct (IH guess (ex_intro _ o (conj Hin Ho)))
      as (before & after & o' & Heq & Ho' & Hbefore).
    exists (x :: before), after, o'. split; [rewrite Heq; reflexivity|].
    split; [exact Ho'|].
    intros b [<-|Hb]; [exact Hx|apply Hbefore; exact Hb].
Qed.

(** C7: a candidate is looked up among the stored objects by its label
    up to case.  When no stored object has that label the candidate is
    dropped from the queue and nothing else changes: phase, both scores,
    attempt counter (and message) stay.  When some stored object has that
    label up to case, the first such object is found and the candidate is
    shown with its label and mask: the question names it, and the queue
    keeps its length.  However many candidates the effect skips in a row,
    phase, scores and attempt counter are those from before. *)
Theorem unmatched_candidate_is_skipped :
  forall (s : State) (guess : GameObject) (rest : list GameObject)
         (selection : GameObject),
    aiGuesses s = guess :: rest ->
    userSelection s = Some selection ->
    ((forall o, In o (objects s) ->
                toLowerCase (label o) <> toLowerCase (label guess)) ->
     handleAiGuess toLowerCase s = setAiGuesses rest s)
    /\ (forall (before after : list GameObject) (o : GameObject),
          objects s = (before ++ o :: after)%list ->
          toLowerCase (label o) = toLowerCase (label guess) ->
          (forall b, In b before ->
                     toLowerCase (label b) <> toLowerCase (label guess)) ->
          findByLabel toLowerCase (objects s) guess = Some o
          /\ handleAiGuess toLowerCase s =
             setMessage (concat ["Ist es "; dquote; label o; dquote; "?"])
               (setAiGuesses
                  ({| id := id guess; label := label o; mask := mask o;
                      color := color guess |} :: rest) s))
    /\ ((exists o, In o (objects s)
                   /\ toLowerCase (label o) = toLowerCase (label guess)) ->
        exists (before after : list GameObject) (o : GameObject),
          objects s = (before ++ o :: after)%list
          /\ toLowerCase (label o) = toLowerCase (label guess)
          /\ (forall b, In b before ->
                        toLowerCase (label b) <> toLowerCase (label guess))
          /\ handleAiGuess toLowerCase s =
             setMessage (concat ["Ist es "; dquote; label o; dquote; "?"])
               (setAiGuesses
                  ({| id := id guess; label := label o; mask := mask o;
                      color := color guess |} :: rest) s))
    /\ (forall o, findByLabel toLowerCase (objects s) guess = Some o ->
          In o (objects s)
          /\ toLowerCase (label o) = toLowerCase (label guess)
          /\ handleAiGuess toLowerCase s =
             setMessage (concat ["Ist es "; dquote; label o; dquote; "?"])
               (setAiGuesses
                  ({| id := id guess; label := label o; mask := mask o;
                      color := color guess |} :: rest) s))
    /\ gameState (aiGuessingEffect toLowerCase s) = gameState s
    /\ score (aiGuessingEffect toLowerCase s) = score s
    /\ attemptCount (aiGuessingEffect toLowerCase s) = attemptCount s.
Proof.
  intros s guess rest selection Hq Hsel.
  assert (Hpresent :
            forall (before after : list GameObject) (o : GameObject),
              objects s = (before ++ o :: after)%list ->
              toLowerCase (label o) = toLowerCase (label guess) ->
              (forall b, In b before ->
                         toLowerCase (label b) <> toLowerCase (label guess)) ->
              findByLabel toLowerCase (objects s) guess = Some o
              /\ handleAiGuess toLowerCase s =
                 setMessage (concat ["Ist es "; dquote; label o; dquote; "?"])
                   (setAiGuesses
                      ({| id := id guess; label := label o; mask := mask o;
                          color := color guess |} :: rest) s)).
  { intros before after o Hobjs Ho Hbefore.
    assert (Hfind : findByLabel toLowerCase (objects s) guess = Some o).
    { rewrite Hobjs. apply findByLabel_first_match; assumption. }
    split; [exact Hfind|].
    unfold handleAiGuess. rewrite Hq, Hsel, Hfind. reflexivity. }
  split; [|split; [|split; [|split]]].
  - intros Hall. apply findByLabel_none in Hall.
    unfold handleAiGuess. rewrite Hq, Hsel, Hall. reflexivity.
  - exact Hpresent.
  - intros Hex.
    destruct (first_match_exists (objects s) guess Hex)
      as (before & after & o & Hobjs & Ho & Hbefore).
    exists before, after, o. split; [exact Hobjs|]. split; [exact Ho|].
    split; [exact Hbefore|].
    apply (Hpresent before after o Hobjs Ho Hbefore).
  - intros o Hfind. split; [|split].
    + unfold findByLabel in Hfind. apply find_some in Hfind. tauto.
    + unfold findByLabel in Hfind. apply find_some in Hfind.
      apply String.eqb_eq. tauto.
    + unfold handleAiGuess. rewrite Hq, Hsel, Hfind. reflexivity.
  - apply aiGuessingLoop_frame.
Qed.

(** What "Nein" does to the counter and the queue. *)
Lemma handleNo_counts_and_pops :
  forall s : State,
    attemptCount (handleNo s) = (attemptCount s + 1)%Z
    /\ aiGuesses (handleNo s) = tl (aiGuesses s)
    /\ gameState (handleNo s) = gameState s
    /\ score (handleNo s) = score s.
Proof. intros s. repeat split. Qed.

(** C3 (what the program does): "Nein" adds one to the attempt counter
    and removes the candidate at the front; when that was the last one,
    the queue is empty, and the effect that would call [handleAiGuess]
    does not run on an empty queue: the phase is still [AI_GUESSING] and
    no score has changed. *)
Theorem last_candidate_rejected_round_stays_open :
  forall (s : State) (guess : GameObject),
    gameState s = AI_GUESSING ->
    aiGuesses s = [guess] ->
    guessRejected toLowerCase s
    = setAiGuesses [] (setAttemptCount (attemptCount s + 1)%Z s)
    /\ gameState (guessRejected toLowerCase s) = AI_GUESSING
    /\ score (guessRejected toLowerCase s) = score s.
Proof.
  intros s guess Hphase Hq.
  assert (Heq : guessRejected toLowerCase s
                = setAiGuesses [] (setAttemptCount (attemptCount s + 1)%Z s)).
  { unfold guessRejected. rewrite aiGuessingEffect_empty_queue.
    - unfold handleNo. rewrite Hq. reflexivity.
    - unfold handleNo. rewrite Hq. reflexivity. }
  rewrite Heq. simpl. auto.
Qed.

End Candidates.

Lemma unmatched_candidate_is_skipped_witness :
  App.handleAiGuess Scenario.toLowerCase
    (App.setAiGuesses (App.mapGuesses 0 (Scenario.candidates ["Hund"; "TASSE"]))
       Scenario.describing)
  = App.setAiGuesses (App.mapGuesses 1 (Scenario.candidates ["TASSE"]))
      Scenario.describing
  /\ App.message
       (App.handleAiGuess Scenario.toLowerCase
          (App.setAiGuesses (App.mapGuesses 0 (Scenario.candidates ["TASSE"]))
             Scenario.describing))
     = App.concat ["Ist es "; dquote; "Tasse"; dquote; "?"].
Proof.
  split.
  - refine (proj1 (unmatched_candidate_is_skipped Scenario.toLowerCase
                     (App.setAiGuesses
                        (App.mapGuesses 0 (Scenario.candidates ["Hund"; "TASSE"]))
                        Scenario.describing)
                     _ _ Scenario.tasse eq_refl eq_refl) _).
    intros o Hin.
    repeat (destruct Hin as [<-|Hin]; [vm_compute; discriminate|]).
    destruct Hin.
  - assert (Hbefore : forall b, In b [Scenario.tisch] ->
                        Scenario.toLowerCase (label b)
                        <> Scenario.toLowerCase "TASSE").
    { intros b [<-|[]]. vm_compute. discriminate. }
    rewrite (proj2 (proj1 (proj2
               (unmatched_candidate_is_skipped Scenario.toLowerCase
                  (App.setAiGuesses
                     (App.mapGuesses 0 (Scenario.candidates ["TASSE"]))
                     Scenario.describing)
                  _ _ Scenario.tasse eq_refl eq_refl))
               [Scenario.tisch] [Scenario.lampe] Scenario.tasse
               eq_refl eq_refl Hbefore)).
    reflexivity.
Defined.


Lemma last_candidate_rejected_round_stays_open_witness :
  App.gameState
    (App.guessRejected Scenario.toLowerCase (Scenario.aiGuessing ["tasse"]))
  = AI_GUESSING
  /\ App.score
       (App.guessRejected Scenario.toLowerCase (Scenario.aiGuessing ["tasse"]))
     = App.score (Scenario.aiGuessing ["tasse"]).
Proof.
  refine (proj2 (last_candidate_rejected_round_stays_open
                   Scenario.toLowerCase (Scenario.aiGuessing ["tasse"])
                   _ eq_refl eq_refl)).
Defined.

(** ** The effect "AI Guessing Logic" settles *)

Section Settling.
Variable toLowerCase : string -> string.

Import App.

Lemma find_same_predicate :
  forall (A : Type) (f g : A -> bool) (l : list A),
    (forall x, f x = g x) -> find f l = find g l.
Proof.
  intros A f g l Hfg. induction l as [|x l IH]; [reflexivity|].
  simpl. rewrite Hfg, IH. reflexivity.
Qed.

(** A candidate that has been presented is presented unchanged by a
    further run of [handleAiGuess]. *)
Lemma handleAiGuess_presented_is_stable :
  forall (s : State) (guess o selection : GameObject) (rest : list GameObject),
    aiGuesses s = guess :: rest ->
    userSelection s = Some selection ->
    findByLabel toLowerCase (objects s) guess = Some o ->
    handleAiGuess toLowerCase (handleAiGuess toLowerCase s)
    = handleAiGuess toLowerCase s.
Proof.
  intros s guess o selection rest Hq Hsel Hfind.
  assert (Hlabel : toLowerCase (label o) = toLowerCase (label guess)).
  { unfold findByLabel in Hfind. apply find_some in Hfind.
    apply String.eqb_eq. tauto. }
  assert (Hstep : handleAiGuess toLowerCase s
                  = setMessage (concat ["Ist es "; dquote; label o; dquote; "?"])
                      (setAiGuesses
                         ({| id := id guess; label := label o; mask := mask o;
                             color := color guess |} :: rest) s)).
  { unfold handleAiGuess. rewrite Hq, Hsel, Hfind. reflexivity. }
  rewrite Hstep. unfold handleAiGuess at 1.
  cbn [aiGuesses userSelection objects setMessage setAiGuesses].
  rewrite Hsel.
  assert (Hagain : findByLabel toLowerCase (objects s)
                     {| id := id guess; label := label o; mask := mask o;
                        color := color guess |} = Some o).
  { rewrite <- Hfind. unfold findByLabel. apply find_same_predicate.
    intros x. cbn [label]. rewrite Hlabel. reflexivity. }
  rewrite Hagain. destruct s. reflexivity.
Qed.

(** A run of the effect that did not shorten the queue is repeated
    without change. *)
Lemma aiGuessingEffectOnce_stable :
  forall s : State,
    (List.length (aiGuesses s)
     <= List.length (aiGuesses (aiGuessingEffectOnce toLowerCase s)))%nat ->
    aiGuessingEffectOnce toLowerCase (aiGuessingEffectOnce toLowerCase s)
    = aiGuessingEffectOnce toLowerCase s.
Proof.
  intros s Hlen.
  destruct (GameState_eqb (gameState s) AI_GUESSING
            && (0 <? List.length (aiGuesses s))%nat) eqn:Hrun.
  - assert (Honce : aiGuessingEffectOnce toLowerCase s
                    = handleAiGuess toLowerCase s)
      by (unfold aiGuessingEffectOnce; rewrite Hrun; reflexivity).
    rewrite Honce in *.
    apply andb_prop in Hrun. destruct Hrun as [Hphase Hnonempty].
    destruct (aiGuesses s) as [|guess rest] eqn:Hq; [discriminate|].
    destruct (userSelection s) as [selection|] eqn:Hsel.
    + destruct (findByLabel toLowerCase (objects s) guess) as [o|] eqn:Hfind.
      * pose proof (handleAiGuess_presented_is_stable s guess o selection rest
                      Hq Hsel Hfind) as Hstable.
        assert (Hstep : handleAiGuess toLowerCase s
                        = setMessage
                            (concat ["Ist es "; dquote; label o; dquote; "?"])
                            (setAiGuesses
                               ({| id := id guess; label := label o;
                                   mask := mask o; color := color guess |}
                                :: rest) s)).
        { unfold handleAiGuess. rewrite Hq, Hsel, Hfind. reflexivity. }
        assert (Hrun' : GameState_eqb
                          (gameState (handleAiGuess toLowerCase s)) AI_GUESSING
                        && (0 <? List.length
                                   (aiGuesses (handleAiGuess toLowerCase s)))%nat
                        = true).
        { rewrite Hstep. cbn [gameState aiGuesses setMessage setAiGuesses].
          rewrite Hphase. reflexivity. }
        unfold aiGuessingEffectOnce. rewrite Hrun'. assumption.
      * exfalso. unfold handleAiGuess in Hlen.
        rewrite Hq, Hsel, Hfind in Hlen. simpl in Hlen. lia.
    + assert (Hstep : handleAiGuess toLowerCase s = s).
      { unfold handleAiGuess. rewrite Hq, Hsel. reflexivity. }
      rewrite Hstep. unfold aiGuessingEffectOnce.
      rewrite Hphase, Hq. cbn [List.length Nat.ltb Nat.leb andb]. assumption.
  - assert (Honce : aiGuessingEffectOnce toLowerCase s = s)
      by (unfold aiGuessingEffectOnce; rewrite Hrun; reflexivity).
    rewrite Honce. assumption.
Qed.

(** With the fuel [aiGuessingEffect] gives it, the loop ends in a state
    that one more run of the effect leaves as it is. *)
Lemma aiGuessingLoop_settles :
  forall (fuel : nat) (s : State),
    (List.length (aiGuesses s) < fuel)%nat ->
    aiGuessingEffectOnce toLowerCase (aiGuessingLoop toLowerCase fuel s)
    = aiGuessingLoop toLowerCase fuel s.
Proof.
  induction fuel as [|fuel IH]; intros s Hfuel; [lia|].
  cbn [aiGuessingLoop].
  destruct (List.length (aiGuesses (aiGuessingEffectOnce toLowerCase s))
            <? List.length (aiGuesses s))%nat eqn:Hshorter.
  - apply IH. apply Nat.ltb_lt in Hshorter. lia.
  - apply Nat.ltb_ge in Hshorter. apply aiGuessingEffectOnce_stable.
    assumption.
Qed.

(** X13 (the effect "AI Guessing Logic").  On the state that the effect
    leaves - a candidate is presented, or the queue is empty - a further
    run of the effect changes nothing. *)
Lemma aiGuessingEffect_settles :
  forall s : State,
    aiGuessingEffectOnce toLowerCase (aiGuessingEffect toLowerCase s)
    = aiGuessingEffect toLowerCase s.
Proof.
  intros s. unfold aiGuessingEffect. apply aiGuessingLoop_settles. lia.
Qed.

End Settling.


(** ** Description of the object the AI picked *)

Section Description.
Variable trim : string -> string.

Import App GeminiService.

Lemma textOrFallback_noDescription :
  forall text : option string,
    noDescription trim (Response text) = true ->
    textOrFallback trim text = fallbackDescription.
Proof.
  intros [t|]; simpl; [|reflexivity].
  destruct (trim t); [reflexivity|discriminate].
Qed.

(** C8, as the program has it: when no description is obtained, the
    service whose body is wrapped in [try]/[catch] answers with the fixed
    phrase, the clue is built from it and the human guesses; so does the
    service without [try]/[catch] when the response has no text; when the
    call itself throws, that service rejects and [App] enters [ERROR]. *)
Theorem description_failure_fallback_or_error :
  forall (random : nat) (outcome : GenerateContent) (s : State)
         (selection : GameObject),
    gameState s = AI_PICKING ->
    truthy (image s) = true ->
    nth_error (objects s) random = Some selection ->
    noDescription trim outcome = true ->
    let clue :=
      setAttemptCount 0
        (setGameState USER_GUESSING
           (setMessage
              (String.append "Ich sehe was, was du nicht siehst, und das ist "
                 fallbackDescription)
              (setAiSelection (Some selection) s))) in
    Game.aiPicks (generateDescriptionForObject trim) random outcome s = clue
    /\ (outcome <> Throws ->
        Game.aiPicks (generateDescriptionForObject_uncaught trim) random outcome s
        = clue)
    /\ (outcome = Throws ->
        Game.aiPicks (generateDescriptionForObject_uncaught trim) random outcome s
        = setMessage
            "Die KI konnte keine Beschreibung erstellen. Versuche es erneut."
            (setGameState ERROR (setAiSelection (Some selection) s))).
Proof.
  intros random outcome s selection Hphase Himage Hnth Hfail clue.
  assert (Hpick : aiPickingEffect random s
                  = (setAiSelection (Some selection) s, Some selection)).
  { unfold aiPickingEffect. rewrite Hphase, Himage, Hnth.
    destruct (objects s) as [|o rest]; [destruct random; discriminate|].
    reflexivity. }
  unfold Game.aiPicks. rewrite Hpick. split; [|split].
  - destruct outcome as [|text]; simpl; [reflexivity|].
    rewrite textOrFallback_noDescription by assumption. reflexivity.
  - intros Hnot. destruct outcome as [|text]; [contradiction|]. simpl.
    rewrite textOrFallback_noDescription by assumption. reflexivity.
  - intros ->. reflexivity.
Qed.

End Description.

Lemma description_failure_fallback_or_error_witness :
  Game.aiPicks (GeminiService.generateDescriptionForObject Scenario.trim) 2
    GeminiService.Throws Scenario.aiPicking
  = App.setAttemptCount 0
      (App.setGameState USER_GUESSING
         (App.setMessage
            (String.append "Ich sehe was, was du nicht siehst, und das ist "
               GeminiService.fallbackDescription)
            (App.setAiSelection (Some Scenario.lampe) Scenario.aiPicking))).
Proof.
  refine (proj1 (description_failure_fallback_or_error Scenario.trim 2
                   GeminiService.Throws Scenario.aiPicking Scenario.lampe
                   eq_refl eq_refl eq_refl eq_refl)).
Defined.

(** C8 as stated fails for the service without [try]/[catch]: the call
    throws, no description is obtained, and the game is in [ERROR], not in
    [USER_GUESSING]. *)
Lemma description_rejected_ends_in_error :
  GeminiService.noDescription Scenario.trim GeminiService.Throws = true
  /\ App.gameState
       (Game.aiPicks
          (GeminiService.generateDescriptionForObject_uncaught Scenario.trim)
          2 GeminiService.Throws Scenario.aiPicking)
     = ERROR.
Proof. split; reflexivity. Qed.

(** ** Speech errors *)

(** The effect on [[speechError]]: the message is replaced, and the phase
    becomes [ERROR] exactly when the message has one of the three fatal
    phrases. *)
Lemma speechErrorEffect_message :
  forall (a : App.State) (c : ascii) (rest : string),
    App.speechErrorEffect (Some (String c rest)) a
    = if App.isFatalSpeechError (String c rest)
      then App.setGameState ERROR (App.setMessage (String c rest) a)
      else App.setMessage (String c rest) a.
Proof. intros a c rest. reflexivity. Qed.

Lemma errorMessage_not_empty :
  forall code : string, UseSpeech.errorMessage code <> EmptyString.
Proof.
  intros code. unfold UseSpeech.errorMessage.
  repeat match goal with
         | |- context [String.eqb ?a ?b] => destruct (String.eqb a b)
         end; discriminate.
Qed.

(** C4, as the program has it.  With the hook that keeps German messages
    a recognition error replaces the message by the text of the hook and
    puts the game in [ERROR] exactly when that text contains
    "Mikrofon-Zugriff verweigert", "nicht unterstützt" or
    "nicht verfügbar"; that is so for the codes not-allowed, audio-capture
    and service-not-allowed, and not for network, no-speech, aborted,
    bad-grammar and language-not-supported.  After no-speech in
    [USER_DESCRIBING] the phase is [USER_DESCRIBING], the hook no longer
    listens, the record button is enabled, and pressing it starts a new
    recognition in the same phase.  With the hook that stores the code
    itself, no-speech changes the message only. *)
Theorem speech_error_phase :
  (forall (a : App.State) (h : UseSpeech.SpeechState) (code : string),
      UseSpeech.error h = None ->
      Game.speechRecognitionError code (a, h)
      = (if App.isFatalSpeechError (UseSpeech.errorMessage code)
         then App.setGameState ERROR
                (App.setMessage (UseSpeech.errorMessage code) a)
         else App.setMessage (UseSpeech.errorMessage code) a,
         UseSpeech.onerror code h))
  /\ (Forall (fun code =>
                App.isFatalSpeechError (UseSpeech.errorMessage code) = true)
        ["not-allowed"; "audio-capture"; "service-not-allowed"]
      /\ Forall (fun code =>
                   App.isFatalSpeechError (UseSpeech.errorMessage code) = false)
           ["network"; "no-speech"; "aborted"; "bad-grammar";
            "language-not-supported"])
  /\ (forall (a : App.State) (h : UseSpeech.SpeechState),
        UseSpeech.error h = None ->
        App.gameState a = USER_DESCRIBING ->
        let s' := Game.speechRecognitionError "no-speech" (a, h) in
        App.gameState (fst s') = USER_DESCRIBING
        /\ App.message (fst s')
           = "Keine Sprache erkannt. Bitte sprechen Sie deutlicher."
        /\ UseSpeech.isListening (snd s') = false
        /\ ControlsPanel.available (fst s') (UseSpeech.isListening (snd s'))
             ControlsPanel.StartRecording = true
        /\ App.gameState (fst (Game.startRecording true s')) = USER_DESCRIBING
        /\ UseSpeech.isListening (snd (Game.startRecording true s')) = true
        /\ UseSpeech.error (snd (Game.startRecording true s')) = None)
  /\ (forall (a : App.State) (h : UseSpeechCallback.SpeechState),
        UseSpeechCallback.error h = None ->
        Game.speechRecognitionErrorCallback "no-speech" (a, h)
        = (App.setMessage "no-speech" a, UseSpeechCallback.onerror "no-speech" h)).
Proof.
  split; [|split; [|split]].
  - intros a h code Herr. unfold Game.speechRecognitionError.
    rewrite Herr. simpl.
    destruct (UseSpeech.errorMessage code) as [|c rest] eqn:Hmsg.
    + exfalso. apply (errorMessage_not_empty code). assumption.
    + reflexivity.
  - split; repeat constructor.
  - intros a h Herr Hphase s'. subst s'.
    unfold Game.speechRecognitionError. rewrite Herr. simpl.
    rewrite Hphase. simpl. auto 10.
  - intros a h Herr. unfold Game.speechRecognitionErrorCallback.
    rewrite Herr. reflexivity.
Qed.

Lemma speech_error_phase_witness :
  App.gameState
    (fst (Game.speechRecognitionError "no-speech"
            (Scenario.describing, UseSpeech.startListening true UseSpeech.initial)))
  = USER_DESCRIBING.
Proof.
  refine (proj1 (proj1 (proj2 (proj2 speech_error_phase))
                   Scenario.describing
                   (UseSpeech.startListening true UseSpeech.initial)
                   eq_refl eq_refl)).
Defined.

(** C4 as stated fails: audio-capture is neither a denied permission nor
    a missing API, and the game is in [ERROR] after it. *)
Lemma audio_capture_error_is_fatal :
  App.gameState
    (fst (Game.speechRecognitionError "audio-capture"
            (Scenario.describing, UseSpeech.startListening true UseSpeech.initial)))
  = ERROR
  /\ UseSpeech.errorMessage "audio-capture"
     = "Mikrofon nicht verfügbar oder defekt.".
Proof. split; reflexivity. Qed.

(** Without the speech API the hook that keeps German messages stores
    an English one; it has none of the three phrases, and the phase
    stays. *)
Lemma missing_speech_api_is_not_fatal :
  let s := Game.startRecording false (Scenario.describing, UseSpeech.initial) in
  UseSpeech.error (snd s) = Some UseSpeech.notSupportedMessage
  /\ App.isFatalSpeechError UseSpeech.notSupportedMessage = false
  /\ App.gameState (fst s) = USER_DESCRIBING
  /\ App.message (fst s) = UseSpeech.notSupportedMessage.
Proof. vm_compute. repeat split. Qed.

(** ** Sorting and the first match *)

Lemma Qltb_lt : forall a b : Q, Qltb a b = true <-> (a < b)%Q.
Proof.
  intros a b. unfold Qltb. rewrite negb_true_iff.
  split.
  - intros Hle. apply Qnot_le_lt. intros Hba.
    apply Qle_bool_iff in Hba. congruence.
  - intros Hlt. destruct (Qle_bool b a) eqn:Hle; [|reflexivity].
    apply Qle_bool_iff in Hle. exfalso. exact (Qlt_not_le _ _ Hlt Hle).
Qed.

Lemma Qltb_ge : forall a b : Q, Qltb a b = false <-> (b <= a)%Q.
Proof.
  intros a b. unfold Qltb. rewrite negb_false_iff. apply Qle_bool_iff.
Qed.

(** In exact arithmetic the comparator [key a - key b] is positive exactly
    when [key b < key a]. *)
Lemma gt_sub_zero_Q :
  forall a b : Q, gt (sub a b) zero = Qltb b a.
Proof.
  intros a b. unfold gt. simpl.
  destruct (Qltb b a) eqn:Hba.
  - apply Qltb_lt. apply Qltb_lt in Hba. lra.
  - apply Qltb_ge. apply Qltb_ge in Hba. lra.
Qed.

Lemma sort_insert_In_any :
  forall (A N : Type) (HN : Number N) (compare : A -> A -> N)
         (x y : A) (l : list A),
    In y (sort_insert compare x l) <-> y = x \/ In y l.
Proof.
  intros A N HN compare x y l. induction l as [|z l IH]; cbn [sort_insert].
  - split; [intros [<-|[]]; left; reflexivity|].
    intros [->|[]]. left. reflexivity.
  - destruct (gt (compare x z) zero); cbn [In]; rewrite ?IH.
    + split; [intros [<-|[->|H]]|intros [->|[<-|H]]]; auto.
    + split; [intros [<-|[<-|H]]|intros [->|[<-|H]]]; auto.
Qed.

Lemma Array_sort_In_any :
  forall (A N : Type) (HN : Number N) (compare : A -> A -> N)
         (y : A) (l : list A),
    In y (Array_sort compare l) <-> In y l.
Proof.
  intros A N HN compare y l.
  induction l as [|x l IH]; cbn [Array_sort In]; [tauto|].
  rewrite sort_insert_In_any, IH.
  split; [intros [->|H]|intros [<-|H]]; auto.
Qed.

Section FirstMatch.
Variable A : Type.
Variable key : A -> Q.
Variable p : A -> bool.

Lemma sort_insert_sorted :
  forall (x : A) (l : list A),
    key_sorted key l -> key_sorted key (sort_insert (keyCompare key) x l).
Proof.
  intros x l Hs. induction Hs as [|z l Hl IH Hz]; cbn [sort_insert].
  - repeat constructor.
  - unfold keyCompare at 1. rewrite gt_sub_zero_Q.
    destruct (Qltb (key z) (key x)) eqn:Hzx.
    + constructor; [assumption|].
      apply Forall_forall. intros y Hy. apply sort_insert_In_any in Hy.
      destruct Hy as [->|Hy].
      * apply Qltb_lt in Hzx. lra.
      * rewrite Forall_forall in Hz. apply Hz. assumption.
    + apply Qltb_ge in Hzx. constructor.
      * constructor; assumption.
      * constructor; [assumption|].
        rewrite Forall_forall in Hz |- *. intros y Hy.
        specialize (Hz y Hy). lra.
Qed.

Lemma Array_sort_sorted : forall l : list A, key_sorted key (Array_sort (keyCompare key) l).
Proof.
  induction l as [|x l IH]; cbn [Array_sort]; [constructor|].
  apply sort_insert_sorted. assumption.
Qed.

Lemma find_sort_insert :
  forall (x : A) (l : list A),
    key_sorted key l ->
    find p (sort_insert (keyCompare key) x l)
    = match find p l with
      | None => if p x then Some x else None
      | Some y => if p x && negb (Qltb (key y) (key x)) then Some x else Some y
      end.
Proof.
  intros x l Hs. induction Hs as [|z l Hl IH Hz]; cbn [sort_insert find].
  - reflexivity.
  - unfold keyCompare at 1. rewrite gt_sub_zero_Q.
    destruct (Qltb (key z) (key x)) eqn:Hzx; cbn [find].
    + destruct (p z) eqn:Hpz.
      * rewrite Hzx. simpl. rewrite andb_false_r. reflexivity.
      * apply IH.
    + destruct (p x) eqn:Hpx; simpl.
      * destruct (p z) eqn:Hpz.
        -- rewrite Hzx. reflexivity.
        -- destruct (find p l) as [y|] eqn:Hfind; [|reflexivity].
           apply find_some in Hfind. destruct Hfind as [Hy _].
           rewrite Forall_forall in Hz. specialize (Hz y Hy).
           apply Qltb_ge in Hzx.
           assert (Hxy : Qltb (key y) (key x) = false)
             by (apply Qltb_ge; lra).
           rewrite Hxy. reflexivity.
      * destruct (p z); [reflexivity|].
        destruct (find p l); reflexivity.
Qed.

Lemma find_Array_sort :
  forall l : list A, find p (Array_sort (keyCompare key) l) = firstSmallest key p l.
Proof.
  induction l as [|x l IH]; cbn [Array_sort firstSmallest]; [reflexivity|].
  rewrite find_sort_insert by apply Array_sort_sorted.
  rewrite IH. reflexivity.
Qed.

Lemma firstSmallest_none :
  forall l : list A,
    firstSmallest key p l = None <-> (forall y, In y l -> p y = false).
Proof.
  induction l as [|x l IH]; simpl.
  - split; [intros _ y []|reflexivity].
  - destruct (firstSmallest key p l) as [y|] eqn:Hl.
    + split.
      * destruct (p x && negb (Qltb (key y) (key x))); discriminate.
      * intros Hall. exfalso.
        assert (Hnone : @None A = None) by reflexivity.
        assert (Hy : Some y = None).
        { apply IH. intros z Hz. apply Hall. right. assumption. }
        discriminate.
    + destruct (p x) eqn:Hpx.
      * split; [discriminate|]. intros Hall.
        rewrite (Hall x) in Hpx by (left; reflexivity). discriminate.
      * split; [|reflexivity]. intros _ y [<-|Hy]; [assumption|].
        apply IH; [reflexivity|assumption].
Qed.

(** The first match of the sorted list is a matching element of least
    key, and the first of those in the order of the list. *)
Lemma firstSmallest_some :
  forall (l : list A) (found : A),
    firstSmallest key p l = Some found ->
    p found = true
    /\ exists l1 l2,
         l = (l1 ++ found :: l2)%list
         /\ (forall y, In y l1 -> p y = true -> (key found < key y)%Q)
         /\ (forall y, In y l2 -> p y = true -> (key found <= key y)%Q).
Proof.
  induction l as [|x l IH]; simpl; intros found Hfound; [discriminate|].
  destruct (firstSmallest key p l) as [y|] eqn:Hl.
  - destruct (IH y eq_refl) as (Hpy & l1 & l2 & Hsplit & Hbefore & Hafter).
    destruct (p x) eqn:Hpx; simpl in Hfound.
    + destruct (Qltb (key y) (key x)) eqn:Hyx; simpl in Hfound;
        injection Hfound as <-.
      * split; [assumption|]. exists (x :: l1), l2.
        split; [rewrite Hsplit; reflexivity|]. split; [|assumption].
        intros z [<-|Hz] Hpz; [apply Qltb_lt; assumption|].
        apply Hbefore; assumption.
      * apply Qltb_ge in Hyx. split; [assumption|]. exists [], l.
        split; [reflexivity|]. split; [intros z []|].
        intros z Hz Hpz. rewrite Hsplit in Hz. apply in_app_or in Hz.
        destruct Hz as [Hz|[<-|Hz]].
        -- specialize (Hbefore z Hz Hpz). lra.
        -- assumption.
        -- specialize (Hafter z Hz Hpz). lra.
    + injection Hfound as <-. split; [assumption|].
      exists (x :: l1), l2. split; [rewrite Hsplit; reflexivity|].
      split; [|assumption].
      intros z [<-|Hz] Hpz; [congruence|]. apply Hbefore; assumption.
  - destruct (p x) eqn:Hpx; [|discriminate]. injection Hfound as <-.
    split; [assumption|]. exists [], l. split; [reflexivity|].
    split; [intros z []|]. intros z Hz Hpz.
    rewrite firstSmallest_none in Hl. rewrite (Hl z Hz) in Hpz. discriminate.
Qed.

End FirstMatch.


(** ** Hover *)

Lemma withIndex_tag_ge :
  forall (boxes : list (Q * Q * Q * Q)) (k : nat) (d : Hover.Dimensions Q nat),
    In d (Hover.withIndex k boxes) -> (k <= Hover.tag d)%nat.
Proof.
  induction boxes as [|[[[t l] w] h] boxes IH]; intros k d Hin; simpl in Hin.
  - destruct Hin.
  - destruct Hin as [<-|Hin]; [simpl; lia|].
    apply IH in Hin. lia.
Qed.

Lemma withIndex_nth_error :
  forall (boxes : list (Q * Q * Q * Q)) (k : nat) (d : Hover.Dimensions Q nat),
    In d (Hover.withIndex k boxes) ->
    nth_error boxes (Hover.tag d - k)
    = Some (Hover.top d, Hover.left d, Hover.width d, Hover.height d).
Proof.
  induction boxes as [|[[[t l] w] h] boxes IH]; intros k d Hin; simpl in Hin.
  - destruct Hin.
  - destruct Hin as [<-|Hin].
    + simpl. rewrite Nat.sub_diag. reflexivity.
    + pose proof (withIndex_tag_ge _ _ _ Hin) as Hge.
      replace (Hover.tag d - k)%nat with (S (Hover.tag d - S k)) by lia.
      simpl. apply IH. assumption.
Qed.

Lemma withIndex_split :
  forall (boxes : list (Q * Q * Q * Q)) (k : nat)
         (l1 l2 : list (Hover.Dimensions Q nat)) (d : Hover.Dimensions Q nat),
    Hover.withIndex k boxes = (l1 ++ d :: l2)%list ->
    (forall m, In m l1 -> (Hover.tag m < Hover.tag d)%nat)
    /\ (forall m, In m l2 -> (Hover.tag d < Hover.tag m)%nat).
Proof.
  induction boxes as [|[[[t l] w] h] boxes IH]; intros k l1 l2 d Hsplit.
  - destruct l1; discriminate.
  - simpl in Hsplit. destruct l1 as [|m1 l1]; simpl in Hsplit.
    + injection Hsplit as <- <-. split; [intros m []|].
      intros m Hm. apply withIndex_tag_ge in Hm. simpl. lia.
    + injection Hsplit as <- Hrest.
      destruct (IH _ _ _ _ Hrest) as [Hbefore Hafter].
      split; [|assumption].
      intros m [<-|Hm]; [|apply Hbefore; assumption].
      simpl.
      assert (Hd : In d (Hover.withIndex (S k) boxes))
        by (rewrite Hrest; apply in_elt).
      apply withIndex_tag_ge in Hd. lia.
Qed.

(** What [sorted.find] returns in exact arithmetic. *)
Lemma findHovered_firstSmallest :
  forall (T : Type) (l : list (Hover.Dimensions Q T)) (clientX clientY : Q),
    Hover.findHovered clientX clientY l
    = firstSmallest Hover.area (Hover.containsPointer clientX clientY) l.
Proof.
  intros T l clientX clientY. unfold Hover.findHovered, Hover.sortBySize.
  apply (find_Array_sort _ Hover.area).
Qed.

(** C2, as the program has it (in exact arithmetic): the hovered object
    is the one whose rectangle is the smallest of those that contain the
    pointer, and the first such in document order when several are equally
    small; nothing is hovered exactly when no rectangle contains the
    pointer (or the smallest one carries no id).  The same for the index
    of the hovered box. *)
Theorem hover_resolves_to_smallest_rectangle :
  forall (clientX clientY : Q),
    (forall (masks : list (Hover.Dimensions Q (option string)))
            (previous : option string) (objectId : string),
        Hover.handleSetHoveredObject false masks clientX clientY previous
        = Some objectId ->
        exists found before after,
          masks = (before ++ found :: after)%list
          /\ Hover.tag found = Some objectId
          /\ Hover.containsPointer clientX clientY found = true
          /\ (forall m, In m before ->
                Hover.containsPointer clientX clientY m = true ->
                (Hover.area found < Hover.area m)%Q)
          /\ (forall m, In m after ->
                Hover.containsPointer clientX clientY m = true ->
                (Hover.area found <= Hover.area m)%Q))
    /\ (forall (masks : list (Hover.Dimensions Q (option string)))
               (previous : option string),
          (forall m, In m masks -> truthy (Hover.tag m) = true) ->
          (Hover.handleSetHoveredObject false masks clientX clientY previous
           = None
           <-> forall m, In m masks ->
                 Hover.containsPointer clientX clientY m = false))
    /\ (forall (boxes : list (Q * Q * Q * Q)) (i : nat),
          Hover.handleSetHoveredBox boxes clientX clientY = Some i ->
          exists found,
            In found (Hover.withIndex 0 boxes)
            /\ Hover.tag found = i
            /\ nth_error boxes i
               = Some (Hover.top found, Hover.left found, Hover.width found,
                       Hover.height found)
            /\ Hover.containsPointer clientX clientY found = true
            /\ (forall m, In m (Hover.withIndex 0 boxes) ->
                  Hover.containsPointer clientX clientY m = true ->
                  (Hover.area found <= Hover.area m)%Q
                  /\ ((Hover.tag m < i)%nat ->
                      (Hover.area found < Hover.area m)%Q)))
    /\ (forall (boxes : list (Q * Q * Q * Q)),
          Hover.handleSetHoveredBox boxes clientX clientY = None
          <-> forall m, In m (Hover.withIndex 0 boxes) ->
                Hover.containsPointer clientX clientY m = false).
Proof.
  intros clientX clientY. split; [|split; [|split]].
  - intros masks previous objectId Hres.
    unfold Hover.handleSetHoveredObject in Hres.
    rewrite findHovered_firstSmallest in Hres.
    destruct (firstSmallest _ _ masks) as [found|] eqn:Hfound; [|discriminate].
    apply firstSmallest_some in Hfound.
    destruct Hfound as (Hp & before & after & Hsplit & Hbefore & Hafter).
    exists found, before, after.
    destruct (truthy (Hover.tag found)); [|discriminate].
    repeat split; assumption.
  - intros masks previous Htags. unfold Hover.handleSetHoveredObject.
    rewrite findHovered_firstSmallest.
    rewrite <- firstSmallest_none with (key := Hover.area).
    destruct (firstSmallest _ _ masks) as [found|] eqn:Hfound.
    + pose proof (firstSmallest_some _ _ _ _ _ Hfound)
        as (_ & before & after & Hsplit & _).
      rewrite (Htags found) by (rewrite Hsplit; apply in_elt).
      specialize (Htags found). destruct (Hover.tag found) as [t|].
      * split; discriminate.
      * exfalso. assert (Hin : In found masks)
          by (rewrite Hsplit; apply in_elt).
        specialize (Htags Hin). discriminate.
    + tauto.
  - intros boxes i Hres. unfold Hover.handleSetHoveredBox in Hres.
    rewrite findHovered_firstSmallest in Hres.
    destruct (firstSmallest _ _ (Hover.withIndex 0 boxes)) as [found|]
      eqn:Hfound; [|discriminate].
    injection Hres as Htag.
    apply firstSmallest_some in Hfound.
    destruct Hfound as (Hp & before & after & Hsplit & Hbefore & Hafter).
    assert (Hin : In found (Hover.withIndex 0 boxes))
      by (rewrite Hsplit; apply in_elt).
    exists found. split; [assumption|]. split; [assumption|].
    split.
    { rewrite <- Htag. pose proof (withIndex_nth_error _ _ _ Hin) as Hnth.
      rewrite Nat.sub_0_r in Hnth. assumption. }
    split; [assumption|].
    intros m Hm Hpm.
    destruct (withIndex_split _ _ _ _ _ Hsplit) as [Htb Hta].
    rewrite Hsplit in Hm. apply in_app_or in Hm.
    destruct Hm as [Hm|[<-|Hm]].
    + specialize (Hbefore m Hm Hpm). split; [lra|intros _; assumption].
    + split; [lra|]. intros Hlt. lia.
    + specialize (Hafter m Hm Hpm). split; [assumption|].
      intros Hlt. specialize (Hta m Hm). lia.
  - intros boxes. unfold Hover.handleSetHoveredBox.
    rewrite findHovered_firstSmallest.
    rewrite <- firstSmallest_none with (key := Hover.area).
    destruct (firstSmallest _ _ (Hover.withIndex 0 boxes));
      split; intros; try discriminate; reflexivity.
Qed.

Lemma hover_resolves_to_smallest_rectangle_witness :
  exists found before after,
    [Scenario.tischRectQ; Scenario.tasseRectQ] = (before ++ found :: after)%list
    /\ Hover.tag found = Some "obj-0"
    /\ Hover.containsPointer 280%Q 230%Q found = true
    /\ (forall m, In m before ->
          Hover.containsPointer 280%Q 230%Q m = true ->
          (Hover.area found < Hover.area m)%Q)
    /\ (forall m, In m after ->
          Hover.containsPointer 280%Q 230%Q m = true ->
          (Hover.area found <= Hover.area m)%Q).
Proof.
  refine (proj1 (hover_resolves_to_smallest_rectangle 280%Q 230%Q)
            [Scenario.tischRectQ; Scenario.tasseRectQ] None "obj-0" _).
  vm_compute. reflexivity.
Defined.

(** C2 as stated fails: the pointer is over the table and over the cup on
    it, the rectangle of the table is the larger one, and the cup is
    hovered. *)
Lemma hover_reveals_the_smaller_of_two :
  Hover.containsPointer 280%float 230%float Scenario.tischRect = true
  /\ Hover.containsPointer 280%float 230%float Scenario.tasseRect = true
  /\ lt (Hover.area Scenario.tasseRect) (Hover.area Scenario.tischRect) = true
  /\ Hover.handleSetHoveredObject false
       [Scenario.tischRect; Scenario.tasseRect] 280%float 230%float None
     = Some "obj-0"
  /\ Hover.handleSetHoveredBox (N := float)
       [(100, 100, 400, 300); (200, 250, 80, 60)]%float 280%float 230%float
     = Some 1%nat.
Proof. vm_compute. repeat split. Qed.

(** ** Ray casting in exact arithmetic *)

Section ExactRayCasting.
Import InteractiveImageViewer.

Lemma edge_toggles_Q :
  forall (x y : Q) (pi pj : Q * Q),
    edge_toggles x y pi pj
    = negb (Bool.eqb (aboveRay y pi) (aboveRay y pj))
      && Qltb x (crossing y pi pj).
Proof. intros x y [xi yi] [xj yj]. reflexivity. Qed.

(** The crossing of an edge that the ray meets lies between the ends of
    the edge. *)
Lemma crossing_between :
  forall (y : Q) (pi pj : Q * Q) (lo hi : Q),
    aboveRay y pi <> aboveRay y pj ->
    (lo <= fst pi)%Q -> (lo <= fst pj)%Q ->
    (fst pi <= hi)%Q -> (fst pj <= hi)%Q ->
    (lo <= crossing y pi pj <= hi)%Q.
Proof.
  intros y [xi yi] [xj yj] lo hi Hcross Hli Hlj Hih Hjh.
  unfold aboveRay, crossing in *. simpl in *.
  assert (Hd : ~ (yj - yi == 0)%Q).
  { intros Hz. apply Hcross.
    assert (Heq : (yi == yj)%Q) by lra.
    destruct (Qltb y yi) eqn:Hi; destruct (Qltb y yj) eqn:Hj; try reflexivity.
    - apply Qltb_lt in Hi. apply Qltb_ge in Hj. lra.
    - apply Qltb_ge in Hi. apply Qltb_lt in Hj. lra. }
  set (t := ((y - yi) / (yj - yi))%Q).
  assert (Ht : ((xj - xi) * (y - yi) / (yj - yi) + xi == xi + t * (xj - xi))%Q).
  { unfold t. field. assumption. }
  assert (Htd : (t * (yj - yi) == y - yi)%Q).
  { unfold t. field. assumption. }
  assert (Hrange : (0 <= t <= 1)%Q).
  { destruct (Qltb y yi) eqn:Hi; destruct (Qltb y yj) eqn:Hj;
      try (exfalso; apply Hcross; reflexivity).
    - apply Qltb_lt in Hi. apply Qltb_ge in Hj. split; nra.
    - apply Qltb_ge in Hi. apply Qltb_lt in Hj. split; nra. }
  rewrite Ht. split; nra.
Qed.

(** When no edge that the ray meets has its crossing right of [x], the
    loop never toggles. *)
Lemma ray_loop_no_toggle :
  forall (x y : Q) (rest : list (Q * Q)) (pj : Q * Q) (inside : bool),
    (forall p q, aboveRay y p <> aboveRay y q ->
                 In p (pj :: rest) -> In q (pj :: rest) ->
                 Qltb x (crossing y p q) = false) ->
    ray_loop x y pj rest inside = inside.
Proof.
  intros x y rest. induction rest as [|pi rest IH]; intros pj inside Hno.
  - reflexivity.
  - cbn [ray_loop]. rewrite edge_toggles_Q.
    assert (Hedge : negb (Bool.eqb (aboveRay y pi) (aboveRay y pj))
                    && Qltb x (crossing y pi pj) = false).
    { destruct (Bool.eqb (aboveRay y pi) (aboveRay y pj)) eqn:Heq;
        [reflexivity|].
      apply eqb_false_iff in Heq. simpl. apply Hno; simpl; auto. }
    rewrite Hedge. apply IH.
    intros p q Hpq Hp Hq. apply Hno; simpl in *; tauto.
Qed.

Lemma last_cons_default :
  forall (A : Type) (l : list A) (a d : A), last (a :: l) d = last l a.
Proof.
  intros A l. induction l as [|b l IH]; intros a d; [reflexivity|].
  change (last (a :: b :: l) d) with (last (b :: l) d).
  rewrite (IH b d), (IH b a). reflexivity.
Qed.

(** When every edge that the ray meets has its crossing right of [x], the
    loop toggles once per change of side, and what remains is whether the
    first and the last point are on different sides. *)
Lemma ray_loop_parity :
  forall (x y : Q) (rest : list (Q * Q)) (pj : Q * Q) (inside : bool),
    (forall p q, aboveRay y p <> aboveRay y q ->
                 In p (pj :: rest) -> In q (pj :: rest) ->
                 Qltb x (crossing y p q) = true) ->
    ray_loop x y pj rest inside
    = xorb inside (xorb (aboveRay y pj) (aboveRay y (last rest pj))).
Proof.
  intros x y rest. induction rest as [|pi rest IH]; intros pj inside Hall.
  - simpl. rewrite xorb_nilpotent, xorb_false_r. reflexivity.
  - cbn [ray_loop]. rewrite edge_toggles_Q. rewrite IH.
    + assert (Hlast : last (pi :: rest) pj = last rest pi)
        by apply last_cons_default.
      rewrite Hlast.
      destruct (Bool.eqb (aboveRay y pi) (aboveRay y pj)) eqn:Heq.
      * apply eqb_prop in Heq. rewrite Heq. reflexivity.
      * apply eqb_false_iff in Heq.
        rewrite (Hall pi pj Heq) by (simpl; auto). simpl.
        destruct inside, (aboveRay y pi), (aboveRay y pj),
          (aboveRay y (last rest pi)); simpl; try reflexivity;
          exfalso; apply Heq; reflexivity.
    + intros p q Hpq Hp Hq. apply Hall; simpl in *; tauto.
Qed.

Lemma last_In :
  forall (A : Type) (l : list A) (d : A), l <> [] -> In (last l d) l.
Proof.
  intros A l d. induction l as [|a l IH]; intros Hne; [contradiction|].
  destruct l as [|b l]; [left; reflexivity|].
  right. apply IH. discriminate.
Qed.

(** In exact arithmetic (not in the binary64 arithmetic of the program,
    where the crossing of an edge is rounded): a point strictly outside
    the bounding box of a polygon - left of, right of, above or below all
    its points - is outside the polygon for [isPointInPolygon], for every
    polygon. *)
Lemma outside_bounding_box_is_outside :
  forall (x y : Q) (polygon : list (Q * Q)),
    (forall p, In p polygon -> (x < fst p)%Q)
    \/ (forall p, In p polygon -> (fst p < x)%Q)
    \/ (forall p, In p polygon -> (y < snd p)%Q)
    \/ (forall p, In p polygon -> (snd p < y)%Q) ->
    isPointInPolygon (x, y) polygon = false.
Proof.
  intros x y polygon Hout. unfold isPointInPolygon.
  destruct polygon as [|p0 rest]; [reflexivity|].
  set (polygon := p0 :: rest) in *.
  assert (Hlast : In (last polygon p0) polygon)
    by (apply last_In; discriminate).
  destruct Hout as [Hleft|[Hright|[Hbelow|Habove]]].
  - rewrite ray_loop_parity.
    + unfold polygon. rewrite !last_cons_default, xorb_nilpotent. reflexivity.
    + intros p q Hpq Hp Hq.
      assert (Hp' : In p polygon) by (destruct Hp as [<-|Hp]; assumption).
      assert (Hq' : In q polygon) by (destruct Hq as [<-|Hq]; assumption).
      apply Qltb_lt.
      pose proof (Hleft p Hp') as Hxp. pose proof (Hleft q Hq') as Hxq.
      destruct (Qlt_le_dec (fst p) (fst q)) as [Hlt|Hle].
      * pose proof (crossing_between y p q (fst p) (fst q) Hpq) as Hb. lra.
      * pose proof (crossing_between y p q (fst q) (fst p) Hpq) as Hb. lra.
  - apply ray_loop_no_toggle. intros p q Hpq Hp Hq.
    assert (Hp' : In p polygon) by (destruct Hp as [<-|Hp]; assumption).
    assert (Hq' : In q polygon) by (destruct Hq as [<-|Hq]; assumption).
    apply Qltb_ge.
    pose proof (Hright p Hp') as Hxp. pose proof (Hright q Hq') as Hxq.
    destruct (Qlt_le_dec (fst p) (fst q)) as [Hlt|Hle].
    + pose proof (crossing_between y p q (fst p) (fst q) Hpq) as Hb. lra.
    + pose proof (crossing_between y p q (fst q) (fst p) Hpq) as Hb. lra.
  - apply ray_loop_no_toggle. intros p q Hpq Hp Hq. exfalso. apply Hpq.
    assert (Hp' : In p polygon) by (destruct Hp as [<-|Hp]; assumption).
    assert (Hq' : In q polygon) by (destruct Hq as [<-|Hq]; assumption).
    unfold aboveRay.
    rewrite (proj2 (Qltb_lt _ _) (Hbelow p Hp')).
    rewrite (proj2 (Qltb_lt _ _) (Hbelow q Hq')). reflexivity.
  - apply ray_loop_no_toggle. intros p q Hpq Hp Hq. exfalso. apply Hpq.
    assert (Hp' : In p polygon) by (destruct Hp as [<-|Hp]; assumption).
    assert (Hq' : In q polygon) by (destruct Hq as [<-|Hq]; assumption).
    unfold aboveRay.
    rewrite (proj2 (Qltb_ge _ _) (Qlt_le_weak _ _ (Habove p Hp'))).
    rewrite (proj2 (Qltb_ge _ _) (Qlt_le_weak _ _ (Habove q Hq'))).
    reflexivity.
Qed.

Lemma Qltb_compat :
  forall x a b : Q, (a == b)%Q -> Qltb x a = Qltb x b.
Proof.
  intros x a b Hab.
  destruct (Qltb x a) eqn:Ha; destruct (Qltb x b) eqn:Hb; try reflexivity.
  - apply Qltb_lt in Ha. apply Qltb_ge in Hb. lra.
  - apply Qltb_ge in Ha. apply Qltb_lt in Hb. lra.
Qed.

(** In exact arithmetic the two directions of one segment toggle
    together. *)
Lemma edge_toggles_symmetric :
  forall (x y : Q) (p q : Q * Q),
    edge_toggles x y p q = edge_toggles x y q p.
Proof.
  intros x y p q. rewrite !edge_toggles_Q.
  destruct (Bool.eqb (aboveRay y p) (aboveRay y q)) eqn:Heq.
  - apply eqb_prop in Heq. rewrite Heq, eqb_reflx. reflexivity.
  - assert (Hqp : Bool.eqb (aboveRay y q) (aboveRay y p) = false).
    { apply eqb_false_iff. apply eqb_false_iff in Heq. congruence. }
    rewrite Hqp. simpl. apply Qltb_compat.
    apply eqb_false_iff in Heq.
    destruct p as [xp yp], q as [xq yq]. unfold crossing, aboveRay in *.
    simpl in *.
    assert (Hd : ~ (yq - yp == 0)%Q).
    { intros Hz. apply Heq.
      destruct (Qltb y yp) eqn:Hi; destruct (Qltb y yq) eqn:Hj;
        try reflexivity.
      - apply Qltb_lt in Hi. apply Qltb_ge in Hj. lra.
      - apply Qltb_ge in Hi. apply Qltb_lt in Hj. lra. }
    field. split; [lra|assumption].
Qed.

(** In exact arithmetic (not in the binary64 arithmetic of the program,
    see [two_point_mask_is_hit]): a mask with fewer than three points
    contains no point. *)
Lemma degenerate_polygon_is_empty_exactly :
  forall (point : Q * Q) (polygon : list (Q * Q)),
    (List.length polygon < 3)%nat ->
    isPointInPolygon point polygon = false.
Proof.
  intros [x y] polygon Hlen. unfold isPointInPolygon.
  destruct polygon as [|p0 [|p1 [|p2 rest]]];
    [reflexivity| | |simpl in Hlen; lia].
  - cbn [last ray_loop]. rewrite edge_toggles_Q, eqb_reflx. reflexivity.
  - cbn [last ray_loop].
    rewrite (edge_toggles_symmetric x y p1 p0).
    destruct (edge_toggles x y p0 p1); reflexivity.
Qed.

End ExactRayCasting.

(** ** Clicks on stacked objects *)

Section Clicks.
Import InteractiveImageViewer.

(** An object under the click is one of the objects of the round, and
    [objects.find] by its id finds an object with that id. *)
Lemma hit_is_found :
  forall (objects : list GameObject) (clickPos : float * float) (o : GameObject),
    In o (sortByArea (getObjectsAtPosition objects clickPos)) ->
    exists c, find_by_id objects (id o) = Some c /\ id c = id o.
Proof.
  intros objects clickPos o Hin. unfold sortByArea in Hin.
  apply Array_sort_In_any in Hin. unfold getObjectsAtPosition in Hin.
  apply filter_In in Hin. destruct Hin as [Hin _].
  unfold find_by_id.
  destruct (find (fun o0 => String.eqb (id o0) (id o)) objects) as [c|] eqn:Hf.
  - exists c. split; [reflexivity|]. apply find_some in Hf.
    apply String.eqb_eq. tauto.
  - exfalso. apply (find_none _ _ Hf) in Hin. simpl in Hin.
    rewrite String.eqb_refl in Hin. discriminate.
Qed.

Lemma handlePolygonClick_on_hits :
  forall (objects : list GameObject) (clickPos : float * float)
         (o : GameObject) (rest : list GameObject) (v : ViewerState),
    sortByArea (getObjectsAtPosition objects clickPos) = o :: rest ->
    handlePolygonClick false objects clickPos v = resolveClick (o :: rest) v.
Proof.
  intros objects clickPos o rest v Hhits. unfold handlePolygonClick.
  destruct (getObjectsAtPosition objects clickPos) as [|h hs] eqn:Hat.
  - discriminate.
  - rewrite Hhits. reflexivity.
Qed.

(** The handler alone, on a click state without a previous hit set: the
    smallest object is selected and the hit set is remembered. *)
Lemma resolveClick_fresh :
  forall (o : GameObject) (rest : list GameObject) (v : ViewerState),
    objectsAtLastClick v = [] ->
    resolveClick (o :: rest) v
    = ({| clickedObject := Some o; objectsAtLastClick := o :: rest;
          currentObjectIndex := 0 |}, Some (id o)).
Proof.
  intros o rest v Hlast. unfold resolveClick, isSamePosition.
  rewrite Hlast. reflexivity.
Qed.

Lemma isSamePosition_same :
  forall (o : GameObject) (rest : list GameObject),
    isSamePosition (o :: rest) (o :: rest) = true.
Proof.
  intros o rest. unfold isSamePosition.
  rewrite Nat.eqb_refl. cbn [List.length Nat.ltb Nat.leb andb].
  apply forallb_forall. intros x Hx. apply existsb_exists.
  exists x. split; [assumption|apply String.eqb_refl].
Qed.

(** The handler alone, on the hit set of the previous click: the next
    index is selected, cyclically. *)
Lemma resolveClick_cycles :
  forall (hits : list GameObject) (v : ViewerState),
    isSamePosition hits (objectsAtLastClick v) = true ->
    (1 < List.length hits)%nat ->
    exists o,
      nth_error hits ((currentObjectIndex v + 1) mod List.length hits)
      = Some o
      /\ resolveClick hits v
         = ({| clickedObject := Some o;
               objectsAtLastClick := objectsAtLastClick v;
               currentObjectIndex :=
                 (currentObjectIndex v + 1) mod List.length hits |},
            Some (id o)).
Proof.
  intros hits v Hsame Hlen. unfold resolveClick. rewrite Hsame.
  rewrite (proj2 (Nat.ltb_lt _ _) Hlen). simpl andb. cbv iota.
  assert (Hidx : ((currentObjectIndex v + 1) mod List.length hits
                  < List.length hits)%nat)
    by (apply Nat.mod_upper_bound; lia).
  destruct (nth_error hits ((currentObjectIndex v + 1) mod List.length hits))
    as [o|] eqn:Hnth.
  - exists o. split; reflexivity.
  - apply nth_error_None in Hnth. lia.
Qed.

(** While the human picks, two clicks at one point on a stack of objects
    both select the smallest object, and the third click selects the
    second smallest: the effect on [selectedObjectId] clears the hit set
    that the first click stored. *)
Lemma clicks_on_a_stack_while_picking :
  forall (sys : Game.System) (clickPos : float * float)
         (o o' : GameObject) (rest : list GameObject),
    App.gameState (Game.app sys) = USER_PICKING ->
    App.selectedObjectId (Game.app sys) = None ->
    objectsAtLastClick (Game.viewer sys) = [] ->
    sortByArea (getObjectsAtPosition (App.objects (Game.app sys)) clickPos)
    = o :: o' :: rest ->
    id o <> EmptyString ->
    snd (Game.clicks [clickPos; clickPos; clickPos] sys)
    = [Some (id o); Some (id o); Some (id o')].
Proof.
  intros [a v] clickPos o o' rest Hphase Hnone Hfresh Hhits Hid.
  simpl in Hphase, Hnone, Hfresh, Hhits.
  destruct (hit_is_found (App.objects a) clickPos o) as (c & Hfind & Hc).
  { rewrite Hhits. left. reflexivity. }
  assert (Htruthy : truthy (Some (id c)) = true).
  { rewrite Hc. destruct (id o); [contradiction|reflexivity]. }
  (* first click *)
  assert (H1 : Game.click clickPos {| Game.app := a; Game.viewer := v |}
               = ({| Game.app :=
                       App.setMessage (App.selectionMessage c)
                         (App.setGameState USER_CONFIRMING
                            (App.setUserSelection (Some c) a));
                     Game.viewer :=
                       {| clickedObject := find_by_id (App.objects a) (id c);
                          objectsAtLastClick := [];
                          currentObjectIndex := 0 |} |},
                  Some (id o))).
  { unfold Game.click. cbn [Game.app Game.viewer].
    unfold App.viewerDisabled. rewrite Hphase. cbn [GameState_eqb orb negb].
    rewrite (handlePolygonClick_on_hits _ _ _ _ _ Hhits).
    rewrite resolveClick_fresh by assumption.
    unfold App.handleMaskClick. rewrite Hfind, Hphase.
    rewrite Hnone.
    unfold App.selectedObjectId, or_else. cbn [App.userSelection App.setMessage
      App.setGameState App.setUserSelection option_map].
    rewrite Htruthy. cbn [Game.option_string_eqb].
    unfold selectedObjectEffect. rewrite Htruthy.
    cbn [App.objects App.setMessage App.setGameState App.setUserSelection].
    reflexivity. }
  (* second click *)
  set (a1 := App.setMessage (App.selectionMessage c)
               (App.setGameState USER_CONFIRMING
                  (App.setUserSelection (Some c) a))) in *.
  assert (H2 : Game.click clickPos
                 {| Game.app := a1;
                    Game.viewer :=
                      {| clickedObject := find_by_id (App.objects a) (id c);
                         objectsAtLastClick := [];
                         currentObjectIndex := 0 |} |}
               = ({| Game.app := a1;
                     Game.viewer :=
                       {| clickedObject := Some o;
                          objectsAtLastClick := o :: o' :: rest;
                          currentObjectIndex := 0 |} |},
                  Some (id o))).
  { unfold Game.click. cbn [Game.app Game.viewer].
    change (App.objects a1) with (App.objects a).
    change (App.viewerDisabled a1) with false.
    rewrite (handlePolygonClick_on_hits _ _ _ _ _ Hhits).
    rewrite resolveClick_fresh by reflexivity.
    assert (Hsame : App.handleMaskClick (id o) a1 = a1).
    { unfold App.handleMaskClick.
      change (App.objects a1) with (App.objects a). rewrite Hfind.
      reflexivity. }
    rewrite Hsame.
    assert (Heqb : Game.option_string_eqb (App.selectedObjectId a1)
                     (App.selectedObjectId a1) = true).
    { destruct (App.selectedObjectId a1); simpl;
        [apply String.eqb_refl|reflexivity]. }
    rewrite Heqb. reflexivity. }
  (* third click *)
  assert (H3 : exists sys3,
               Game.click clickPos
                 {| Game.app := a1;
                    Game.viewer :=
                      {| clickedObject := Some o;
                         objectsAtLastClick := o :: o' :: rest;
                         currentObjectIndex := 0 |} |}
               = (sys3, Some (id o'))).
  { unfold Game.click. cbn [Game.app Game.viewer].
    change (App.objects a1) with (App.objects a).
    change (App.viewerDisabled a1) with false.
    rewrite (handlePolygonClick_on_hits _ _ _ _ _ Hhits).
    unfold resolveClick. cbn [objectsAtLastClick currentObjectIndex].
    rewrite isSamePosition_same.
    cbn [List.length Nat.ltb Nat.leb andb Nat.add].
    rewrite Nat.mod_small by lia.
    cbn [nth_error]. eexists. reflexivity. }
  destruct H3 as [sys3 H3].
  cbn [Game.clicks]. rewrite H1, H2, H3. reflexivity.
Qed.

End Clicks.

(** C1 (what the program does on scenario D): the cup stands on the
    table and both masks contain the centre of the picture.  While the
    human picks, three clicks at the centre select the cup, the cup again
    and then the table; while the human guesses the pick of the AI, they
    select the cup, the table and the cup. *)
Theorem three_clicks_on_cup_and_table :
  map id (InteractiveImageViewer.sortByArea
            (InteractiveImageViewer.getObjectsAtPosition
               (App.objects Scenario.picking) Scenario.center))
  = ["obj-0"; "obj-1"]
  /\ snd (Game.clicks [Scenario.center; Scenario.center; Scenario.center]
            {| Game.app := Scenario.picking;
               Game.viewer := InteractiveImageViewer.initialViewerState |})
     = [Some "obj-0"; Some "obj-0"; Some "obj-1"]
  /\ snd (Game.clicks [Scenario.center; Scenario.center; Scenario.center]
            {| Game.app := Scenario.guessing;
               Game.viewer := InteractiveImageViewer.initialViewerState |})
     = [Some "obj-0"; Some "obj-1"; Some "obj-0"].
Proof. vm_compute. repeat split. Qed.

(** C6 (what the program does on a mask of two points): the stroke from
    (0, 0) to (0.1, 0.2) is hit by the click at pixel (5, 10) of a view of
    100 by 100 pixels, and the click selects it.  The two directions of the
    segment give crossings that differ by rounding, 0.05000000000000001
    and 0.049999999999999996, and 0.05 lies between them: the first edge
    toggles and the second does not.  In exact arithmetic the same mask
    contains no point. *)
Theorem two_point_mask_is_hit :
  List.length (mask Scenario.strich) = 2%nat
  /\ InteractiveImageViewer.clickPosition 5 10 100 100 = (0.05, 0.1)%float
  /\ InteractiveImageViewer.edge_toggles 0.05%float 0.1%float
       (0, 0)%float (0.1, 0.2)%float = true
  /\ InteractiveImageViewer.edge_toggles 0.05%float 0.1%float
       (0.1, 0.2)%float (0, 0)%float = false
  /\ InteractiveImageViewer.isPointInPolygon (0.05, 0.1)%float
       (mask Scenario.strich) = true
  /\ InteractiveImageViewer.getObjectsAtPosition
       [Scenario.tisch; Scenario.strich] (0.05, 0.1)%float
     = [Scenario.strich]
  /\ snd (InteractiveImageViewer.handlePolygonClick false
            [Scenario.tisch; Scenario.strich] (0.05, 0.1)%float
            InteractiveImageViewer.initialViewerState)
     = Some "obj-3"
  /\ InteractiveImageViewer.isPointInPolygon (5 # 100, 10 # 100)%Q
       [(0, 0); (1 # 10, 2 # 10)]%Q = false.
Proof. vm_compute. repeat split. Qed.

(** ** The scenarios of the specification on the model *)

(** Scenario A: the human picks the cup and gives a clue, the candidates
    are the cup and the table, the first guess is accepted: 10 points for
    the AI.  Scenario B: no candidate comes back: the round is over and the
    human has 10 points.  Scenario C: the description fails, the fallback
    phrase is the clue, and the human finds the lamp with the third click:
    6 points. *)
Lemma scenarios_A_B_C :
  (let s := App.guessAccepted Scenario.toLowerCase
              (Scenario.aiGuessing ["Tasse"; "Tisch"]) in
   App.gameState s = ROUND_OVER
   /\ App.score s = {| user := 0; ai := 10 |})
  /\ (let s := Scenario.aiGuessing [] in
      App.gameState s = ROUND_OVER
      /\ App.score s = {| user := 10; ai := 0 |})
  /\ (let s := Game.maskClicks ["obj-0"; "obj-1"; "obj-2"]
                 (Game.aiPicks
                    (GeminiService.generateDescriptionForObject Scenario.trim)
                    2 GeminiService.Throws Scenario.aiPicking) in
      App.gameState s = ROUND_OVER
      /\ App.score s = {| user := 6; ai := 0 |}
      /\ App.attemptCount s = 3%Z).
Proof. vm_compute. repeat split. Qed.

(** After the last candidate was rejected the buttons "Ja" and "Nein" are
    still shown, on an empty queue; "Ja" then gives the AI the points of
    the second attempt. *)
Lemma yes_is_offered_on_an_empty_queue :
  let s := App.guessRejected Scenario.toLowerCase
             (Scenario.aiGuessing ["tasse"]) in
  App.aiGuesses s = []
  /\ ControlsPanel.available s false ControlsPanel.Yes = true
  /\ App.score (App.guessAccepted Scenario.toLowerCase s)
     = {| user := 0; ai := 8 |}.
Proof. vm_compute. repeat split. Qed.

(* ================================================================== *)
(** ** Ray casting in any arithmetic *)

Section RayCastingAnyNumber.
Context {N : Type} {HN : Number N}.

Lemma ray_loop_same_side :
  forall (x y : N) (rest : list (N * N)) (pj : N * N) (inside : bool),
    (forall p, In p rest -> gt (snd p) y = gt (snd pj) y) ->
    InteractiveImageViewer.ray_loop x y pj rest inside = inside.
Proof.
  intros x y rest; induction rest as [|pi rest IH]; intros pj inside Hs.
  - reflexivity.
  - cbn [InteractiveImageViewer.ray_loop].
    assert (Ht : InteractiveImageViewer.edge_toggles x y pi pj = false).
    { unfold InteractiveImageViewer.edge_toggles.
      destruct pi as [xi yi], pj as [xj yj].
      specialize (Hs (xi, yi) (or_introl eq_refl)). cbn [snd] in Hs.
      rewrite Hs, Bool.eqb_reflx. reflexivity. }
    rewrite Ht. apply IH. intros p Hp.
    rewrite (Hs p (or_intror Hp)). symmetry. apply Hs. left; reflexivity.
Qed.

End RayCastingAnyNumber.

(** X1 (isPointInPolygon, any arithmetic, binary64 included).  A polygon
    whose points all give the same answer to the test [yi > y] of the loop
    (all above the height of the point, or none above it) does not contain
    the point; in particular the empty polygon and a polygon of one point
    contain no point. *)
Theorem polygon_beside_the_ray_is_missed :
  forall (N : Type) (HN : Number N),
    (forall (x y : N) (polygon : list (N * N)),
        (forall p q, In p polygon -> In q polygon ->
                     gt (snd p) y = gt (snd q) y) ->
        InteractiveImageViewer.isPointInPolygon (x, y) polygon = false)
    /\ (forall (point : N * N) (polygon : list (N * N)),
          (List.length polygon < 2)%nat ->
          InteractiveImageViewer.isPointInPolygon point polygon = false).
Proof.
  intros N HN.
  assert (Hgen : forall (x y : N) (polygon : list (N * N)),
             (forall p q, In p polygon -> In q polygon ->
                          gt (snd p) y = gt (snd q) y) ->
             InteractiveImageViewer.isPointInPolygon (x, y) polygon = false).
  { intros x y polygon Hs. unfold InteractiveImageViewer.isPointInPolygon.
    destruct polygon as [|p0 rest]; [reflexivity|].
    apply ray_loop_same_side. intros p Hp. apply Hs; [exact Hp|].
    apply last_In. discriminate. }
  split; [exact Hgen|].
  intros [x y] polygon Hlen. apply Hgen. intros p q Hp Hq.
  destruct polygon as [|a [|b rest]].
  - destruct Hp.
  - destruct Hp as [<-|[]]. destruct Hq as [<-|[]]. reflexivity.
  - simpl in Hlen. lia.
Qed.

Lemma polygon_beside_the_ray_is_missed_witness :
  InteractiveImageViewer.isPointInPolygon (0.5, 0.9)%float (mask Scenario.tisch)
  = false.
Proof.
  refine (proj1 (polygon_beside_the_ray_is_missed float Number_float)
            0.5%float 0.9%float (mask Scenario.tisch) _).
  intros p q Hp Hq. simpl in Hp, Hq.
  destruct Hp as [<-|[<-|[<-|[<-|[]]]]];
    destruct Hq as [<-|[<-|[<-|[<-|[]]]]]; reflexivity.
Defined.

(* ================================================================== *)
(** ** Ray casting on a rectangle *)

Lemma crossing_vertical :
  forall (y a yi yj : Q), (crossing y (a, yi) (a, yj) == a)%Q.
Proof.
  intros. unfold crossing. cbn [fst snd]. unfold Qdiv. ring.
Qed.

(** X4 (isPointInPolygon, exact arithmetic).  For an axis-parallel
    rectangle given by its corners in drawing order, the test is true
    exactly on the rectangle without its right and bottom edges:
    [x0 <= x < x1] and [y0 <= y < y1]. *)
Theorem rectangle_contains_its_half_open_interior :
  forall x0 y0 x1 y1 x y : Q,
    (x0 < x1)%Q -> (y0 < y1)%Q ->
    InteractiveImageViewer.isPointInPolygon (x, y)
      [(x0, y0); (x1, y0); (x1, y1); (x0, y1)]
    = Qle_bool x0 x && Qltb x x1 && Qle_bool y0 y && Qltb y y1.
Proof.
  intros x0 y0 x1 y1 x y Hx Hy.
  unfold InteractiveImageViewer.isPointInPolygon.
  cbn [last InteractiveImageViewer.ray_loop].
  rewrite !edge_toggles_Q.
  rewrite (Qltb_compat x _ _ (crossing_vertical y x0 y0 y1)).
  rewrite (Qltb_compat x _ _ (crossing_vertical y x1 y1 y0)).
  unfold aboveRay. cbn [snd].
  rewrite !Bool.eqb_reflx. cbn [negb andb].
  assert (E0 : Qle_bool x0 x = negb (Qltb x x0))
    by (unfold Qltb; rewrite Bool.negb_involutive; reflexivity).
  assert (E1 : Qle_bool y0 y = negb (Qltb y y0))
    by (unfold Qltb; rewrite Bool.negb_involutive; reflexivity).
  rewrite E0, E1.
  destruct (Qltb x x0) eqn:L0; destruct (Qltb x x1) eqn:L1;
    destruct (Qltb y y0) eqn:A0; destruct (Qltb y y1) eqn:A1;
    try reflexivity;
    repeat match goal with
           | H : Qltb _ _ = true |- _ => apply Qltb_lt in H
           | H : Qltb _ _ = false |- _ => apply Qltb_ge in H
           end; exfalso; lra.
Qed.

Lemma rectangle_contains_its_half_open_interior_witness :
  InteractiveImageViewer.isPointInPolygon (1 # 2, 1 # 2)%Q
    [(2 # 10, 2 # 10); (8 # 10, 2 # 10); (8 # 10, 8 # 10); (2 # 10, 8 # 10)]%Q
  = true.
Proof.
  rewrite (rectangle_contains_its_half_open_interior
             (2 # 10) (2 # 10) (8 # 10) (8 # 10) (1 # 2) (1 # 2));
    reflexivity.
Defined.

(* ================================================================== *)
(** ** Clicks on polygons *)

Section PolygonClicks.
Import InteractiveImageViewer.

Lemma resolveClick_emits :
  forall (hits : list GameObject) (v v' : ViewerState) (objectId : string),
    resolveClick hits v = (v', Some objectId) ->
    exists o, In o hits /\ id o = objectId /\ clickedObject v' = Some o.
Proof.
  intros hits v v' objectId. unfold resolveClick.
  destruct (isSamePosition hits (objectsAtLastClick v)
            && (1 <? List.length hits)%nat).
  - destruct (nth_error hits ((currentObjectIndex v + 1) mod List.length hits))
      as [o|] eqn:Hnth; intros Heq; inversion Heq; subst.
    exists o. split; [eapply nth_error_In; eassumption|split; reflexivity].
  - destruct hits as [|o rest]; intros Heq; inversion Heq; subst.
    exists o. split; [left; reflexivity|split; reflexivity].
Qed.

Lemma resolveClick_on_hits_emits :
  forall (hits : list GameObject) (v : ViewerState),
    hits <> [] ->
    exists v' objectId, resolveClick hits v = (v', Some objectId).
Proof.
  intros hits v Hne. unfold resolveClick.
  destruct (isSamePosition hits (objectsAtLastClick v)) eqn:Hsame;
    destruct (1 <? List.length hits)%nat eqn:Hlen; cbn [andb].
  - apply Nat.ltb_lt in Hlen.
    destruct (resolveClick_cycles hits v Hsame Hlen) as (o & Hnth & _).
    rewrite Hnth. eexists; eexists; reflexivity.
  - destruct hits; [contradiction|]. eexists; eexists; reflexivity.
  - destruct hits; [contradiction|]. eexists; eexists; reflexivity.
  - destruct hits; [contradiction|]. eexists; eexists; reflexivity.
Qed.

Lemma sortByArea_In :
  forall (hits : list GameObject) (o : GameObject),
    In o (sortByArea hits) <-> In o hits.
Proof.
  intros hits o. unfold sortByArea. apply Array_sort_In_any.
Qed.

Lemma sortByArea_nil :
  forall hits : list GameObject, sortByArea hits = [] -> hits = [].
Proof.
  intros [|h hs] Hs; [reflexivity|].
  assert (Hin : In h (sortByArea (h :: hs)))
    by (apply sortByArea_In; left; reflexivity).
  rewrite Hs in Hin. destruct Hin.
Qed.

(** X5 (handlePolygonClick).  A click calls [onMaskClick] exactly when the
    viewer is enabled and the mask of some object contains the click
    position; the id it passes is the id of an object of the round whose
    mask contains the position, and that object becomes the clicked one.
    A disabled viewer keeps its click state; a click on no mask clears
    it. *)
Theorem click_reports_an_object_under_the_pointer :
  forall (disabled : bool) (objects : list GameObject)
         (clickPos : float * float) (v : ViewerState),
    (forall (v' : ViewerState) (objectId : string),
        handlePolygonClick disabled objects clickPos v = (v', Some objectId) ->
        disabled = false
        /\ exists o, In o objects
                     /\ isPointInPolygon clickPos (mask o) = true
                     /\ id o = objectId
                     /\ clickedObject v' = Some o)
    /\ (disabled = false ->
        (exists o, In o objects /\ isPointInPolygon clickPos (mask o) = true) ->
        exists v' objectId,
          handlePolygonClick disabled objects clickPos v = (v', Some objectId))
    /\ (disabled = true ->
        handlePolygonClick disabled objects clickPos v = (v, None))
    /\ (disabled = false ->
        (forall o, In o objects -> isPointInPolygon clickPos (mask o) = false) ->
        handlePolygonClick disabled objects clickPos v
        = (initialViewerState, None)).
Proof.
  intros disabled objects clickPos v. repeat split.
  - destruct disabled; [|reflexivity].
    unfold handlePolygonClick in H. discriminate.
  - unfold handlePolygonClick in H. destruct disabled; [discriminate|].
    destruct (getObjectsAtPosition objects clickPos) as [|h hs] eqn:Hat;
      [discriminate|].
    apply resolveClick_emits in H. destruct H as (o & Hin & Hid & Hc).
    exists o. apply (proj1 (sortByArea_In _ _)) in Hin. rewrite <- Hat in Hin.
    unfold getObjectsAtPosition in Hin. apply filter_In in Hin.
    destruct Hin as [Hin Hhit]. repeat split; assumption.
  - intros -> (o & Hin & Hhit). unfold handlePolygonClick.
    assert (Hat : In o (getObjectsAtPosition objects clickPos))
      by (apply filter_In; split; assumption).
    destruct (getObjectsAtPosition objects clickPos) as [|h hs] eqn:Heq;
      [destruct Hat|].
    apply resolveClick_on_hits_emits. intros Hnil.
    apply sortByArea_nil in Hnil. discriminate.
  - intros ->. reflexivity.
  - intros -> Hnone. unfold handlePolygonClick.
    destruct (getObjectsAtPosition objects clickPos) as [|h hs] eqn:Heq;
      [reflexivity|].
    assert (Hin : In h (getObjectsAtPosition objects clickPos))
      by (rewrite Heq; left; reflexivity).
    apply filter_In in Hin. destruct Hin as [Hin Hhit].
    rewrite (Hnone h Hin) in Hhit. discriminate.
Qed.

End PolygonClicks.

Section ClickSequences.
Import InteractiveImageViewer.

Lemma option_string_eqb_eq :
  forall a b : option string, Game.option_string_eqb a b = true <-> a = b.
Proof.
  intros [a|] [b|]; simpl; split; intros Heq; try discriminate;
    try reflexivity.
  - apply String.eqb_eq in Heq. congruence.
  - inversion Heq. apply String.eqb_refl.
Qed.

Lemma option_string_eqb_refl :
  forall a : option string, Game.option_string_eqb a a = true.
Proof. intros a. apply option_string_eqb_eq. reflexivity. Qed.

Lemma option_string_eqb_neq :
  forall a b : option string, a <> b -> Game.option_string_eqb a b = false.
Proof.
  intros a b Hne. destruct (Game.option_string_eqb a b) eqn:Heq;
    [|reflexivity].
  apply option_string_eqb_eq in Heq. contradiction.
Qed.

(** A click on an enabled viewer whose sorted hit set is known. *)
Lemma click_on_hits :
  forall (sys : Game.System) (clickPos : float * float)
         (o : GameObject) (rest : list GameObject),
    App.viewerDisabled (Game.app sys) = false ->
    sortByArea (getObjectsAtPosition (App.objects (Game.app sys)) clickPos)
    = o :: rest ->
    Game.click clickPos sys
    = (let app1 :=
         match snd (resolveClick (o :: rest) (Game.viewer sys)) with
         | Some objectId => App.handleMaskClick objectId (Game.app sys)
         | None => Game.app sys
         end in
       {| Game.app := app1;
          Game.viewer :=
            if Game.option_string_eqb (App.selectedObjectId app1)
                 (App.selectedObjectId (Game.app sys))
            then fst (resolveClick (o :: rest) (Game.viewer sys))
            else selectedObjectEffect (App.selectedObjectId app1)
                   (App.objects app1)
                   (fst (resolveClick (o :: rest) (Game.viewer sys))) |},
       snd (resolveClick (o :: rest) (Game.viewer sys))).
Proof.
  intros sys clickPos o rest Hen Hhits. unfold Game.click.
  rewrite Hen, (handlePolygonClick_on_hits _ _ _ _ _ Hhits).
  destruct (resolveClick (o :: rest) (Game.viewer sys)) as [v1 e].
  reflexivity.
Qed.

(** The hit set of the previous click, clicked again: the object at the
    next index, cyclically, also when the set has one element. *)
Lemma resolveClick_again :
  forall (o : GameObject) (rest : list GameObject) (v : ViewerState),
    objectsAtLastClick v = o :: rest ->
    exists x,
      nth_error (o :: rest)
        ((currentObjectIndex v + 1) mod List.length (o :: rest)) = Some x
      /\ snd (resolveClick (o :: rest) v) = Some (id x)
      /\ objectsAtLastClick (fst (resolveClick (o :: rest) v)) = o :: rest
      /\ currentObjectIndex (fst (resolveClick (o :: rest) v))
         = (currentObjectIndex v + 1) mod List.length (o :: rest).
Proof.
  intros o rest v Hlast.
  destruct rest as [|o' rest'].
  - exists o. unfold resolveClick. rewrite Hlast.
    rewrite Bool.andb_false_r. cbn [List.length].
    rewrite Nat.mod_1_r. repeat split; reflexivity.
  - destruct (resolveClick_cycles (o :: o' :: rest') v) as (x & Hnth & Hres).
    + rewrite Hlast. apply isSamePosition_same.
    + simpl. lia.
    + exists x. rewrite Hres. cbn [fst snd objectsAtLastClick currentObjectIndex].
      repeat split; assumption.
Qed.

Lemma find_by_id_In :
  forall (objects : list GameObject) (x : GameObject),
    In x objects ->
    exists c, find_by_id objects (id x) = Some c /\ id c = id x.
Proof.
  intros objects x Hin. unfold find_by_id.
  destruct (find (fun o0 => String.eqb (id o0) (id x)) objects) as [c|] eqn:Hf.
  - exists c. split; [reflexivity|]. apply find_some in Hf.
    apply String.eqb_eq. tauto.
  - exfalso. apply (find_none _ _ Hf) in Hin. simpl in Hin.
    rewrite String.eqb_refl in Hin. discriminate.
Qed.

Lemma hits_are_objects :
  forall (objects : list GameObject) (clickPos : float * float) (x : GameObject),
    In x (sortByArea (getObjectsAtPosition objects clickPos)) -> In x objects.
Proof.
  intros objects clickPos x Hin. apply (proj1 (sortByArea_In _ _)) in Hin.
  unfold getObjectsAtPosition in Hin. apply filter_In in Hin. tauto.
Qed.

(** *** While the human guesses *)

Lemma click_while_guessing :
  forall (sys : Game.System) (clickPos : float * float) (aiSel : GameObject)
         (o : GameObject) (rest : list GameObject) (i : nat),
    App.gameState (Game.app sys) = USER_GUESSING ->
    App.aiSelection (Game.app sys) = Some aiSel ->
    sortByArea (getObjectsAtPosition (App.objects (Game.app sys)) clickPos)
    = o :: rest ->
    (forall x, In x (o :: rest) -> id x <> id aiSel) ->
    (objectsAtLastClick (Game.viewer sys) = [] /\ i = 0%nat)
    \/ (objectsAtLastClick (Game.viewer sys) = o :: rest
        /\ i = ((currentObjectIndex (Game.viewer sys) + 1)
                mod List.length (o :: rest))%nat) ->
    exists x sys',
      nth_error (o :: rest) i = Some x
      /\ Game.click clickPos sys = (sys', Some (id x))
      /\ App.gameState (Game.app sys') = USER_GUESSING
      /\ App.aiSelection (Game.app sys') = Some aiSel
      /\ App.objects (Game.app sys') = App.objects (Game.app sys)
      /\ App.score (Game.app sys') = App.score (Game.app sys)
      /\ App.attemptCount (Game.app sys')
         = (App.attemptCount (Game.app sys) + 1)%Z
      /\ objectsAtLastClick (Game.viewer sys') = o :: rest
      /\ currentObjectIndex (Game.viewer sys') = i.
Proof.
  intros [a v] clickPos aiSel o rest i Hphase Hai Hhits Hwrong Hv.
  cbn [Game.app Game.viewer] in *.
  assert (Hres : exists x,
             nth_error (o :: rest) i = Some x
             /\ snd (resolveClick (o :: rest) v) = Some (id x)
             /\ objectsAtLastClick (fst (resolveClick (o :: rest) v)) = o :: rest
             /\ currentObjectIndex (fst (resolveClick (o :: rest) v)) = i).
  { destruct Hv as [[Hlast ->]|[Hlast ->]].
    - exists o. rewrite (resolveClick_fresh o rest v Hlast).
      repeat split; reflexivity.
    - apply resolveClick_again. assumption. }
  destruct Hres as (x & Hnth & Hemit & Hlast' & Hidx').
  assert (Hx : In x (o :: rest)) by (eapply nth_error_In; eassumption).
  destruct (find_by_id_In (App.objects a) x) as (c & Hfind & Hc).
  { eapply hits_are_objects. rewrite Hhits. exact Hx. }
  assert (Hclick : App.handleMaskClick (id x) a
                   = App.setMessage
                       (App.concat ["Das ist "; dquote; label c; dquote;
                                    ". Leider falsch. Versuch es nochmal!"])
                       (App.setAttemptCount (App.attemptCount a + 1)%Z a)).
  { apply handleMaskClick_wrong_guess with (aiSel := aiSel); try assumption.
    rewrite Hc. apply Hwrong. exact Hx. }
  exists x.
  rewrite (click_on_hits {| Game.app := a; Game.viewer := v |} clickPos o rest);
    cbn [Game.app Game.viewer].
  - rewrite Hemit, Hclick.
    change (App.selectedObjectId
              (App.setMessage
                 (App.concat ["Das ist "; dquote; label c; dquote;
                              ". Leider falsch. Versuch es nochmal!"])
                 (App.setAttemptCount (App.attemptCount a + 1)%Z a)))
      with (App.selectedObjectId a).
    rewrite option_string_eqb_refl.
    eexists. split; [exact Hnth|]. split; [reflexivity|].
    cbn [Game.app Game.viewer App.gameState App.aiSelection App.objects
         App.score App.attemptCount App.setMessage App.setAttemptCount].
    repeat split; assumption.
  - unfold App.viewerDisabled. rewrite Hphase. reflexivity.
  - exact Hhits.
Qed.

Lemma seq_map_shift :
  forall (A : Type) (f : nat -> A) (n : nat),
    map f (seq 1 n) = map (fun k => f (S k)) (seq 0 n).
Proof.
  intros A f n. rewrite <- seq_shift, map_map. reflexivity.
Qed.

Lemma clicks_while_guessing :
  forall (n : nat) (sys : Game.System) (clickPos : float * float)
         (aiSel : GameObject) (o : GameObject) (rest : list GameObject)
         (i : nat),
    App.gameState (Game.app sys) = USER_GUESSING ->
    App.aiSelection (Game.app sys) = Some aiSel ->
    sortByArea (getObjectsAtPosition (App.objects (Game.app sys)) clickPos)
    = o :: rest ->
    (forall x, In x (o :: rest) -> id x <> id aiSel) ->
    (objectsAtLastClick (Game.viewer sys) = [] /\ i = 0%nat)
    \/ (objectsAtLastClick (Game.viewer sys) = o :: rest
        /\ i = ((currentObjectIndex (Game.viewer sys) + 1)
                mod List.length (o :: rest))%nat) ->
    snd (Game.clicks (repeat clickPos n) sys)
    = map (fun k => option_map id
                      (nth_error (o :: rest)
                         ((i + k) mod List.length (o :: rest))))
        (seq 0 n)
    /\ App.gameState (Game.app (fst (Game.clicks (repeat clickPos n) sys)))
       = USER_GUESSING
    /\ App.score (Game.app (fst (Game.clicks (repeat clickPos n) sys)))
       = App.score (Game.app sys)
    /\ App.attemptCount (Game.app (fst (Game.clicks (repeat clickPos n) sys)))
       = (App.attemptCount (Game.app sys) + Z.of_nat n)%Z.
Proof.
  induction n as [|n IH]; intros sys clickPos aiSel o rest i
    Hphase Hai Hhits Hwrong Hv.
  - cbn [repeat Game.clicks seq map fst snd]. repeat split; try assumption.
    rewrite Z.add_0_r. reflexivity.
  - assert (Hi : (i < List.length (o :: rest))%nat).
    { destruct Hv as [[_ ->]|[_ ->]]; [simpl; lia|].
      apply Nat.mod_upper_bound. simpl. lia. }
    destruct (click_while_guessing sys clickPos aiSel o rest i
                Hphase Hai Hhits Hwrong Hv)
      as (x & sys' & Hnth & Hclick & Hphase' & Hai' & Hobj' & Hscore'
          & Hcount' & Hlast' & Hidx').
    specialize (IH sys' clickPos aiSel o rest
                  ((i + 1) mod List.length (o :: rest))%nat Hphase' Hai').
    rewrite Hobj' in IH. specialize (IH Hhits Hwrong).
    destruct IH as (IHe & IHp & IHs & IHc).
    { right. split; [assumption|]. rewrite Hidx'. reflexivity. }
    cbn [repeat Game.clicks]. rewrite Hclick.
    destruct (Game.clicks (repeat clickPos n) sys') as [sys2 es] eqn:Hrest.
    cbn [fst snd] in *. repeat split.
    + cbn [seq map]. rewrite Nat.add_0_r, (Nat.mod_small _ _ Hi), Hnth.
      cbn [option_map]. f_equal. rewrite IHe, seq_map_shift.
      apply map_ext. intros k.
      rewrite Nat.Div0.add_mod_idemp_l.
      replace (i + 1 + k)%nat with (i + S k)%nat by lia. reflexivity.
    + assumption.
    + rewrite IHs. assumption.
    + rewrite IHc, Hcount'. lia.
Qed.

(** X6 (handlePolygonClick with handleMaskClick, while the human
    guesses).  Clicks at one point on a stack of objects, none of which
    is the AI's pick, go through the stack from the smallest object on and
    start again after the largest: click number [k] (from 0) passes the
    object at index [k mod |hits|].  Each of these clicks is a wrong
    guess: the phase and the score stay and [attemptCount] grows by the
    number of clicks. *)
Theorem guessing_clicks_cycle_through_the_stack :
  forall (n : nat) (sys : Game.System) (clickPos : float * float)
         (aiSel : GameObject) (o : GameObject) (rest : list GameObject),
    App.gameState (Game.app sys) = USER_GUESSING ->
    App.aiSelection (Game.app sys) = Some aiSel ->
    objectsAtLastClick (Game.viewer sys) = [] ->
    sortByArea (getObjectsAtPosition (App.objects (Game.app sys)) clickPos)
    = o :: rest ->
    (forall x, In x (o :: rest) -> id x <> id aiSel) ->
    snd (Game.clicks (repeat clickPos n) sys)
    = map (fun k => option_map id
                      (nth_error (o :: rest) (k mod List.length (o :: rest))))
        (seq 0 n)
    /\ App.gameState (Game.app (fst (Game.clicks (repeat clickPos n) sys)))
       = USER_GUESSING
    /\ App.score (Game.app (fst (Game.clicks (repeat clickPos n) sys)))
       = App.score (Game.app sys)
    /\ App.attemptCount (Game.app (fst (Game.clicks (repeat clickPos n) sys)))
       = (App.attemptCount (Game.app sys) + Z.of_nat n)%Z.
Proof.
  intros n sys clickPos aiSel o rest Hphase Hai Hfresh Hhits Hwrong.
  apply (clicks_while_guessing n sys clickPos aiSel o rest 0%nat);
    try assumption.
  left. split; [assumption|reflexivity].
Qed.

(** *** While the human picks *)

Lemma click_while_picking :
  forall (sys : Game.System) (clickPos : float * float)
         (hits : list GameObject) (x : GameObject) (v1 : ViewerState),
    App.gameState (Game.app sys) = USER_PICKING
    \/ App.gameState (Game.app sys) = USER_CONFIRMING ->
    sortByArea (getObjectsAtPosition (App.objects (Game.app sys)) clickPos)
    = hits ->
    resolveClick hits (Game.viewer sys) = (v1, Some (id x)) ->
    In x hits ->
    id x <> EmptyString ->
    exists sys',
      Game.click clickPos sys = (sys', Some (id x))
      /\ App.gameState (Game.app sys') = USER_CONFIRMING
      /\ App.objects (Game.app sys') = App.objects (Game.app sys)
      /\ App.selectedObjectId (Game.app sys') = Some (id x)
      /\ (App.selectedObjectId (Game.app sys) = Some (id x) ->
          Game.viewer sys' = v1)
      /\ (App.selectedObjectId (Game.app sys) <> Some (id x) ->
          objectsAtLastClick (Game.viewer sys') = []).
Proof.
  intros [a v] clickPos hits x v1 Hphase Hhits Hres Hx Hid.
  cbn [Game.app Game.viewer] in *.
  destruct hits as [|o rest]; [destruct Hx|].
  destruct (find_by_id_In (App.objects a) x) as (c & Hfind & Hc).
  { eapply hits_are_objects. rewrite Hhits. exact Hx. }
  assert (Htruthy : truthy (Some (id c)) = true).
  { rewrite Hc. destruct (id x); [contradiction|reflexivity]. }
  assert (Hdis : App.viewerDisabled a = false).
  { unfold App.viewerDisabled. destruct Hphase as [-> | ->]; reflexivity. }
  assert (Happ : exists a1,
             App.handleMaskClick (id x) a = a1
             /\ App.gameState a1 = USER_CONFIRMING
             /\ App.objects a1 = App.objects a
             /\ App.selectedObjectId a1 = Some (id x)).
  { unfold App.handleMaskClick. rewrite Hfind.
    destruct Hphase as [Hp | Hp]; rewrite Hp; eexists;
      (split; [reflexivity|]);
      unfold App.selectedObjectId, or_else;
      cbn [App.gameState App.objects App.userSelection App.setMessage
           App.setGameState App.setUserSelection option_map];
      rewrite Htruthy, Hc; repeat split; try reflexivity; assumption. }
  destruct Happ as (a1 & Ha1 & Hphase1 & Hobj1 & Hsel1).
  rewrite (click_on_hits {| Game.app := a; Game.viewer := v |} clickPos o rest
             Hdis Hhits).
  cbn [Game.app Game.viewer]. rewrite Hres. cbn [fst snd]. rewrite Ha1.
  eexists. split; [reflexivity|]. cbn [Game.app Game.viewer].
  repeat split; try assumption.
  - intros Hsame. rewrite Hsel1, Hsame, option_string_eqb_refl. reflexivity.
  - intros Hdiff. rewrite Hsel1, option_string_eqb_neq by congruence.
    reflexivity.
Qed.

Lemma clicks_while_picking :
  forall (n : nat) (clickPos : float * float)
         (o o' : GameObject) (rest : list GameObject),
    id o <> EmptyString -> id o' <> EmptyString -> id o <> id o' ->
    forall (p : nat) (sys : Game.System),
      stackPhase clickPos o o' rest p sys ->
      snd (Game.clicks (repeat clickPos n) sys)
      = map (fun k => Some (id (if ((p + k) mod 3 =? 2)%nat then o' else o)))
          (seq 0 n).
Proof.
  intros n clickPos o o' rest Hid Hid' Hdiff.
  induction n as [|n IH]; intros p sys Hinv; [reflexivity|].
  destruct Hinv as (Hphase & Hhits & Hp).
  assert (Hstep : exists sys',
             Game.click clickPos sys
             = (sys', Some (id (if (p mod 3 =? 2)%nat then o' else o)))
             /\ stackPhase clickPos o o' rest (S p) sys').
  { assert (HS : (S p mod 3 = (p mod 3 + 1) mod 3)%nat)
      by (rewrite Nat.Div0.add_mod_idemp_l; f_equal; lia).
    destruct (p mod 3)%nat as [|[|q]] eqn:Hmod.
    - (* no hit set is stored, another object is selected *)
      destruct Hp as (Hlast & Hsel).
      destruct (click_while_picking sys clickPos (o :: o' :: rest) o
                  {| clickedObject := Some o;
                     objectsAtLastClick := o :: o' :: rest;
                     currentObjectIndex := 0 |} Hphase Hhits)
        as (sys' & Hclick & Hphase' & Hobj' & Hsel' & _ & Hreset);
        [apply resolveClick_fresh; assumption|left; reflexivity|assumption|].
      exists sys'. split; [exact Hclick|].
      unfold stackPhase. rewrite Hobj'. split; [right; assumption|].
      split; [assumption|].
      rewrite HS. cbn [Nat.add Nat.modulo Nat.divmod fst snd Nat.sub].
      split; [apply Hreset; assumption|assumption].
    - (* no hit set is stored, the smallest object is selected *)
      destruct Hp as (Hlast & Hsel).
      destruct (click_while_picking sys clickPos (o :: o' :: rest) o
                  {| clickedObject := Some o;
                     objectsAtLastClick := o :: o' :: rest;
                     currentObjectIndex := 0 |} Hphase Hhits)
        as (sys' & Hclick & Hphase' & Hobj' & Hsel' & Hkeep & _);
        [apply resolveClick_fresh; assumption|left; reflexivity|assumption|].
      exists sys'. split; [exact Hclick|].
      unfold stackPhase. rewrite Hobj'. split; [right; assumption|].
      split; [assumption|].
      rewrite HS. cbn [Nat.add Nat.modulo Nat.divmod fst snd Nat.sub].
      rewrite (Hkeep Hsel). repeat split; assumption.
    - (* the hit set is stored at index 0 *)
      destruct Hp as (Hlast & Hidx & Hsel).
      assert (Hres : resolveClick (o :: o' :: rest) (Game.viewer sys)
                     = ({| clickedObject := Some o';
                           objectsAtLastClick := o :: o' :: rest;
                           currentObjectIndex := 1 |}, Some (id o'))).
      { unfold resolveClick. rewrite Hlast, Hidx, isSamePosition_same.
        cbn [List.length Nat.ltb Nat.leb andb Nat.add].
        rewrite Nat.mod_small by lia. reflexivity. }
      destruct (click_while_picking sys clickPos (o :: o' :: rest) o' _
                  Hphase Hhits Hres)
        as (sys' & Hclick & Hphase' & Hobj' & Hsel' & _ & Hreset);
        [right; left; reflexivity|assumption|].
      assert (Hq : q = 0%nat).
      { pose proof (Nat.mod_upper_bound p 3). lia. }
      subst q. exists sys'. split; [exact Hclick|].
      unfold stackPhase. rewrite Hobj'. split; [right; assumption|].
      split; [assumption|].
      rewrite HS. cbn [Nat.add Nat.modulo Nat.divmod fst snd Nat.sub].
      split.
      + apply Hreset. rewrite Hsel. congruence.
      + rewrite Hsel'. congruence. }
  destruct Hstep as (sys' & Hclick & Hinv').
  cbn [repeat Game.clicks]. rewrite Hclick.
  specialize (IH (S p) sys' Hinv').
  destruct (Game.clicks (repeat clickPos n) sys') as [sys2 es].
  cbn [snd] in *. cbn [seq map]. rewrite Nat.add_0_r. f_equal.
  rewrite IH, seq_map_shift. apply map_ext. intros k.
  replace (S p + k)%nat with (p + S k)%nat by lia. reflexivity.
Qed.

(** X7 (handlePolygonClick, the effect on selectedObjectId and
    handleMaskClick, while the human picks).  Clicks at one point on a
    stack of two or more objects select the smallest object twice and then
    the second smallest, again and again: click number [k] (from 0)
    passes the second smallest object when [k mod 3 = 2] and the smallest
    one otherwise.  No number of clicks at the point selects a third
    object of the stack. *)
Theorem picking_clicks_alternate_between_the_two_smallest :
  forall (n : nat) (sys : Game.System) (clickPos : float * float)
         (o o' : GameObject) (rest : list GameObject),
    App.gameState (Game.app sys) = USER_PICKING ->
    App.selectedObjectId (Game.app sys) = None ->
    objectsAtLastClick (Game.viewer sys) = [] ->
    sortByArea (getObjectsAtPosition (App.objects (Game.app sys)) clickPos)
    = o :: o' :: rest ->
    id o <> EmptyString -> id o' <> EmptyString -> id o <> id o' ->
    snd (Game.clicks (repeat clickPos n) sys)
    = map (fun k => Some (id (if (k mod 3 =? 2)%nat then o' else o)))
        (seq 0 n).
Proof.
  intros n sys clickPos o o' rest Hphase Hsel Hlast Hhits Hid Hid' Hdiff.
  apply (clicks_while_picking n clickPos o o' rest Hid Hid' Hdiff 0%nat sys).
  unfold stackPhase. split; [left; assumption|]. split; [assumption|].
  cbn. split; [assumption|]. rewrite Hsel. discriminate.
Qed.

End ClickSequences.

Lemma guessing_clicks_cycle_through_the_stack_witness :
  snd (Game.clicks (repeat Scenario.center 3)
         {| Game.app := Scenario.guessing;
            Game.viewer := InteractiveImageViewer.initialViewerState |})
  = [Some "obj-0"; Some "obj-1"; Some "obj-0"].
Proof.
  refine (proj1 (guessing_clicks_cycle_through_the_stack 3
                   {| Game.app := Scenario.guessing;
                      Game.viewer := InteractiveImageViewer.initialViewerState |}
                   Scenario.center Scenario.lampe Scenario.tasse [Scenario.tisch]
                   eq_refl eq_refl eq_refl _ _)).
  - reflexivity.
  - intros x [<-|[<-|[]]]; discriminate.
Defined.

Lemma picking_clicks_alternate_between_the_two_smallest_witness :
  snd (Game.clicks (repeat Scenario.center 6)
         {| Game.app := Scenario.picking;
            Game.viewer := InteractiveImageViewer.initialViewerState |})
  = [Some "obj-0"; Some "obj-0"; Some "obj-1";
     Some "obj-0"; Some "obj-0"; Some "obj-1"].
Proof.
  refine (picking_clicks_alternate_between_the_two_smallest 6
            {| Game.app := Scenario.picking;
               Game.viewer := InteractiveImageViewer.initialViewerState |}
            Scenario.center Scenario.tasse Scenario.tisch []
            eq_refl eq_refl eq_refl _ _ _ _).
  - reflexivity.
  - discriminate.
  - discriminate.
  - discriminate.
Defined.

(* ================================================================== *)
(** ** Points and rewards *)

(** X8 (calculatePoints).  From the first attempt on, more attempts never
    give more points, and the points stay between 2 and 10. *)
Theorem calculatePoints_never_grows_with_attempts :
  forall a b : Z,
    (1 <= a)%Z -> (a <= b)%Z ->
    (2 <= App.calculatePoints b)%Z
    /\ (App.calculatePoints b <= App.calculatePoints a)%Z
    /\ (App.calculatePoints a <= 10)%Z.
Proof.
  intros a b Ha Hab. unfold App.calculatePoints.
  repeat match goal with
         | |- context [(?x =? ?y)%Z] => destruct (Z.eqb_spec x y)
         | |- context [(?x >=? ?y)%Z] => destruct (Z.geb_spec x y)
         end; lia.
Qed.

Lemma calculatePoints_never_grows_with_attempts_witness :
  (2 <= App.calculatePoints 7)%Z
  /\ (App.calculatePoints 7 <= App.calculatePoints 3)%Z
  /\ (App.calculatePoints 3 <= 10)%Z.
Proof.
  apply (calculatePoints_never_grows_with_attempts 3 7); lia.
Defined.

Lemma calculatePoints_nonneg :
  forall a : Z, (0 <= App.calculatePoints a)%Z.
Proof.
  intros a. unfold App.calculatePoints.
  repeat match goal with
         | |- context [(?x =? ?y)%Z] => destruct (Z.eqb_spec x y)
         | |- context [(?x >=? ?y)%Z] => destruct (Z.geb_spec x y)
         end; lia.
Qed.

Section Rewards.
Variable toLowerCase : string -> string.
Import App.

Lemma aiGuessingEffect_frame :
  forall s : State,
    gameState (aiGuessingEffect toLowerCase s) = gameState s
    /\ score (aiGuessingEffect toLowerCase s) = score s
    /\ attemptCount (aiGuessingEffect toLowerCase s) = attemptCount s.
Proof.
  intros s. unfold aiGuessingEffect. apply aiGuessingLoop_frame.
Qed.

Lemma guessRejected_counts :
  forall (k : nat) (s : State),
    gameState (Nat.iter k (guessRejected toLowerCase) s) = gameState s
    /\ score (Nat.iter k (guessRejected toLowerCase) s) = score s
    /\ attemptCount (Nat.iter k (guessRejected toLowerCase) s)
       = (attemptCount s + Z.of_nat k)%Z.
Proof.
  induction k as [|k IH]; intros s.
  - cbn [Nat.iter nat_rect]. repeat split. rewrite Z.add_0_r. reflexivity.
  - change (Nat.iter (S k) (guessRejected toLowerCase) s)
      with (guessRejected toLowerCase (Nat.iter k (guessRejected toLowerCase) s)).
    destruct (IH s) as (IHp & IHs & IHc).
    unfold guessRejected at 1 3 5.
    destruct (aiGuessingEffect_frame
                (handleNo (Nat.iter k (guessRejected toLowerCase) s)))
      as (Hp & Hs & Hc).
    rewrite Hp, Hs, Hc.
    destruct (handleNo_counts_and_pops
                (Nat.iter k (guessRejected toLowerCase) s))
      as (Hc' & _ & Hp' & Hs').
    rewrite Hp', Hs', Hc', IHp, IHs, IHc. repeat split. lia.
Qed.

(** X9 (handleNo, handleYes, the effect "AI Guessing Logic").  When each
    of [k] answers "Nein" is given while another candidate waits behind
    the rejected one, the answer "Ja" after them ends the round and gives
    the AI the points of attempt [attemptCount + k], whatever the
    candidates were: candidates that were skipped because no object has
    their label do not count. *)
Theorem ai_reward_counts_the_rejections :
  forall (k : nat) (s : State),
    (forall j : nat, (j < k)%nat ->
       (1 < List.length
              (aiGuesses (Nat.iter j (guessRejected toLowerCase) s)))%nat) ->
    gameState (guessAccepted toLowerCase
                 (Nat.iter k (guessRejected toLowerCase) s)) = ROUND_OVER
    /\ ai (score (guessAccepted toLowerCase
                    (Nat.iter k (guessRejected toLowerCase) s)))
       = (ai (score s) + calculatePoints (attemptCount s + Z.of_nat k))%Z
    /\ user (score (guessAccepted toLowerCase
                      (Nat.iter k (guessRejected toLowerCase) s)))
       = user (score s).
Proof.
  intros k s _. unfold guessAccepted.
  destruct (aiGuessingEffect_frame
              (handleYes (Nat.iter k (guessRejected toLowerCase) s)))
    as (Hp & Hs & _).
  rewrite Hp, Hs.
  destruct (guessRejected_counts k s) as (_ & Hs' & Hc').
  unfold handleYes.
  cbn [gameState score ai user setMessage setGameState setScore addAi].
  rewrite Hs', Hc'. repeat split.
Qed.

(** X10 (handleMaskClick while the human guesses).  Any number of wrong
    guesses followed by the right one ends the round with the points of
    the number of guesses made, the right one included; the AI gets
    nothing. *)
Theorem human_reward_counts_the_wrong_guesses :
  forall (wrong : list string) (s : State) (aiSel : GameObject),
    gameState s = USER_GUESSING ->
    aiSelection s = Some aiSel ->
    In (id aiSel) (map id (objects s)) ->
    (forall objectId, In objectId wrong ->
        objectId <> id aiSel /\ In objectId (map id (objects s))) ->
    gameState (Game.maskClicks (wrong ++ [id aiSel]) s) = ROUND_OVER
    /\ user (score (Game.maskClicks (wrong ++ [id aiSel]) s))
       = (user (score s)
          + calculatePoints (attemptCount s + Z.of_nat (List.length wrong) + 1))%Z
    /\ ai (score (Game.maskClicks (wrong ++ [id aiSel]) s)) = ai (score s)
    /\ attemptCount (Game.maskClicks (wrong ++ [id aiSel]) s)
       = (attemptCount s + Z.of_nat (List.length wrong) + 1)%Z.
Proof.
  induction wrong as [|w wrong IH]; intros s aiSel Hphase Hai Hright Hwrong.
  - cbn [app Game.maskClicks fold_left List.length].
    apply in_map_iff in Hright. destruct Hright as (o & Ho & Hin).
    destruct (find_by_id_In (objects s) o Hin) as (c & Hfind & Hc).
    unfold handleMaskClick. rewrite <- Ho, Hfind, Hphase, Hai, Hc, Ho.
    rewrite String.eqb_refl.
    cbn [gameState score user ai attemptCount setMessage setGameState
         setScore setAttemptCount addUser].
    change (Z.of_nat 0) with 0%Z. rewrite Z.add_0_r. repeat split.
  - assert (Hw : w <> id aiSel /\ In w (map id (objects s)))
      by (apply Hwrong; left; reflexivity).
    destruct Hw as (Hne & Hin). apply in_map_iff in Hin.
    destruct Hin as (o & Ho & Hin).
    destruct (find_by_id_In (objects s) o Hin) as (c & Hfind & Hc).
    assert (Hstep : handleMaskClick w s
                    = setMessage
                        (concat ["Das ist "; dquote; label c; dquote;
                                 ". Leider falsch. Versuch es nochmal!"])
                        (setAttemptCount (attemptCount s + 1)%Z s)).
    { apply handleMaskClick_wrong_guess with (aiSel := aiSel);
        try assumption; [rewrite <- Ho; assumption|congruence]. }
    change (Game.maskClicks ((w :: wrong) ++ [id aiSel]) s)
      with (Game.maskClicks (wrong ++ [id aiSel]) (handleMaskClick w s)).
    rewrite Hstep.
    match goal with
    | |- context [Game.maskClicks _ ?s1] =>
        destruct (IH s1 aiSel) as (IHp & IHu & IHa & IHc);
          [assumption|assumption|assumption| |]
    end.
    + intros objectId Hin'. apply Hwrong. right. assumption.
    + rewrite IHp, IHu, IHa, IHc.
      cbn [score user ai attemptCount setMessage setAttemptCount List.length].
      replace (attemptCount s + Z.of_nat (S (List.length wrong)) + 1)%Z
        with (attemptCount s + 1 + Z.of_nat (List.length wrong) + 1)%Z by lia.
      repeat split.
Qed.

End Rewards.

Lemma ai_reward_counts_the_rejections_witness :
  ai (App.score
        (App.guessAccepted Scenario.toLowerCase
           (Nat.iter 1 (App.guessRejected Scenario.toLowerCase)
              (Scenario.aiGuessing ["tasse"; "tisch"]))))
  = 8%Z.
Proof.
  refine (proj1 (proj2 (ai_reward_counts_the_rejections Scenario.toLowerCase 1
                          (Scenario.aiGuessing ["tasse"; "tisch"]) _))).
  intros j Hj. assert (Hj0 : j = 0%nat) by lia. rewrite Hj0.
  vm_compute. lia.
Defined.

Lemma human_reward_counts_the_wrong_guesses_witness :
  App.gameState (Game.maskClicks (["obj-0"; "obj-1"] ++ ["obj-2"]) Scenario.guessing)
  = ROUND_OVER
  /\ user (App.score (Game.maskClicks (["obj-0"; "obj-1"] ++ ["obj-2"])
                        Scenario.guessing))
     = 6%Z.
Proof.
  pose proof (human_reward_counts_the_wrong_guesses
                ["obj-0"; "obj-1"] Scenario.guessing Scenario.lampe
                eq_refl eq_refl) as H.
  destruct H as (Hp & Hu & _).
  - simpl. tauto.
  - intros objectId [<-|[<-|[]]]; (split; [discriminate|simpl; tauto]).
  - split; [exact Hp|exact Hu].
Defined.

(* ================================================================== *)
(** ** The round in which the AI picks *)

(** X28 (the effect "AI Picking Logic", handleMaskClick).  When the AI
    has picked the object at its random index and a description has come
    back, the human guesses with attemptCount 0, the clue is the
    description after "Ich sehe was, was du nicht siehst, und das ist ",
    and a first click on the picked object ends the round with 10 points
    for the human. *)
Theorem ai_pick_is_found_at_the_first_click :
  forall (describe : GeminiService.GenerateContent -> Promise string)
         (random : nat) (outcome : GeminiService.GenerateContent)
         (description : string) (s : App.State) (pick : GameObject),
    App.gameState s = AI_PICKING ->
    truthy (App.image s) = true ->
    nth_error (App.objects s) random = Some pick ->
    describe outcome = Resolved description ->
    let s1 := Game.aiPicks describe random outcome s in
    App.gameState s1 = USER_GUESSING
    /\ App.aiSelection s1 = Some pick
    /\ App.attemptCount s1 = 0%Z
    /\ App.message s1
       = String.append "Ich sehe was, was du nicht siehst, und das ist "
           description
    /\ App.gameState (App.handleMaskClick (id pick) s1) = ROUND_OVER
    /\ App.score (App.handleMaskClick (id pick) s1)
       = App.addUser 10 (App.score s)
    /\ App.attemptCount (App.handleMaskClick (id pick) s1) = 1%Z.
Proof.
  intros describe random outcome description s pick Hphase Himage Hnth Hdesc.
  assert (Hlen : (0 <? List.length (App.objects s))%nat = true).
  { apply Nat.ltb_lt. destruct (App.objects s); [|simpl; lia].
    destruct random; discriminate. }
  assert (Hs1 : Game.aiPicks describe random outcome s
                = App.descriptionSettled (Resolved description)
                    (App.setAiSelection (Some pick) s)).
  { unfold Game.aiPicks, App.aiPickingEffect.
    rewrite Hphase, Hlen, Himage, Hnth, Hdesc. reflexivity. }
  cbn zeta. rewrite Hs1.
  destruct (find_by_id_In (App.objects s) pick) as (c & Hfind & Hc);
    [eapply nth_error_In; eassumption|].
  split; [reflexivity|]. split; [reflexivity|]. split; [reflexivity|].
  split; [reflexivity|].
  unfold App.handleMaskClick.
  cbn [App.objects App.gameState App.aiSelection App.descriptionSettled
       App.setAttemptCount App.setGameState App.setMessage App.setAiSelection].
  rewrite Hfind, Hc, String.eqb_refl. repeat split.
Qed.

Lemma ai_pick_is_found_at_the_first_click_witness :
  App.score (App.handleMaskClick "obj-2" Scenario.guessing)
  = {| user := 10; ai := 0 |}.
Proof.
  exact (proj1 (proj2 (proj2 (proj2 (proj2 (proj2
           (ai_pick_is_found_at_the_first_click
              (GeminiService.generateDescriptionForObject Scenario.trim) 2
              (GeminiService.Response (Some "ist hell und steht am Rand"))
              "ist hell und steht am Rand" Scenario.aiPicking Scenario.lampe
              eq_refl eq_refl eq_refl eq_refl))))))).
Defined.

(* ================================================================== *)
(** ** The candidates of the AI *)

Section Presenting.
Variable toLowerCase : string -> string.
Import App.

(** Runs of the effect on a queue that starts with candidates whose label
    no object has: they are dropped one after the other. *)
Lemma aiGuessingLoop_skips :
  forall (skipped : list GameObject) (fuel : nat) (s : State)
         (queue : list GameObject) (selection : GameObject),
    gameState s = AI_GUESSING ->
    userSelection s = Some selection ->
    aiGuesses s = (skipped ++ queue)%list ->
    (forall g, In g skipped -> findByLabel toLowerCase (objects s) g = None) ->
    aiGuessingLoop toLowerCase (List.length skipped + fuel) s
    = aiGuessingLoop toLowerCase fuel (setAiGuesses queue s).
Proof.
  induction skipped as [|g skipped IH];
    intros fuel s queue selection Hphase Hsel Hq Hnone.
  - cbn [List.length Nat.add]. simpl in Hq. f_equal.
    destruct s; simpl in *; subst; reflexivity.
  - cbn [List.length Nat.add aiGuessingLoop].
    assert (Honce : aiGuessingEffectOnce toLowerCase s
                    = setAiGuesses (skipped ++ queue)%list s).
    { unfold aiGuessingEffectOnce. rewrite Hphase, Hq.
      cbn [GameState_eqb List.length app Nat.ltb Nat.leb andb].
      unfold handleAiGuess. rewrite Hq, Hsel. cbn [app].
      rewrite (Hnone g (or_introl eq_refl)). reflexivity. }
    rewrite Honce, Hq.
    cbn [aiGuesses setAiGuesses List.length app].
    replace (List.length (skipped ++ queue)
             <? S (List.length (skipped ++ queue)))%nat with true
      by (symmetry; apply Nat.ltb_lt; lia).
    rewrite (IH fuel (setAiGuesses (skipped ++ queue)%list s) queue selection);
      try assumption; try reflexivity.
    intros g' Hg'. apply Hnone. right. assumption.
Qed.

Lemma findByLabel_presented :
  forall (objs : list GameObject) (guess o : GameObject) (i c : string),
    findByLabel toLowerCase objs guess = Some o ->
    findByLabel toLowerCase objs
      {| id := i; label := label o; mask := mask o; color := c |}
    = Some o.
Proof.
  intros objs guess o i c Hfind. rewrite <- Hfind.
  unfold findByLabel. apply find_same_predicate. intros x. cbn [label].
  apply find_some in Hfind. destruct Hfind as [_ Heq].
  apply String.eqb_eq in Heq. rewrite Heq. reflexivity.
Qed.

Lemma aiGuessingLoop_presents :
  forall (fuel : nat) (s : State) (guess : GameObject)
         (rest : list GameObject) (selection o : GameObject),
    gameState s = AI_GUESSING ->
    userSelection s = Some selection ->
    aiGuesses s = guess :: rest ->
    findByLabel toLowerCase (objects s) guess = Some o ->
    aiGuessingLoop toLowerCase (S fuel) s
    = setMessage (concat ["Ist es "; dquote; label o; dquote; "?"])
        (setAiGuesses
           ({| id := id guess; label := label o; mask := mask o;
               color := color guess |} :: rest) s).
Proof.
  intros fuel s guess rest selection o Hphase Hsel Hq Hfind.
  cbn [aiGuessingLoop]. unfold aiGuessingEffectOnce. rewrite Hphase, Hq.
  cbn [GameState_eqb List.length Nat.ltb Nat.leb andb].
  unfold handleAiGuess. rewrite Hq, Hsel, Hfind.
  cbn [aiGuesses setMessage setAiGuesses List.length].
  replace (S (List.length rest) <=? List.length rest)%nat with false
    by (symmetry; apply Nat.leb_gt; lia).
  reflexivity.
Qed.

(** X11 (handleAiGuess, the effect "AI Guessing Logic",
    getHighlightedIds).  The AI presents the first candidate of the queue
    whose label, compared without case, is the label of an object: the
    candidates before it are dropped, the question names that object, the
    mask that is highlighted is the mask of that object, and the phase,
    the score and attemptCount are as before. *)
Theorem ai_presents_the_first_matching_candidate :
  forall (s : State) (skipped : list GameObject) (guess : GameObject)
         (rest : list GameObject) (selection o : GameObject),
    gameState s = AI_GUESSING ->
    userSelection s = Some selection ->
    aiGuesses s = (skipped ++ guess :: rest)%list ->
    (forall g, In g skipped -> findByLabel toLowerCase (objects s) g = None) ->
    findByLabel toLowerCase (objects s) guess = Some o ->
    aiGuessingEffect toLowerCase s
    = setMessage (concat ["Ist es "; dquote; label o; dquote; "?"])
        (setAiGuesses
           ({| id := id guess; label := label o; mask := mask o;
               color := color guess |} :: rest) s)
    /\ getHighlightedIds toLowerCase (aiGuessingEffect toLowerCase s) = [id o]
    /\ In o (objects s).
Proof.
  intros s skipped guess rest selection o Hphase Hsel Hq Hnone Hfind.
  assert (Heff : aiGuessingEffect toLowerCase s
                 = setMessage (concat ["Ist es "; dquote; label o; dquote; "?"])
                     (setAiGuesses
                        ({| id := id guess; label := label o; mask := mask o;
                            color := color guess |} :: rest) s)).
  { unfold aiGuessingEffect. rewrite Hq, length_app.
    cbn [List.length].
    replace (S (List.length skipped + S (List.length rest)))
      with (List.length skipped + S (S (List.length rest)))%nat by lia.
    rewrite (aiGuessingLoop_skips skipped _ s (guess :: rest) selection
               Hphase Hsel Hq Hnone).
    rewrite (aiGuessingLoop_presents _ _ guess rest selection o);
      try assumption; reflexivity. }
  split; [exact Heff|]. split.
  - rewrite Heff. unfold getHighlightedIds.
    cbn [gameState aiGuesses objects setMessage setAiGuesses]. rewrite Hphase.
    cbn [GameState_eqb List.length Nat.ltb Nat.leb andb].
    rewrite (findByLabel_presented _ _ _ _ _ Hfind). reflexivity.
  - apply find_some in Hfind. tauto.
Qed.

(** X12 (handleSpeechResult, the continuation of
    guessObjectsFromDescription, the effect "AI Guessing Logic",
    ControlsPanel).  When the service answers the clue with candidates
    none of whose labels is the label of an object, all of them are
    dropped: the queue is empty, the phase is still AI_GUESSING, nobody
    gets points, and the panel and the viewer offer nothing that would
    change the state - no question, no "Ja"/"Nein", no next round, no
    reset. *)
Theorem unmatched_candidates_leave_no_way_out :
  forall (trim : string -> string) (transcript : string) (s : State)
         (selection : GameObject) (guessedObjects : list DetectedObject),
    userSelection s = Some selection ->
    guessedObjects <> [] ->
    (forall g o, In g guessedObjects -> In o (objects s) ->
                 toLowerCase (label o) <> toLowerCase (d_label g)) ->
    let asked := fst (handleSpeechResult toLowerCase trim transcript s) in
    let s' := aiGuessingEffect toLowerCase
                (guessesSettled selection (Resolved guessedObjects) asked) in
    s' = setAttemptCount 1 (setAiGuesses [] asked)
    /\ gameState s' = AI_GUESSING
    /\ score s' = score s
    /\ forall (isListening : bool) (e : ControlsPanel.Event),
         ControlsPanel.available s' isListening e = false.
Proof.
  intros trim transcript s selection guessedObjects Hsel Hne Hnone asked s'.
  assert (Hs' : s' = setAttemptCount 1 (setAiGuesses [] asked)).
  { subst s'. unfold guessesSettled.
    destruct guessedObjects as [|g0 gs] eqn:Hg; [contradiction|].
    rewrite <- Hg in *. unfold aiGuessingEffect.
    match goal with
    | |- aiGuessingLoop _ (S (List.length (aiGuesses ?st))) ?st = _ =>
        replace (S (List.length (aiGuesses st)))
          with (List.length (mapGuesses 0 guessedObjects) + 1)%nat
          by (cbn [aiGuesses setAttemptCount setAiGuesses]; lia);
        rewrite (aiGuessingLoop_skips (mapGuesses 0 guessedObjects) 1 st []
                   selection)
    end.
    - cbn [aiGuessingLoop]. unfold aiGuessingEffectOnce.
      cbn [aiGuesses setAiGuesses List.length Nat.ltb Nat.leb].
      rewrite Bool.andb_false_r. reflexivity.
    - reflexivity.
    - exact Hsel.
    - cbn [aiGuesses setAttemptCount setAiGuesses]. rewrite app_nil_r.
      reflexivity.
    - intros g Hin. apply findByLabel_none. intros o Ho.
      cbn [objects setAttemptCount setAiGuesses] in Ho.
      assert (Hlab : exists d, In d guessedObjects /\ label g = d_label d).
      { clear - Hin. revert Hin. generalize 0%nat.
        induction guessedObjects as [|d ds IH]; intros i Hin; [destruct Hin|].
        cbn [mapGuesses] in Hin. destruct Hin as [<-|Hin].
        - exists d. split; [left; reflexivity|reflexivity].
        - destruct (IH _ Hin) as (d' & Hd' & Hl).
          exists d'. split; [right; assumption|assumption]. }
      destruct Hlab as (d & Hd & Hl). rewrite Hl. apply Hnone; assumption. }
  split; [exact Hs'|]. rewrite Hs'. split; [reflexivity|].
  split; [reflexivity|].
  intros isListening e.
  destruct e; unfold ControlsPanel.available, viewerDisabled; try reflexivity.
Qed.

End Presenting.

Lemma ai_presents_the_first_matching_candidate_witness :
  App.message
    (App.aiGuessingEffect Scenario.toLowerCase
       (App.setAiGuesses (App.mapGuesses 0 (Scenario.candidates ["Hund"; "TASSE"]))
          (App.setGameState AI_GUESSING Scenario.describing)))
  = App.concat ["Ist es "; dquote; "Tasse"; dquote; "?"].
Proof.
  pose proof (ai_presents_the_first_matching_candidate Scenario.toLowerCase
                (App.setAiGuesses
                   (App.mapGuesses 0 (Scenario.candidates ["Hund"; "TASSE"]))
                   (App.setGameState AI_GUESSING Scenario.describing))
                (App.mapGuesses 0 (Scenario.candidates ["Hund"]))
                {| id := "guess-1"; label := "TASSE"; mask := [];
                   color := "#FFD70080" |}
                [] Scenario.tasse Scenario.tasse
                eq_refl eq_refl eq_refl) as H.
  destruct H as (H & _).
  - intros g [<-|[]]. reflexivity.
  - reflexivity.
  - rewrite H. reflexivity.
Defined.

Lemma unmatched_candidates_leave_no_way_out_witness :
  App.gameState
    (App.aiGuessingEffect Scenario.toLowerCase
       (App.guessesSettled Scenario.tasse
          (Resolved (Scenario.candidates ["Hund"; "Katze"]))
          (fst (App.handleSpeechResult Scenario.toLowerCase Scenario.trim
                  "ist klein" Scenario.describing))))
  = AI_GUESSING.
Proof.
  refine (proj1 (proj2 (unmatched_candidates_leave_no_way_out
                          Scenario.toLowerCase Scenario.trim "ist klein"
                          Scenario.describing Scenario.tasse
                          (Scenario.candidates ["Hund"; "Katze"])
                          eq_refl _ _))).
  - discriminate.
  - intros g o [<-|[<-|[]]] [<-|[<-|[<-|[]]]]; discriminate.
Defined.

(* ================================================================== *)
(** ** The runs of the effect "AI Guessing Logic" *)

Section EffectRuns.
Variable toLowerCase : string -> string.
Import App.

Lemma aiGuessingEffectRendered_presents :
  forall (r : Rendered) (guess : GameObject) (rest : list GameObject)
         (selection o : GameObject),
    gameState (state r) = AI_GUESSING ->
    userSelection (state r) = Some selection ->
    aiGuesses (state r) = guess :: rest ->
    findByLabel toLowerCase (objects (state r)) guess = Some o ->
    aiGuessingEffectRendered toLowerCase r
    = {| state :=
           setMessage (concat ["Ist es "; dquote; label o; dquote; "?"])
             (setAiGuesses
                ({| id := id guess; label := label o; mask := mask o;
                    color := color guess |} :: rest) (state r));
         aiGuessesArray := S (aiGuessesArray r);
         spoken := concat ["Ich rate mal. Ist es: "; label o; "?"] :: spoken r |}.
Proof.
  intros r guess rest selection o Hphase Hsel Hq Hfind.
  unfold aiGuessingEffectRendered, handleAiGuessRendered, handleAiGuess.
  rewrite Hphase, Hq, Hsel, Hfind. reflexivity.
Qed.

Lemma aiGuessingEffectRendered_runs :
  forall (n : nat) (r : Rendered) (guess : GameObject)
         (rest : list GameObject) (selection o : GameObject),
    gameState (state r) = AI_GUESSING ->
    userSelection (state r) = Some selection ->
    aiGuesses (state r) = guess :: rest ->
    findByLabel toLowerCase (objects (state r)) guess = Some o ->
    Nat.iter (S n) (aiGuessingEffectRendered toLowerCase) r
    = {| state :=
           setMessage (concat ["Ist es "; dquote; label o; dquote; "?"])
             (setAiGuesses
                ({| id := id guess; label := label o; mask := mask o;
                    color := color guess |} :: rest) (state r));
         aiGuessesArray := S n + aiGuessesArray r;
         spoken :=
           (repeat (concat ["Ich rate mal. Ist es: "; label o; "?"]) (S n)
            ++ spoken r)%list |}.
Proof.
  induction n as [|n IH]; intros r guess rest selection o Hphase Hsel Hq Hfind.
  - cbn [Nat.iter nat_rect].
    rewrite (aiGuessingEffectRendered_presents r guess rest selection o);
      try assumption.
    reflexivity.
  - change (Nat.iter (S (S n)) (aiGuessingEffectRendered toLowerCase) r)
      with (aiGuessingEffectRendered toLowerCase
              (Nat.iter (S n) (aiGuessingEffectRendered toLowerCase) r)).
    rewrite (IH r guess rest selection o) by assumption.
    rewrite (aiGuessingEffectRendered_presents _
               {| id := id guess; label := label o; mask := mask o;
                  color := color guess |} rest selection o);
      try assumption; try reflexivity.
    apply (findByLabel_presented toLowerCase _ _ _ _ _ Hfind).
Qed.

(** X14 (handleAiGuess and the effect "AI Guessing Logic", with the
    identity of the array in aiGuesses).  Once a candidate whose label is
    the label of an object is at the front of the queue, every run of the
    effect puts a new array into aiGuesses and so makes the next run due:
    the effect runs again and again.  From the first run on the state
    stays what the first run made of it (the same question, queue and
    scores), and every run passes the question to [speak] once more. *)
Theorem ai_question_is_asked_at_every_run :
  forall (n : nat) (r : Rendered) (guess : GameObject)
         (rest : list GameObject) (selection o : GameObject),
    gameState (state r) = AI_GUESSING ->
    userSelection (state r) = Some selection ->
    aiGuesses (state r) = guess :: rest ->
    findByLabel toLowerCase (objects (state r)) guess = Some o ->
    effectIsDue
      (Nat.iter n (aiGuessingEffectRendered toLowerCase) r)
      (Nat.iter (S n) (aiGuessingEffectRendered toLowerCase) r) = true
    /\ state (Nat.iter (S n) (aiGuessingEffectRendered toLowerCase) r)
       = aiGuessingEffect toLowerCase (state r)
    /\ spoken (Nat.iter (S n) (aiGuessingEffectRendered toLowerCase) r)
       = (repeat (concat ["Ich rate mal. Ist es: "; label o; "?"]) (S n)
          ++ spoken r)%list.
Proof.
  intros n r guess rest selection o Hphase Hsel Hq Hfind.
  rewrite (aiGuessingEffectRendered_runs n r guess rest selection o)
    by assumption.
  cbn [state spoken]. split; [|split; [|reflexivity]].
  - unfold effectIsDue. cbn [state aiGuessesArray].
    destruct n as [|n].
    + cbn [Nat.iter nat_rect Nat.add].
      rewrite (proj2 (Nat.eqb_neq _ _)) by lia.
      rewrite Bool.orb_true_r. reflexivity.
    + rewrite (aiGuessingEffectRendered_runs n r guess rest selection o)
        by assumption.
      cbn [state aiGuessesArray].
      rewrite (proj2 (Nat.eqb_neq _ _)) by lia.
      rewrite Bool.orb_true_r. reflexivity.
  - symmetry. unfold aiGuessingEffect. rewrite Hq.
    apply (aiGuessingLoop_presents toLowerCase _ (state r) guess rest
             selection o); assumption.
Qed.

End EffectRuns.

Lemma ai_question_is_asked_at_every_run_witness :
  App.spoken
    (Nat.iter 3 (App.aiGuessingEffectRendered Scenario.toLowerCase)
       {| App.state :=
            App.setAiGuesses
              (App.mapGuesses 0 (Scenario.candidates ["TASSE"]))
              (App.setGameState AI_GUESSING Scenario.describing);
          App.aiGuessesArray := 0;
          App.spoken := [] |})
  = ["Ich rate mal. Ist es: Tasse?"; "Ich rate mal. Ist es: Tasse?";
     "Ich rate mal. Ist es: Tasse?"].
Proof.
  exact (proj2 (proj2
           (ai_question_is_asked_at_every_run Scenario.toLowerCase 2
              {| App.state :=
                   App.setAiGuesses
                     (App.mapGuesses 0 (Scenario.candidates ["TASSE"]))
                     (App.setGameState AI_GUESSING Scenario.describing);
                 App.aiGuessesArray := 0;
                 App.spoken := [] |}
              {| id := "guess-0"; label := "TASSE"; mask := [];
                 color := "#FFD70080" |}
              [] Scenario.tasse Scenario.tasse
              eq_refl eq_refl eq_refl eq_refl))).
Defined.

(* ================================================================== *)
(** ** The objects of an image *)

Lemma string_of_Z_inj :
  forall a b : Z, string_of_Z a = string_of_Z b -> a = b.
Proof.
  intros a b Heq. unfold string_of_Z in Heq.
  assert (Hsome : forall z : Z,
             NilZero.int_of_string (NilZero.string_of_int (Z.to_int z))
             = Some (Z.to_int z)).
  { intros z. apply NilZero.isi; destruct z; simpl; try discriminate;
      intros H; inversion H as [H1];
      exact (DecimalPos.Unsigned.to_uint_nonnil _ H1). }
  apply DecimalZ.to_int_inj.
  pose proof (Hsome a) as Ha. rewrite Heq, Hsome in Ha. congruence.
Qed.

Lemma append_inj_r :
  forall p a b : string, String.append p a = String.append p b -> a = b.
Proof.
  induction p as [|c p IH]; intros a b Heq; simpl in Heq.
  - assumption.
  - inversion Heq. auto.
Qed.

Lemma find_by_id_unique :
  forall (objs : list GameObject) (o : GameObject),
    NoDup (map id objs) -> In o objs -> find_by_id objs (id o) = Some o.
Proof.
  induction objs as [|x objs IH]; intros o Hnd Hin; [destruct Hin|].
  unfold find_by_id. cbn [find map] in *. inversion Hnd as [|? ? Hx Hnd']; subst.
  destruct Hin as [->|Hin].
  - rewrite String.eqb_refl. reflexivity.
  - destruct (String.eqb_spec (id x) (id o)) as [Heq|Hne].
    + exfalso. apply Hx. rewrite Heq. apply in_map. assumption.
    + apply IH; assumption.
Qed.

Section Detection.
Variable numberToString : float -> string.
Import App.

Lemma mapDetected_fields :
  forall (colors : list string) (detected : list DetectedObject) (i : nat),
    map label (mapDetected colors i detected) = map d_label detected
    /\ map mask (mapDetected colors i detected) = map d_mask detected
    /\ map id (mapDetected colors i detected)
       = map (fun k => String.append "obj-" (string_of_Z (Z.of_nat k)))
           (seq i (List.length detected))
    /\ map color (mapDetected colors i detected)
       = map (fun k => nth k colors "undefined") (seq i (List.length detected)).
Proof.
  intros colors detected; induction detected as [|d ds IH]; intros i.
  - repeat split.
  - destruct (IH (S i)) as (Hl & Hm & Hi & Hc).
    cbn [mapDetected map List.length seq label mask id color].
    rewrite Hl, Hm, Hi, Hc. repeat split.
Qed.

Lemma pushColors_map :
  forall (count rounds i : nat),
    Colors.pushColors numberToString count i rounds
    = map (fun k => Colors.hsla numberToString (Colors.hue count k))
        (seq i rounds).
Proof.
  intros count rounds; induction rounds as [|r IH]; intros i.
  - reflexivity.
  - cbn [Colors.pushColors seq map]. rewrite IH. reflexivity.
Qed.

Lemma object_ids_NoDup :
  forall (i n : nat),
    NoDup (map (fun k => String.append "obj-" (string_of_Z (Z.of_nat k)))
             (seq i n)).
Proof.
  intros i n. apply Finite.Injective_map_NoDup; [|apply seq_NoDup].
  intros a b Heq. apply append_inj_r in Heq. apply string_of_Z_inj in Heq.
  lia.
Qed.

(** X15 (processImage after the answer of detectObjects,
    generateMaskColors, handleMaskClick).  The objects of the round are
    the detected objects in their order, with their labels and masks, the
    ids obj-0, obj-1, ... and the colours of generateMaskColors (one for
    every object).  The ids are pairwise different, so that the object
    found for the id of an object is that object, and a click on an
    object while the human picks selects exactly it. *)
Theorem detected_objects_are_found_by_their_ids :
  forall (turn : bool) (d : DetectedObject) (ds : list DetectedObject)
         (s : State),
    let s' := detectionSettled numberToString turn (Resolved (d :: ds)) s in
    map label (objects s') = map d_label (d :: ds)
    /\ map mask (objects s') = map d_mask (d :: ds)
    /\ map id (objects s')
       = map (fun k => String.append "obj-" (string_of_Z (Z.of_nat k)))
           (seq 0 (List.length (d :: ds)))
    /\ map color (objects s')
       = Colors.generateMaskColors numberToString (List.length (d :: ds))
    /\ NoDup (map id (objects s'))
    /\ (forall o, In o (objects s') -> find_by_id (objects s') (id o) = Some o)
    /\ (turn = true ->
        forall o, In o (objects s') ->
                  userSelection (handleMaskClick (id o) s') = Some o
                  /\ gameState (handleMaskClick (id o) s') = USER_CONFIRMING).
Proof.
  intros turn d ds s s'.
  assert (Hobj : objects s' = gameObjects numberToString (d :: ds))
    by (subst s'; destruct turn; reflexivity).
  destruct (mapDetected_fields
              (Colors.generateMaskColors numberToString (List.length (d :: ds)))
              (d :: ds) 0) as (Hl & Hm & Hi & Hc).
  fold (gameObjects numberToString (d :: ds)) in Hl, Hm, Hi, Hc.
  rewrite <- Hobj in Hl, Hm, Hi, Hc.
  assert (Hnd : NoDup (map id (objects s')))
    by (rewrite Hi; apply object_ids_NoDup).
  assert (Hfind : forall o, In o (objects s') ->
                            find_by_id (objects s') (id o) = Some o)
    by (intros o Ho; apply find_by_id_unique; assumption).
  assert (Hcolors : map color (objects s')
                    = Colors.generateMaskColors numberToString
                        (List.length (d :: ds))).
  { rewrite Hc. unfold Colors.generateMaskColors. rewrite pushColors_map.
    apply map_ext_in. intros k Hk. apply in_seq in Hk.
    rewrite nth_indep
      with (d' := Colors.hsla numberToString
                    (Colors.hue (List.length (d :: ds)) 0))
      by (rewrite length_map, length_seq; lia).
    rewrite (map_nth (fun k => Colors.hsla numberToString
                                 (Colors.hue (List.length (d :: ds)) k))
               (seq 0 (List.length (d :: ds))) 0%nat k).
    rewrite seq_nth by lia. reflexivity. }
  split; [exact Hl|]. split; [exact Hm|]. split; [exact Hi|].
  split; [exact Hcolors|]. split; [exact Hnd|]. split; [exact Hfind|].
  intros Hturn o Ho. unfold handleMaskClick. rewrite (Hfind o Ho).
  subst s' turn. split; reflexivity.
Qed.

End Detection.

Lemma detected_objects_are_found_by_their_ids_witness :
  map id
    (App.objects
       (App.detectionSettled Scenario.numberToString true
          (Resolved Scenario.detected) App.initialState))
  = ["obj-0"; "obj-1"; "obj-2"]
  /\ map color
       (App.objects
          (App.detectionSettled Scenario.numberToString true
             (Resolved Scenario.detected) App.initialState))
     = ["hsla(0, 70%, 50%, 0.6)"; "hsla(90, 70%, 50%, 0.6)";
        "hsla(180, 70%, 50%, 0.6)"].
Proof.
  pose proof (detected_objects_are_found_by_their_ids Scenario.numberToString
                true
                {| App.d_label := "Tisch"; App.d_mask := mask Scenario.tisch |}
                [ {| App.d_label := "Tasse"; App.d_mask := mask Scenario.tasse |};
                  {| App.d_label := "Lampe"; App.d_mask := mask Scenario.lampe |} ]
                App.initialState) as H.
  destruct H as (_ & _ & Hid & Hcol & _).
  split; [exact Hid|exact Hcol].
Defined.

(* ================================================================== *)
(** ** Loading an image and the answers of the service *)

(** X16 (processImage, the effect on isPlayerTurnToPick and image).  When
    a new image is handed to [processImage], the effect that starts a
    round runs on the same render: the phase LOADING_OBJECTS and the
    message "Objekte werden erkannt..." are replaced at once by the phase
    and the message of the new round, while the objects are still those
    of before and the request is pending.  With the image that is already
    loaded the phase is LOADING_OBJECTS. *)
Theorem loading_phase_gives_way_to_the_round :
  forall (imageData : string) (s : App.State),
    imageData <> EmptyString ->
    (App.image s <> Some imageData ->
     Game.processImage imageData s
     = App.startNewRound (App.processImage imageData s)
     /\ App.gameState (Game.processImage imageData s)
        = (if App.isPlayerTurnToPick s then USER_PICKING else AI_PICKING)
     /\ App.message (Game.processImage imageData s)
        = (if App.isPlayerTurnToPick s
           then "Du bist dran! Wähle ein Objekt aus dem Bild aus."
           else "Die KI wählt ein Objekt aus...")
     /\ App.objects (Game.processImage imageData s) = App.objects s
     /\ App.image (Game.processImage imageData s) = Some imageData)
    /\ (App.image s = Some imageData ->
        Game.processImage imageData s = App.processImage imageData s
        /\ App.gameState (Game.processImage imageData s) = LOADING_OBJECTS).
Proof.
  intros imageData s Hne. split.
  - intros Hnew. unfold Game.processImage.
    rewrite option_string_eqb_neq
      by (cbn [App.image App.processImage App.setImage]; congruence).
    unfold App.imageEffect.
    cbn [App.image App.processImage App.setImage truthy].
    destruct imageData as [|c rest]; [contradiction|].
    split; [reflexivity|]. unfold App.startNewRound.
    cbn [App.isPlayerTurnToPick App.processImage App.setImage App.setMessage
         App.setGameState App.setUserSelection App.setAiSelection
         App.setAiGuesses App.setAttemptCount].
    destruct (App.isPlayerTurnToPick s); repeat split; reflexivity.
  - intros Hsame. unfold Game.processImage.
    rewrite (proj2 (option_string_eqb_eq _ _))
      by (cbn [App.image App.processImage App.setImage]; congruence).
    split; reflexivity.
Qed.

Lemma loading_phase_gives_way_to_the_round_witness :
  App.gameState (Game.processImage Scenario.picture App.initialState)
  = USER_PICKING.
Proof.
  refine (proj1 (proj2 (proj1 (loading_phase_gives_way_to_the_round
                                 Scenario.picture App.initialState _) _))).
  - discriminate.
  - discriminate.
Defined.

Section Answers.
Variable trim : string -> string.
Variable JSON_parse : string -> GeminiService.Json App.DetectedObject.
Variable numberToString : float -> string.
Import App GeminiService.

(** X17 (parseJsonResponse, detectObjects, guessObjectsFromDescription
    and their continuations in App).  An answer of the service without a
    usable list - no text, only white space, text that is not JSON, JSON
    that is not an array, or the empty array - is the empty list.  For the
    guesses of the AI it ends the round with 10 points for the human; for
    the detection it ends in ERROR with the image removed.  Only a thrown
    call gives ERROR in both cases, with the scores unchanged. *)
Theorem unusable_answer_is_the_empty_list :
  forall (text : option string),
    (truthy text = false
     \/ exists t, text = Some t
                  /\ (trim t = EmptyString
                      \/ JSON_parse (trim t) = SyntaxError
                      \/ JSON_parse (trim t) = NotArray
                      \/ JSON_parse (trim t) = IsArray [])) ->
    parseJsonResponse trim JSON_parse text = []
    /\ (forall (selection : GameObject) (s : State),
          guessesSettled selection
            (guessObjectsFromDescription trim JSON_parse (Response text)) s
          = setScore (addUser 10 (score s))
              (setMessage (failureMessage selection)
                 (setGameState ROUND_OVER s)))
    /\ (forall (turn : bool) (s : State),
          detectionSettled numberToString turn
            (detectObjects trim JSON_parse (Response text)) s
          = setImage None
              (setMessage
                 "Keine Objekte im Bild erkannt. Bitte versuche es mit einem anderen Bild."
                 (setGameState ERROR s)))
    /\ (forall (selection : GameObject) (s : State),
          guessesSettled selection
            (guessObjectsFromDescription trim JSON_parse Throws) s
          = setMessage "Die KI konnte keine Objekte erraten. Versuche es erneut."
              (setGameState ERROR s))
    /\ (forall (turn : bool) (s : State),
          detectionSettled numberToString turn
            (detectObjects trim JSON_parse Throws) s
          = setMessage "Objekterkennung fehlgeschlagen. Bitte versuche es erneut."
              (setGameState ERROR s)).
Proof.
  intros text Hbad.
  assert (Hnil : parseJsonResponse trim JSON_parse text = []).
  { unfold parseJsonResponse.
    destruct Hbad as [Hfalsy|(t & -> & Hbad)].
    - destruct text as [t|]; [|reflexivity]. rewrite Hfalsy. reflexivity.
    - destruct (truthy (Some t)); [|reflexivity].
      destruct Hbad as [Ht|[Hp|[Hp|Hp]]].
      + rewrite Ht. reflexivity.
      + destruct (trim t); [reflexivity|]. rewrite Hp. reflexivity.
      + destruct (trim t); [reflexivity|]. rewrite Hp. reflexivity.
      + destruct (trim t); [reflexivity|]. rewrite Hp. reflexivity. }
  split; [exact Hnil|].
  unfold guessObjectsFromDescription, detectObjects. rewrite Hnil.
  repeat split; reflexivity.
Qed.

End Answers.

Lemma unusable_answer_is_the_empty_list_witness :
  App.score
    (App.guessesSettled Scenario.tasse
       (GeminiService.guessObjectsFromDescription Scenario.trim
          (fun _ => GeminiService.SyntaxError)
          (GeminiService.Response (Some "Ich sehe nichts.")))
       (Scenario.aiGuessing ["Tasse"]))
  = {| user := 10; ai := 0 |}.
Proof.
  assert (Hbad : truthy (Some "Ich sehe nichts.") = false
                 \/ exists t, Some "Ich sehe nichts." = Some t
                      /\ (Scenario.trim t = EmptyString
                          \/ GeminiService.SyntaxError
                             = @GeminiService.SyntaxError App.DetectedObject
                          \/ GeminiService.SyntaxError
                             = @GeminiService.NotArray App.DetectedObject
                          \/ GeminiService.SyntaxError
                             = @GeminiService.IsArray App.DetectedObject [])).
  { right. exists "Ich sehe nichts.". split; [reflexivity|].
    right. left. reflexivity. }
  rewrite (proj1 (proj2 (unusable_answer_is_the_empty_list Scenario.trim
                           (fun _ => GeminiService.SyntaxError)
                           Scenario.numberToString
                           (Some "Ich sehe nichts.") Hbad))).
  reflexivity.
Defined.

(* ================================================================== *)
(** ** The image part of a request *)

Lemma split_no_separator :
  forall (sep : ascii) (s : string),
    ~ In sep (list_ascii_of_string s) -> GeminiService.split sep s = [s].
Proof.
  intros sep s; induction s as [|c s IH]; intros Hno; [reflexivity|].
  cbn [GeminiService.split]. cbn [list_ascii_of_string In] in Hno.
  destruct (Ascii.eqb_spec c sep) as [->|Hne]; [tauto|].
  rewrite IH by tauto. reflexivity.
Qed.

Lemma split_at_first_separator :
  forall (sep : ascii) (header rest : string),
    ~ In sep (list_ascii_of_string header) ->
    GeminiService.split sep (String.append header (String sep rest))
    = header :: GeminiService.split sep rest.
Proof.
  intros sep header rest; induction header as [|c header IH]; intros Hno.
  - cbn [String.append GeminiService.split]. rewrite Ascii.eqb_refl.
    reflexivity.
  - cbn [String.append GeminiService.split].
    cbn [list_ascii_of_string In] in Hno.
    destruct (Ascii.eqb_spec c sep) as [->|Hne]; [tauto|].
    rewrite IH by tauto. reflexivity.
Qed.

(** X18 (imageToPart).  For a data URL, a header and a payload joined by
    a comma, the data that are sent are the payload (base64 text has no
    comma); for an image text without comma no data are sent.  The MIME
    type is image/jpeg whatever the header says. *)
Theorem imageToPart_sends_the_payload :
  forall (header payload : string),
    ~ In ","%char (list_ascii_of_string header) ->
    ~ In ","%char (list_ascii_of_string payload) ->
    GeminiService.imageToPart (String.append header (String "," payload))
    = {| GeminiService.mimeType := "image/jpeg";
         GeminiService.data := Some payload |}
    /\ GeminiService.imageToPart header
       = {| GeminiService.mimeType := "image/jpeg";
            GeminiService.data := None |}.
Proof.
  intros header payload Hh Hp. unfold GeminiService.imageToPart. split.
  - rewrite split_at_first_separator by assumption.
    rewrite split_no_separator by assumption. reflexivity.
  - rewrite split_no_separator by assumption. reflexivity.
Qed.

Lemma imageToPart_sends_the_payload_witness :
  GeminiService.data (GeminiService.imageToPart Scenario.picture) = Some "AAAA".
Proof.
  change Scenario.picture
    with (String.append "data:image/jpeg;base64" (String "," "AAAA")).
  assert (Hh : ~ In ","%char (list_ascii_of_string "data:image/jpeg;base64")).
  { simpl. intros H. repeat (destruct H as [H|H]; [discriminate H|]). exact H. }
  assert (Hp : ~ In ","%char (list_ascii_of_string "AAAA")).
  { simpl. intros H. repeat (destruct H as [H|H]; [discriminate H|]). exact H. }
  rewrite (proj1 (imageToPart_sends_the_payload "data:image/jpeg;base64" "AAAA"
                    Hh Hp)).
  reflexivity.
Defined.

(* ================================================================== *)
(** ** Every course of the game *)

Section Courses.
Variable toLowerCase : string -> string.
Variable trim : string -> string.
Variable numberToString : float -> string.
Import App.

Lemma handleAiGuess_keeps :
  forall s : State,
    aiGuesses s <> [] ->
    objects (handleAiGuess toLowerCase s) = objects s
    /\ userSelection (handleAiGuess toLowerCase s) = userSelection s
    /\ aiSelection (handleAiGuess toLowerCase s) = aiSelection s
    /\ image (handleAiGuess toLowerCase s) = image s
    /\ isPlayerTurnToPick (handleAiGuess toLowerCase s) = isPlayerTurnToPick s.
Proof.
  intros s Hne. unfold handleAiGuess.
  destruct (aiGuesses s) as [|g rest]; [contradiction|].
  destruct (userSelection s) as [sel|] eqn:Hsel.
  - destruct (findByLabel toLowerCase (objects s) g);
      cbn; rewrite ?Hsel; repeat split; reflexivity.
  - rewrite Hsel. repeat split; reflexivity.
Qed.

Lemma aiGuessingEffectOnce_keeps :
  forall s : State,
    objects (aiGuessingEffectOnce toLowerCase s) = objects s
    /\ userSelection (aiGuessingEffectOnce toLowerCase s) = userSelection s
    /\ aiSelection (aiGuessingEffectOnce toLowerCase s) = aiSelection s
    /\ image (aiGuessingEffectOnce toLowerCase s) = image s
    /\ isPlayerTurnToPick (aiGuessingEffectOnce toLowerCase s)
       = isPlayerTurnToPick s.
Proof.
  intros s. unfold aiGuessingEffectOnce.
  destruct (GameState_eqb (gameState s) AI_GUESSING
            && (0 <? List.length (aiGuesses s))%nat) eqn:Hc.
  - apply handleAiGuess_keeps. intros Hnil. rewrite Hnil in Hc.
    rewrite Bool.andb_false_r in Hc. discriminate.
  - repeat split; reflexivity.
Qed.

Lemma aiGuessingEffect_keeps :
  forall s : State,
    objects (aiGuessingEffect toLowerCase s) = objects s
    /\ userSelection (aiGuessingEffect toLowerCase s) = userSelection s
    /\ aiSelection (aiGuessingEffect toLowerCase s) = aiSelection s
    /\ image (aiGuessingEffect toLowerCase s) = image s
    /\ isPlayerTurnToPick (aiGuessingEffect toLowerCase s)
       = isPlayerTurnToPick s.
Proof.
  intros s. unfold aiGuessingEffect.
  generalize (S (List.length (aiGuesses s))). intros fuel. revert s.
  induction fuel as [|fuel IH]; intros s; [repeat split; reflexivity|].
  cbn [aiGuessingLoop].
  destruct (aiGuessingEffectOnce_keeps s) as (Ho & Hu & Ha & Hi & Ht).
  destruct (List.length (aiGuesses (aiGuessingEffectOnce toLowerCase s))
            <? List.length (aiGuesses s))%nat.
  - destruct (IH (aiGuessingEffectOnce toLowerCase s))
      as (Ho' & Hu' & Ha' & Hi' & Ht').
    rewrite Ho', Hu', Ha', Hi', Ht'. repeat split; assumption.
  - repeat split; assumption.
Qed.

Lemma coherent_effect :
  forall s : State, coherent s -> coherent (aiGuessingEffect toLowerCase s).
Proof.
  intros s (Hu & Ha & Hc & Hn). unfold coherent.
  destruct (aiGuessingEffect_keeps s) as (Eo & Eu & Ea & _).
  destruct (aiGuessingEffect_frame toLowerCase s) as (Eg & _).
  rewrite Eo, Eu, Ea, Eg. repeat split; assumption.
Qed.

Lemma coherent_perform :
  forall (a : Game.Action) (s : State),
    coherent s ->
    coherent (Game.perform toLowerCase trim numberToString s a).
Proof.
  intros a s Hc. unfold Game.perform. apply coherent_effect.
  pose proof Hc as Hcoh. destruct Hc as (Hu & Ha & Hg & Hn).
  destruct a as [imageData|turn r|objectId| | | |transcript|selection r
                 |speechError| | | |random|r| | | |outcome|throws|imageData].
  - (* processImage *)
    unfold Game.processImage.
    destruct (Game.option_string_eqb _ _).
    + unfold coherent; simpl. repeat split; try assumption.
      intros [H|H]; discriminate H.
    + unfold imageEffect. destruct (truthy _).
      * unfold startNewRound. simpl. destruct (isPlayerTurnToPick s);
          unfold coherent; simpl; repeat split; try assumption;
          try discriminate; intros [H|H]; discriminate H.
      * unfold coherent; simpl. repeat split; try assumption.
        intros [H|H]; discriminate H.
  - (* the answer of detectObjects *)
    destruct r as [[|d ds]|].
    + unfold coherent; simpl. repeat split; try assumption.
      intros [H|H]; discriminate H.
    + unfold detectionSettled, startNewRoundOf.
      assert (Hnd : NoDup (map id (gameObjects numberToString (d :: ds)))).
      { unfold gameObjects.
        rewrite (proj1 (proj2 (proj2 (mapDetected_fields _ (d :: ds) 0)))).
        apply object_ids_NoDup. }
      destruct turn; unfold coherent; simpl; repeat split;
        try discriminate; try exact Hnd; intros [H|H]; discriminate H.
    + unfold coherent; simpl. repeat split; try assumption.
      intros [H|H]; discriminate H.
  - (* handleMaskClick *)
    unfold handleMaskClick.
    destruct (find_by_id (objects s) objectId) as [c|] eqn:Hfind;
      [|exact Hcoh].
    assert (Hin : In c (objects s))
      by (unfold find_by_id in Hfind; apply find_some in Hfind; tauto).
    destruct (gameState s) eqn:Hphase;
      try exact Hcoh.
    + unfold coherent; simpl. repeat split; try assumption.
      * intros o Ho. inversion Ho; subst. assumption.
      * discriminate.
    + unfold coherent; simpl. repeat split; try assumption.
      * intros o Ho. inversion Ho; subst. assumption.
      * discriminate.
    + destruct (aiSelection s) as [aiSel|] eqn:Hai;
        [|exact Hcoh].
      destruct (String.eqb (id c) (id aiSel));
        unfold coherent; simpl; rewrite ?Hai; repeat split;
        try assumption; intros [H|H]; try discriminate H;
        rewrite Hphase in H; discriminate H.
  - (* handleConfirmSelection *)
    unfold handleConfirmSelection.
    destruct (userSelection s) as [sel|] eqn:Hsel;
      [|exact Hcoh].
    unfold coherent; simpl. rewrite Hsel.
    repeat split; try assumption. discriminate.
  - (* handleReviseSelection *)
    unfold coherent; simpl. repeat split; try assumption; try discriminate.
    intros [H|H]; discriminate H.
  - (* handleStartRecording *)
    unfold coherent; simpl. repeat split; assumption.
  - (* handleSpeechResult *)
    unfold coherent; simpl. repeat split; try assumption.
    intros [H|H]; discriminate H.
  - (* the answer of guessObjectsFromDescription *)
    destruct r as [[|g gs]|]; unfold coherent; simpl;
      repeat split; try assumption; intros [H|H]; discriminate H.
  - (* the effect on speechError *)
    unfold speechErrorEffect. destruct speechError as [e|];
      [|exact Hcoh].
    destruct (truthy (Some e)); [|exact Hcoh].
    destruct (isFatalSpeechError e); unfold coherent; simpl;
      repeat split; try assumption.
    intros [H|H]; discriminate H.
  - (* handleYes *)
    unfold coherent; simpl. repeat split; try assumption.
    intros [H|H]; discriminate H.
  - (* handleNo *)
    unfold coherent; simpl. repeat split; assumption.
  - (* handleNextRound *)
    unfold handleNextRound. simpl. destruct (truthy (image s)).
    + unfold startNewRound. simpl.
      destruct (negb (isPlayerTurnToPick s)); unfold coherent; simpl;
        repeat split; try assumption; try discriminate;
        intros [H|H]; discriminate H.
    + unfold coherent; simpl. repeat split; assumption.
  - (* the effect "AI Picking Logic" *)
    unfold aiPickingEffect.
    destruct (GameState_eqb (gameState s) AI_PICKING
              && (0 <? List.length (objects s))%nat && truthy (image s))
      eqn:Hcond; [|exact Hcoh].
    unfold coherent; simpl. repeat split; try assumption.
    intros o Ho. eapply nth_error_In. eassumption.
  - (* the answer of generateDescriptionForObject *)
    destruct r; unfold coherent; simpl; repeat split; try assumption;
      intros [H|H]; discriminate H.
  - (* resetGame *)
    unfold coherent; simpl. repeat split; try discriminate.
    + intros [H|H]; discriminate H.
    + constructor.
  - (* handleFrameSelectorCancel *)
    unfold coherent; simpl. repeat split; assumption.
  - (* handleCameraCapture *)
    unfold coherent; simpl. repeat split; assumption.
  - (* handleCameraCapture after the first await *)
    unfold cameraSettled. destruct outcome as [|imageData|];
      try destruct (truthy (Some imageData)); try exact Hcoh;
      unfold coherent; simpl; repeat split; try assumption.
    intros [H|H]; discriminate H.
  - (* handleImageUpload *)
    unfold handleImageUpload. destruct throws; unfold coherent; simpl;
      repeat split; try assumption.
    intros [H|H]; discriminate H.
  - (* reader.onload *)
    unfold imageRead. destruct (truthy (Some imageData)); [|exact Hcoh].
    unfold coherent; simpl. repeat split; assumption.
Qed.

Lemma coherent_run :
  forall (actions : list Game.Action) (s : State),
    coherent s ->
    coherent (Game.run toLowerCase trim numberToString actions s).
Proof.
  induction actions as [|a actions IH]; intros s Hc; [exact Hc|].
  unfold Game.run. cbn [fold_left]. apply IH. apply coherent_perform.
  exact Hc.
Qed.

(** X19 (all handlers, continuations and effects of App).  In every
    state that the game reaches from its start, by any sequence of
    calls, answers and effects in any order: the object selected by the
    human and the object picked by the AI are objects of the image and
    are the ones found for their ids; while the human confirms, an object
    is selected, so that "Auswahl bestätigen" leads to the recording of
    the clue; and while the human describes, an object is selected. *)
Theorem selections_are_objects_in_every_course :
  forall actions : list Game.Action,
    let s := Game.run toLowerCase trim numberToString actions initialState in
    (forall o, userSelection s = Some o ->
               In o (objects s) /\ find_by_id (objects s) (id o) = Some o)
    /\ (forall o, aiSelection s = Some o ->
                  In o (objects s) /\ find_by_id (objects s) (id o) = Some o)
    /\ (gameState s = USER_CONFIRMING ->
        (exists o, userSelection s = Some o)
        /\ gameState (handleConfirmSelection s) = USER_DESCRIBING)
    /\ (gameState s = USER_DESCRIBING -> exists o, userSelection s = Some o).
Proof.
  intros actions s.
  assert (Hc : coherent s).
  { subst s. apply coherent_run. unfold coherent; simpl.
    repeat split; try discriminate.
    - intros [H|H]; discriminate H.
    - constructor. }
  destruct Hc as (Hu & Ha & Hg & Hn).
  split; [|split; [|split]].
  - intros o Ho. split; [auto|]. apply find_by_id_unique; auto.
  - intros o Ho. split; [auto|]. apply find_by_id_unique; auto.
  - intros Hphase.
    destruct (userSelection s) as [o|] eqn:Hsel.
    + split; [exists o; reflexivity|].
      unfold handleConfirmSelection. rewrite Hsel. reflexivity.
    + exfalso. apply Hg; [left; assumption|reflexivity].
  - intros Hphase.
    destruct (userSelection s) as [o|] eqn:Hsel; [exists o; reflexivity|].
    exfalso. apply Hg; [right; assumption|reflexivity].
Qed.

Lemma perform_score :
  forall (a : Game.Action) (s : State),
    a <> Game.ResetGame ->
    (user (score s)
     <= user (score (Game.perform toLowerCase trim numberToString s a)))%Z
    /\ (ai (score s)
        <= ai (score (Game.perform toLowerCase trim numberToString s a)))%Z
    /\ (score (Game.perform toLowerCase trim numberToString s a) <> score s ->
        gameState (Game.perform toLowerCase trim numberToString s a)
        = ROUND_OVER).
Proof.
  intros a s Hreset. unfold Game.perform.
  match goal with
  | |- context [aiGuessingEffect toLowerCase ?inner] =>
      destruct (aiGuessingEffect_frame toLowerCase inner) as (Eg & Es & _);
        rewrite Eg, Es; clear Eg Es
  end.
  destruct a as [imageData|turn r|objectId| | | |transcript|selection r
                 |speechError| | | |random|r| | | |outcome|throws|imageData].
  - unfold Game.processImage.
    destruct (Game.option_string_eqb _ _); [simpl; repeat split; try lia; congruence|].
    unfold imageEffect. destruct (truthy _); [|simpl; repeat split; try lia; congruence].
    unfold startNewRound. simpl.
    destruct (isPlayerTurnToPick s); simpl; repeat split; try lia; congruence.
  - destruct r as [[|d ds]|]; try destruct turn; simpl;
      repeat split; try lia; congruence.
  - unfold handleMaskClick.
    destruct (find_by_id (objects s) objectId) as [c|];
      [|repeat split; try lia; congruence].
    destruct (gameState s); try (simpl; repeat split; try lia; congruence).
    destruct (aiSelection s) as [aiSel|];
      [|repeat split; try lia; congruence].
    pose proof (calculatePoints_nonneg (attemptCount s + 1)).
    destruct (String.eqb (id c) (id aiSel)); simpl;
      repeat split; try lia; congruence.
  - unfold handleConfirmSelection. destruct (userSelection s); simpl;
      repeat split; try lia; congruence.
  - simpl. repeat split; try lia; congruence.
  - simpl. repeat split; try lia; congruence.
  - simpl. repeat split; try lia; congruence.
  - destruct r as [[|g gs]|]; simpl; repeat split; try lia; congruence.
  - unfold speechErrorEffect. destruct speechError as [e|];
      [|repeat split; try lia; congruence].
    destruct (truthy (Some e)); [|repeat split; try lia; congruence].
    destruct (isFatalSpeechError e); simpl; repeat split; try lia; congruence.
  - pose proof (calculatePoints_nonneg (attemptCount s)).
    simpl. repeat split; try lia; congruence.
  - simpl. repeat split; try lia; congruence.
  - unfold handleNextRound. simpl. destruct (truthy (image s));
      [|simpl; repeat split; try lia; congruence].
    unfold startNewRound. simpl.
    destruct (negb (isPlayerTurnToPick s)); simpl;
      repeat split; try lia; congruence.
  - unfold aiPickingEffect.
    destruct (GameState_eqb (gameState s) AI_PICKING
              && (0 <? List.length (objects s))%nat && truthy (image s));
      simpl; repeat split; try lia; congruence.
  - destruct r; simpl; repeat split; try lia; congruence.
  - contradiction.
  - simpl. repeat split; try lia; congruence.
  - simpl. repeat split; try lia; congruence.
  - unfold cameraSettled. destruct outcome as [|imageData|];
      try destruct (truthy (Some imageData)); simpl;
      repeat split; try lia; congruence.
  - unfold handleImageUpload. destruct throws; simpl;
      repeat split; try lia; congruence.
  - unfold imageRead. destruct (truthy (Some imageData)); simpl;
      repeat split; try lia; congruence.
Qed.

Lemma run_score_nonneg :
  forall (actions : list Game.Action) (s : State),
    (0 <= user (score s))%Z -> (0 <= ai (score s))%Z ->
    (0 <= user (score (Game.run toLowerCase trim numberToString actions s)))%Z
    /\ (0 <= ai (score (Game.run toLowerCase trim numberToString actions s)))%Z.
Proof.
  induction actions as [|a actions IH]; intros s Hu Ha; [split; assumption|].
  unfold Game.run. cbn [fold_left].
  fold (Game.run toLowerCase trim numberToString actions
          (Game.perform toLowerCase trim numberToString s a)).
  assert (Hstep : (0 <= user (score (Game.perform toLowerCase trim
                                       numberToString s a)))%Z
                  /\ (0 <= ai (score (Game.perform toLowerCase trim
                                        numberToString s a)))%Z).
  { destruct a;
      try (match goal with
           | |- context [Game.perform _ _ _ _ ?act] =>
               destruct (perform_score act s) as (H1 & H2 & _);
                 [discriminate|split; lia]
           end).
    unfold Game.perform.
    destruct (aiGuessingEffect_frame toLowerCase (resetGame s)) as (_ & Es & _).
    rewrite Es. simpl. split; lia. }
  apply IH; tauto.
Qed.

(** X20 (all handlers, continuations and effects of App).  No call,
    answer or effect other than the reset takes points away from a
    player, and points are given only by a step that ends the round: if a
    step changes the score, the phase after it is ROUND_OVER.  In every
    state that the game reaches from its start both scores are at least
    zero. *)
Theorem points_are_given_only_at_the_end_of_a_round :
  (forall (a : Game.Action) (s : State),
      a <> Game.ResetGame ->
      let s' := Game.perform toLowerCase trim numberToString s a in
      (user (score s) <= user (score s'))%Z
      /\ (ai (score s) <= ai (score s'))%Z
      /\ (score s' <> score s -> gameState s' = ROUND_OVER))
  /\ (forall actions : list Game.Action,
        let s := Game.run toLowerCase trim numberToString actions initialState in
        (0 <= user (score s))%Z /\ (0 <= ai (score s))%Z).
Proof.
  split.
  - intros a s Hreset. apply perform_score. assumption.
  - intros actions. apply run_score_nonneg; simpl; lia.
Qed.

End Courses.

(* ================================================================== *)
(** ** Binary64 arithmetic

    The frame selector and the overlay compute with JavaScript numbers.
    Their properties are proved for binary64, with the rounding of each
    operation taken from the specification of the Standard Library:
    comparisons hold exactly, sums hold up to a stated fraction of the
    size. *)

Local Open Scope Q_scope.

(** *** Powers of two, and the location of a real in a step *)

Lemma pow2_pos : forall e, 0 < pow2 e.
Proof. intros e. apply Qpower_0_lt. reflexivity. Qed.

Lemma pow2_add : forall a b, pow2 (a + b) == pow2 a * pow2 b.
Proof. intros a b. apply Qpower_plus. discriminate. Qed.

Lemma pow2_succ : forall e, pow2 (e + 1) == 2 * pow2 e.
Proof. intros e. rewrite pow2_add. unfold pow2 at 2. rewrite Qpower_1_r. ring. Qed.

Lemma pow2_le : forall a b, (a <= b)%Z -> pow2 a <= pow2 b.
Proof. intros a b H. apply Qpower_le_compat_l; [exact H|]. discriminate. Qed.

Lemma pow2_lt : forall a b, (a < b)%Z -> pow2 a < pow2 b.
Proof. intros a b H. apply Qpower_lt_compat_l; [exact H|]. reflexivity. Qed.

Lemma pow2_lt_inv : forall a b, pow2 a < pow2 b -> (a < b)%Z.
Proof. intros a b H. apply (Qpower_lt_compat_l_inv 2); [exact H|reflexivity]. Qed.

Lemma pow2_le_inv : forall a b, pow2 a <= pow2 b -> (a <= b)%Z.
Proof. intros a b H. apply (Qpower_le_compat_l_inv 2); [exact H|reflexivity]. Qed.

Lemma pow2_Z : forall n, (0 <= n)%Z -> inject_Z (2 ^ n) == pow2 n.
Proof. intros n H. apply Zpower_Qpower. exact H. Qed.

Lemma inject_Z_lt : forall a b, (a < b)%Z -> inject_Z a < inject_Z b.
Proof. intros a b H. rewrite <- Zlt_Qlt. exact H. Qed.

Lemma inject_Z_le : forall a b, (a <= b)%Z -> inject_Z a <= inject_Z b.
Proof. intros a b H. rewrite <- Zle_Qle. exact H. Qed.

Lemma inject_Z_lt_inv : forall a b, inject_Z a < inject_Z b -> (a < b)%Z.
Proof. intros a b H. rewrite Zlt_Qlt. exact H. Qed.

Lemma inject_Z_le_inv : forall a b, inject_Z a <= inject_Z b -> (a <= b)%Z.
Proof. intros a b H. rewrite Zle_Qle. exact H. Qed.

(** Digits *)
Lemma digits2_size : forall m, digits2_pos m = Pos.size m.
Proof. induction m; simpl; congruence. Qed.

Lemma digits2_bounds :
  forall m : positive,
    (2 ^ (Zpos (digits2_pos m) - 1) <= Zpos m < 2 ^ Zpos (digits2_pos m))%Z.
Proof.
  intros m. rewrite digits2_size. split.
  - pose proof (Pos.size_le m) as H.
    assert (Hs : (2 ^ Zpos (Pos.size m) <= 2 * Zpos m)%Z).
    { change 2%Z with (Zpos 2). rewrite <- Pos2Z.inj_pow, <- Pos2Z.inj_mul.
      apply Pos2Z.pos_le_pos. exact H. }
    replace (Zpos (Pos.size m)) with (Zpos (Pos.size m) - 1 + 1)%Z in Hs by lia.
    rewrite Z.pow_add_r in Hs by lia. lia.
  - pose proof (Pos.size_gt m) as H.
    change 2%Z with (Zpos 2). rewrite <- Pos2Z.inj_pow.
    apply Pos2Z.pos_lt_pos. exact H.
Qed.

Lemma digits2_bounds_Q :
  forall (m : positive) (e : Z),
    pow2 (Zpos (digits2_pos m) + e - 1) <= inject_Z (Zpos m) * pow2 e
    /\ inject_Z (Zpos m + 1) * pow2 e <= pow2 (Zpos (digits2_pos m) + e).
Proof.
  intros m e. destruct (digits2_bounds m) as [Hlo Hhi].
  pose proof (pow2_pos e) as He.
  split.
  - replace (Zpos (digits2_pos m) + e - 1)%Z
      with ((Zpos (digits2_pos m) - 1) + e)%Z by lia.
    rewrite pow2_add. apply Qmult_le_compat_r; [|lra].
    rewrite <- pow2_Z by lia. apply inject_Z_le. exact Hlo.
  - rewrite pow2_add. apply Qmult_le_compat_r; [|lra].
    rewrite <- pow2_Z by lia. apply inject_Z_le. lia.
Qed.

Lemma located_bounds :
  forall m e r s x, located m e r s x ->
    inject_Z m * pow2 e <= x /\ x < inject_Z m * pow2 e + pow2 e.
Proof.
  intros m e r s x H. pose proof (pow2_pos e).
  destruct r, s; cbv [located] in H; lra.
Qed.

Lemma shr_1_located :
  forall e mrs x, located_rec e mrs x -> located_rec (e + 1) (shr_1 mrs) x.
Proof.
  intros e [m r s] x [Hm H]. cbn [shr_m shr_r shr_s] in *.
  pose proof (pow2_pos e) as He. pose proof (pow2_succ e) as Hs.
  unfold located_rec, shr_1.
  destruct m as [|p|p]; [| |lia].
  - cbn [shr_m shr_r shr_s]. split; [lia|].
    destruct r, s; cbv [located orb] in *; change (inject_Z 0) with 0 in *; lra.
  - destruct p as [p|p|].
    + cbn [shr_m shr_r shr_s]. split; [lia|].
      assert (Hp : inject_Z (Zpos p~1) == 2 * inject_Z (Zpos p) + 1).
      { rewrite Pos2Z.inj_xI, inject_Z_plus, inject_Z_mult. reflexivity. }
      destruct r, s; cbv [located orb] in *; rewrite Hp in H; rewrite Hs; lra.
    + cbn [shr_m shr_r shr_s]. split; [lia|].
      assert (Hp : inject_Z (Zpos p~0) == 2 * inject_Z (Zpos p)).
      { rewrite Pos2Z.inj_xO, inject_Z_mult. reflexivity. }
      destruct r, s; cbv [located orb] in *; rewrite Hp in H; rewrite Hs; lra.
    + cbn [shr_m shr_r shr_s]. split; [lia|].
      destruct r, s; cbv [located orb] in *; rewrite Hs; change (inject_Z 1) with 1 in H; change (inject_Z 0) with 0; lra.
Qed.

Lemma iter_pos_located :
  forall (n : positive) e mrs x,
    located_rec e mrs x ->
    located_rec (e + Zpos n) (iter_pos shr_1 n mrs) x.
Proof.
  induction n as [n IH|n IH|]; intros e mrs x H; cbn [iter_pos].
  - replace (e + Zpos n~1)%Z with (e + 1 + Zpos n + Zpos n)%Z by lia.
    apply IH, IH, shr_1_located, H.
  - replace (e + Zpos n~0)%Z with (e + Zpos n + Zpos n)%Z by lia.
    apply IH, IH, H.
  - apply shr_1_located, H.
Qed.

Lemma shr_located :
  forall mrs e n x,
    located_rec e mrs x ->
    (0 <= n)%Z ->
    located_rec (e + n) (fst (shr mrs e n)) x
    /\ snd (shr mrs e n) = (e + n)%Z.
Proof.
  intros mrs e n x H Hn. unfold shr. destruct n as [|p|p]; [| |lia].
  - cbn [fst snd]. rewrite Z.add_0_r. split; [exact H|reflexivity].
  - cbn [fst snd]. split; [|reflexivity]. apply iter_pos_located, H.
Qed.

(** *** Rounding to nearest, ties to even *)

Lemma fexp_eq : forall k, fexp prec emax k = Z.max (k - 53) (-1074).
Proof. reflexivity. Qed.

Lemma fexp_ge_emin : forall k, (-1074 <= fexp prec emax k)%Z.
Proof. intros k. rewrite fexp_eq. lia. Qed.

Lemma fexp_mono : forall a b, (a <= b)%Z -> (fexp prec emax a <= fexp prec emax b)%Z.
Proof. intros a b H. rewrite !fexp_eq. lia. Qed.

(** From [m * 2^e < 2^k] to integers. *)
Lemma Z_lt_pow2 :
  forall (m e k : Z), inject_Z m * pow2 e < pow2 k -> (e <= k)%Z ->
    (m < 2 ^ (k - e))%Z.
Proof.
  intros m e k H Hek. apply inject_Z_lt_inv. rewrite pow2_Z by lia.
  replace k with ((k - e) + e)%Z in H by lia. rewrite pow2_add in H.
  pose proof (pow2_pos e) as He.
  apply Qmult_lt_r with (z := pow2 e); assumption.
Qed.

Lemma Z_le_pow2 :
  forall (m e k : Z), pow2 k <= inject_Z m * pow2 e -> (e <= k)%Z ->
    (2 ^ (k - e) <= m)%Z.
Proof.
  intros m e k H Hek. apply inject_Z_le_inv. rewrite pow2_Z by lia.
  replace k with ((k - e) + e)%Z in H by lia. rewrite pow2_add in H.
  pose proof (pow2_pos e) as He.
  apply Qmult_le_r with (z := pow2 e); assumption.
Qed.

Lemma Z_lt_pow2' :
  forall (m e k : Z), pow2 k < inject_Z m * pow2 e -> (e <= k)%Z ->
    (2 ^ (k - e) < m)%Z.
Proof.
  intros m e k H Hek. apply inject_Z_lt_inv. rewrite pow2_Z by lia.
  replace k with ((k - e) + e)%Z in H by lia. rewrite pow2_add in H.
  pose proof (pow2_pos e) as He.
  apply Qmult_lt_r with (z := pow2 e); assumption.
Qed.

Lemma shr_record_of_loc_eq :
  forall m l, shr_record_of_loc m l
              = {| shr_m := m; shr_r := rec_r l; shr_s := rec_s l |}.
Proof. intros m [|[| |]]; reflexivity. Qed.

Lemma round_nearest_even_spec :
  forall (mrs : shr_record) (E : Z) (x : Q),
    located_rec E mrs x ->
    let m1 := shr_m mrs in
    let m2 := round_nearest_even m1 (loc_of_shr_record mrs) in
    (m2 = m1 \/ (m2 = m1 + 1)%Z /\ inject_Z m1 * pow2 E < x)
    /\ inject_Z m2 * pow2 E - (1 # 2) * pow2 E <= x
    /\ x <= inject_Z m2 * pow2 E + (1 # 2) * pow2 E.
Proof.
  intros [m r s] E x [Hm H]. cbn [shr_m shr_r shr_s] in *.
  pose proof (pow2_pos E) as HE.
  assert (Hp : inject_Z (m + 1) == inject_Z m + 1).
  { rewrite inject_Z_plus. reflexivity. }
  destruct r, s; cbv [located] in H;
    cbn [loc_of_shr_record round_nearest_even]; cbv zeta.
  - split; [right; split; [reflexivity|lra]|]. rewrite Hp. lra.
  - destruct (Z.even m).
    + split; [left; reflexivity|]. lra.
    + split; [right; split; [reflexivity|lra]|]. rewrite Hp. lra.
  - split; [left; reflexivity|]. lra.
  - split; [left; reflexivity|]. lra.
Qed.

Lemma shr_nonpos :
  forall mrs e n, (n <= 0)%Z -> shr mrs e n = (mrs, e).
Proof. intros mrs e n H. unfold shr. destruct n; [reflexivity|lia|reflexivity]. Qed.

Lemma digits2_le :
  forall (p : positive) (n : Z), (Zpos p < 2 ^ n)%Z -> (0 <= n)%Z ->
    (Zpos (digits2_pos p) <= n)%Z.
Proof.
  intros p n H Hn. destruct (digits2_bounds p) as [Hlo _].
  destruct (Z_lt_le_dec n (Zpos (digits2_pos p))) as [Hlt|Hle]; [|exact Hle].
  exfalso.
  assert (2 ^ n <= 2 ^ (Zpos (digits2_pos p) - 1))%Z
    by (apply Z.pow_le_mono_r; lia).
  lia.
Qed.

(** The result of [binary_round_aux] on a located real. *)
Lemma binary_round_aux_spec :
  forall (sx : bool) (m : positive) (e : Z) (l : location) (x : Q),
    located (Zpos m) e (rec_r l) (rec_s l) x ->
    (e <= fexp prec emax (Zpos (digits2_pos m) + e))%Z ->
    let k := (Zpos (digits2_pos m) + e)%Z in
    let E := fexp prec emax k in
    exists m1 m2 : Z,
      (0 <= m1)%Z
      /\ inject_Z m1 * pow2 E <= x /\ x < inject_Z (m1 + 1) * pow2 E
      /\ (m2 = m1 \/ (m2 = m1 + 1)%Z /\ inject_Z m1 * pow2 E < x)
      /\ inject_Z m2 * pow2 E - (1 # 2) * pow2 E <= x
      /\ x <= inject_Z m2 * pow2 E + (1 # 2) * pow2 E
      /\ pow2 (k - 1) <= x /\ x < pow2 k
      /\ (binary_round_aux prec emax sx (Zpos m) e l = S754_infinity sx
          /\ pow2 1024 <= inject_Z m2 * pow2 E
          \/ binary_round_aux prec emax sx (Zpos m) e l = S754_zero sx
             /\ m2 = 0%Z
          \/ exists (p : positive) (e2 : Z),
               binary_round_aux prec emax sx (Zpos m) e l = S754_finite sx p e2
               /\ inject_Z (Zpos p) * pow2 e2 == inject_Z m2 * pow2 E).
Proof.
  intros sx m e l x Hloc Hpre k E.
  change (e <= E)%Z in Hpre.
  assert (Hx : pow2 (k - 1) <= x /\ x < pow2 k).
  { apply located_bounds in Hloc. destruct (digits2_bounds_Q m e) as [Hlo Hhi].
    rewrite inject_Z_plus in Hhi. change (inject_Z 1) with 1 in Hhi.
    fold k in Hlo, Hhi. lra. }
  assert (HEk : (k - 53 <= E)%Z)
    by (pose proof (fexp_eq k) as Hf; fold E in Hf; lia).
  assert (HEmin : (-1074 <= E)%Z) by apply fexp_ge_emin.
  unfold binary_round_aux, shr_fexp.
  cbn [Zdigits2]. fold k. fold E.
  rewrite shr_record_of_loc_eq.
  assert (Hrec : located_rec e {| shr_m := Zpos m; shr_r := rec_r l;
                                  shr_s := rec_s l |} x).
  { split; [cbn; lia|exact Hloc]. }
  destruct (shr_located _ e (E - e) x Hrec ltac:(lia)) as [Hl1 He1].
  destruct (shr {| shr_m := Zpos m; shr_r := rec_r l; shr_s := rec_s l |}
              e (E - e)) as [mrs1 e1] eqn:Hshr.
  cbn [fst snd] in Hl1, He1.
  replace (e + (E - e))%Z with E in * by lia. subst e1.
  destruct (round_nearest_even_spec mrs1 E x Hl1) as (Hm2 & Hlo2 & Hhi2).
  set (m1 := shr_m mrs1) in *.
  set (m2 := round_nearest_even m1 (loc_of_shr_record mrs1)) in *.
  destruct Hl1 as [Hm1 Hl1]. apply located_bounds in Hl1. fold m1 in Hm1, Hl1.
  pose proof (pow2_pos E) as HEpos.
  assert (Hm1lt : (m1 < 2 ^ 53)%Z).
  { assert (H1 : inject_Z m1 * pow2 E < pow2 (E + 53)).
    { apply Qle_lt_trans with x; [lra|].
      apply Qlt_le_trans with (pow2 k); [lra|]. apply pow2_le. lia. }
    apply Z_lt_pow2 in H1; [|lia].
    replace (E + 53 - E)%Z with 53%Z in H1 by lia. exact H1. }
  assert (Hm2b : (0 <= m2 <= 2 ^ 53)%Z) by (destruct Hm2 as [->|[-> _]]; lia).
  exists m1, m2.
  split; [exact Hm1|]. split; [lra|].
  split; [rewrite inject_Z_plus; change (inject_Z 1) with 1; lra|].
  split; [exact Hm2|]. split; [exact Hlo2|]. split; [exact Hhi2|].
  split; [lra|]. split; [lra|].
  (* the second shift *)
  destruct (Z.eq_dec m2 (2 ^ 53)) as [Hcarry|Hnocarry].
  - (* the rounded mantissa has one digit more *)
    rewrite Hcarry.
    change (Zdigits2 (2 ^ 53)) with 54%Z.
    assert (Hn2 : (fexp prec emax (54 + E) - E = 1)%Z)
      by (rewrite fexp_eq; lia).
    rewrite Hn2.
    change (shr_record_of_loc (2 ^ 53) loc_Exact)
      with {| shr_m := 2 ^ 53; shr_r := false; shr_s := false |}.
    unfold shr. cbn [iter_pos].
    change (shr_1 {| shr_m := 2 ^ 53; shr_r := false; shr_s := false |})
      with {| shr_m := 2 ^ 52; shr_r := false; shr_s := false |}.
    cbn [shr_m]. change (2 ^ 52)%Z with (Zpos (2 ^ 52)).
    cbv iota beta.
    destruct (Z.leb_spec (E + 1) (emax - prec)) as [Hfin|Hinf].
    + right. right. exists (2 ^ 52)%positive, (E + 1)%Z.
      split; [reflexivity|].
      rewrite pow2_succ.
      change (inject_Z (Zpos (2 ^ 52))) with (inject_Z (2 ^ 52)).
      change (inject_Z (2 ^ 53)) with (2 * inject_Z (2 ^ 52)).
      ring.
    + left. split; [reflexivity|].
      change (emax - prec)%Z with 971%Z in Hinf.
      rewrite pow2_Z by lia.
      rewrite <- pow2_add. apply pow2_le. lia.
  - assert (Hm2lt : (m2 < 2 ^ 53)%Z) by lia.
    assert (Hn2 : (fexp prec emax (Zdigits2 m2 + E) - E <= 0)%Z).
    { rewrite fexp_eq. destruct m2 as [|p|p]; [cbn [Zdigits2]; lia| |lia].
      cbn [Zdigits2]. pose proof (digits2_le p 53 Hm2lt ltac:(lia)). lia. }
    rewrite shr_nonpos by exact Hn2.
    rewrite shr_record_of_loc_eq. cbn [shr_m rec_r rec_s].
    destruct m2 as [|p|p] eqn:Hm2eq; [| |lia].
    + right. left. split; reflexivity.
    + destruct (Z.leb_spec E (emax - prec)) as [Hfin|Hinf].
      * right. right. exists p, E. split; reflexivity.
      * left. split; [reflexivity|].
        change (emax - prec)%Z with 971%Z in Hinf.
        (* E > emin, so the real is in the normal range *)
        assert (HEeq : E = (k - 53)%Z)
          by (pose proof (fexp_eq k) as Hf; fold E in Hf; lia).
        assert (H52 : (2 ^ 52 <= m1)%Z).
        { assert (H1 : pow2 (E + 52) < inject_Z (m1 + 1) * pow2 E).
          { apply Qle_lt_trans with x.
            - apply Qle_trans with (pow2 (k - 1)); [|lra].
              apply pow2_le. lia.
            - rewrite inject_Z_plus. change (inject_Z 1) with 1. lra. }
          apply Z_lt_pow2' in H1; [|lia].
          replace (E + 52 - E)%Z with 52%Z in H1 by lia. lia. }
        assert (H52' : (2 ^ 52 <= Zpos p)%Z)
          by (destruct Hm2 as [Heq|[Heq _]]; lia).
        apply Qle_trans with (inject_Z (2 ^ 52) * pow2 E).
        -- rewrite pow2_Z by lia. rewrite <- pow2_add. apply pow2_le. lia.
        -- apply Qmult_le_compat_r; [|lra]. apply inject_Z_le. exact H52'.
Qed.

(** *** The result of rounding a located real *)

Lemma bounded_canonical :
  forall m e, bounded prec emax m e = true ->
    fexp prec emax (Zpos (digits2_pos m) + e) = e /\ (e <= 971)%Z.
Proof.
  intros m e H. unfold bounded, canonical_mantissa in H.
  apply andb_prop in H. destruct H as [H1 H2].
  apply Z.eqb_eq in H1. apply Z.leb_le in H2.
  split; [exact H1|exact H2].
Qed.

(** A representable number is a multiple of [2^E] when its exponent is
    at least [E]. *)
Lemma multiple_of_pow2 :
  forall (mf : positive) (ef E : Z), (E <= ef)%Z ->
    inject_Z (Zpos mf * 2 ^ (ef - E)) * pow2 E == inject_Z (Zpos mf) * pow2 ef.
Proof.
  intros mf ef E H. rewrite inject_Z_mult, pow2_Z by lia.
  replace ef with ((ef - E) + E)%Z at 2 by lia. rewrite pow2_add. ring.
Qed.

Lemma binary_round_aux_rounds :
  forall (m : positive) (e : Z) (l : location) (x : Q),
    located (Zpos m) e (rec_r l) (rec_s l) x ->
    (e <= fexp prec emax (Zpos (digits2_pos m) + e))%Z ->
    rounded x (binary_round_aux prec emax false (Zpos m) e l).
Proof.
  intros m e l x Hloc Hpre.
  destruct (binary_round_aux_spec false m e l x Hloc Hpre)
    as (m1 & m2 & Hm1 & Hlo1 & Hhi1 & Hm2 & Hlo2 & Hhi2 & Hxlo & Hxhi & Hres).
  set (k := (Zpos (digits2_pos m) + e)%Z) in *.
  set (E := fexp prec emax k) in *.
  set (z := binary_round_aux prec emax false (Zpos m) e l) in *.
  pose proof (pow2_pos E) as HEpos.
  assert (HEk : (k - 53 <= E)%Z)
    by (pose proof (fexp_eq k) as Hf; fold E in Hf; lia).
  assert (HEmin : (-1074 <= E)%Z) by apply fexp_ge_emin.
  assert (Hm12 : (m1 <= m2)%Z) by (destruct Hm2 as [->|[-> _]]; lia).
  (* the value of the result *)
  assert (Hval : is_inf z = false -> SF2Q z == inject_Z m2 * pow2 E).
  { intros Hfin. destruct Hres as [[Hz _]|[[Hz Hm0]|(p & e2 & Hz & Hv)]];
      rewrite Hz in *; [discriminate| |].
    - rewrite Hm0. cbn [SF2Q]. change (inject_Z 0) with 0. ring.
    - cbn [SF2Q]. exact Hv. }
  assert (Hinf : is_inf z = true -> pow2 1024 <= inject_Z m2 * pow2 E).
  { intros Hi. destruct Hres as [[Hz Hb]|[[Hz _]|(p & e2 & Hz & _)]];
      rewrite Hz in Hi; [exact Hb|discriminate|discriminate]. }
  (* comparison with a representable number *)
  assert (Hle : forall mf ef, bounded prec emax mf ef = true ->
                  x <= inject_Z (Zpos mf) * pow2 ef ->
                  inject_Z m2 * pow2 E <= inject_Z (Zpos mf) * pow2 ef
                  /\ inject_Z (Zpos mf) * pow2 ef < pow2 1024).
  { intros mf ef Hb Hx.
    destruct (bounded_canonical mf ef Hb) as [Hcan Hef].
    destruct (digits2_bounds_Q mf ef) as [Hflo Hfhi].
    rewrite inject_Z_plus in Hfhi. change (inject_Z 1) with 1 in Hfhi.
    pose proof (pow2_pos ef) as Hefpos.
    set (kf := (Zpos (digits2_pos mf) + ef)%Z) in *.
    assert (Hk : (k <= kf)%Z).
    { assert (H : pow2 (k - 1) < pow2 kf) by lra.
      apply pow2_lt_inv in H. lia. }
    assert (HEf : (E <= ef)%Z).
    { rewrite <- Hcan. apply fexp_mono. exact Hk. }
    split.
    - rewrite <- (multiple_of_pow2 mf ef E HEf) in Hx |- *.
      apply Qmult_le_compat_r; [|lra]. apply inject_Z_le.
      destruct Hm2 as [->|[-> Hlt]].
      + apply inject_Z_le_inv.
        apply Qmult_le_r with (z := pow2 E); [exact HEpos|]. lra.
      + assert (H : (m1 < Zpos mf * 2 ^ (ef - E))%Z); [|lia].
        apply inject_Z_lt_inv.
        apply Qmult_lt_r with (z := pow2 E); [exact HEpos|]. lra.
    - apply Qlt_le_trans with (pow2 kf); [lra|]. apply pow2_le.
      pose proof (fexp_eq kf) as Hf. fold kf in Hcan. lia. }
  split; [|split; [|split; [|split]]].
  - destruct Hres as [[Hz _]|[[Hz _]|(p & e2 & Hz & _)]].
    + left. exact Hz.
    + right. left. exact Hz.
    + right. right. exists p, e2. exact Hz.
  - intros mf ef Hb Hx. destruct (Hle mf ef Hb Hx) as [H1 H2].
    assert (Hfin : is_inf z = false).
    { destruct (is_inf z) eqn:Hi; [|reflexivity].
      specialize (Hinf eq_refl). lra. }
    split; [exact Hfin|]. rewrite (Hval Hfin). exact H1.
  - intros mf ef Hb Hx.
    destruct (is_inf z) eqn:Hi; [left; reflexivity|right].
    rewrite (Hval eq_refl).
    destruct (bounded_canonical mf ef Hb) as [Hcan Hef].
    destruct (digits2_bounds_Q mf ef) as [Hflo Hfhi].
    rewrite inject_Z_plus in Hfhi. change (inject_Z 1) with 1 in Hfhi.
    pose proof (pow2_pos ef) as Hefpos.
    set (kf := (Zpos (digits2_pos mf) + ef)%Z) in *.
    destruct (Z_lt_le_dec ef E) as [HEf|HEf]; [|rename HEf into HEf2].
    + assert (Hefmin : (-1074 <= ef)%Z)
        by (rewrite <- Hcan; apply fexp_ge_emin).
      assert (HEeq : E = (k - 53)%Z)
        by (pose proof (fexp_eq k) as Hf; fold E in Hf; lia).
      assert (Hkf : (kf <= k - 1)%Z).
      { pose proof (fexp_eq kf) as Hf. fold kf in Hcan. lia. }
      assert (H52 : (2 ^ 52 <= m1)%Z).
      { assert (H1 : pow2 (E + 52) < inject_Z (m1 + 1) * pow2 E).
        { apply Qle_lt_trans with x; [|lra].
          apply Qle_trans with (pow2 (k - 1)); [|lra]. apply pow2_le. lia. }
        apply Z_lt_pow2' in H1; [|lia].
        replace (E + 52 - E)%Z with 52%Z in H1 by lia. lia. }
      apply Qle_trans with (pow2 (k - 1)).
      * apply Qle_trans with (pow2 kf); [lra|]. apply pow2_le. exact Hkf.
      * apply Qle_trans with (inject_Z (2 ^ 52) * pow2 E).
        -- rewrite pow2_Z by lia. rewrite <- pow2_add. apply pow2_le. lia.
        -- apply Qmult_le_compat_r; [|lra]. apply inject_Z_le. lia.
    + rewrite <- (multiple_of_pow2 mf ef E HEf2) in Hx |- *.
      apply Qmult_le_compat_r; [|lra]. apply inject_Z_le.
      assert (H : (Zpos mf * 2 ^ (ef - E) < m1 + 1)%Z); [|lia].
      apply inject_Z_lt_inv.
      apply Qmult_lt_r with (z := pow2 E); [exact HEpos|]. lra.
  - intros Hnorm Hfin. rewrite (Hval Hfin).
    assert (Hk : (-1022 < k)%Z).
    { assert (H : pow2 (-1022) < pow2 k) by lra. apply pow2_lt_inv in H. lia. }
    assert (HEeq : E = (k - 53)%Z)
      by (pose proof (fexp_eq k) as Hf; fold E in Hf; lia).
    assert (Hhalf : (1 # 2) * pow2 E <= pow2 (-53) * x).
    { apply Qle_trans with (pow2 (-53) * pow2 (k - 1)).
      - rewrite <- pow2_add. replace (-53 + (k - 1))%Z with (E + -1)%Z by lia.
        rewrite pow2_add. change (pow2 (-1)) with (1 # 2). lra.
      - pose proof (pow2_pos (-53)).
        apply Qmult_le_l; [assumption|lra]. }
    lra.
  - intros Hfin. rewrite (Hval Hfin).
    assert (Hhalf : (1 # 2) * pow2 E <= pow2 (-53) * x + pow2 (-1075)).
    { pose proof (fexp_eq k) as Hf. fold E in Hf.
      pose proof (pow2_pos (-53)) as H53.
      assert (Hx0 : 0 <= pow2 (-53) * x).
      { apply Qmult_le_0_compat; [lra|].
        pose proof (pow2_pos (k - 1)). lra. }
      destruct (Z_lt_le_dec (k - 53) (-1074)) as [Hsub|Hnorm].
      - assert (HEeq : E = (-1074)%Z) by lia. rewrite HEeq.
        pose proof (pow2_succ (-1075)) as H75.
        change (-1075 + 1)%Z with (-1074)%Z in H75. lra.
      - assert (HEeq : E = (k - 53)%Z) by lia.
        pose proof (pow2_pos (-1075)).
        apply Qle_trans with (pow2 (-53) * x); [|lra].
        apply Qle_trans with (pow2 (-53) * pow2 (k - 1)).
        + rewrite <- pow2_add.
          replace (-53 + (k - 1))%Z with (E + -1)%Z by lia.
          rewrite pow2_add. change (pow2 (-1)) with (1 # 2). lra.
        + apply Qmult_le_l; [assumption|lra]. }
    lra.
Qed.

(** *** Comparison of positive finite numbers *)

Lemma canonical_digits :
  forall m e, bounded prec emax m e = true ->
    (Zpos (digits2_pos m) <= 53)%Z
    /\ (-1074 <= e <= 971)%Z
    /\ (Zpos (digits2_pos m) = 53 \/ e = (-1074))%Z.
Proof.
  intros m e H. destruct (bounded_canonical m e H) as [Hc He].
  rewrite fexp_eq in Hc. lia.
Qed.

Lemma SFcompare_pos :
  forall m1 e1 m2 e2,
    bounded prec emax m1 e1 = true -> bounded prec emax m2 e2 = true ->
    match SFcompare (S754_finite false m1 e1) (S754_finite false m2 e2) with
    | Some Lt => inject_Z (Zpos m1) * pow2 e1 < inject_Z (Zpos m2) * pow2 e2
    | Some Eq => m1 = m2 /\ e1 = e2
    | Some Gt => inject_Z (Zpos m2) * pow2 e2 < inject_Z (Zpos m1) * pow2 e1
    | None => False
    end.
Proof.
  intros m1 e1 m2 e2 H1 H2.
  assert (Hlt : forall ma ea mb eb,
             bounded prec emax ma ea = true -> bounded prec emax mb eb = true ->
             (ea < eb)%Z ->
             inject_Z (Zpos ma) * pow2 ea < inject_Z (Zpos mb) * pow2 eb).
  { intros ma ea mb eb Ha Hb Hlt.
    destruct (canonical_digits ma ea Ha) as (Hda & Hea & _).
    destruct (canonical_digits mb eb Hb) as (Hdb & Heb & Hnb).
    destruct (digits2_bounds_Q ma ea) as [_ Hahi].
    destruct (digits2_bounds_Q mb eb) as [Hblo _].
    rewrite inject_Z_plus in Hahi. change (inject_Z 1) with 1 in Hahi.
    pose proof (pow2_pos ea).
    assert (pow2 (Zpos (digits2_pos ma) + ea)
            <= pow2 (Zpos (digits2_pos mb) + eb - 1))
      by (apply pow2_le; lia).
    lra. }
  cbn [SFcompare].
  destruct (Z.compare_spec e1 e2) as [Heq|Hl|Hg].
  - subst e2. rewrite Pos.compare_cont_spec. cbn [Pos.switch_Eq].
    pose proof (pow2_pos e1).
    destruct (Pos.compare_spec m1 m2) as [Hm|Hm|Hm].
    + split; [exact Hm|reflexivity].
    + apply Qmult_lt_compat_r; [assumption|]. apply inject_Z_lt. lia.
    + apply Qmult_lt_compat_r; [assumption|]. apply inject_Z_lt. lia.
  - apply Hlt; assumption.
  - apply Hlt; assumption.
Qed.

Lemma posfin_bounded :
  forall f m e, Prim2SF f = S754_finite false m e ->
    bounded prec emax m e = true.
Proof.
  intros f m e H. pose proof (Prim2SF_valid f) as Hv. rewrite H in Hv.
  exact Hv.
Qed.

Lemma posfin_pos : forall f, posfin f -> 0 < F2Q f.
Proof.
  intros f (m & e & H). unfold F2Q. rewrite H. cbn [SF2Q].
  pose proof (pow2_pos e).
  apply Qmult_lt_0_compat; [reflexivity|assumption].
Qed.

Lemma ltb_posfin :
  forall a b, posfin a -> posfin b ->
    ((a <? b)%float = true <-> F2Q a < F2Q b).
Proof.
  intros a b (ma & ea & Ha) (mb & eb & Hb).
  rewrite FloatAxioms.ltb_spec. unfold F2Q, SFltb. rewrite Ha, Hb. cbn [SF2Q].
  pose proof (SFcompare_pos ma ea mb eb (posfin_bounded a _ _ Ha)
                (posfin_bounded b _ _ Hb)) as H.
  destruct (SFcompare (S754_finite false ma ea) (S754_finite false mb eb))
    as [[| |]|]; [| | |contradiction].
  - destruct H as [-> ->]. split; [discriminate|].
    intros Hlt. apply Qlt_irrefl in Hlt. contradiction.
  - split; [intros _; exact H|reflexivity].
  - split; [discriminate|]. intros Hlt. lra.
Qed.

Lemma leb_posfin :
  forall a b, posfin a -> posfin b ->
    ((a <=? b)%float = true <-> F2Q a <= F2Q b).
Proof.
  intros a b (ma & ea & Ha) (mb & eb & Hb).
  rewrite FloatAxioms.leb_spec. unfold F2Q, SFleb. rewrite Ha, Hb. cbn [SF2Q].
  pose proof (SFcompare_pos ma ea mb eb (posfin_bounded a _ _ Ha)
                (posfin_bounded b _ _ Hb)) as H.
  destruct (SFcompare (S754_finite false ma ea) (S754_finite false mb eb))
    as [[| |]|]; [| | |contradiction].
  - destruct H as [-> ->]. split; [intros _; apply Qle_refl|reflexivity].
  - split; [intros _; lra|reflexivity].
  - split; [discriminate|]. intros Hle. lra.
Qed.

(** A float between two positive finite floats is positive and finite. *)
Lemma between_posfin :
  forall lo hi a, posfin lo -> posfin hi ->
    (lo <=? a)%float = true -> (a <=? hi)%float = true ->
    posfin a /\ F2Q lo <= F2Q a /\ F2Q a <= F2Q hi.
Proof.
  intros lo hi a Hlo Hhi H1 H2.
  assert (Ha : posfin a).
  { destruct Hlo as (ml & el & Hl). destruct Hhi as (mh & eh & Hh).
    rewrite FloatAxioms.leb_spec in H1, H2. unfold SFleb in H1, H2.
    rewrite Hl in H1. rewrite Hh in H2.
    destruct (Prim2SF a) as [s|s| |s m e] eqn:Hpa; cbn [SFcompare] in H1, H2;
      try discriminate.
    - destruct s; discriminate.
    - destruct s; [discriminate|]. exists m, e. exact Hpa. }
  split; [exact Ha|]. split.
  - apply leb_posfin; assumption.
  - apply leb_posfin; assumption.
Qed.

(** *** Rounded results on primitive floats, and products *)

Lemma rounds_le :
  forall x r hi, rounded x (Prim2SF r) -> posfin hi -> x <= F2Q hi ->
    is_inf (Prim2SF r) = false /\ F2Q r <= F2Q hi.
Proof.
  intros x r hi (_ & Hle & _) (m & e & Hhi) Hx.
  unfold F2Q in *. rewrite Hhi in *. cbn [SF2Q] in *.
  apply Hle; [exact (posfin_bounded hi m e Hhi)|exact Hx].
Qed.

Lemma rounds_ge :
  forall x r lo, rounded x (Prim2SF r) -> posfin lo -> F2Q lo <= x ->
    is_inf (Prim2SF r) = false ->
    posfin r /\ F2Q lo <= F2Q r.
Proof.
  intros x r lo (Hcl & _ & Hge & _) Hlo Hx Hfin.
  pose proof (posfin_pos lo Hlo) as Hpos.
  destruct Hlo as (m & e & Hlo).
  assert (H : F2Q lo <= F2Q r).
  { unfold F2Q in *. rewrite Hlo in *. cbn [SF2Q] in *.
    destruct (Hge m e (posfin_bounded lo m e Hlo) Hx) as [Hi|H];
      [congruence|exact H]. }
  split; [|exact H].
  destruct Hcl as [Hz|[Hz|(p & e2 & Hz)]].
  - rewrite Hz in Hfin. discriminate.
  - unfold F2Q in H at 2. rewrite Hz in H. cbn [SF2Q] in H. lra.
  - exists p, e2. exact Hz.
Qed.

Lemma rounds_between :
  forall x r lo hi, rounded x (Prim2SF r) -> posfin lo -> posfin hi ->
    F2Q lo <= x -> x <= F2Q hi ->
    posfin r /\ F2Q lo <= F2Q r /\ F2Q r <= F2Q hi.
Proof.
  intros x r lo hi Hr Hlo Hhi H1 H2.
  destruct (rounds_le x r hi Hr Hhi H2) as [Hfin Hle].
  destruct (rounds_ge x r lo Hr Hlo H1 Hfin) as [Hp Hge].
  repeat split; assumption.
Qed.

Lemma rounds_error :
  forall x r, rounded x (Prim2SF r) -> pow2 (-1022) <= x ->
    is_inf (Prim2SF r) = false ->
    F2Q r - x <= pow2 (-53) * x /\ x - F2Q r <= pow2 (-53) * x.
Proof.
  intros x r (_ & _ & _ & Herr & _) Hx Hfin. apply Herr; assumption.
Qed.

Lemma rounds_error_any :
  forall x r, rounded x (Prim2SF r) -> is_inf (Prim2SF r) = false ->
    F2Q r - x <= pow2 (-53) * x + pow2 (-1075)
    /\ x - F2Q r <= pow2 (-53) * x + pow2 (-1075).
Proof.
  intros x r (_ & _ & _ & _ & Herr) Hfin. apply Herr; assumption.
Qed.

(** Multiplication *)
Lemma digits2_mul :
  forall a b : positive,
    (Zpos (digits2_pos a) + Zpos (digits2_pos b) - 1
     <= Zpos (digits2_pos (a * b)))%Z.
Proof.
  intros a b.
  destruct (digits2_bounds a) as [Ha _]. destruct (digits2_bounds b) as [Hb _].
  destruct (digits2_bounds (a * b)) as [_ Hab].
  set (da := Zpos (digits2_pos a)) in *. set (db := Zpos (digits2_pos b)) in *.
  set (d := Zpos (digits2_pos (a * b))) in *.
  assert (Hda : (1 <= da)%Z) by (unfold da; lia).
  assert (Hdb : (1 <= db)%Z) by (unfold db; lia).
  destruct (Z_lt_le_dec d (da + db - 1)) as [Hlt|Hle]; [|exact Hle].
  exfalso.
  assert (H1 : (2 ^ d <= 2 ^ (da + db - 2))%Z)
    by (apply Z.pow_le_mono_r; lia).
  replace (da + db - 2)%Z with ((da - 1) + (db - 1))%Z in H1 by lia.
  rewrite Z.pow_add_r in H1 by lia.
  rewrite Pos2Z.inj_mul in Hab.
  assert (H2 : (2 ^ (da - 1) * 2 ^ (db - 1) <= Zpos a * Zpos b)%Z)
    by (apply Z.mul_le_mono_nonneg; lia).
  lia.
Qed.

Lemma SFmul_rounds :
  forall ma ea mb eb,
    bounded prec emax ma ea = true -> bounded prec emax mb eb = true ->
    rounded ((inject_Z (Zpos ma) * pow2 ea) * (inject_Z (Zpos mb) * pow2 eb))
      (SFmul prec emax (S754_finite false ma ea) (S754_finite false mb eb)).
Proof.
  intros ma ea mb eb Ha Hb. cbn [SFmul xorb].
  apply binary_round_aux_rounds.
  - cbn [rec_r rec_s]. cbv [located].
    rewrite Pos2Z.inj_mul, inject_Z_mult, pow2_add. ring.
  - destruct (canonical_digits ma ea Ha) as (Hda & Hea & Hna).
    destruct (canonical_digits mb eb Hb) as (Hdb & Heb & Hnb).
    pose proof (digits2_mul ma mb) as Hd.
    rewrite fexp_eq.
    assert (1 <= Zpos (digits2_pos ma))%Z by lia.
    assert (1 <= Zpos (digits2_pos mb))%Z by lia.
    lia.
Qed.

Lemma mul_rounds :
  forall a b, posfin a -> posfin b ->
    rounded (F2Q a * F2Q b) (Prim2SF (a * b)).
Proof.
  intros a b (ma & ea & Ha) (mb & eb & Hb).
  rewrite FloatAxioms.mul_spec. unfold F2Q, SF64mul. rewrite Ha, Hb. cbn [SF2Q].
  apply SFmul_rounds; eapply posfin_bounded; eassumption.
Qed.

(** Division *)
Lemma new_location_located :
  forall (q r m2 e : Z) (x : Q),
    (0 < m2)%Z -> (0 <= r < m2)%Z ->
    x * inject_Z m2 == (inject_Z q * inject_Z m2 + inject_Z r) * pow2 e ->
    located q e (rec_r (new_location m2 r)) (rec_s (new_location m2 r)) x.
Proof.
  intros q r m2 e x Hm2 Hr Hx.
  pose proof (pow2_pos e) as He.
  assert (HM : 0 < inject_Z m2) by (apply (inject_Z_lt 0); exact Hm2).
  assert (HR : 0 <= inject_Z r) by (apply (inject_Z_le 0); lia).
  assert (Hmul : forall a b : Q, a * inject_Z m2 < b * inject_Z m2 -> a < b).
  { intros a b H. apply Qmult_lt_r with (z := inject_Z m2); assumption. }
  assert (Hloc : forall c : comparison,
             (2 * r ?= m2)%Z = c ->
             r <> 0%Z ->
             located q e (rec_r (loc_Inexact c)) (rec_s (loc_Inexact c)) x).
  { intros c Hc Hr0.
    assert (HR0 : 0 < inject_Z r) by (apply (inject_Z_lt 0); lia).
    assert (HRP : 0 < inject_Z r * pow2 e)
      by (apply Qmult_lt_0_compat; assumption).
    assert (HMP : 0 < inject_Z m2 * pow2 e)
      by (apply Qmult_lt_0_compat; assumption).
    destruct c; cbn [rec_r rec_s]; cbv [located].
    - apply Z.compare_eq in Hc.
      assert (H2 : 2 * inject_Z r == inject_Z m2).
      { rewrite <- Hc, inject_Z_mult. reflexivity. }
      apply Qmult_inj_r with (z := inject_Z m2); [lra|].
      rewrite Hx. rewrite <- H2. ring.
    - apply Z.compare_lt_iff in Hc.
      assert (H2 : 2 * inject_Z r < inject_Z m2).
      { apply (inject_Z_lt (2 * r) m2) in Hc. rewrite inject_Z_mult in Hc.
        exact Hc. }
      split; apply Hmul; rewrite Hx.
      + nra.
      + nra.
    - apply Z.compare_gt_iff in Hc.
      assert (H2 : inject_Z m2 < 2 * inject_Z r).
      { apply (inject_Z_lt m2 (2 * r)) in Hc. rewrite inject_Z_mult in Hc.
        exact Hc. }
      assert (H3 : inject_Z r < inject_Z m2) by (apply inject_Z_lt; lia).
      split; apply Hmul; rewrite Hx.
      + nra.
      + nra. }
  unfold new_location.
  destruct (Z.even m2) eqn:Heven.
  - unfold new_location_even. destruct (Z.eqb_spec r 0) as [Hr0|Hr0].
    + cbn [rec_r rec_s]. cbv [located]. subst r.
      change (inject_Z 0) with 0 in Hx.
      apply Qmult_inj_r with (z := inject_Z m2); [lra|]. rewrite Hx. ring.
    + apply Hloc; [reflexivity|exact Hr0].
  - unfold new_location_odd. destruct (Z.eqb_spec r 0) as [Hr0|Hr0].
    + cbn [rec_r rec_s]. cbv [located]. subst r.
      change (inject_Z 0) with 0 in Hx.
      apply Qmult_inj_r with (z := inject_Z m2); [lra|]. rewrite Hx. ring.
    + assert (Hodd : Z.odd m2 = true)
        by (rewrite <- Z.negb_even, Heven; reflexivity).
      apply Z.odd_spec in Hodd. destruct Hodd as [h Hh].
      destruct (Z.compare_spec (2 * r + 1) m2) as [Hc|Hc|Hc].
      * apply (Hloc Lt); [apply Z.compare_lt_iff; lia|exact Hr0].
      * apply (Hloc Lt); [apply Z.compare_lt_iff; lia|exact Hr0].
      * apply (Hloc Gt); [apply Z.compare_gt_iff; lia|exact Hr0].
Qed.

(** *** Quotients *)

Lemma SFdiv_rounds :
  forall ma ea mb eb,
    bounded prec emax ma ea = true -> bounded prec emax mb eb = true ->
    pow2 (-1074)
    <= (inject_Z (Zpos ma) * pow2 ea) / (inject_Z (Zpos mb) * pow2 eb) ->
    rounded ((inject_Z (Zpos ma) * pow2 ea) / (inject_Z (Zpos mb) * pow2 eb))
      (SFdiv prec emax (S754_finite false ma ea) (S754_finite false mb eb)).
Proof.
  intros ma ea mb eb Ha Hb Hmin.
  set (x := (inject_Z (Zpos ma) * pow2 ea) / (inject_Z (Zpos mb) * pow2 eb))
    in *.
  cbn [SFdiv xorb]. unfold SFdiv_core_binary. cbn [Zdigits2].
  set (d1 := Zpos (digits2_pos ma)). set (d2 := Zpos (digits2_pos mb)).
  set (kq := (d1 + ea - (d2 + eb))%Z).
  set (e' := Z.min (fexp prec emax kq) (ea - eb)).
  set (s := (ea - eb - e')%Z).
  assert (Hs : (0 <= s)%Z) by (unfold s, e'; lia).
  set (m' := match s with
             | 0%Z => Zpos ma
             | Zpos _ => Z.shiftl (Zpos ma) s
             | Zneg _ => 0%Z
             end).
  assert (Hm' : m' = (Zpos ma * 2 ^ s)%Z).
  { unfold m'. destruct s as [|p|p] eqn:Hseq; [|rewrite Z.shiftl_mul_pow2|];
      lia. }
  pose proof (pow2_pos ea) as Hpea. pose proof (pow2_pos eb) as Hpeb.
  pose proof (pow2_pos e') as Hpe'.
  assert (HA : 0 < inject_Z (Zpos ma)) by reflexivity.
  assert (HB : 0 < inject_Z (Zpos mb)) by reflexivity.
  assert (HV : 0 < inject_Z (Zpos mb) * pow2 eb)
    by (apply Qmult_lt_0_compat; assumption).
  assert (HW : 0 < inject_Z (Zpos ma) * pow2 ea)
    by (apply Qmult_lt_0_compat; assumption).
  assert (Hxpos : 0 < x).
  { unfold x. apply Qlt_shift_div_l; [exact HV|]. lra. }
  assert (HxV : x * (inject_Z (Zpos mb) * pow2 eb)
                == inject_Z (Zpos ma) * pow2 ea).
  { unfold x. field. lra. }
  assert (Hx : x * inject_Z (Zpos mb) == inject_Z m' * pow2 e').
  { rewrite Hm', inject_Z_mult, pow2_Z by exact Hs.
    assert (Hea : pow2 ea == pow2 s * pow2 e' * pow2 eb).
    { rewrite <- !pow2_add. replace (s + e' + eb)%Z with ea by (unfold s; lia).
      reflexivity. }
    rewrite Hea in HxV.
    apply Qmult_inj_r with (z := pow2 eb); [lra|].
    transitivity (x * (inject_Z (Zpos mb) * pow2 eb)); [ring|].
    rewrite HxV. ring. }
  destruct (Z.div_eucl m' (Zpos mb)) as [q r] eqn:Hdiv.
  pose proof (Z_div_mod m' (Zpos mb) ltac:(lia)) as Hqr.
  rewrite Hdiv in Hqr. destruct Hqr as [Hqr Hr].
  assert (Hx2 : x * inject_Z (Zpos mb)
                == (inject_Z q * inject_Z (Zpos mb) + inject_Z r) * pow2 e').
  { rewrite Hx, Hqr, inject_Z_plus, inject_Z_mult. ring. }
  pose proof (new_location_located q r (Zpos mb) e' x ltac:(lia) Hr Hx2)
    as Hloc.
  (* the real is above [2^(kq-1)] *)
  destruct (digits2_bounds_Q ma ea) as [Halo _].
  destruct (digits2_bounds_Q mb eb) as [_ Hbhi].
  rewrite inject_Z_plus in Hbhi. change (inject_Z 1) with 1 in Hbhi.
  fold d1 in Halo. fold d2 in Hbhi.
  assert (Hxlo : pow2 (kq - 1) < x).
  { pose proof (pow2_pos (d2 + eb)) as HU.
    apply Qmult_lt_r with (z := pow2 (d2 + eb)); [exact HU|].
    rewrite <- pow2_add. replace (kq - 1 + (d2 + eb))%Z with (d1 + ea - 1)%Z
      by (unfold kq; lia).
    apply Qle_lt_trans with (inject_Z (Zpos ma) * pow2 ea); [exact Halo|].
    rewrite <- HxV. apply Qmult_lt_l; [exact Hxpos|]. lra. }
  assert (He'k : (e' <= fexp prec emax kq)%Z) by (unfold e'; lia).
  assert (Hxe' : pow2 e' <= x).
  { rewrite fexp_eq in He'k.
    destruct (Z_lt_le_dec (kq - 53) (-1074)) as [Hsub|Hnorm].
    - apply Qle_trans with (pow2 (-1074)); [|exact Hmin]. apply pow2_le. lia.
    - apply Qle_trans with (pow2 (kq - 1)); [|lra]. apply pow2_le. lia. }
  assert (Hbnd := located_bounds _ _ _ _ _ Hloc).
  assert (Hq : (1 <= q)%Z).
  { assert (H : inject_Z 1 * pow2 e' < inject_Z (q + 1) * pow2 e').
    { rewrite inject_Z_plus. change (inject_Z 1) with 1. lra. }
    apply Qmult_lt_r in H; [|exact Hpe'].
    apply inject_Z_lt_inv in H. lia. }
  destruct q as [|qp|qp]; [lia| |lia].
  apply binary_round_aux_rounds; [exact Hloc|].
  destruct (digits2_bounds_Q qp e') as [_ Hqhi].
  rewrite inject_Z_plus in Hqhi. change (inject_Z 1) with 1 in Hqhi.
  assert (Hk : (kq <= Zpos (digits2_pos qp) + e')%Z).
  { assert (H : pow2 (kq - 1) < pow2 (Zpos (digits2_pos qp) + e')) by lra.
    apply pow2_lt_inv in H. lia. }
  pose proof (fexp_mono _ _ Hk). lia.
Qed.

Lemma div_rounds :
  forall a b, posfin a -> posfin b ->
    pow2 (-1074) <= F2Q a / F2Q b ->
    rounded (F2Q a / F2Q b) (Prim2SF (a / b)).
Proof.
  intros a b (ma & ea & Ha) (mb & eb & Hb).
  rewrite FloatAxioms.div_spec. unfold F2Q, SF64div. rewrite Ha, Hb. cbn [SF2Q].
  apply SFdiv_rounds; eapply posfin_bounded; eassumption.
Qed.

(** *** Differences *)

Lemma iter_xO_value :
  forall (d m : positive), Zpos (Pos.iter xO m d) = (Zpos m * 2 ^ Zpos d)%Z.
Proof.
  intros d m. induction d as [|d IH] using Pos.peano_ind.
  - cbn [Pos.iter]. lia.
  - rewrite Pos.iter_succ, Pos2Z.inj_xO, IH, Pos2Z.inj_succ.
    rewrite Z.pow_succ_r by lia. ring.
Qed.

Lemma iter_xO_digits :
  forall (d m : positive),
    Zpos (digits2_pos (Pos.iter xO m d))
    = (Zpos (digits2_pos m) + Zpos d)%Z.
Proof.
  intros d m. induction d as [|d IH] using Pos.peano_ind.
  - cbn [Pos.iter digits2_pos]. lia.
  - rewrite Pos.iter_succ. cbn [digits2_pos].
    rewrite Pos2Z.inj_succ, IH, Pos2Z.inj_succ. lia.
Qed.

Lemma shl_align_spec :
  forall (m : positive) (e e' : Z),
    let r := shl_align m e e' in
    (Zpos (fst r) = Zpos m * 2 ^ (e - snd r))%Z
    /\ (snd r <= e)%Z
    /\ ((e' <= e)%Z -> snd r = e')
    /\ ((e <= e')%Z -> snd r = e)
    /\ (Zpos (digits2_pos (fst r)) + snd r = Zpos (digits2_pos m) + e)%Z.
Proof.
  intros m e e'. unfold shl_align.
  destruct (e' - e)%Z as [|d|d] eqn:Hd; cbn [fst snd].
  - rewrite Z.sub_diag. repeat split; lia.
  - rewrite Z.sub_diag. repeat split; lia.
  - rewrite iter_xO_value, iter_xO_digits.
    replace (e - e')%Z with (Zpos d) by lia. repeat split; lia.
Qed.

Lemma shl_align_value :
  forall (m : positive) (e e' : Z),
    inject_Z (Zpos (fst (shl_align m e e'))) * pow2 (snd (shl_align m e e'))
    == inject_Z (Zpos m) * pow2 e.
Proof.
  intros m e e'. destruct (shl_align_spec m e e') as (Hv & Hle & _).
  rewrite Hv, inject_Z_mult, pow2_Z by lia.
  rewrite <- Qmult_assoc, <- pow2_add.
  replace (e - snd (shl_align m e e') + snd (shl_align m e e'))%Z with e by lia.
  reflexivity.
Qed.

Lemma binary_round_rounds :
  forall (p : positive) (e : Z),
    rounded (inject_Z (Zpos p) * pow2 e) (binary_round prec emax false p e).
Proof.
  intros p e. unfold binary_round.
  pose proof (shl_align_spec p e (fexp prec emax (Zpos (digits2_pos p) + e)))
    as (Hv & Hle & He1 & He2 & Hd).
  pose proof (shl_align_value p e (fexp prec emax (Zpos (digits2_pos p) + e)))
    as Hval.
  destruct (shl_align p e (fexp prec emax (Zpos (digits2_pos p) + e)))
    as [mz ez]. cbn [fst snd] in *.
  apply binary_round_aux_rounds.
  - cbn [rec_r rec_s]. cbv [located]. rewrite Hval. reflexivity.
  - rewrite Hd.
    destruct (Z_lt_le_dec e (fexp prec emax (Zpos (digits2_pos p) + e)));
      [rewrite He2 by lia|rewrite He1 by lia]; lia.
Qed.

Lemma SFsub_rounds :
  forall ma ea mb eb,
    inject_Z (Zpos mb) * pow2 eb < inject_Z (Zpos ma) * pow2 ea ->
    rounded (inject_Z (Zpos ma) * pow2 ea - inject_Z (Zpos mb) * pow2 eb)
      (SFsub prec emax (S754_finite false ma ea) (S754_finite false mb eb)).
Proof.
  intros ma ea mb eb Hlt. cbn [SFsub cond_Zopp].
  set (ez := Z.min ea eb).
  pose proof (shl_align_spec ma ea ez) as (_ & _ & Ha1 & _).
  pose proof (shl_align_spec mb eb ez) as (_ & _ & Hb1 & _).
  pose proof (shl_align_value ma ea ez) as Hva.
  pose proof (shl_align_value mb eb ez) as Hvb.
  rewrite Ha1 in Hva by (unfold ez; lia).
  rewrite Hb1 in Hvb by (unfold ez; lia).
  set (ma' := fst (shl_align ma ea ez)) in *.
  set (mb' := fst (shl_align mb eb ez)) in *.
  pose proof (pow2_pos ez) as Hez.
  assert (Hm : (0 < Zpos ma' - Zpos mb')%Z).
  { assert (H : inject_Z (Zpos mb') < inject_Z (Zpos ma')).
    { apply Qmult_lt_r with (z := pow2 ez); [exact Hez|]. lra. }
    apply inject_Z_lt_inv in H. lia. }
  destruct (Zpos ma' - Zpos mb')%Z as [|p|p] eqn:Hp; [lia| |lia].
  cbn [binary_normalize].
  assert (Hx : inject_Z (Zpos ma) * pow2 ea - inject_Z (Zpos mb) * pow2 eb
               == inject_Z (Zpos p) * pow2 ez).
  { rewrite <- Hva, <- Hvb, <- Hp.
    unfold Zminus. rewrite inject_Z_plus, inject_Z_opp. ring. }
  pose proof (binary_round_rounds p ez) as Hr.
  unfold rounded in *.
  destruct Hr as (H1 & H2 & H3 & H4 & H5).
  split; [exact H1|]. split; [|split; [|split]].
  - intros mf ef Hb Hle. apply H2; [exact Hb|]. rewrite <- Hx. exact Hle.
  - intros mf ef Hb Hle. apply H3; [exact Hb|]. rewrite <- Hx. exact Hle.
  - intros Hn Hf. rewrite Hx. apply H4; [|exact Hf]. rewrite <- Hx. exact Hn.
  - intros Hf. rewrite Hx. apply H5. exact Hf.
Qed.

Lemma sub_rounds :
  forall a b, posfin a -> posfin b -> F2Q b < F2Q a ->
    rounded (F2Q a - F2Q b) (Prim2SF (a - b)).
Proof.
  intros a b (ma & ea & Ha) (mb & eb & Hb).
  rewrite FloatAxioms.sub_spec. unfold F2Q, SF64sub. rewrite Ha, Hb. cbn [SF2Q].
  apply SFsub_rounds.
Qed.

Lemma posfin_eq :
  forall a b, posfin a -> posfin b -> F2Q a == F2Q b -> a = b.
Proof.
  intros a b (ma & ea & Ha) (mb & eb & Hb) Heq.
  apply Prim2SF_inj. rewrite Ha, Hb.
  pose proof (SFcompare_pos ma ea mb eb (posfin_bounded a _ _ Ha)
                (posfin_bounded b _ _ Hb)) as H.
  unfold F2Q in Heq. rewrite Ha, Hb in Heq. cbn [SF2Q] in Heq.
  destruct (SFcompare (S754_finite false ma ea) (S754_finite false mb eb))
    as [[| |]|]; [| | |contradiction].
  - destruct H as [-> ->]. reflexivity.
  - lra.
  - lra.
Qed.

Lemma sub_self :
  forall a, posfin a -> Prim2SF (a - a) = S754_zero false.
Proof.
  intros a (m & e & Ha). rewrite FloatAxioms.sub_spec. unfold SF64sub. rewrite Ha.
  cbn [SFsub cond_Zopp]. rewrite Z.sub_diag. reflexivity.
Qed.

(** *** Finite numbers, [Math.min] and [Math.max] *)

Lemma is_nan_spec :
  forall f, is_nan f = match Prim2SF f with S754_nan => true | _ => false end.
Proof.
  intros f. unfold is_nan. rewrite FloatAxioms.eqb_spec. unfold SFeqb.
  destruct (Prim2SF f) as [s|s| |s m e]; cbn [SFcompare]; try reflexivity.
  - destruct s; reflexivity.
  - rewrite Z.compare_refl, Pos.compare_cont_refl. destruct s; reflexivity.
Qed.

Lemma binary_round_class :
  forall (sx : bool) (p : positive) (e : Z),
    binary_round prec emax sx p e = S754_infinity sx
    \/ binary_round prec emax sx p e = S754_zero sx
    \/ exists p' e', binary_round prec emax sx p e = S754_finite sx p' e'.
Proof.
  intros sx p e. unfold binary_round.
  pose proof (shl_align_spec p e (fexp prec emax (Zpos (digits2_pos p) + e)))
    as (Hv & Hle & He1 & He2 & Hd).
  destruct (shl_align p e (fexp prec emax (Zpos (digits2_pos p) + e)))
    as [mz ez]. cbn [fst snd] in *.
  destruct (binary_round_aux_spec sx mz ez loc_Exact
              (inject_Z (Zpos mz) * pow2 ez))
    as (m1 & m2 & _ & _ & _ & _ & _ & _ & _ & _ & Hres).
  - cbn [rec_r rec_s]. cbv [located]. reflexivity.
  - rewrite Hd.
    destruct (Z_lt_le_dec e (fexp prec emax (Zpos (digits2_pos p) + e)));
      [rewrite He2 by lia|rewrite He1 by lia]; lia.
  - destruct Hres as [[Hz _]|[[Hz _]|(p' & e' & Hz & _)]].
    + left. exact Hz.
    + right. left. exact Hz.
    + right. right. exists p', e'. exact Hz.
Qed.

Lemma binary_normalize_not_nan :
  forall (m e : Z) (s : bool), binary_normalize prec emax m e s <> S754_nan.
Proof.
  intros m e s. unfold binary_normalize. destruct m as [|p|p].
  - discriminate.
  - destruct (binary_round_class false p e) as [H|[H|(p' & e' & H)]];
      rewrite H; discriminate.
  - destruct (binary_round_class true p e) as [H|[H|(p' & e' & H)]];
      rewrite H; discriminate.
Qed.

Lemma SFsub_not_nan :
  forall x y, SFfin x = true -> SFfin y = true -> SFsub prec emax x y <> S754_nan.
Proof.
  intros x y Hx Hy.
  destruct x as [sx|sx| |sx mx ex]; try discriminate Hx;
    destruct y as [sy|sy| |sy my ey]; try discriminate Hy; cbn [SFsub];
    try apply binary_normalize_not_nan; try discriminate.
  destruct sx, sy; discriminate.
Qed.

Lemma SFadd_not_nan :
  forall x y, SFfin x = true -> y <> S754_nan -> SFadd prec emax x y <> S754_nan.
Proof.
  intros x y Hx Hy.
  destruct x as [sx|sx| |sx mx ex]; try discriminate Hx;
    destruct y as [sy|sy| |sy my ey]; try contradiction; cbn [SFadd];
    try apply binary_normalize_not_nan; try discriminate.
  destruct sx, sy; discriminate.
Qed.

Lemma sub_not_nan :
  forall a b, fin a = true -> fin b = true -> is_nan (a - b) = false.
Proof.
  intros a b Ha Hb. rewrite is_nan_spec, FloatAxioms.sub_spec.
  pose proof (SFsub_not_nan _ _ Ha Hb) as H. unfold SF64sub.
  destruct (SFsub prec emax (Prim2SF a) (Prim2SF b)); congruence.
Qed.

Lemma add_not_nan :
  forall a b, fin a = true -> is_nan b = false -> is_nan (a + b) = false.
Proof.
  intros a b Ha Hb. rewrite is_nan_spec in Hb |- *.
  rewrite FloatAxioms.add_spec.
  assert (Hb' : Prim2SF b <> S754_nan)
    by (destruct (Prim2SF b); congruence).
  pose proof (SFadd_not_nan _ _ Ha Hb') as H. unfold SF64add.
  destruct (SFadd prec emax (Prim2SF a) (Prim2SF b)); congruence.
Qed.

Lemma nonneg_fin : forall f, nonneg f -> fin f = true.
Proof.
  intros f [H|(m & e & H)]; unfold fin; rewrite H; reflexivity.
Qed.

Lemma nonneg_ge0 : forall f, nonneg f -> 0 <= F2Q f.
Proof.
  intros f [H|H].
  - unfold F2Q. rewrite H. cbn [SF2Q]. lra.
  - pose proof (posfin_pos f H). lra.
Qed.

Lemma posfin_not_nan : forall f, posfin f -> is_nan f = false.
Proof. intros f (m & e & H). rewrite is_nan_spec, H. reflexivity. Qed.

(** [0 < v] in the program means positive: finite or infinite. *)
Lemma ltb_zero_l :
  forall v, (0 <? v)%float = true ->
    posfin v \/ Prim2SF v = S754_infinity false.
Proof.
  intros v H. rewrite FloatAxioms.ltb_spec in H. unfold SFltb in H.
  change (Prim2SF 0%float) with (S754_zero false) in H.
  destruct (Prim2SF v) as [s|s| |s m e] eqn:Hv; cbn [SFcompare] in H;
    try discriminate.
  - destruct s; [discriminate|]. right. reflexivity.
  - destruct s; [discriminate|]. left. exists m, e. exact Hv.
Qed.

(** A positive [a] that is below, or not comparable apart from, a
    non-negative finite [b]. *)
Lemma below_nonneg :
  forall a b, nonneg b ->
    (posfin a \/ Prim2SF a = S754_infinity false) ->
    (a <? b)%float = true \/ (b <? a)%float = false ->
    posfin a /\ F2Q a <= F2Q b.
Proof.
  intros a b Hb Ha Hcmp.
  rewrite !FloatAxioms.ltb_spec in Hcmp. unfold SFltb in Hcmp.
  destruct Ha as [Ha|Ha].
  - split; [exact Ha|].
    destruct Hb as [Hb|Hb].
    + destruct Ha as (m & e & Ha). rewrite Ha, Hb in Hcmp.
      cbn [SFcompare] in Hcmp. destruct Hcmp; discriminate.
    + pose proof (ltb_posfin a b Ha Hb) as H1.
      pose proof (ltb_posfin b a Hb Ha) as H2.
      rewrite !FloatAxioms.ltb_spec in H1, H2. unfold SFltb in H1, H2.
      destruct Hcmp as [Hc|Hc].
      * apply H1 in Hc. lra.
      * destruct (Qlt_le_dec (F2Q b) (F2Q a)) as [Hlt|Hle]; [|exact Hle].
        apply H2 in Hlt. congruence.
  - exfalso. rewrite Ha in Hcmp.
    destruct Hb as [Hb|(m & e & Hb)]; rewrite Hb in Hcmp;
      cbn [SFcompare] in Hcmp; destruct Hcmp; discriminate.
Qed.

Lemma Math_min_cases :
  forall a b, is_nan a = false -> is_nan b = false ->
    (Math_min a b = a /\ ((a <? b)%float = true \/ (b <? a)%float = false))
    \/ Math_min a b = b.
Proof.
  intros a b Ha Hb. unfold Math_min. rewrite Ha, Hb. cbn [orb].
  destruct (a <? b)%float eqn:Hab; [left; split; [reflexivity|left; reflexivity]|].
  destruct (b <? a)%float eqn:Hba; [right; reflexivity|].
  destruct (get_sign a); [left; split; [reflexivity|right; reflexivity]|].
  right. reflexivity.
Qed.

(** [Math.max(0, Math.min(a, b))] for a number [a] and a non-negative
    finite [b]. *)
Lemma clamp_spec :
  forall a b, is_nan a = false -> nonneg b ->
    nonneg (Math_max 0%float (Math_min a b))
    /\ F2Q (Math_max 0%float (Math_min a b)) <= F2Q b.
Proof.
  intros a b Ha Hb.
  assert (Hbn : is_nan b = false).
  { rewrite is_nan_spec. destruct Hb as [H|(m & e & H)]; rewrite H; reflexivity. }
  pose proof (nonneg_ge0 b Hb) as Hb0.
  assert (Hz : nonneg 0%float /\ F2Q 0%float <= F2Q b).
  { split; [left; reflexivity|]. change (F2Q 0%float) with 0. exact Hb0. }
  assert (Hv : is_nan (Math_min a b) = false).
  { destruct (Math_min_cases a b Ha Hbn) as [[-> _]| ->]; assumption. }
  unfold Math_max. change (is_nan 0%float) with false. rewrite Hv. cbn [orb].
  change (get_sign 0%float) with false.
  destruct (0 <? Math_min a b)%float eqn:Hpos.
  - apply ltb_zero_l in Hpos.
    destruct (Math_min_cases a b Ha Hbn) as [[Heq Hcmp]|Heq]; rewrite Heq in *.
    + destruct (below_nonneg a b Hb Hpos Hcmp) as [Hp Hle].
      split; [right; exact Hp|exact Hle].
    + split; [exact Hb|apply Qle_refl].
  - destruct (Math_min a b <? 0)%float; exact Hz.
Qed.

(** [Math.min(a, b)] that is at least a positive finite [lo], for a
    positive finite [b]. *)
Lemma Math_min_bounds :
  forall lo a b, posfin lo -> posfin b ->
    (lo <=? Math_min a b)%float = true ->
    posfin (Math_min a b)
    /\ F2Q lo <= F2Q (Math_min a b) /\ F2Q (Math_min a b) <= F2Q b.
Proof.
  intros lo a b Hlo Hb Hle.
  assert (Hpos : posfin (Math_min a b) \/ Prim2SF (Math_min a b) = S754_infinity false).
  { destruct Hlo as (ml & el & Hl).
    rewrite FloatAxioms.leb_spec in Hle. unfold SFleb in Hle. rewrite Hl in Hle.
    destruct (Prim2SF (Math_min a b)) as [s|s| |s m e] eqn:Hv;
      cbn [SFcompare] in Hle; try discriminate.
    - destruct s; [discriminate|]. right. reflexivity.
    - destruct s; [discriminate|]. left. exists m, e. exact Hv. }
  assert (Hnn : is_nan a = false /\ is_nan b = false).
  { unfold Math_min in Hpos.
    destruct (is_nan a || is_nan b)%bool eqn:Hn.
    - exfalso. change (Prim2SF nan) with S754_nan in Hpos.
      destruct Hpos as [(m & e & H)|H]; discriminate.
    - apply orb_false_elim in Hn. exact Hn. }
  destruct Hnn as [Ha Hbn].
  assert (Hres : posfin (Math_min a b) /\ F2Q (Math_min a b) <= F2Q b).
  { destruct (Math_min_cases a b Ha Hbn) as [[Heq Hcmp]|Heq]; rewrite Heq in *.
    - apply below_nonneg; [right; exact Hb|exact Hpos|exact Hcmp].
    - split; [exact Hb|apply Qle_refl]. }
  destruct Hres as [Hp Hhi]. split; [exact Hp|]. split; [|exact Hhi].
  apply leb_posfin; assumption.
Qed.

(** *** Quotients and products in the normal range *)

Lemma div_normal :
  forall a b lo hi, posfin a -> posfin b -> posfin lo -> posfin hi ->
    pow2 (-1022) <= F2Q lo ->
    F2Q lo * F2Q b <= F2Q a -> F2Q a <= F2Q hi * F2Q b ->
    posfin (a / b)%float
    /\ F2Q lo <= F2Q (a / b)%float /\ F2Q (a / b)%float <= F2Q hi
    /\ rounded (F2Q a / F2Q b) (Prim2SF (a / b)%float)
    /\ F2Q (a / b)%float * F2Q b - F2Q a <= u64 * F2Q a
    /\ F2Q a - F2Q (a / b)%float * F2Q b <= u64 * F2Q a.
Proof.
  intros a b lo hi Ha Hb Hlo Hhi Hnorm H1 H2.
  pose proof (posfin_pos a Ha) as Hapos. pose proof (posfin_pos b Hb) as Hbpos.
  assert (Hq1 : F2Q lo <= F2Q a / F2Q b)
    by (apply Qle_shift_div_l; assumption).
  assert (Hq2 : F2Q a / F2Q b <= F2Q hi)
    by (apply Qle_shift_div_r; assumption).
  assert (Hr : rounded (F2Q a / F2Q b) (Prim2SF (a / b)%float)).
  { apply div_rounds; [exact Ha|exact Hb|].
    apply Qle_trans with (pow2 (-1022)); [apply pow2_le; lia|]. lra. }
  destruct (rounds_between _ _ lo hi Hr Hlo Hhi Hq1 Hq2) as (Hp & Hl & Hh).
  destruct (rounds_le _ _ hi Hr Hhi Hq2) as [Hfin _].
  destruct (rounds_error _ _ Hr ltac:(lra) Hfin) as [He1 He2].
  split; [exact Hp|]. split; [exact Hl|]. split; [exact Hh|].
  split; [exact Hr|].
  assert (Hqb : F2Q a / F2Q b * F2Q b == F2Q a) by (field; lra).
  unfold u64. change (pow2 (-53)) with (1 # 9007199254740992) in *.
  set (q := F2Q a / F2Q b) in *.
  split.
  - apply Qmult_le_compat_r with (z := F2Q b) in He1; [|lra]. lra.
  - apply Qmult_le_compat_r with (z := F2Q b) in He2; [|lra]. lra.
Qed.

Lemma mul_normal :
  forall a b lo hi, posfin a -> posfin b -> posfin lo -> posfin hi ->
    pow2 (-1022) <= F2Q lo ->
    F2Q lo <= F2Q a * F2Q b -> F2Q a * F2Q b <= F2Q hi ->
    posfin (a * b)%float
    /\ F2Q lo <= F2Q (a * b)%float /\ F2Q (a * b)%float <= F2Q hi
    /\ rounded (F2Q a * F2Q b) (Prim2SF (a * b)%float)
    /\ F2Q (a * b)%float - F2Q a * F2Q b <= u64 * (F2Q a * F2Q b)
    /\ F2Q a * F2Q b - F2Q (a * b)%float <= u64 * (F2Q a * F2Q b).
Proof.
  intros a b lo hi Ha Hb Hlo Hhi Hnorm H1 H2.
  pose proof (mul_rounds a b Ha Hb) as Hr.
  destruct (rounds_between _ _ lo hi Hr Hlo Hhi H1 H2) as (Hp & Hl & Hh).
  destruct (rounds_le _ _ hi Hr Hhi H2) as [Hfin _].
  destruct (rounds_error _ _ Hr ltac:(lra) Hfin) as [He1 He2].
  split; [exact Hp|]. split; [exact Hl|]. split; [exact Hh|].
  split; [exact Hr|]. split; [exact He1|exact He2].
Qed.

Ltac posfin_const := eexists; eexists; vm_compute; reflexivity.

(** *** Two relative errors in a row *)

Lemma Qmult_le_compat_l' :
  forall z x y : Q, 0 <= z -> x <= y -> z * x <= z * y.
Proof.
  intros z x y Hz H. rewrite (Qmult_comm z x), (Qmult_comm z y).
  apply Qmult_le_compat_r; assumption.
Qed.

Lemma aspect_of_quotient :
  forall mw iw ih ar hh : Q,
    0 < mw -> 0 < iw -> 0 < ar ->
    ar * ih - iw <= u64 * iw -> iw - ar * ih <= u64 * iw ->
    hh * ar - mw <= u64 * mw -> mw - hh * ar <= u64 * mw ->
    mw * ih - hh * iw <= pow2 (-51) * (hh * iw)
    /\ hh * iw - mw * ih <= pow2 (-51) * (hh * iw).
Proof.
  intros mw iw ih ar hh Hmw Hiw Har A1 A2 B1 B2.
  unfold u64 in *. change (pow2 (-53)) with (1 # 9007199254740992) in *.
  change (pow2 (-51)) with (1 # 2251799813685248).
  assert (X1 : mw * (ar * ih - iw) <= mw * ((1 # 9007199254740992) * iw))
    by (apply Qmult_le_compat_l'; lra).
  assert (X2 : mw * (iw - ar * ih) <= mw * ((1 # 9007199254740992) * iw))
    by (apply Qmult_le_compat_l'; lra).
  assert (Y1 : iw * (hh * ar - mw) <= iw * ((1 # 9007199254740992) * mw))
    by (apply Qmult_le_compat_l'; lra).
  assert (Y2 : iw * (mw - hh * ar) <= iw * ((1 # 9007199254740992) * mw))
    by (apply Qmult_le_compat_l'; lra).
  assert (T : 0 < mw * iw) by (apply Qmult_lt_0_compat; assumption).
  assert (G : (mw * ih - hh * iw) * ar
              <= (1 # 2251799813685248) * (hh * iw) * ar
              /\ (hh * iw - mw * ih) * ar
                 <= (1 # 2251799813685248) * (hh * iw) * ar) by (split; lra).
  destruct G as [G1 G2].
  apply Qmult_le_r in G1; [|exact Har].
  apply Qmult_le_r in G2; [|exact Har].
  split; assumption.
Qed.

Lemma aspect_of_product :
  forall mh iw ih ar w : Q,
    0 < mh -> 0 < iw -> 0 < ih ->
    ar * ih - iw <= u64 * iw -> iw - ar * ih <= u64 * iw ->
    w - mh * ar <= u64 * (mh * ar) -> mh * ar - w <= u64 * (mh * ar) ->
    w * ih - mh * iw <= pow2 (-51) * (mh * iw)
    /\ mh * iw - w * ih <= pow2 (-51) * (mh * iw).
Proof.
  intros mh iw ih ar w Hmh Hiw Hih A1 A2 B1 B2.
  unfold u64 in *. change (pow2 (-53)) with (1 # 9007199254740992) in *.
  change (pow2 (-51)) with (1 # 2251799813685248).
  assert (X1 : mh * (ar * ih - iw) <= mh * ((1 # 9007199254740992) * iw))
    by (apply Qmult_le_compat_l'; lra).
  assert (X2 : mh * (iw - ar * ih) <= mh * ((1 # 9007199254740992) * iw))
    by (apply Qmult_le_compat_l'; lra).
  assert (Y1 : ih * (w - mh * ar)
               <= ih * ((1 # 9007199254740992) * (mh * ar)))
    by (apply Qmult_le_compat_l'; lra).
  assert (Y2 : ih * (mh * ar - w)
               <= ih * ((1 # 9007199254740992) * (mh * ar)))
    by (apply Qmult_le_compat_l'; lra).
  assert (T : 0 < mh * iw) by (apply Qmult_lt_0_compat; assumption).
  split; lra.
Qed.

(** *** The canvas that [img.onload] computes *)

Section Onload.
Import FrameSelector.
Local Open Scope float_scope.

(** What [img.onload] computes, named. *)
Lemma onload_cases :
  forall (innerWidth innerHeight imgWidth imgHeight : float) (s : State float),
    let maxWidth := Math_min (innerWidth - 40) 800 in
    let maxHeight := Math_min (innerHeight - 200) 600 in
    let aspectRatio := imgWidth / imgHeight in
    canvasDimensions (onload innerWidth innerHeight imgWidth imgHeight s)
    = if maxHeight <? maxWidth / aspectRatio
      then (maxHeight * aspectRatio, maxHeight)
      else (maxWidth, maxWidth / aspectRatio).
Proof.
  intros. unfold onload.
  change (minN (sub innerWidth (fromZ 40)) (fromZ 800)) with maxWidth.
  change (minN (sub innerHeight (fromZ 200)) (fromZ 600)) with maxHeight.
  change (div imgWidth imgHeight) with aspectRatio.
  change (gt (div maxWidth aspectRatio) maxHeight)
    with (maxHeight <? maxWidth / aspectRatio).
  destruct (maxHeight <? maxWidth / aspectRatio); reflexivity.
Qed.

Local Open Scope Q_scope.

Lemma onload_canvas :
  forall (innerWidth innerHeight imgWidth imgHeight : float) (s : State float),
    let maxWidth := Math_min (innerWidth - 40) 800 in
    let maxHeight := Math_min (innerHeight - 200) 600 in
    (1 <=? maxWidth)%float = true ->
    (1 <=? maxHeight)%float = true ->
    (1 <=? imgWidth)%float = true -> (imgWidth <=? 0x1p30)%float = true ->
    (1 <=? imgHeight)%float = true -> (imgHeight <=? 0x1p30)%float = true ->
    let w := fst (canvasDimensions
                    (onload innerWidth innerHeight imgWidth imgHeight s)) in
    let h := snd (canvasDimensions
                    (onload innerWidth innerHeight imgWidth imgHeight s)) in
    posfin w /\ posfin h
    /\ pow2 (-30) <= F2Q w /\ F2Q w <= F2Q maxWidth
    /\ pow2 (-30) <= F2Q h /\ F2Q h <= F2Q maxHeight
    /\ F2Q maxWidth <= 800 /\ F2Q maxHeight <= 600
    /\ (w = maxWidth \/ h = maxHeight)
    /\ F2Q w * F2Q imgHeight - F2Q h * F2Q imgWidth
       <= pow2 (-51) * (F2Q h * F2Q imgWidth)
    /\ F2Q h * F2Q imgWidth - F2Q w * F2Q imgHeight
       <= pow2 (-51) * (F2Q h * F2Q imgWidth).
Proof.
  intros innerWidth innerHeight imgWidth imgHeight s maxWidth maxHeight
         Hmw Hmh Hiw1 Hiw2 Hih1 Hih2 w h.
  assert (P1 : posfin 1%float) by posfin_const.
  assert (P800 : posfin 800%float) by posfin_const.
  assert (P600 : posfin 600%float) by posfin_const.
  assert (P30 : posfin 0x1p30%float) by posfin_const.
  assert (Pm30 : posfin 0x1p-30%float) by posfin_const.
  assert (P40 : posfin 0x1p40%float) by posfin_const.
  destruct (Math_min_bounds 1%float _ 800%float P1 P800 Hmw)
    as (Pmw & Hmw1 & Hmw2).
  destruct (Math_min_bounds 1%float _ 600%float P1 P600 Hmh)
    as (Pmh & Hmh1 & Hmh2).
  fold maxWidth in Pmw, Hmw1, Hmw2. fold maxHeight in Pmh, Hmh1, Hmh2.
  destruct (between_posfin 1%float 0x1p30%float imgWidth P1 P30 Hiw1 Hiw2)
    as (Piw & Hiwlo & Hiwhi).
  destruct (between_posfin 1%float 0x1p30%float imgHeight P1 P30 Hih1 Hih2)
    as (Pih & Hihlo & Hihhi).
  assert (E1 : F2Q 1%float == 1) by reflexivity.
  assert (E800 : F2Q 800%float == 800) by reflexivity.
  assert (E600 : F2Q 600%float == 600) by reflexivity.
  rewrite E1 in Hmw1, Hmh1, Hiwlo, Hihlo.
  rewrite E800 in Hmw2. rewrite E600 in Hmh2.
  assert (E30 : F2Q 0x1p30%float == 1073741824) by reflexivity.
  assert (Em30 : F2Q 0x1p-30%float == 1 # 1073741824) by reflexivity.
  assert (E40 : F2Q 0x1p40%float == 1099511627776) by reflexivity.
  assert (Ep30 : pow2 (-30) == 1 # 1073741824) by reflexivity.
  assert (Ep1022 : pow2 (-1022) <= 1 # 1073741824).
  { rewrite <- Ep30. apply pow2_le. lia. }
  rewrite E30 in Hiwhi, Hihhi.
  set (aspectRatio := (imgWidth / imgHeight)%float).
  (* the aspect ratio *)
  destruct (div_normal imgWidth imgHeight 0x1p-30%float 0x1p30%float
              Piw Pih Pm30 P30)
    as (Par & Harlo & Harhi & _ & Har1 & Har2);
    [rewrite Em30; exact Ep1022|rewrite Em30; lra|rewrite E30; lra|].
  fold aspectRatio in Par, Harlo, Harhi, Har1, Har2.
  rewrite Em30 in Harlo. rewrite E30 in Harhi.
  (* the height for the full width *)
  destruct (div_normal maxWidth aspectRatio 0x1p-30%float 0x1p40%float
              Pmw Par Pm30 P40)
    as (Ph0 & Hh0lo & Hh0hi & Hh0r & Hh01 & Hh02);
    [rewrite Em30; exact Ep1022|rewrite Em30; nra|rewrite E40; nra|].
  rewrite Em30 in Hh0lo.
  set (h0 := (maxWidth / aspectRatio)%float) in *.
  pose proof (posfin_pos _ Piw) as Hiwpos.
  pose proof (posfin_pos _ Pih) as Hihpos.
  pose proof (posfin_pos _ Par) as Harpos.
  pose proof (posfin_pos _ Ph0) as Hh0pos.
  rewrite Ep30.
  pose proof (onload_cases innerWidth innerHeight imgWidth imgHeight s) as Hc.
  cbv zeta in Hc. fold maxWidth maxHeight aspectRatio h0 in Hc.
  unfold w, h. rewrite Hc. clear Hc w h.
  set (iw := F2Q imgWidth) in *. set (ih := F2Q imgHeight) in *.
  set (ar := F2Q aspectRatio) in *. set (mw := F2Q maxWidth) in *.
  set (mh := F2Q maxHeight) in *.
  destruct (maxHeight <? h0)%float eqn:Hgt; cbn [fst snd]; fold mh mw.
  - (* the height limit is met *)
    apply (ltb_posfin maxHeight h0 Pmh Ph0) in Hgt. fold mh in Hgt.
    assert (Ht : mh * ar <= mw).
    { destruct (Qlt_le_dec mw (mh * ar)) as [Hlt|Hle]; [|exact Hle].
      exfalso.
      assert (Hp : mw / ar <= mh).
      { apply Qle_shift_div_r; [exact Harpos|lra]. }
      destruct (rounds_le _ _ maxHeight Hh0r Pmh Hp) as [_ Hcontra].
      fold mh in Hcontra. lra. }
    destruct (mul_normal maxHeight aspectRatio 0x1p-30%float maxWidth
                Pmh Par Pm30 Pmw)
      as (Pw & Hwlo & Hwhi & _ & Hw1 & Hw2);
      [rewrite Em30; exact Ep1022|rewrite Em30; fold mh ar; nra
      |fold mh ar mw; exact Ht|].
    rewrite Em30 in Hwlo. fold mh ar mw in Hwlo, Hwhi, Hw1, Hw2.
    set (w := F2Q (maxHeight * aspectRatio)%float) in *.
    split; [exact Pw|]. split; [exact Pmh|].
    split; [exact Hwlo|]. split; [exact Hwhi|].
    split; [lra|]. split; [apply Qle_refl|].
    split; [exact Hmw2|]. split; [exact Hmh2|].
    split; [right; reflexivity|].
    apply (aspect_of_product mh iw ih ar w); try assumption; lra.
  - (* the width limit is met *)
    assert (Hle : F2Q h0 <= mh).
    { destruct (Qlt_le_dec mh (F2Q h0)) as [Hlt|Hle]; [|exact Hle].
      apply (ltb_posfin maxHeight h0 Pmh Ph0) in Hlt. congruence. }
    set (hh := F2Q h0) in *.
    split; [exact Pmw|]. split; [exact Ph0|].
    split; [lra|]. split; [apply Qle_refl|].
    split; [exact Hh0lo|]. split; [exact Hle|].
    split; [exact Hmw2|]. split; [exact Hmh2|].
    split; [left; reflexivity|].
    apply (aspect_of_quotient mw iw ih ar hh); try assumption; lra.
Qed.

End Onload.

(** *** Fractions of a side of the canvas *)

Lemma ltb_zero_posfin : forall f, posfin f -> (0 <? f)%float = true.
Proof.
  intros f (m & e & H). rewrite FloatAxioms.ltb_spec. unfold SFltb.
  rewrite H. reflexivity.
Qed.

Lemma leb_of_le :
  forall a b, posfin a -> posfin b -> F2Q a <= F2Q b -> (a <=? b)%float = true.
Proof. intros a b Ha Hb H. apply leb_posfin; assumption. Qed.

(** A fraction [d] of a canvas side [W]. *)
Lemma fraction_of_side :
  forall W d : float, posfin W -> posfin d ->
    pow2 (-30) <= F2Q W -> F2Q W <= 800 ->
    1 # 16 <= F2Q d -> F2Q d <= 1 ->
    posfin (W * d)%float
    /\ F2Q (W * d)%float <= F2Q W
    /\ F2Q (W * d)%float <= F2Q W * F2Q d * (1 + u64)
    /\ F2Q W * F2Q d * (1 - u64) <= F2Q (W * d)%float.
Proof.
  intros W d PW Pd HW1 HW2 Hd1 Hd2.
  assert (Pm34 : posfin 0x1p-34%float) by posfin_const.
  assert (Em34 : F2Q 0x1p-34%float == 1 # 17179869184) by reflexivity.
  assert (Ep30 : pow2 (-30) == 1 # 1073741824) by reflexivity.
  rewrite Ep30 in HW1.
  pose proof (posfin_pos W PW) as HWpos.
  assert (H1 : F2Q W * (1 # 16) <= F2Q W * F2Q d)
    by (apply Qmult_le_compat_l'; lra).
  assert (H2 : F2Q W * F2Q d <= F2Q W * 1)
    by (apply Qmult_le_compat_l'; lra).
  destruct (mul_normal W d 0x1p-34%float W PW Pd Pm34 PW)
    as (Pr & _ & Hhi & _ & He & He2).
  - rewrite Em34. apply Qle_trans with (pow2 (-34)); [apply pow2_le; lia|].
    assert (E : pow2 (-34) == 1 # 17179869184) by reflexivity.
    rewrite E. apply Qle_refl.
  - rewrite Em34. lra.
  - lra.
  - split; [exact Pr|]. split; [exact Hhi|]. split; lra.
Qed.

Lemma fractions_of_side :
  forall W dx dw : float, posfin W -> posfin dx -> posfin dw ->
    pow2 (-30) <= F2Q W -> F2Q W <= 800 ->
    1 # 16 <= F2Q dx -> 1 # 16 <= F2Q dw -> F2Q dx + F2Q dw <= 1 ->
    F2Q (W * dx)%float + F2Q (W * dw)%float <= F2Q W * (1 + u64).
Proof.
  intros W dx dw PW Pdx Pdw HW1 HW2 Hdx Hdw Hsum.
  pose proof (posfin_pos W PW) as HWpos.
  destruct (fraction_of_side W dx PW Pdx HW1 HW2 Hdx ltac:(lra))
    as (_ & _ & Hx).
  destruct (fraction_of_side W dw PW Pdw HW1 HW2 Hdw ltac:(lra))
    as (_ & _ & Hw).
  assert (H : F2Q W * (F2Q dx + F2Q dw) <= F2Q W * 1)
    by (apply Qmult_le_compat_l'; lra).
  unfold u64 in *. change (pow2 (-53)) with (1 # 9007199254740992) in *.
  lra.
Qed.

(** The clamped coordinate of a move. *)
Lemma moved_coordinate :
  forall (W w a : float), posfin W -> posfin w ->
    pow2 (-30) <= F2Q W -> F2Q w <= F2Q W ->
    is_nan a = false ->
    let r := Math_max 0%float (Math_min a (W - w)%float) in
    nonneg r /\ F2Q r + F2Q w <= F2Q W * (1 + pow2 (-52)).
Proof.
  intros W w a PW Pw HW Hle Ha r.
  pose proof (posfin_pos W PW) as HWpos. pose proof (posfin_pos w Pw) as Hwpos.
  assert (Ep30 : pow2 (-30) == 1 # 1073741824) by reflexivity.
  rewrite Ep30 in HW.
  assert (HB : nonneg (W - w)%float
               /\ F2Q (W - w)%float
                  <= (F2Q W - F2Q w) * (1 + pow2 (-53)) + pow2 (-1075)).
  { pose proof (pow2_pos (-1075)) as H75.
    destruct (Qlt_le_dec (F2Q w) (F2Q W)) as [Hlt|Hge].
    - pose proof (sub_rounds W w PW Pw Hlt) as Hr.
      destruct (rounds_le _ _ W Hr PW ltac:(lra)) as [Hfin _].
      destruct (rounds_error_any _ _ Hr Hfin) as [He _].
      split; [|lra].
      destruct Hr as (Hcl & _).
      destruct Hcl as [Hz|[Hz|(p & e & Hz)]].
      + rewrite Hz in Hfin. discriminate.
      + left. exact Hz.
      + right. exists p, e. exact Hz.
    - assert (Heq : w = W) by (apply posfin_eq; [assumption|assumption|lra]).
      subst w. split.
      + left. apply sub_self. exact PW.
      + unfold F2Q at 1. rewrite (sub_self W PW). cbn [SF2Q].
        change (pow2 (-53)) with (1 # 9007199254740992). lra. }
  destruct HB as [HBn HBv].
  destruct (clamp_spec a (W - w)%float Ha HBn) as [Hrn Hrv].
  fold r in Hrn, Hrv. split; [exact Hrn|].
  assert (H83 : pow2 (-1075) <= 1 # 9671406556917033397649408).
  { assert (E : pow2 (-83) == 1 # 9671406556917033397649408) by reflexivity.
    rewrite <- E. apply pow2_le. lia. }
  change (pow2 (-53)) with (1 # 9007199254740992) in HBv.
  change (pow2 (-52)) with (1 # 4503599627370496).
  lra.
Qed.

(** *** The handlers keep the crop area in the canvas *)

Section CropArea.
Import FrameSelector.

Lemma axis_of_fractions :
  forall W dx dw : float, posfin W -> posfin dx -> posfin dw ->
    pow2 (-30) <= F2Q W -> F2Q W <= 800 ->
    1 # 16 <= F2Q dx -> 9 # 16 <= F2Q dw -> F2Q dx + F2Q dw <= 1 ->
    nonneg (W * dx)%float /\ posfin (W * dw)%float
    /\ F2Q W * (1 # 2) <= F2Q (W * dw)%float
    /\ F2Q (W * dw)%float <= F2Q W
    /\ F2Q (W * dx)%float + F2Q (W * dw)%float <= F2Q W * (1 + pow2 (-52)).
Proof.
  intros W dx dw PW Pdx Pdw HW1 HW2 Hdx Hdw Hsum.
  pose proof (posfin_pos W PW) as HWpos.
  destruct (fraction_of_side W dx PW Pdx HW1 HW2 Hdx ltac:(lra))
    as (Px & _ & _).
  destruct (fraction_of_side W dw PW Pdw HW1 HW2 ltac:(lra) ltac:(lra))
    as (Pw & Hw & _ & Hwlo).
  pose proof (fractions_of_side W dx dw PW Pdx Pdw HW1 HW2 Hdx ltac:(lra) Hsum)
    as Hs.
  assert (Hd : F2Q W * (9 # 16) <= F2Q W * F2Q dw)
    by (apply Qmult_le_compat_l'; lra).
  unfold u64 in Hs, Hwlo.
  change (pow2 (-53)) with (1 # 9007199254740992) in Hs, Hwlo.
  split; [right; exact Px|]. split; [exact Pw|].
  split; [lra|]. split; [exact Hw|].
  change (pow2 (-52)) with (1 # 4503599627370496). lra.
Qed.

Lemma axis_from_zero :
  forall W dw : float, posfin W -> posfin dw ->
    pow2 (-30) <= F2Q W -> F2Q W <= 800 ->
    9 # 16 <= F2Q dw -> F2Q dw <= 1 ->
    nonneg 0%float /\ posfin (W * dw)%float
    /\ F2Q W * (1 # 2) <= F2Q (W * dw)%float
    /\ F2Q (W * dw)%float <= F2Q W
    /\ F2Q 0%float + F2Q (W * dw)%float <= F2Q W * (1 + pow2 (-52)).
Proof.
  intros W dw PW Pdw HW1 HW2 Hdw1 Hdw2.
  pose proof (posfin_pos W PW) as HWpos.
  destruct (fraction_of_side W dw PW Pdw HW1 HW2 ltac:(lra) Hdw2)
    as (Pw & Hw & _ & Hwlo).
  assert (Hd : F2Q W * (9 # 16) <= F2Q W * F2Q dw)
    by (apply Qmult_le_compat_l'; lra).
  unfold u64 in Hwlo. change (pow2 (-53)) with (1 # 9007199254740992) in Hwlo.
  split; [left; reflexivity|]. split; [exact Pw|].
  split; [lra|]. split; [exact Hw|].
  change (F2Q 0%float) with 0.
  change (pow2 (-52)) with (1 # 4503599627370496). lra.
Qed.

Lemma canvas_height_range :
  forall canvas, canvasOK canvas -> F2Q (snd canvas) <= 800.
Proof. intros canvas (_ & _ & _ & _ & _ & H). lra. Qed.

(** The constants of the presets. *)
Lemma preset_constants :
  let margin : float := FrameSelector.margin in
  let centerSize : float := FrameSelector.centerSize in
  let d4 : float := decimal 4 10 in
  let d6 : float := decimal 6 10 in
  let first : float := sub (fromZ 1) (mul (fromZ 2) FrameSelector.margin) in
  (posfin margin /\ posfin centerSize /\ posfin d4 /\ posfin d6 /\ posfin first)
  /\ (1 # 16 <= F2Q margin /\ 9 # 16 <= F2Q centerSize /\ 1 # 16 <= F2Q d4
      /\ 9 # 16 <= F2Q d6 /\ 9 # 16 <= F2Q first)
  /\ (F2Q centerSize <= 1 /\ F2Q d6 <= 1 /\ F2Q first <= 1)
  /\ (F2Q margin + F2Q centerSize <= 1 /\ F2Q margin + F2Q first <= 1
      /\ F2Q d4 + F2Q d6 <= 1).
Proof.
  cbv zeta.
  split; [repeat split; posfin_const|].
  split; [repeat split; vm_compute; discriminate|].
  split; repeat split; vm_compute; discriminate.
Qed.

Lemma cropInside_intro :
  forall (canvas : float * float) (x0 y0 w0 h0 : float),
    (nonneg x0 /\ posfin w0 /\ F2Q (fst canvas) * (1 # 2) <= F2Q w0
     /\ F2Q w0 <= F2Q (fst canvas)
     /\ F2Q x0 + F2Q w0 <= F2Q (fst canvas) * (1 + pow2 (-52))) ->
    (nonneg y0 /\ posfin h0 /\ F2Q (snd canvas) * (1 # 2) <= F2Q h0
     /\ F2Q h0 <= F2Q (snd canvas)
     /\ F2Q y0 + F2Q h0 <= F2Q (snd canvas) * (1 + pow2 (-52))) ->
    cropInside (pow2 (-52)) canvas
      {| x := x0; y := y0; width := w0; height := h0 |}.
Proof.
  intros canvas x0 y0 w0 h0 (Hx & Hw & Hwlo & Hwle & Hxs)
         (Hy & Hh & Hhlo & Hhle & Hys).
  unfold cropInside. cbn [x y width height].
  repeat split; assumption.
Qed.

Lemma handlePresetCrop_ok :
  forall canvas (r s : State float) (preset : Preset),
    canvasOK canvas -> stateOK canvas r -> stateOK canvas s ->
    stateOK canvas (FrameSelector.handlePresetCrop r preset s).
Proof.
  intros canvas r s preset Hc (Hrc & _ & _) (Hsc & Hsd & _).
  pose proof (canvas_height_range canvas Hc) as HH800.
  destruct Hc as (PW & PH & HW1 & HW2 & HH1 & HH2).
  destruct preset_constants
    as ((Pm & Pc & P4 & P6 & _) & (Lm & Lc & L4 & L6 & _)
        & (Uc & U6 & _) & (Smc & _ & S46)).
  cbv zeta in *.
  assert (Sm6 : F2Q (margin : float) + F2Q (decimal 6 10 : float) <= 1)
    by (vm_compute; discriminate).
  unfold stateOK, FrameSelector.handlePresetCrop. rewrite Hrc.
  destruct preset; unfold setCropArea;
    cbn [canvasDimensions dragStart cropArea];
    (split; [exact Hsc|]); (split; [exact Hsd|]);
    apply cropInside_intro.
  - apply (axis_of_fractions (fst canvas) margin centerSize); assumption.
  - apply (axis_of_fractions (snd canvas) margin centerSize); assumption.
  - apply (axis_of_fractions (fst canvas) margin centerSize); assumption.
  - apply (axis_from_zero (snd canvas) (decimal 6 10)); assumption.
  - apply (axis_of_fractions (fst canvas) margin centerSize); assumption.
  - apply (axis_of_fractions (snd canvas) (decimal 4 10) (decimal 6 10));
      assumption.
  - apply (axis_from_zero (fst canvas) (decimal 6 10)); assumption.
  - apply (axis_of_fractions (snd canvas) margin centerSize); assumption.
  - apply (axis_of_fractions (fst canvas) (decimal 4 10) (decimal 6 10));
      assumption.
  - apply (axis_of_fractions (snd canvas) margin centerSize); assumption.
Qed.

Lemma handleMouseMove_ok :
  forall canvas (r s : State float) (pos : float * float),
    canvasOK canvas -> stateOK canvas r -> stateOK canvas s ->
    finitePos pos = true ->
    stateOK canvas (FrameSelector.handleMouseMove r pos s).
Proof.
  intros canvas r s pos Hc (Hrc & Hrd & _) Hs Hpos.
  unfold FrameSelector.handleMouseMove.
  destruct (isDragging r); cbn [negb]; [|exact Hs].
  destruct Hs as (Hsc & Hsd & Hcrop).
  destruct Hc as (PW & PH & HW1 & HW2 & HH1 & HH2).
  destruct Hcrop as (Hx & Hy & Pw & Ph & Hwlo & Hwle & Hhlo & Hhle & Hxs & Hys).
  unfold finitePos in Hpos, Hrd.
  apply andb_prop in Hpos. destruct Hpos as [Hpx Hpy].
  apply andb_prop in Hrd. destruct Hrd as [Hdx Hdy].
  rewrite Hrc.
  unfold stateOK. cbn [canvasDimensions dragStart cropArea].
  split; [exact Hsc|]. split; [unfold finitePos; rewrite Hpx, Hpy; reflexivity|].
  apply cropInside_intro.
  - destruct (moved_coordinate (fst canvas) (width (cropArea s))
                (x (cropArea s) + (fst pos - fst (dragStart r)))%float
                PW Pw HW1 Hwle) as [Hn Hv].
    { apply add_not_nan; [apply nonneg_fin; exact Hx|].
      apply sub_not_nan; assumption. }
    split; [exact Hn|]. split; [exact Pw|]. split; [exact Hwlo|].
    split; [exact Hwle|exact Hv].
  - destruct (moved_coordinate (snd canvas) (height (cropArea s))
                (y (cropArea s) + (snd pos - snd (dragStart r)))%float
                PH Ph HH1 Hhle) as [Hn Hv].
    { apply add_not_nan; [apply nonneg_fin; exact Hy|].
      apply sub_not_nan; assumption. }
    split; [exact Hn|]. split; [exact Ph|]. split; [exact Hhlo|].
    split; [exact Hhle|exact Hv].
Qed.

Lemma handle_ok :
  forall canvas (c : FrameSelector.Component float) (e : FrameSelector.Event float),
    canvasOK canvas -> componentOK canvas c -> finiteEvent e = true ->
    componentOK canvas (FrameSelector.handle c e).
Proof.
  intros canvas c e Hc [Hcur Hren] He.
  destruct e as [pos|pos| | |preset|]; cbn [FrameSelector.handle finiteEvent] in *;
    unfold componentOK; cbn [FrameSelector.current FrameSelector.rendered];
    (split; [|try exact Hren]).
  - destruct Hcur as (H1 & _ & H3). unfold stateOK, handleMouseDown.
    cbn [canvasDimensions dragStart cropArea].
    split; [exact H1|]. split; [exact He|exact H3].
  - apply handleMouseMove_ok; assumption.
  - exact Hcur.
  - exact Hcur.
  - apply handlePresetCrop_ok; assumption.
  - exact Hcur.
  - exact Hcur.
Qed.

Lemma handleAll_ok :
  forall canvas (events : list (FrameSelector.Event float)) (c : FrameSelector.Component float),
    canvasOK canvas -> componentOK canvas c ->
    forallb finiteEvent events = true ->
    componentOK canvas (FrameSelector.handleAll events c).
Proof.
  intros canvas events. induction events as [|e events IH];
    intros c Hc Hok Hev; [exact Hok|].
  cbn [forallb] in Hev. apply andb_prop in Hev. destruct Hev as [He Hev].
  unfold FrameSelector.handleAll. cbn [fold_left]. apply IH; [exact Hc| |exact Hev].
  apply handle_ok; assumption.
Qed.

End CropArea.

(** *** The crop area of a loaded image *)

Section Loaded.
Import FrameSelector.

Lemma leb_zero_nonneg : forall f, nonneg f -> (0 <=? f)%float = true.
Proof.
  intros f [H|(m & e & H)]; rewrite FloatAxioms.leb_spec; unfold SFleb;
    rewrite H; reflexivity.
Qed.

Lemma cropInside_insideUpTo :
  forall canvas c, cropInside (pow2 (-52)) canvas c ->
    insideUpTo (pow2 (-52)) canvas c.
Proof.
  intros canvas c (Hx & Hy & Pw & Ph & _ & _ & _ & _ & Hxs & Hys).
  unfold insideUpTo.
  split; [apply nonneg_fin; exact Hx|].
  split; [apply nonneg_fin; exact Hy|].
  split; [apply nonneg_fin; right; exact Pw|].
  split; [apply nonneg_fin; right; exact Ph|].
  split; [apply leb_zero_nonneg; exact Hx|].
  split; [apply leb_zero_nonneg; exact Hy|].
  split; [apply ltb_zero_posfin; exact Pw|].
  split; [apply ltb_zero_posfin; exact Ph|].
  split; assumption.
Qed.

Lemma onload_crop :
  forall (innerWidth innerHeight imgWidth imgHeight : float) (s : State float),
    let s1 := onload innerWidth innerHeight imgWidth imgHeight s in
    cropArea s1
    = {| x := (fst (canvasDimensions s1) * margin)%float;
         y := (snd (canvasDimensions s1) * margin)%float;
         width := (fst (canvasDimensions s1)
                   * sub (fromZ 1) (mul (fromZ 2) margin))%float;
         height := (snd (canvasDimensions s1)
                    * sub (fromZ 1) (mul (fromZ 2) margin))%float |}
    /\ dragStart s1 = dragStart s.
Proof.
  intros. unfold s1, onload.
  destruct (gt (div (minN (sub innerWidth (fromZ 40)) (fromZ 800))
                  (div imgWidth imgHeight))
              (minN (sub innerHeight (fromZ 200)) (fromZ 600)));
    split; reflexivity.
Qed.

Lemma loaded_ok :
  forall (innerWidth innerHeight imgWidth imgHeight : float),
    (1 <=? Math_min (innerWidth - 40) 800)%float = true ->
    (1 <=? Math_min (innerHeight - 200) 600)%float = true ->
    (1 <=? imgWidth)%float = true -> (imgWidth <=? 0x1p30)%float = true ->
    (1 <=? imgHeight)%float = true -> (imgHeight <=? 0x1p30)%float = true ->
    let c := FrameSelector.loaded innerWidth innerHeight imgWidth imgHeight in
    canvasOK (canvasDimensions (FrameSelector.current c))
    /\ componentOK (canvasDimensions (FrameSelector.current c)) c.
Proof.
  intros innerWidth innerHeight imgWidth imgHeight Hmw Hmh Hiw1 Hiw2 Hih1 Hih2 c.
  destruct (onload_canvas innerWidth innerHeight imgWidth imgHeight
              initialState Hmw Hmh Hiw1 Hiw2 Hih1 Hih2)
    as (Pw & Ph & Hw1 & Hw2 & Hh1 & Hh2 & Hmw2 & Hmh2 & _).
  unfold c, FrameSelector.loaded. cbn [FrameSelector.current FrameSelector.rendered].
  set (s1 := onload innerWidth innerHeight imgWidth imgHeight initialState) in *.
  assert (Hc : canvasOK (canvasDimensions s1)).
  { unfold canvasOK. repeat split; try assumption; lra. }
  split; [exact Hc|].
  assert (Hs : stateOK (canvasDimensions s1) s1).
  { destruct (onload_crop innerWidth innerHeight imgWidth imgHeight
                initialState) as [Hcrop Hdrag]. fold s1 in Hcrop, Hdrag.
    unfold stateOK. split; [reflexivity|]. split; [rewrite Hdrag; reflexivity|].
    rewrite Hcrop.
    pose proof (canvas_height_range _ Hc) as HH800.
    destruct Hc as (PW & PH & HW1 & HW2 & HH1 & HH2).
    destruct preset_constants
      as ((Pm & _ & _ & _ & Pf) & (Lm & _ & _ & _ & Lf) & _ & (_ & Smf & _)).
    cbv zeta in *.
    apply cropInside_intro.
    - apply (axis_of_fractions (fst (canvasDimensions s1)) margin
               (sub (fromZ 1) (mul (fromZ 2) margin))); assumption.
    - apply (axis_of_fractions (snd (canvasDimensions s1)) margin
               (sub (fromZ 1) (mul (fromZ 2) margin))); assumption. }
  split; exact Hs.
Qed.

End Loaded.

(** *** The confirmed region *)

Section Confirm.
Import FrameSelector.

Lemma mul_nonneg :
  forall a b hi, nonneg a -> posfin b -> posfin hi ->
    F2Q a * F2Q b <= F2Q hi ->
    nonneg (a * b)%float
    /\ F2Q (a * b)%float <= F2Q a * F2Q b * (1 + u64) + pow2 (-1075).
Proof.
  intros a b hi [Ha|Ha] Hb Hhi Hle.
  - destruct Hb as (mb & eb & Hb).
    assert (Hz : Prim2SF (a * b)%float = S754_zero false).
    { rewrite FloatAxioms.mul_spec. unfold SF64mul. rewrite Ha, Hb.
      reflexivity. }
    split; [left; exact Hz|].
    unfold F2Q. rewrite Hz, Ha. cbn [SF2Q].
    pose proof (pow2_pos (-1075)). lra.
  - pose proof (mul_rounds a b Ha Hb) as Hr.
    destruct (rounds_le _ _ hi Hr Hhi Hle) as [Hfin _].
    destruct (rounds_error_any _ _ Hr Hfin) as [He _].
    split.
    + destruct Hr as (Hcl & _).
      destruct Hcl as [Hz|[Hz|(p & e & Hz)]].
      * rewrite Hz in Hfin. discriminate.
      * left. exact Hz.
      * right. exists p, e. exact Hz.
    + unfold u64. lra.
Qed.

(** One axis of the region that [handleConfirm] computes. *)
Lemma confirmed_axis :
  forall (W img x0 w0 : float), posfin W -> posfin img ->
    pow2 (-30) <= F2Q W -> F2Q W <= 800 ->
    1 <= F2Q img -> F2Q img <= 1073741824 ->
    nonneg x0 -> posfin w0 ->
    F2Q W * (1 # 2) <= F2Q w0 ->
    F2Q x0 + F2Q w0 <= F2Q W * (1 + pow2 (-52)) ->
    let scale := (img / W)%float in
    nonneg (x0 * scale)%float
    /\ posfin (w0 * scale)%float
    /\ F2Q (x0 * scale)%float + F2Q (w0 * scale)%float
       <= F2Q img * (1 + pow2 (-50)).
Proof.
  intros W img x0 w0 PW Pimg HW1 HW2 Hi1 Hi2 Hx Pw Hwlo Hsum scale.
  assert (Pm10 : posfin 0x1p-10%float) by posfin_const.
  assert (P60 : posfin 0x1p60%float) by posfin_const.
  assert (P71 : posfin 0x1p71%float) by posfin_const.
  assert (Pm2 : posfin 0x1p-2%float) by posfin_const.
  assert (Em10 : F2Q 0x1p-10%float == 1 # 1024) by reflexivity.
  assert (E60 : F2Q 0x1p60%float == 1152921504606846976) by reflexivity.
  assert (E71 : F2Q 0x1p71%float == 2361183241434822606848) by reflexivity.
  assert (Em2 : F2Q 0x1p-2%float == 1 # 4) by reflexivity.
  assert (Ep30 : pow2 (-30) == 1 # 1073741824) by reflexivity.
  rewrite Ep30 in HW1.
  change (pow2 (-52)) with (1 # 4503599627370496) in Hsum.
  pose proof (posfin_pos W PW) as HWpos.
  pose proof (posfin_pos w0 Pw) as Hwpos.
  pose proof (nonneg_ge0 x0 Hx) as Hx0.
  destruct (div_normal img W 0x1p-10%float 0x1p60%float Pimg PW Pm10 P60)
    as (Ps & Hs1 & Hs2 & _ & Hse1 & Hse2).
  { rewrite Em10. apply Qle_trans with (pow2 (-10)); [apply pow2_le; lia|].
    assert (E : pow2 (-10) == 1 # 1024) by reflexivity. rewrite E.
    apply Qle_refl. }
  { rewrite Em10. lra. }
  { rewrite E60. lra. }
  fold scale in Ps, Hs1, Hs2, Hse1, Hse2.
  rewrite Em10 in Hs1. rewrite E60 in Hs2.
  pose proof (posfin_pos scale Ps) as Hspos.
  unfold u64 in *. change (pow2 (-53)) with (1 # 9007199254740992) in *.
  set (s := F2Q scale) in *. set (X := F2Q x0) in *. set (V := F2Q w0) in *.
  set (I := F2Q img) in *. set (C := F2Q W) in *.
  (* products with the scale *)
  assert (M1 : (X + V) * s <= C * (1 + (1 # 4503599627370496)) * s)
    by (apply Qmult_le_compat_r; lra).
  assert (M2 : C * (1 # 2) * s <= V * s)
    by (apply Qmult_le_compat_r; lra).
  assert (M3 : 0 <= X * s) by (apply Qmult_le_0_compat; lra).
  assert (M4 : C * s <= 801 * 1152921504606846976).
  { apply Qle_trans with (C * 1152921504606846976).
    - apply Qmult_le_compat_l'; lra.
    - lra. }
  destruct (mul_nonneg x0 scale 0x1p71%float Hx Ps P71) as [Hxn Hxe].
  { rewrite E71. fold X s. lra. }
  destruct (mul_normal w0 scale 0x1p-2%float 0x1p71%float Pw Ps Pm2 P71)
    as (Pv & _ & _ & _ & Hve & _).
  { rewrite Em2. apply Qle_trans with (pow2 (-2)); [apply pow2_le; lia|].
    assert (E : pow2 (-2) == 1 # 4) by reflexivity. rewrite E. apply Qle_refl. }
  { rewrite Em2. fold V s. lra. }
  { rewrite E71. fold V s. lra. }
  fold X s in Hxe. fold V s in Hve.
  split; [exact Hxn|]. split; [exact Pv|].
  assert (H83 : pow2 (-1075) <= 1 # 9671406556917033397649408).
  { assert (E : pow2 (-83) == 1 # 9671406556917033397649408) by reflexivity.
    rewrite <- E. apply pow2_le. lia. }
  unfold u64 in *. change (pow2 (-53)) with (1 # 9007199254740992) in *.
  change (pow2 (-50)) with (1 # 1125899906842624).
  lra.
Qed.

Lemma handleConfirm_ok :
  forall canvas (r : State float) (imgWidth imgHeight : float),
    canvasOK canvas -> stateOK canvas r ->
    (1 <=? imgWidth)%float = true -> (imgWidth <=? 0x1p30)%float = true ->
    (1 <=? imgHeight)%float = true -> (imgHeight <=? 0x1p30)%float = true ->
    insideUpTo (pow2 (-50)) (imgWidth, imgHeight)
      (handleConfirm imgWidth imgHeight r).
Proof.
  intros canvas r imgWidth imgHeight Hc (Hrc & _ & Hcrop) Hiw1 Hiw2 Hih1 Hih2.
  assert (P1 : posfin 1%float) by posfin_const.
  assert (P30 : posfin 0x1p30%float) by posfin_const.
  assert (E1 : F2Q 1%float == 1) by reflexivity.
  assert (E30 : F2Q 0x1p30%float == 1073741824) by reflexivity.
  destruct (between_posfin 1%float 0x1p30%float imgWidth P1 P30 Hiw1 Hiw2)
    as (Piw & Hiwlo & Hiwhi).
  destruct (between_posfin 1%float 0x1p30%float imgHeight P1 P30 Hih1 Hih2)
    as (Pih & Hihlo & Hihhi).
  rewrite E1 in Hiwlo, Hihlo. rewrite E30 in Hiwhi, Hihhi.
  pose proof (canvas_height_range canvas Hc) as HH800.
  destruct Hc as (PW & PH & HW1 & HW2 & HH1 & HH2).
  destruct Hcrop as (Hx & Hy & Pw & Ph & Hwlo & _ & Hhlo & _ & Hxs & Hys).
  destruct (confirmed_axis (fst canvas) imgWidth (x (cropArea r))
              (width (cropArea r)) PW Piw HW1 HW2 Hiwlo Hiwhi Hx Pw Hwlo Hxs)
    as (X1 & X2 & X3).
  destruct (confirmed_axis (snd canvas) imgHeight (y (cropArea r))
              (height (cropArea r)) PH Pih HH1 HH800 Hihlo Hihhi Hy Ph Hhlo Hys)
    as (Y1 & Y2 & Y3).
  unfold insideUpTo, handleConfirm. rewrite Hrc.
  cbn [x y width height fst snd].
  split; [apply nonneg_fin; exact X1|].
  split; [apply nonneg_fin; exact Y1|].
  split; [apply nonneg_fin; right; exact X2|].
  split; [apply nonneg_fin; right; exact Y2|].
  split; [apply leb_zero_nonneg; exact X1|].
  split; [apply leb_zero_nonneg; exact Y1|].
  split; [apply ltb_zero_posfin; exact X2|].
  split; [apply ltb_zero_posfin; exact Y2|].
  split; assumption.
Qed.

End Confirm.

(** *** The overlay of the mask viewers *)

Section Overlay.
Local Open Scope Q_scope.

Lemma boundingBoxContainer_cases :
  forall (mediaWidth mediaHeight containerWidth containerHeight : float),
    Hover.boundingBoxContainer (mediaWidth, mediaHeight)
      (containerWidth, containerHeight)
    = if (mediaWidth / mediaHeight <? containerWidth / containerHeight)%float
      then ((containerHeight * (mediaWidth / mediaHeight))%float,
            containerHeight)
      else (containerWidth,
            (containerWidth / (mediaWidth / mediaHeight))%float).
Proof. reflexivity. Qed.

Lemma overlay_size :
  forall (mediaWidth mediaHeight containerWidth containerHeight : float),
    (1 <=? mediaWidth)%float = true -> (mediaWidth <=? 0x1p30)%float = true ->
    (1 <=? mediaHeight)%float = true -> (mediaHeight <=? 0x1p30)%float = true ->
    (1 <=? containerWidth)%float = true ->
    (containerWidth <=? 0x1p30)%float = true ->
    (1 <=? containerHeight)%float = true ->
    (containerHeight <=? 0x1p30)%float = true ->
    let box := Hover.boundingBoxContainer (mediaWidth, mediaHeight)
                 (containerWidth, containerHeight) in
    posfin (fst box) /\ posfin (snd box)
    /\ (fst box = containerWidth \/ snd box = containerHeight)
    /\ F2Q (fst box) <= F2Q containerWidth * (1 + pow2 (-51))
    /\ F2Q (snd box) <= F2Q containerHeight * (1 + pow2 (-51))
    /\ F2Q (fst box) * F2Q mediaHeight - F2Q (snd box) * F2Q mediaWidth
       <= pow2 (-51) * (F2Q (snd box) * F2Q mediaWidth)
    /\ F2Q (snd box) * F2Q mediaWidth - F2Q (fst box) * F2Q mediaHeight
       <= pow2 (-51) * (F2Q (snd box) * F2Q mediaWidth).
Proof.
  intros mediaWidth mediaHeight containerWidth containerHeight
         Hmw1 Hmw2 Hmh1 Hmh2 Hcw1 Hcw2 Hch1 Hch2 box.
  assert (P1 : posfin 1%float) by posfin_const.
  assert (P30 : posfin 0x1p30%float) by posfin_const.
  assert (Pm30 : posfin 0x1p-30%float) by posfin_const.
  assert (P60 : posfin 0x1p60%float) by posfin_const.
  assert (Pm60 : posfin 0x1p-60%float) by posfin_const.
  assert (E1 : F2Q 1%float == 1) by reflexivity.
  assert (E30 : F2Q 0x1p30%float == 1073741824) by reflexivity.
  assert (Em30 : F2Q 0x1p-30%float == 1 # 1073741824) by reflexivity.
  assert (E60 : F2Q 0x1p60%float == 1152921504606846976) by reflexivity.
  assert (Em60 : F2Q 0x1p-60%float == 1 # 1152921504606846976) by reflexivity.
  assert (Ep1022 : pow2 (-1022) <= 1 # 1152921504606846976).
  { assert (E : pow2 (-60) == 1 # 1152921504606846976) by reflexivity.
    rewrite <- E. apply pow2_le. lia. }
  destruct (between_posfin 1%float 0x1p30%float mediaWidth P1 P30 Hmw1 Hmw2)
    as (Pmw & Lmw & Umw).
  destruct (between_posfin 1%float 0x1p30%float mediaHeight P1 P30 Hmh1 Hmh2)
    as (Pmh & Lmh & Umh).
  destruct (between_posfin 1%float 0x1p30%float containerWidth P1 P30 Hcw1 Hcw2)
    as (Pcw & Lcw & Ucw).
  destruct (between_posfin 1%float 0x1p30%float containerHeight P1 P30
              Hch1 Hch2) as (Pch & Lch & Uch).
  rewrite E1 in Lmw, Lmh, Lcw, Lch. rewrite E30 in Umw, Umh, Ucw, Uch.
  set (aspectRatio := (mediaWidth / mediaHeight)%float).
  set (containerAspectRatio := (containerWidth / containerHeight)%float).
  destruct (div_normal mediaWidth mediaHeight 0x1p-30%float 0x1p30%float
              Pmw Pmh Pm30 P30)
    as (Par & Lar & Uar & _ & Ear1 & Ear2);
    [rewrite Em30; lra|rewrite Em30; lra|rewrite E30; lra|].
  destruct (div_normal containerWidth containerHeight 0x1p-30%float
              0x1p30%float Pcw Pch Pm30 P30)
    as (Pcar & Lcar & Ucar & Hcar & Ecar1 & Ecar2);
    [rewrite Em30; lra|rewrite Em30; lra|rewrite E30; lra|].
  fold aspectRatio in Par, Lar, Uar, Ear1, Ear2.
  fold containerAspectRatio in Pcar, Lcar, Ucar, Hcar, Ecar1, Ecar2.
  rewrite Em30 in Lar, Lcar. rewrite E30 in Uar, Ucar.
  pose proof (posfin_pos _ Par) as Harpos.
  pose proof (posfin_pos _ Pcar) as Hcarpos.
  unfold box. rewrite boundingBoxContainer_cases.
  fold aspectRatio containerAspectRatio.
  set (mw := F2Q mediaWidth) in *. set (mh := F2Q mediaHeight) in *.
  set (cw := F2Q containerWidth) in *. set (ch := F2Q containerHeight) in *.
  set (ar := F2Q aspectRatio) in *. set (car := F2Q containerAspectRatio) in *.
  destruct (aspectRatio <? containerAspectRatio)%float eqn:Hlt; cbn [fst snd];
    fold cw ch.
  - (* the overlay has the height of the container *)
    apply (ltb_posfin _ _ Par Pcar) in Hlt. fold ar car in Hlt.
    assert (Ht : ch * ar <= cw).
    { destruct (Qlt_le_dec cw (ch * ar)) as [Hgt|Hle]; [|exact Hle].
      exfalso.
      assert (Hq : cw / ch <= ar).
      { apply Qle_shift_div_r; [lra|]. lra. }
      destruct (rounds_le _ _ aspectRatio Hcar Par Hq) as [_ Hcontra].
      fold car ar in Hcontra. lra. }
    assert (Hlo : (1 # 1073741824) <= ch * ar).
    { apply Qle_trans with (1 * ar); [lra|].
      apply Qmult_le_compat_r; lra. }
    destruct (mul_normal containerHeight aspectRatio 0x1p-30%float
                containerWidth Pch Par Pm30 Pcw)
      as (Pw & _ & Hwhi & _ & Hw1 & Hw2);
      [rewrite Em30; lra|rewrite Em30; fold ch ar; exact Hlo
      |fold ch ar cw; exact Ht|].
    fold ch ar cw in Hwhi, Hw1, Hw2.
    set (w := F2Q (containerHeight * aspectRatio)%float) in *.
    split; [exact Pw|]. split; [exact Pch|]. split; [right; reflexivity|].
    change (pow2 (-51)) with (1 # 2251799813685248).
    split; [lra|]. split; [lra|].
    change (1 # 2251799813685248) with (pow2 (-51)).
    apply (aspect_of_product ch mw mh ar w); try assumption; lra.
  - (* the overlay has the width of the container *)
    assert (Hge : car <= ar).
    { destruct (Qlt_le_dec ar car) as [Hc|Hc]; [|exact Hc].
      apply (ltb_posfin _ _ Par Pcar) in Hc. congruence. }
    destruct (div_normal containerWidth aspectRatio 0x1p-30%float 0x1p60%float
                Pcw Par Pm30 P60)
      as (Ph & _ & _ & _ & Eh1 & Eh2);
      [rewrite Em30; lra|rewrite Em30; fold cw ar; lra
      |rewrite E60; fold cw ar; lra|].
    fold cw ar in Eh1, Eh2.
    pose proof (posfin_pos _ Ph) as Hhpos.
    set (hh := F2Q (containerWidth / aspectRatio)%float) in *.
    split; [exact Pcw|]. split; [exact Ph|]. split; [left; reflexivity|].
    assert (Hbound : hh <= ch * (1 + pow2 (-51))).
    { unfold u64 in *. change (pow2 (-53)) with (1 # 9007199254740992) in *.
      change (pow2 (-51)) with (1 # 2251799813685248).
      (* hh * ar <= cw * (1 + u) and car * ch >= cw * (1 - u) *)
      assert (A : hh * car <= hh * ar)
        by (apply Qmult_le_compat_l'; [lra|exact Hge]).
      assert (G : hh * car <= ch * (1 + (1 # 2251799813685248)) * car) by lra.
      apply Qmult_le_r in G; [exact G|exact Hcarpos]. }
    change (pow2 (-51)) with (1 # 2251799813685248) in Hbound |- *.
    split; [lra|]. split; [exact Hbound|].
    change (1 # 2251799813685248) with (pow2 (-51)).
    apply (aspect_of_quotient cw mw mh ar hh); try assumption; lra.
Qed.

End Overlay.

(* ================================================================== *)
(** ** The frame selector in binary64 *)

Section FrameSelectorTheorems.
Import FrameSelector.

(** X21 (FrameSelector, img.onload).  In binary64, for a window that
    leaves at least one pixel under the limits and an image of 1 to 2^30
    pixels a side: the canvas has a positive size, is not larger than
    min(innerWidth - 40, 800) by min(innerHeight - 200, 600), is equal to
    one of the two limits, and has the aspect ratio of the image up to
    2^-51 of it. *)
Theorem canvas_fits_the_window_with_the_aspect_of_the_image :
  forall (innerWidth innerHeight imgWidth imgHeight : float)
         (s : State float),
    let maxWidth := Math_min (innerWidth - 40) 800 in
    let maxHeight := Math_min (innerHeight - 200) 600 in
    (1 <=? maxWidth)%float = true ->
    (1 <=? maxHeight)%float = true ->
    (1 <=? imgWidth)%float = true -> (imgWidth <=? 0x1p30)%float = true ->
    (1 <=? imgHeight)%float = true -> (imgHeight <=? 0x1p30)%float = true ->
    let w := fst (canvasDimensions
                    (onload innerWidth innerHeight imgWidth imgHeight s)) in
    let h := snd (canvasDimensions
                    (onload innerWidth innerHeight imgWidth imgHeight s)) in
    (0 <? w)%float = true /\ (0 <? h)%float = true
    /\ (w <=? maxWidth)%float = true /\ (h <=? maxHeight)%float = true
    /\ (w = maxWidth \/ h = maxHeight)
    /\ F2Q w * F2Q imgHeight - F2Q h * F2Q imgWidth
       <= pow2 (-51) * (F2Q h * F2Q imgWidth)
    /\ F2Q h * F2Q imgWidth - F2Q w * F2Q imgHeight
       <= pow2 (-51) * (F2Q h * F2Q imgWidth).
Proof.
  intros innerWidth innerHeight imgWidth imgHeight s maxWidth maxHeight
         Hmw Hmh Hiw1 Hiw2 Hih1 Hih2 w h.
  destruct (onload_canvas innerWidth innerHeight imgWidth imgHeight s
              Hmw Hmh Hiw1 Hiw2 Hih1 Hih2)
    as (Pw & Ph & _ & Hw & _ & Hh & _ & _ & Hone & Ha1 & Ha2).
  fold maxWidth maxHeight w h in Pw, Ph, Hw, Hh, Hone, Ha1, Ha2.
  assert (P1 : posfin 1%float) by posfin_const.
  assert (P800 : posfin 800%float) by posfin_const.
  assert (P600 : posfin 600%float) by posfin_const.
  destruct (Math_min_bounds 1%float _ 800%float P1 P800 Hmw) as (Pmw & _).
  destruct (Math_min_bounds 1%float _ 600%float P1 P600 Hmh) as (Pmh & _).
  split; [apply ltb_zero_posfin; exact Pw|].
  split; [apply ltb_zero_posfin; exact Ph|].
  split; [apply leb_of_le; assumption|].
  split; [apply leb_of_le; assumption|].
  split; [exact Hone|]. split; assumption.
Qed.

(** X22 (FrameSelector: handleMouseDown, handleMouseMove, handleMouseUp,
    handlePresetCrop).  In binary64, after the image is loaded, whatever
    the user does on the canvas - pressing, moving and releasing the
    pointer at finite positions, leaving, choosing presets - and whenever
    React renders in between, the canvas keeps its size and the crop area
    is a rectangle of finite numbers with a positive size and a corner
    that is not negative, which overhangs the canvas by at most 2^-52 of
    its size. *)
Theorem crop_area_stays_inside_the_canvas :
  forall (innerWidth innerHeight imgWidth imgHeight : float)
         (events : list (FrameSelector.Event float)),
    (1 <=? Math_min (innerWidth - 40) 800)%float = true ->
    (1 <=? Math_min (innerHeight - 200) 600)%float = true ->
    (1 <=? imgWidth)%float = true -> (imgWidth <=? 0x1p30)%float = true ->
    (1 <=? imgHeight)%float = true -> (imgHeight <=? 0x1p30)%float = true ->
    forallb finiteEvent events = true ->
    let c0 := FrameSelector.loaded innerWidth innerHeight imgWidth imgHeight in
    let c := FrameSelector.handleAll events c0 in
    canvasDimensions (FrameSelector.current c) = canvasDimensions (FrameSelector.current c0)
    /\ insideUpTo (pow2 (-52)) (canvasDimensions (FrameSelector.current c0))
         (cropArea (FrameSelector.current c))
    /\ insideUpTo (pow2 (-52)) (canvasDimensions (FrameSelector.current c0))
         (cropArea (FrameSelector.rendered c)).
Proof.
  intros innerWidth innerHeight imgWidth imgHeight events
         Hmw Hmh Hiw1 Hiw2 Hih1 Hih2 Hev c0 c.
  destruct (loaded_ok innerWidth innerHeight imgWidth imgHeight
              Hmw Hmh Hiw1 Hiw2 Hih1 Hih2) as [Hc Hok].
  fold c0 in Hc, Hok.
  destruct (handleAll_ok _ events c0 Hc Hok Hev)
    as [(H1 & _ & H2) (_ & _ & H3)].
  fold c in H1, H2, H3.
  split; [exact H1|].
  split; apply cropInside_insideUpTo; assumption.
Qed.

(** X23 (FrameSelector: img.onload, the handlers of the canvas,
    handleConfirm).  In binary64, the source rectangle that handleConfirm
    passes to drawImage, computed from the crop area and the canvas size
    of the last render after any such use of the canvas, is a rectangle
    of finite numbers with a positive size and a corner that is not
    negative, which overhangs the image by at most 2^-50 of its size. *)
Theorem confirmed_region_lies_inside_the_image :
  forall (innerWidth innerHeight imgWidth imgHeight : float)
         (events : list (FrameSelector.Event float)),
    (1 <=? Math_min (innerWidth - 40) 800)%float = true ->
    (1 <=? Math_min (innerHeight - 200) 600)%float = true ->
    (1 <=? imgWidth)%float = true -> (imgWidth <=? 0x1p30)%float = true ->
    (1 <=? imgHeight)%float = true -> (imgHeight <=? 0x1p30)%float = true ->
    forallb finiteEvent events = true ->
    insideUpTo (pow2 (-50)) (imgWidth, imgHeight)
      (handleConfirm imgWidth imgHeight
         (FrameSelector.rendered
            (FrameSelector.handleAll events
               (FrameSelector.loaded innerWidth innerHeight imgWidth imgHeight)))).
Proof.
  intros innerWidth innerHeight imgWidth imgHeight events
         Hmw Hmh Hiw1 Hiw2 Hih1 Hih2 Hev.
  destruct (loaded_ok innerWidth innerHeight imgWidth imgHeight
              Hmw Hmh Hiw1 Hiw2 Hih1 Hih2) as [Hc Hok].
  destruct (handleAll_ok _ events _ Hc Hok Hev) as [_ Hren].
  exact (handleConfirm_ok _ _ imgWidth imgHeight Hc Hren Hiw1 Hiw2 Hih1 Hih2).
Qed.

End FrameSelectorTheorems.

Lemma canvas_fits_the_window_with_the_aspect_of_the_image_witness :
  (fst (FrameSelector.canvasDimensions Scenario.frame) <=? 800)%float = true
  /\ (snd (FrameSelector.canvasDimensions Scenario.frame) <=? 520)%float = true.
Proof.
  destruct (canvas_fits_the_window_with_the_aspect_of_the_image
              1280%float 720%float 1920%float 1440%float
              FrameSelector.initialState
              eq_refl eq_refl eq_refl eq_refl eq_refl eq_refl)
    as (_ & _ & Hw & Hh & _).
  split; [exact Hw|exact Hh].
Defined.

Lemma crop_area_stays_inside_the_canvas_witness :
  insideUpTo (pow2 (-52)) (FrameSelector.canvasDimensions Scenario.narrowFrame)
    (FrameSelector.cropArea
       (FrameSelector.current
          (FrameSelector.handleAll
             [FrameSelector.MouseDown (100, 100)%float; FrameSelector.Render;
              FrameSelector.MouseMove (300, 500)%float; FrameSelector.MouseMove (310, 520)%float;
              FrameSelector.Render; FrameSelector.PresetCrop FrameSelector.right; FrameSelector.MouseUp]
             (FrameSelector.loaded 320%float 682%float 1170%float 2532%float)))).
Proof.
  exact (proj1 (proj2
           (crop_area_stays_inside_the_canvas
              320%float 682%float 1170%float 2532%float
              [FrameSelector.MouseDown (100, 100)%float; FrameSelector.Render;
               FrameSelector.MouseMove (300, 500)%float; FrameSelector.MouseMove (310, 520)%float;
               FrameSelector.Render; FrameSelector.PresetCrop FrameSelector.right; FrameSelector.MouseUp]
              eq_refl eq_refl eq_refl eq_refl eq_refl eq_refl eq_refl))).
Defined.

Lemma confirmed_region_lies_inside_the_image_witness :
  insideUpTo (pow2 (-50)) (1000, 750)%float
    (FrameSelector.handleConfirm 1000%float 750%float
       (FrameSelector.rendered
          (FrameSelector.handleAll
             [FrameSelector.MouseDown (0, 0)%float; FrameSelector.Render;
              FrameSelector.MouseMove (2000, 2000)%float; FrameSelector.Render]
             (FrameSelector.loaded 1280%float 720%float 1000%float 750%float)))).
Proof.
  exact (confirmed_region_lies_inside_the_image
           1280%float 720%float 1000%float 750%float
           [FrameSelector.MouseDown (0, 0)%float; FrameSelector.Render;
            FrameSelector.MouseMove (2000, 2000)%float; FrameSelector.Render]
           eq_refl eq_refl eq_refl eq_refl eq_refl eq_refl eq_refl).
Defined.

(** The tolerance is needed: the preset "Rechts" exceeds a canvas of width
    222.72511848341233 by one unit in the last place; and the numbers of a
    photo of 1920 x 1440 in a window of 1280 x 720. *)
Lemma frame_of_a_photo_in_binary64 :
  FrameSelector.canvasDimensions Scenario.frame
  = (693.33333333333326, 520)%float
  /\ FrameSelector.handleConfirm 1920%float 1440%float Scenario.frame
     = {| FrameSelector.x := 192; FrameSelector.y := 144;
          FrameSelector.width := 1536; FrameSelector.height := 1152 |}%float.
Proof.
  split; reflexivity.
Qed.

Lemma right_preset_exceeds_the_canvas_in_binary64 :
  let s := FrameSelector.handlePresetCrop Scenario.narrowFrame
             FrameSelector.right Scenario.narrowFrame in
  FrameSelector.canvasDimensions s = (222.72511848341233, 482)%float
  /\ FrameSelector.x (FrameSelector.cropArea s) = 89.09004739336494%float
  /\ FrameSelector.width (FrameSelector.cropArea s) = 133.6350710900474%float
  /\ lt (fst (FrameSelector.canvasDimensions s))
        (add (FrameSelector.x (FrameSelector.cropArea s))
             (FrameSelector.width (FrameSelector.cropArea s))) = true.
Proof.
  repeat split; reflexivity.
Qed.

(* ================================================================== *)
(** ** The overlay of the mask viewers in binary64 *)

(** X24 (boundingBoxContainer of SegmentationMaskViewer and
    PhotoDisplayComponent).  In binary64, for a media and a container of
    1 to 2^30 pixels a side: the overlay has a finite positive size, has
    the width or the height of the container, is larger than the container
    by at most 2^-51 of its size in the other direction, and has the
    aspect ratio of the media up to 2^-51 of it. *)
Theorem overlay_covers_the_displayed_media :
  forall (mediaWidth mediaHeight containerWidth containerHeight : float),
    (1 <=? mediaWidth)%float = true -> (mediaWidth <=? 0x1p30)%float = true ->
    (1 <=? mediaHeight)%float = true -> (mediaHeight <=? 0x1p30)%float = true ->
    (1 <=? containerWidth)%float = true ->
    (containerWidth <=? 0x1p30)%float = true ->
    (1 <=? containerHeight)%float = true ->
    (containerHeight <=? 0x1p30)%float = true ->
    let box := Hover.boundingBoxContainer (mediaWidth, mediaHeight)
                 (containerWidth, containerHeight) in
    fin (fst box) = true /\ fin (snd box) = true
    /\ (0 <? fst box)%float = true /\ (0 <? snd box)%float = true
    /\ (fst box = containerWidth \/ snd box = containerHeight)
    /\ (F2Q (fst box) <= F2Q containerWidth * (1 + pow2 (-51)))%Q
    /\ (F2Q (snd box) <= F2Q containerHeight * (1 + pow2 (-51)))%Q
    /\ (F2Q (fst box) * F2Q mediaHeight - F2Q (snd box) * F2Q mediaWidth
        <= pow2 (-51) * (F2Q (snd box) * F2Q mediaWidth))%Q
    /\ (F2Q (snd box) * F2Q mediaWidth - F2Q (fst box) * F2Q mediaHeight
        <= pow2 (-51) * (F2Q (snd box) * F2Q mediaWidth))%Q.
Proof.
  intros mediaWidth mediaHeight containerWidth containerHeight
         Hmw1 Hmw2 Hmh1 Hmh2 Hcw1 Hcw2 Hch1 Hch2 box.
  destruct (overlay_size mediaWidth mediaHeight containerWidth containerHeight
              Hmw1 Hmw2 Hmh1 Hmh2 Hcw1 Hcw2 Hch1 Hch2)
    as (Pw & Ph & Hone & Hw & Hh & Ha1 & Ha2).
  fold box in Pw, Ph, Hone, Hw, Hh, Ha1, Ha2.
  split; [apply nonneg_fin; right; exact Pw|].
  split; [apply nonneg_fin; right; exact Ph|].
  split; [apply ltb_zero_posfin; exact Pw|].
  split; [apply ltb_zero_posfin; exact Ph|].
  split; [exact Hone|]. split; [exact Hw|]. split; [exact Hh|].
  split; assumption.
Qed.

Lemma overlay_covers_the_displayed_media_witness :
  Hover.boundingBoxContainer (4000, 600)%float (333, 844)%float
  = (333, 49.949999999999996)%float
  /\ (F2Q 333%float * F2Q 600%float
      - F2Q 49.949999999999996%float * F2Q 4000%float
      <= pow2 (-51) * (F2Q 49.949999999999996%float * F2Q 4000%float))%Q.
Proof.
  split; [reflexivity|].
  exact (proj1 (proj2 (proj2 (proj2 (proj2 (proj2 (proj2 (proj2
           (overlay_covers_the_displayed_media
              4000%float 600%float 333%float 844%float
              eq_refl eq_refl eq_refl eq_refl
              eq_refl eq_refl eq_refl eq_refl))))))))).
Defined.

Local Close Scope Q_scope.

(* ================================================================== *)
(** ** Hover in any arithmetic *)

Section HoverAnyNumber.
Context {N : Type} {HN : Number N}.

Lemma findHovered_found :
  forall (T : Type) (l : list (Hover.Dimensions N T)) (clientX clientY : N)
         (found : Hover.Dimensions N T),
    Hover.findHovered clientX clientY l = Some found ->
    In found l /\ Hover.containsPointer clientX clientY found = true.
Proof.
  intros T l clientX clientY found Hf. unfold Hover.findHovered in Hf.
  apply find_some in Hf. destruct Hf as [Hin Hc]. split; [|exact Hc].
  unfold Hover.sortBySize in Hin. apply Array_sort_In_any in Hin. exact Hin.
Qed.

Lemma findHovered_none :
  forall (T : Type) (l : list (Hover.Dimensions N T)) (clientX clientY : N),
    Hover.findHovered clientX clientY l = None <->
    (forall m, In m l -> Hover.containsPointer clientX clientY m = false).
Proof.
  intros T l clientX clientY. unfold Hover.findHovered. split.
  - intros Hf m Hin. apply (find_none _ _ Hf).
    unfold Hover.sortBySize. apply Array_sort_In_any. exact Hin.
  - intros Hnone.
    destruct (find (Hover.containsPointer clientX clientY) (Hover.sortBySize l))
      as [found|] eqn:Hf; [|reflexivity].
    apply find_some in Hf. destruct Hf as [Hin Hc].
    unfold Hover.sortBySize in Hin. apply Array_sort_In_any in Hin.
    rewrite (Hnone found Hin) in Hc. discriminate.
Qed.

End HoverAnyNumber.

(** X25 (handleSetHoveredObject and handleSetHoveredBox, any arithmetic,
    binary64 included).  The object or box that is revealed is one whose
    rectangle contains the pointer; when no rectangle contains the pointer
    nothing is revealed; a disabled viewer keeps what it showed. *)
Theorem hover_reveals_only_what_is_under_the_pointer :
  forall (N : Type) (HN : Number N) (clientX clientY : N),
    (forall (masks : list (Hover.Dimensions N (option string)))
            (previous : option string) (objectId : string),
        Hover.handleSetHoveredObject false masks clientX clientY previous
        = Some objectId ->
        exists m, In m masks
                  /\ Hover.tag m = Some objectId
                  /\ Hover.containsPointer clientX clientY m = true)
    /\ (forall (masks : list (Hover.Dimensions N (option string)))
               (previous : option string),
          (forall m, In m masks ->
                     Hover.containsPointer clientX clientY m = false) ->
          Hover.handleSetHoveredObject false masks clientX clientY previous
          = None)
    /\ (forall (masks : list (Hover.Dimensions N (option string)))
               (previous : option string),
          Hover.handleSetHoveredObject true masks clientX clientY previous
          = previous)
    /\ (forall (boxes : list (N * N * N * N)) (i : nat),
          Hover.handleSetHoveredBox boxes clientX clientY = Some i ->
          exists t l w h,
            nth_error boxes i = Some (t, l, w, h)
            /\ Hover.containsPointer clientX clientY
                 {| Hover.top := t; Hover.left := l; Hover.width := w;
                    Hover.height := h; Hover.tag := i |} = true)
    /\ (forall (boxes : list (N * N * N * N)),
          (forall m, In m (Hover.withIndex 0 boxes) ->
                     Hover.containsPointer clientX clientY m = false) ->
          Hover.handleSetHoveredBox boxes clientX clientY = None).
Proof.
  intros N HN clientX clientY. repeat split.
  - intros masks previous objectId Hh. unfold Hover.handleSetHoveredObject in Hh.
    destruct (Hover.findHovered clientX clientY masks) as [found|] eqn:Hf;
      [|discriminate].
    destruct (truthy (Hover.tag found)); [|discriminate].
    apply findHovered_found in Hf. destruct Hf as [Hin Hc].
    exists found. repeat split; assumption.
  - intros masks previous Hnone. unfold Hover.handleSetHoveredObject.
    rewrite (proj2 (findHovered_none _ masks clientX clientY) Hnone).
    reflexivity.
  - intros boxes i Hh. unfold Hover.handleSetHoveredBox in Hh.
    destruct (Hover.findHovered clientX clientY (Hover.withIndex 0 boxes))
      as [found|] eqn:Hf; [|discriminate].
    inversion Hh; subst. apply findHovered_found in Hf.
    destruct Hf as [Hin Hc].
    assert (Hnth : forall (bs : list (N * N * N * N)) (k : nat)
                          (d : Hover.Dimensions N nat),
               In d (Hover.withIndex k bs) ->
               (k <= Hover.tag d)%nat
               /\ nth_error bs (Hover.tag d - k)
                  = Some (Hover.top d, Hover.left d, Hover.width d,
                          Hover.height d)).
    { induction bs as [|[[[t l] w] h] bs IH]; intros k d Hd; [destruct Hd|].
      cbn [Hover.withIndex] in Hd. destruct Hd as [<-|Hd].
      - cbn [Hover.tag Hover.top Hover.left Hover.width Hover.height].
        rewrite Nat.sub_diag. split; [lia|reflexivity].
      - destruct (IH _ _ Hd) as [Hle Hn]. split; [lia|].
        replace (Hover.tag d - k)%nat with (S (Hover.tag d - S k))%nat by lia.
        exact Hn. }
    destruct (Hnth boxes 0%nat found Hin) as [_ Hn].
    rewrite Nat.sub_0_r in Hn.
    exists (Hover.top found), (Hover.left found), (Hover.width found),
      (Hover.height found).
    split; [exact Hn|]. destruct found. exact Hc.
  - intros boxes Hnone. unfold Hover.handleSetHoveredBox.
    rewrite (proj2 (findHovered_none _ (Hover.withIndex 0 boxes)
                      clientX clientY) Hnone).
    reflexivity.
Qed.

(* ================================================================== *)
(** ** The colours of the masks *)

(** X26 (generateMaskColors, exact arithmetic).  One colour is made for
    every index below [count]; the hues grow with the index, start at 0
    and stay below 360, so that no two masks of an image get the same
    hue. *)
Theorem mask_hues_are_distinct :
  forall (numberToString : Q -> string) (count : nat),
    List.length (Colors.generateMaskColors numberToString count) = count
    /\ (forall i : nat,
          (i < count)%nat ->
          nth_error (Colors.generateMaskColors numberToString count) i
          = Some (Colors.hsla numberToString (Colors.hue count i))
          /\ (0 <= Colors.hue (N := Q) count i)%Q
          /\ (Colors.hue (N := Q) count i < 360)%Q)
    /\ (forall i j : nat,
          (i < j)%nat ->
          (Colors.hue (N := Q) count i < Colors.hue (N := Q) count j)%Q).
Proof.
  intros numberToString count.
  assert (Hmap : forall rounds i,
             Colors.pushColors numberToString count i rounds
             = map (fun k => Colors.hsla numberToString (Colors.hue count k))
                 (seq i rounds)).
  { induction rounds as [|r IH]; intros i; [reflexivity|].
    cbn [Colors.pushColors seq map]. rewrite IH. reflexivity. }
  assert (Hhue : forall i : nat,
             (Colors.hue (N := Q) count i * (inject_Z (Z.of_nat count) + 1)
              == inject_Z (Z.of_nat i) * 360)%Q
             /\ (0 < inject_Z (Z.of_nat count) + 1)%Q).
  { intros i. unfold Colors.hue.
    change (@div Q Number_Q) with Qdiv. change (@mul Q Number_Q) with Qmult.
    change (@add Q Number_Q) with Qplus.
    change (@fromZ Q MathNumber_Q) with inject_Z.
    assert (Hc : (0 <= inject_Z (Z.of_nat count))%Q)
      by (change 0%Q with (inject_Z 0); rewrite <- Zle_Qle; lia).
    change (inject_Z 1) with 1%Q. change (inject_Z 360) with 360%Q.
    split; [field; lra|lra]. }
  assert (Hinj : forall i j : nat,
             (i < j)%nat -> (inject_Z (Z.of_nat i) < inject_Z (Z.of_nat j))%Q)
    by (intros i j Hij; rewrite <- Zlt_Qlt; lia).
  assert (Hpos : forall i : nat, (0 <= inject_Z (Z.of_nat i))%Q)
    by (intros i; change 0%Q with (inject_Z 0); rewrite <- Zle_Qle; lia).
  split; [|split].
  - unfold Colors.generateMaskColors. rewrite Hmap, length_map, length_seq.
    reflexivity.
  - intros i Hi. split; [|split].
    + unfold Colors.generateMaskColors. rewrite Hmap.
      rewrite nth_error_map, nth_error_seq.
      rewrite (proj2 (Nat.ltb_lt _ _) Hi). reflexivity.
    + destruct (Hhue i) as (He & Hc). pose proof (Hpos i). nra.
    + destruct (Hhue i) as (He & Hc).
      pose proof (Hinj i count Hi). pose proof (Hpos i). nra.
  - intros i j Hij. destruct (Hhue i) as (Hei & Hc).
    destruct (Hhue j) as (Hej & _). pose proof (Hinj i j Hij). nra.
Qed.

(* ================================================================== *)
(** ** The tint of a mask image *)

Lemma write_app :
  forall (pre : list Z) (k : nat) (v : Z) (l : list Z),
    MaskCanvas.write (List.length pre + k) v (pre ++ l)%list
    = (pre ++ MaskCanvas.write k v l)%list.
Proof.
  induction pre as [|p pre IH]; intros k v l; [reflexivity|].
  cbn [List.length Nat.add app MaskCanvas.write]. rewrite IH. reflexivity.
Qed.

Lemma write_app_0 :
  forall (pre : list Z) (v : Z) (l : list Z),
    MaskCanvas.write (List.length pre) v (pre ++ l)%list
    = (pre ++ MaskCanvas.write 0 v l)%list.
Proof.
  intros pre v l. rewrite <- (write_app pre 0 v l), Nat.add_0_r. reflexivity.
Qed.

Lemma read_app :
  forall (pre : list Z) (x : Z) (l : list Z),
    MaskCanvas.read (List.length pre) (pre ++ x :: l)%list = x.
Proof.
  intros pre x l. unfold MaskCanvas.read. rewrite app_nth2 by lia.
  rewrite Nat.sub_diag. reflexivity.
Qed.

Lemma tintFrom_pixels :
  forall (r g b : Z) (pixels : list (Z * Z * Z * Z)) (pre : list Z)
         (steps : nat),
    (List.length pixels <= steps)%nat ->
    MaskCanvas.tintFrom steps (List.length pre) (r, g, b)
      (pre ++ flat_map (fun p : Z * Z * Z * Z =>
                          let '(r0, g0, b0, a0) := p in [r0; g0; b0; a0])
                pixels)%list
    = (pre ++ flat_map (fun p : Z * Z * Z * Z =>
                          let '(r0, _, _, _) := p in [r; g; b; r0])
                pixels)%list.
Proof.
  intros r g b pixels; induction pixels as [|[[[r0 g0] b0] a0] ps IH];
    intros pre steps Hsteps.
  - cbn [flat_map]. destruct steps as [|k]; [reflexivity|].
    cbn [MaskCanvas.tintFrom]. rewrite app_nil_r, Nat.ltb_irrefl. reflexivity.
  - destruct steps as [|k]; [simpl in Hsteps; lia|].
    cbn [MaskCanvas.tintFrom flat_map app].
    replace (List.length pre
             <? List.length (pre ++ r0 :: g0 :: b0 :: a0 ::
                               flat_map (fun p : Z * Z * Z * Z =>
                                           let '(r1, g1, b1, a1) := p in
                                           [r1; g1; b1; a1]) ps))%nat
      with true
      by (symmetry; apply Nat.ltb_lt; rewrite length_app; simpl; lia).
    rewrite read_app.
    rewrite write_app, write_app_0, !write_app.
    cbn [MaskCanvas.write].
    specialize (IH (pre ++ [r; g; b; r0])%list k).
    rewrite length_app in IH. cbn [List.length] in IH.
    rewrite <- !app_assoc in IH. cbn [app] in IH.
    apply IH. simpl in Hsteps. lia.
Qed.

(** X27 (MaskCanvas and BoxMask, the loop of image.onload).  The loop
    turns every pixel of the mask image into the colour of the palette
    with the red value of the mask as opacity; the number of pixels is
    unchanged. *)
Theorem tint_keeps_the_mask_as_opacity :
  forall (r g b : Z) (pixels : list (Z * Z * Z * Z)),
    MaskCanvas.tint (r, g, b)
      (flat_map (fun p : Z * Z * Z * Z =>
                   let '(r0, g0, b0, a0) := p in [r0; g0; b0; a0]) pixels)
    = flat_map (fun p : Z * Z * Z * Z =>
                  let '(r0, _, _, _) := p in [r; g; b; r0]) pixels.
Proof.
  intros r g b pixels. unfold MaskCanvas.tint.
  apply (tintFrom_pixels r g b pixels []).
  induction pixels as [|[[[r0 g0] b0] a0] ps IH]; [simpl; lia|].
  cbn [flat_map List.length app]. lia.
Qed.

(* ================================================================== *)
(** ** What the viewer shows of the AI's pick *)

(** Wrong guesses keep the phase and both selections. *)
Lemma wrong_guesses_keep_the_pick :
  forall (wrong : list string) (s : App.State) (pick : GameObject),
    App.gameState s = USER_GUESSING ->
    App.aiSelection s = Some pick ->
    (forall objectId, In objectId wrong -> objectId <> id pick) ->
    App.gameState (Game.maskClicks wrong s) = USER_GUESSING
    /\ App.aiSelection (Game.maskClicks wrong s) = Some pick
    /\ App.userSelection (Game.maskClicks wrong s) = App.userSelection s.
Proof.
  induction wrong as [|w wrong IH]; intros s pick Hphase Hai Hwrong.
  - repeat split; assumption.
  - cbn [Game.maskClicks fold_left].
    assert (Hstep : App.gameState (App.handleMaskClick w s) = USER_GUESSING
                    /\ App.aiSelection (App.handleMaskClick w s) = Some pick
                    /\ App.userSelection (App.handleMaskClick w s)
                       = App.userSelection s).
    { unfold App.handleMaskClick.
      destruct (find_by_id (App.objects s) w) as [c|] eqn:Hfind;
        [|repeat split; assumption].
      rewrite Hphase, Hai.
      apply find_some in Hfind. destruct Hfind as [_ Hfind].
      apply String.eqb_eq in Hfind.
      destruct (String.eqb (id c) (id pick)) eqn:Heq.
      - apply String.eqb_eq in Heq. exfalso.
        apply (Hwrong w); [left; reflexivity|congruence].
      - repeat split; assumption. }
    destruct Hstep as (Hp1 & Ha1 & Hu1).
    destruct (IH (App.handleMaskClick w s) pick Hp1 Ha1) as (Hp & Ha & Hu).
    { intros objectId Hin. apply Hwrong. right. exact Hin. }
    fold (Game.maskClicks wrong (App.handleMaskClick w s)).
    repeat split; [exact Hp|exact Ha|congruence].
Qed.

(** X29 (InteractiveImageViewer, App).  In the round in which the AI
    picks, [App] hands the id of the AI's pick to the viewer as
    [selectedObjectId].  From the pick on and through every wrong guess
    of the human, whatever the pointer is over and whatever was clicked
    last, the viewer draws the polygon of the pick as the selected one
    (fill opacity 0.6, stroke "#3B82F6" of width 3) and shows its
    label. *)
Theorem ai_pick_is_drawn_as_selected :
  forall (toLowerCase : string -> string)
         (describe : GeminiService.GenerateContent -> Promise string)
         (random : nat) (outcome : GeminiService.GenerateContent)
         (description : string) (s : App.State) (pick : GameObject)
         (wrong : list string) (hoveredObject : option GameObject)
         (v : InteractiveImageViewer.ViewerState),
    App.gameState s = AI_PICKING ->
    truthy (App.image s) = true ->
    App.userSelection s = None ->
    nth_error (App.objects s) random = Some pick ->
    id pick <> "" ->
    describe outcome = Resolved description ->
    (forall objectId, In objectId wrong -> objectId <> id pick) ->
    let s1 := Game.maskClicks wrong (Game.aiPicks describe random outcome s) in
    App.gameState s1 = USER_GUESSING
    /\ App.viewerDisabled s1 = false
    /\ App.selectedObjectId s1 = Some (id pick)
    /\ InteractiveImageViewer.polygonStyle (App.getHighlightedIds toLowerCase s1) (App.selectedObjectId s1)
         hoveredObject v pick
       = {| InteractiveImageViewer.fillOpacity := 0.6;
            InteractiveImageViewer.stroke := "#3B82F6";
            InteractiveImageViewer.strokeWidth := 3 |}
    /\ InteractiveImageViewer.labelVisible (App.getHighlightedIds toLowerCase s1) (App.selectedObjectId s1)
         hoveredObject v pick
       = true.
Proof.
  intros toLowerCase describe random outcome description s pick wrong
         hoveredObject v
         Hphase Himage Huser Hnth Hid Hdesc Hwrong.
  assert (Hlen : (0 <? List.length (App.objects s))%nat = true).
  { apply Nat.ltb_lt. destruct (App.objects s); [|simpl; lia].
    destruct random; discriminate. }
  assert (Hs1 : Game.aiPicks describe random outcome s
                = App.descriptionSettled (Resolved description)
                    (App.setAiSelection (Some pick) s)).
  { unfold Game.aiPicks, App.aiPickingEffect.
    rewrite Hphase, Hlen, Himage, Hnth, Hdesc. reflexivity. }
  cbn zeta. rewrite Hs1.
  set (s0 := App.descriptionSettled (Resolved description)
               (App.setAiSelection (Some pick) s)).
  destruct (wrong_guesses_keep_the_pick wrong s0 pick eq_refl eq_refl Hwrong)
    as (Hp & Ha & Hu).
  assert (Hu0 : App.userSelection s0 = None) by exact Huser.
  rewrite Hu0 in Hu.
  assert (Hsel : App.selectedObjectId (Game.maskClicks wrong s0)
                 = Some (id pick)).
  { unfold App.selectedObjectId. rewrite Hu, Ha. reflexivity. }
  split; [exact Hp|].
  split; [unfold App.viewerDisabled; rewrite Hp; reflexivity|].
  split; [exact Hsel|].
  unfold InteractiveImageViewer.polygonStyle,
    InteractiveImageViewer.labelVisible. rewrite Hsel.
  cbn [InteractiveImageViewer.isSelected]. rewrite String.eqb_refl, !orb_true_r.
  split; reflexivity.
Qed.

Lemma ai_pick_is_drawn_as_selected_witness :
  InteractiveImageViewer.labelVisible
    (App.getHighlightedIds Scenario.toLowerCase (Game.maskClicks ["obj-0"; "obj-1"] Scenario.guessing))
    (App.selectedObjectId (Game.maskClicks ["obj-0"; "obj-1"] Scenario.guessing))
    None InteractiveImageViewer.initialViewerState Scenario.lampe
  = true.
Proof.
  assert (Hwrong : forall objectId, In objectId ["obj-0"; "obj-1"] ->
                     objectId <> id Scenario.lampe).
  { intros objectId [<-|[<-|[]]]; discriminate. }
  assert (Hid : id Scenario.lampe <> "") by discriminate.
  exact (proj2 (proj2 (proj2 (proj2
           (ai_pick_is_drawn_as_selected Scenario.toLowerCase
              (GeminiService.generateDescriptionForObject Scenario.trim) 2
              (GeminiService.Response (Some "ist hell und steht am Rand"))
              "ist hell und steht am Rand" Scenario.aiPicking Scenario.lampe
              ["obj-0"; "obj-1"] None InteractiveImageViewer.initialViewerState
              eq_refl eq_refl eq_refl eq_refl Hid eq_refl Hwrong))))).
Defined.
